(** * ReactMultiChild: the keyed child reconciler

    The development follows [src/core/ReactMultiChild.js] (the engine that
    tracks a node count per subtree) and, in module [UnitIndex], the version
    of the same file in which every child occupies exactly one output node.

    JavaScript objects are shared and mutable.  Component instances live in a
    store indexed by references; the three module-level variables
    [updateDepth], [updateQueue] and [markupQueue] are fields of the world.
    Exceptions are an outcome of a computation and keep the state reached when
    they were raised, as a JavaScript [throw] does. *)

From Stdlib Require Import ZArith List Ascii String Bool Lia Arith Sorted.
Import ListNotations.
Open Scope string_scope.
Open Scope list_scope.
Open Scope Z_scope.

(** ** Values *)

Definition ref := nat.

(** A numeric field that may hold [null]; arithmetic and comparison coerce
    [null] to 0, as JavaScript's ToNumber does.  A field that was never
    assigned ([undefined], which coerces to NaN) is outside this type: the
    stores considered here hold a number or [null] in every numeric field. *)
Definition jsnum := option Z.

Definition toNumber (v : jsnum) : Z :=
  match v with Some z => z | None => 0 end.

(** The value of a local variable that holds a number.  [Math.max] with an
    operand that converts to NaN yields NaN, and every comparison with NaN
    is false. *)
Inductive Number :=
| Num (z : Z)
| NaN.

Definition Math_max (a b : Number) : Number :=
  match a, b with
  | Num x, Num y => Num (Z.max x y)
  | _, _ => NaN
  end.

(** [a < b] *)
Definition lessThan (a : Z) (b : Number) : bool :=
  match b with
  | Num y => a <? y
  | NaN => false
  end.

(** Props are opaque to the reconciler: they are only handed through. *)
Definition Props := nat.

(** A keyed children object, in enumeration order.  A key may be bound to a
    falsy placeholder ([None]). *)
Definition ChildMap := list (string * option ref).

Fixpoint getOwn (m : ChildMap) (name : string) : option (option ref) :=
  match m with
  | [] => None
  | (k, v) :: rest => if String.eqb k name then Some v else getOwn rest name
  end.

(** [m.hasOwnProperty(name)] *)
Definition hasOwnProperty (m : ChildMap) (name : string) : bool :=
  match getOwn m name with Some _ => true | None => false end.

(** The child that [m] itself holds under [name]: the value of the own
    property, where a key that [m] does not own and a key bound to a falsy
    value both read as no child.  A read [m[name]] of a key that [m] does
    not own goes on to [Object.prototype]; see [inheritedProp] below for
    what it finds there. *)
Definition getProp (m : ChildMap) (name : string) : option ref :=
  match getOwn m name with Some v => v | None => None end.

(** The same for a possibly null object. *)
Definition getPropOpt (m : option ChildMap) (name : string) : option ref :=
  match m with Some o => getProp o name | None => None end.

(** [m[name] = v]: an existing key keeps its place, a new key goes last. *)
Fixpoint setProp (m : ChildMap) (name : string) (v : option ref) : ChildMap :=
  match m with
  | [] => [(name, v)]
  | (k, x) :: rest =>
      if String.eqb k name then (k, v) :: rest else (k, x) :: setProp rest name v
  end.

(** [delete m[name]]. *)
Definition deleteProp (m : ChildMap) (name : string) : ChildMap :=
  filter (fun kv => negb (String.eqb (fst kv) name)) m.

Definition keys (m : ChildMap) : list string := map fst m.

(** ** Update records *)

Inductive UpdateType :=
| INSERT_MARKUP
| MOVE_EXISTING
| REMOVE_NODE
| REPLACE_WITH_MARKUP
| TEXT_CONTENT.

(** Every record has the same shape; unused fields are [null].  The field
    [parentNode] is [null] in every record the reconciler builds and is left
    out. *)
Record Update := mkUpdate {
  parentID : string;
  type : UpdateType;
  markupIndex : option nat;
  textContent : option string;
  nodeCount : jsnum;
  fromIndex : jsnum;
  toIndex : jsnum
}.

(** ** Component instances *)

Record Component := mkComponent {
  constructor : nat;
  props : Props;
  _rootNodeID : string;
  _mountIndex : jsnum;
  _nodeCount : jsnum;
  _parentComponent : option ref;
  _previousSibling : option ref;
  _firstRenderedChild : option ref;
  _renderedChildren : option ChildMap;
  has_unmountComponent : bool
}.

Definition set_rootNodeID (v : string) (c : Component) : Component :=
  mkComponent (constructor c) (props c) v (_mountIndex c) (_nodeCount c)
    (_parentComponent c) (_previousSibling c) (_firstRenderedChild c)
    (_renderedChildren c) (has_unmountComponent c).

Definition set_mountIndex (v : jsnum) (c : Component) : Component :=
  mkComponent (constructor c) (props c) (_rootNodeID c) v (_nodeCount c)
    (_parentComponent c) (_previousSibling c) (_firstRenderedChild c)
    (_renderedChildren c) (has_unmountComponent c).

Definition set_nodeCount (v : jsnum) (c : Component) : Component :=
  mkComponent (constructor c) (props c) (_rootNodeID c) (_mountIndex c) v
    (_parentComponent c) (_previousSibling c) (_firstRenderedChild c)
    (_renderedChildren c) (has_unmountComponent c).

Definition set_parentComponent (v : option ref) (c : Component) : Component :=
  mkComponent (constructor c) (props c) (_rootNodeID c) (_mountIndex c)
    (_nodeCount c) v (_previousSibling c) (_firstRenderedChild c)
    (_renderedChildren c) (has_unmountComponent c).

Definition set_previousSibling (v : option ref) (c : Component) : Component :=
  mkComponent (constructor c) (props c) (_rootNodeID c) (_mountIndex c)
    (_nodeCount c) (_parentComponent c) v (_firstRenderedChild c)
    (_renderedChildren c) (has_unmountComponent c).

Definition set_firstRenderedChild (v : option ref) (c : Component) : Component :=
  mkComponent (constructor c) (props c) (_rootNodeID c) (_mountIndex c)
    (_nodeCount c) (_parentComponent c) (_previousSibling c) v
    (_renderedChildren c) (has_unmountComponent c).

Definition set_renderedChildren (v : option ChildMap) (c : Component) : Component :=
  mkComponent (constructor c) (props c) (_rootNodeID c) (_mountIndex c)
    (_nodeCount c) (_parentComponent c) (_previousSibling c)
    (_firstRenderedChild c) v (has_unmountComponent c).

(** ** The world *)

(** What the reconciler asks of its collaborators, in the order it asks.
    This trace is not program state: it records the calls so that statements
    such as "invoked exactly once" can be written down. *)
Inductive Event :=
| CallMount (child : ref) (rootID : string)
| CallReceiveProps (child : ref) (nextProps : Props)
| CallUnmount (child : ref)
| CallProcessUpdates (updates : list Update) (markup : list string).

Record World := mkWorld {
  heap : ref -> Component;
  updateDepth : Z;
  updateQueue : list Update;
  markupQueue : list string;
  trace : list Event
}.

Definition set_heap (h : ref -> Component) (w : World) : World :=
  mkWorld h (updateDepth w) (updateQueue w) (markupQueue w) (trace w).

Definition set_updateDepth (d : Z) (w : World) : World :=
  mkWorld (heap w) d (updateQueue w) (markupQueue w) (trace w).

Definition set_queues (q : list Update) (m : list string) (w : World) : World :=
  mkWorld (heap w) (updateDepth w) q m (trace w).

Definition log (e : Event) (w : World) : World :=
  mkWorld (heap w) (updateDepth w) (updateQueue w) (markupQueue w) (trace w ++ [e]).

Definition upd (h : ref -> Component) (r : ref) (c : Component) : ref -> Component :=
  fun r' => if Nat.eqb r' r then c else h r'.

(** ** Computations *)

Inductive Error :=
| InvariantViolation (format : string) (arg : option string)
| TypeError
| Raised (payload : nat).

(** [Diverges] stands for a pointer walk that has not come to an end within
    the fuel given; it is not an exception and no handler sees it. *)
Inductive Outcome (A : Type) :=
| Normal (a : A)
| Throws (e : Error)
| Diverges.
Arguments Normal {A} a.
Arguments Throws {A} e.
Arguments Diverges {A}.

Definition M (A : Type) := World -> Outcome A * World.

Definition ret {A} (a : A) : M A := fun w => (Normal a, w).

Definition bind {A B} (m : M A) (k : A -> M B) : M B :=
  fun w =>
    match m w with
    | (Normal a, w') => k a w'
    | (Throws e, w') => (Throws e, w')
    | (Diverges, w') => (Diverges, w')
    end.

Definition throw {A} (e : Error) : M A := fun w => (Throws e, w).
Definition diverge {A} : M A := fun w => (Diverges, w).
Definition get : M World := fun w => (Normal w, w).
Definition modify (f : World -> World) : M unit := fun w => (Normal tt, f w).

Declare Scope m_scope.
Delimit Scope m_scope with m.
Notation "x <- c ;; k" := (bind c (fun x => k))
  (at level 61, c at next level, right associativity) : m_scope.
Notation "c ;;; k" := (bind c (fun _ => k))
  (at level 61, right associativity) : m_scope.
Open Scope m_scope.

(** Reading and writing a component of the store. *)
Definition readComp (r : ref) : M Component := fun w => (Normal (heap w r), w).

Definition writeComp (r : ref) (f : Component -> Component) : M unit :=
  modify (fun w => set_heap (upd (heap w) r (f (heap w r))) w).

(** [invariant(cond, format, arg)]. *)
Definition invariant (cond : bool) (format : string) (arg : option string) : M unit :=
  if cond then ret tt else throw (InvariantViolation format arg).

(** A [for (name in ...)] loop over a snapshot of the keys, threading the
    loop-carried variables. *)
Fixpoint forIn {K S : Type} (ks : list K) (body : K -> S -> M S) (s : S) : M S :=
  match ks with
  | [] => ret s
  | k :: rest => s' <- body k s ;; forIn rest body s'
  end.

(** ** The update and markup queues *)

Definition enqueueMarkup (parentID : string) (markup : string) (toIndex : jsnum) : M unit :=
  modify (fun w =>
    set_queues
      (updateQueue w ++
         [mkUpdate parentID INSERT_MARKUP (Some (List.length (markupQueue w))) None None None toIndex])
      (markupQueue w ++ [markup]) w).

Definition enqueueReplaceWithMarkup (parentID : string) (markup : string) : M unit :=
  modify (fun w =>
    set_queues
      (updateQueue w ++
         [mkUpdate parentID REPLACE_WITH_MARKUP (Some (List.length (markupQueue w))) None None None None])
      (markupQueue w ++ [markup]) w).

Definition enqueueMove (parentID : string) (nodeCount fromIndex : jsnum) (toIndex : Z) : M unit :=
  modify (fun w =>
    set_queues
      (updateQueue w ++
         [mkUpdate parentID MOVE_EXISTING None None nodeCount fromIndex (Some toIndex)])
      (markupQueue w) w).

Definition enqueueRemove (parentID : string) (nodeCount fromIndex : jsnum) : M unit :=
  modify (fun w =>
    set_queues
      (updateQueue w ++
         [mkUpdate parentID REMOVE_NODE None None nodeCount fromIndex None])
      (markupQueue w) w).

Definition enqueueTextContent (parentID : string) (textContent : string) : M unit :=
  modify (fun w =>
    set_queues
      (updateQueue w ++
         [mkUpdate parentID TEXT_CONTENT None (Some textContent) None None None])
      (markupQueue w) w).

Definition clearQueue : M unit := modify (set_queues [] []).

(** ** Collaborators *)

(** The reconciler is written against these interfaces; none of them is
    defined in [ReactMultiChild.js].  The first three are the capabilities of
    a child instance (the transaction is an opaque token that is only handed
    through, so the capabilities are taken as closed over it).
    [isValidComponent] is [ReactComponent.isValidComponent], [getParentID] is
    [ReactInstanceHandles.getParentID], and the last one is
    [ReactComponent.DOMIDOperations.dangerouslyProcessChildrenUpdates], which
    applies a batch to the output tree and either returns or raises.

    The last field is the host's [Object.prototype].  A children object is a
    plain object, so a read [o[name]] of a name that [o] does not own yields
    what [Object.prototype] holds under that name: a built-in such as
    [constructor] or [toString].  [objectPrototype name] tells whether there
    is one and gives its constructor.  A built-in is truthy, it has no
    [_mountIndex] (the field reads [undefined]) and none of the capabilities
    of a child, and it is no component: [isValidComponent] rejects it.  No
    host binds the empty name there, so [o['']] is always the own value. *)
Class Collaborators := {
  mountComponent : ref -> string -> M string;
  receiveProps : ref -> Props -> M unit;
  unmountComponent : ref -> M unit;
  isValidComponent : Component -> bool;
  getParentID : string -> string;
  dangerouslyProcessChildrenUpdates : list Update -> list string -> option nat;
  objectPrototype : string -> option nat
}.

(** [curChild && newChild && curChild.constructor === newChild.constructor] *)
Definition shouldUpdateChild (h : ref -> Component) (curChild newChild : option ref) : bool :=
  match curChild, newChild with
  | Some c, Some n => Nat.eqb (constructor (h c)) (constructor (h n))
  | _, _ => false
  end.

(** [idPrefix.charAt(idPrefix.length - 1) === '.'] *)
Definition endsWithDot (idPrefix : string) : bool :=
  match String.length idPrefix with
  | O => false
  | S n =>
      match String.get n idPrefix with
      | Some c => Ascii.eqb c "."%char
      | None => false
      end
  end.

Definition entries (m : option ChildMap) : ChildMap :=
  match m with Some o => o | None => [] end.

Definition isSome {A} (o : option A) : bool :=
  match o with Some _ => true | None => false end.

Definition whenb (b : bool) (m : M unit) : M unit := if b then m else ret tt.

Section Reconciler.

Context {collab : Collaborators}.

(** [o && o[name]] where the read leaves the object: the built-in that a
    non-null [o] without own property [name] inherits from
    [Object.prototype], given by its constructor. *)
Definition inheritedProp (m : option ChildMap) (name : string) : option nat :=
  match m with
  | Some o => if hasOwnProperty o name then None else objectPrototype name
  | None => None
  end.

(** Whether [o && o[name]] is truthy. *)
Definition truthyProp (m : option ChildMap) (name : string) : bool :=
  isSome (getPropOpt m name) || isSome (inheritedProp m name).

(** Each capability call is recorded before it is made. *)
Definition child_mountComponent (child : ref) (rootID : string) : M string :=
  modify (log (CallMount child rootID)) ;;; mountComponent child rootID.

Definition child_receiveProps (child : ref) (nextProps : Props) : M unit :=
  modify (log (CallReceiveProps child nextProps)) ;;; receiveProps child nextProps.

Definition child_unmountComponent (child : ref) : M unit :=
  modify (log (CallUnmount child)) ;;; unmountComponent child.

Definition processQueue : M unit :=
  w <- get ;;
  match updateQueue w with
  | [] => ret tt
  | _ :: _ =>
      modify (log (CallProcessUpdates (updateQueue w) (markupQueue w))) ;;;
      match dangerouslyProcessChildrenUpdates (updateQueue w) (markupQueue w) with
      | Some payload => throw (Raised payload)
      | None => clearQueue
      end
  end.

(** *** mountChildren *)

Definition mountChildren (component : ref) (idPrefix : string)
    (children : option ChildMap) : M (list string) :=
  st <- forIn (entries children)
          (fun kv (st : list string * Z * option ref) =>
             let '(mountImages, index, lastChild) := st in
             match snd kv with
             | Some child =>
                 mountImage <- child_mountComponent child (String.append idPrefix (fst kv)) ;;
                 whenb (negb (isSome lastChild))
                   (writeComp component (set_firstRenderedChild (Some child))) ;;;
                 writeComp child (set_parentComponent (Some component)) ;;;
                 writeComp child (set_previousSibling lastChild) ;;;
                 c <- readComp child ;;
                 ret (mountImages ++ [mountImage], index + toNumber (_nodeCount c), Some child)
             | None => ret st
             end)
          ([], 0, None) ;;
  let '(mountImages, index, _) := st in
  writeComp component (set_renderedChildren children) ;;;
  comp <- readComp component ;;
  whenb (String.eqb (_rootNodeID comp) idPrefix)
    (writeComp component (set_nodeCount (Some index))) ;;;
  ret mountImages.

(** *** The depth guard shared by [updateTextContent] and [updateChildren]

    Both functions are the same [updateDepth++; try { body } catch (error)
    { updateDepth--; updateDepth || clearQueue(); throw error; }
    updateDepth--; updateDepth || processQueue();] around their body. *)
Definition batched (body : M unit) : M unit :=
  fun w =>
    match body (set_updateDepth (updateDepth w + 1) w) with
    | (Throws error, w1) =>
        let w2 := set_updateDepth (updateDepth w1 - 1) w1 in
        (Throws error, if updateDepth w2 =? 0 then set_queues [] [] w2 else w2)
    | (Diverges, w1) => (Diverges, w1)
    | (Normal _, w1) =>
        let w2 := set_updateDepth (updateDepth w1 - 1) w1 in
        if updateDepth w2 =? 0 then processQueue w2 else (Normal tt, w2)
    end.

(** *** updateTextContent *)

Definition setTextContent (nodeID : string) (textContent : string) : M unit :=
  enqueueTextContent nodeID textContent.

Definition childrenRemainMessage : string :=
  "ReactMultiChild: All children should be removed before updateTextContent is called; found child %s.".

Definition updateTextContent_body (component : ref) (nextContent : string) : M unit :=
  comp <- readComp component ;;
  forIn (keys (entries (_renderedChildren comp)))
    (fun name _ => invariant false childrenRemainMessage (Some name))
    tt ;;;
  comp <- readComp component ;;
  setTextContent (_rootNodeID comp) nextContent.

Definition updateTextContent (component : ref) (nextContent : string) : M unit :=
  batched (updateTextContent_body component nextContent).

(** *** Helpers of the diff *)

Definition moveChild (nodeID : string) (child : ref) (toIndex : Z) (lastIndex : Number)
    : M unit :=
  c <- readComp child ;;
  whenb (lessThan (toNumber (_mountIndex c)) lastIndex)
    (enqueueMove nodeID (_nodeCount c) (_mountIndex c) toIndex).

Definition createChild (nodeID : string) (child : ref) (mountImage : string) : M unit :=
  c <- readComp child ;;
  enqueueMarkup nodeID mountImage (_mountIndex c).

Definition removeChild (nodeID : string) (child : ref) : M unit :=
  c <- readComp child ;;
  enqueueRemove nodeID (_nodeCount c) (_mountIndex c).

(** The parameter [index] is not used by the body, as in the source. *)
Definition _mountChildByNameAtIndex (component : ref) (nodeID idPrefix : string)
    (child : ref) (name : string) (index : Z) : M unit :=
  mountImage <- child_mountComponent child (String.append idPrefix name) ;;
  writeComp child (set_parentComponent (Some component)) ;;;
  createChild nodeID child mountImage ;;;
  writeComp component
    (fun c => set_renderedChildren (Some (setProp (entries (_renderedChildren c)) name (Some child))) c).

(** [delete component._renderedChildren[name]] raises a TypeError when the
    object is [null]. *)
Definition _unmountChildByName (component : ref) (nodeID : string)
    (child : ref) (name : string) : M unit :=
  c <- readComp child ;;
  if isValidComponent c then
    removeChild nodeID child ;;;
    writeComp child (set_mountIndex None) ;;;
    writeComp child (set_parentComponent None) ;;;
    writeComp child (set_previousSibling None) ;;;
    child_unmountComponent child ;;;
    comp <- readComp component ;;
    match _renderedChildren comp with
    | Some m => writeComp component (set_renderedChildren (Some (deleteProp m name)))
    | None => throw TypeError
    end
  else ret tt.

(** *** The pointer walks

    Both walks follow [_previousSibling] and [_parentComponent] links and
    need not come to an end on a cyclic structure; they take fuel. *)

(** [while (comp._previousSibling) { comp = comp._previousSibling;
     nodeCountBefore += comp._nodeCount; }] *)
Fixpoint walkSiblings (fuel : nat) (h : ref -> Component) (comp : ref) (acc : Z)
    : option (ref * Z) :=
  match fuel with
  | O => None
  | S f =>
      match _previousSibling (h comp) with
      | Some p => walkSiblings f h p (acc + toNumber (_nodeCount (h p)))
      | None => Some (comp, acc)
      end
  end.

(** [while (comp && comp._rootNodeID !== nodeID) { ...; comp =
     comp._parentComponent; }], started at [component._firstRenderedChild]. *)
Fixpoint countNodesBefore (fuel : nat) (h : ref -> Component) (comp : option ref)
    (nodeID : string) (acc : Z) : option Z :=
  match fuel with
  | O => None
  | S f =>
      match comp with
      | None => Some acc
      | Some c =>
          if String.eqb (_rootNodeID (h c)) nodeID then Some acc
          else
            match walkSiblings f h c acc with
            | Some (c', acc') => countNodesBefore f h (_parentComponent (h c')) nodeID acc'
            | None => None
            end
      end
  end.

(** [while (ancestor && ancestor._rootNodeID !== nodeID) {
     ancestor._nodeCount += nodeCountDiff; ancestor =
     ancestor._parentComponent; }] *)
Fixpoint updateAncestors (fuel : nat) (ancestor : option ref) (nodeID : string)
    (nodeCountDiff : Z) : M unit :=
  match fuel with
  | O => diverge
  | S f =>
      match ancestor with
      | None => ret tt
      | Some a =>
          c <- readComp a ;;
          if String.eqb (_rootNodeID c) nodeID then ret tt
          else
            writeComp a (fun c => set_nodeCount (Some (toNumber (_nodeCount c) + nodeCountDiff)) c) ;;;
            c <- readComp a ;;
            updateAncestors f (_parentComponent c) nodeID nodeCountDiff
      end
  end.

(** *** _updateChildren *)

(** [prevChildren] is an alias of the object held in
    [component._renderedChildren] when the call starts.  The reconciler
    itself rebinds that field only when it is [null], so as long as the
    collaborators do not rebind it either, reading through the alias is
    reading the field, unless the alias is [null]. *)
Definition prevChildrenNow (prevIsObject : bool) (component : ref) : M (option ChildMap) :=
  comp <- readComp component ;;
  ret (if prevIsObject then _renderedChildren comp else None).

(** The top-level case, [nodeID === ''].  The two reads [prevChildren['']]
    and [nextChildren['']] yield own values: [Object.prototype] binds no
    empty name. *)
Definition replaceRootChild (component : ref) (nextChildren : option ChildMap) : M unit :=
  comp <- readComp component ;;
  match _renderedChildren comp with
  | None => throw TypeError
  | Some prevChildren =>
      let prevChild := getProp prevChildren "" in
      match nextChildren with
      | None => throw TypeError
      | Some next =>
          let nextChild := getProp next "" in
          w <- get ;;
          if shouldUpdateChild (heap w) prevChild nextChild then
            match prevChild, nextChild with
            | Some p, Some n =>
                nc <- readComp n ;;
                child_receiveProps p (props nc)
            | _, _ => throw TypeError
            end
          else
            match prevChild with
            | None => throw TypeError
            | Some p =>
                pc <- readComp p ;;
                let prevID := _rootNodeID pc in
                comp <- readComp component ;;
                let nextID := _rootNodeID comp in
                child_unmountComponent p ;;;
                match nextChild with
                | None => throw TypeError
                | Some n =>
                    markup <- child_mountComponent n nextID ;;
                    enqueueReplaceWithMarkup prevID markup ;;;
                    comp <- readComp component ;;
                    match _renderedChildren comp with
                    | Some m =>
                        writeComp component
                          (set_renderedChildren (Some (setProp m "" (Some n))))
                    | None => throw TypeError
                    end
                end
            end
      end
  end.

(** First pass: re-derive the mount index of every previous child. *)
Definition assignMountIndices (prevChildren : option ChildMap) (lastIndex : Z) : M Z :=
  forIn (entries prevChildren)
    (fun kv lastIndex =>
       match snd kv with
       | Some prevChild =>
           writeComp prevChild (set_mountIndex (Some lastIndex)) ;;;
           c <- readComp prevChild ;;
           ret (lastIndex + toNumber (_nodeCount c))
       | None => ret lastIndex
       end)
    lastIndex.

(** The loop-carried variables of the second pass. *)
Record Cursor := mkCursor {
  nextIndex : Z;
  lastIndex : Number;
  lastChild : option ref
}.

(** The end of an iteration of the second pass: [if (mountedChild) { ... }]. *)
Definition appendToChain (component : ref) (cur : Cursor) (lastIndex' : Number)
    (mountedChild : option ref) : M Cursor :=
  match mountedChild with
  | Some m =>
      whenb (negb (isSome (lastChild cur)))
        (writeComp component (set_firstRenderedChild (Some m))) ;;;
      writeComp m (set_previousSibling (lastChild cur)) ;;;
      mc <- readComp m ;;
      ret (mkCursor (nextIndex cur + toNumber (_nodeCount mc)) lastIndex' (Some m))
  | None => ret (mkCursor (nextIndex cur) lastIndex' (lastChild cur))
  end.

(** An iteration of the second pass in which [prevChildren[name]] is a
    built-in inherited from [Object.prototype], of constructor [builtin].
    If the next child has that very constructor, [shouldUpdateChild] holds
    and [prevChild.receiveProps] is not a function.  Otherwise [prevChild] is
    truthy: [Math.max(prevChild._mountIndex, lastIndex)] is NaN, and
    [_unmountChildByName] does nothing, since [isValidComponent] rejects the
    built-in. *)
Definition diffBuiltin (component : ref) (nodeID idPrefix : string) (name : string)
    (builtin : nat) (nextChild : option ref) (cur : Cursor) : M Cursor :=
  match nextChild with
  | Some n =>
      nc <- readComp n ;;
      if Nat.eqb builtin (constructor nc) then throw TypeError
      else
        _mountChildByNameAtIndex component nodeID idPrefix n name (nextIndex cur) ;;;
        appendToChain component cur NaN (Some n)
  | None => appendToChain component cur NaN None
  end.

(** One iteration of the second pass, for the entry [name: nextChild]. *)
Definition diffChild (prevIsObject : bool) (component : ref) (nodeID idPrefix : string)
    (kv : string * option ref) (cur : Cursor) : M Cursor :=
  let name := fst kv in
  let nextChild := snd kv in
  prevChildren <- prevChildrenNow prevIsObject component ;;
  match inheritedProp prevChildren name with
  | Some builtin => diffBuiltin component nodeID idPrefix name builtin nextChild cur
  | None =>
      let prevChild := getPropOpt prevChildren name in
      w <- get ;;
      r <- (if shouldUpdateChild (heap w) prevChild nextChild then
              match prevChild, nextChild with
              | Some p, Some n =>
                  pc <- readComp p ;;
                  let lastIndex' :=
                    Math_max (Num (toNumber (_mountIndex pc))) (lastIndex cur) in
                  nc <- readComp n ;;
                  child_receiveProps p (props nc) ;;;
                  moveChild nodeID p (nextIndex cur) lastIndex' ;;;
                  ret (lastIndex', Some p)
              | _, _ => throw TypeError
              end
            else
              lastIndex' <- match prevChild with
                            | Some p =>
                                pc <- readComp p ;;
                                _unmountChildByName component nodeID p name ;;;
                                ret (Math_max (Num (toNumber (_mountIndex pc)))
                                       (lastIndex cur))
                            | None => ret (lastIndex cur)
                            end ;;
              match nextChild with
              | Some n =>
                  _mountChildByNameAtIndex component nodeID idPrefix n name
                    (nextIndex cur) ;;;
                  ret (lastIndex', Some n)
              | None => ret (lastIndex', None)
              end) ;;
      let '(lastIndex', mountedChild) := r in
      appendToChain component cur lastIndex' mountedChild
  end.

Definition diffChildren (prevIsObject : bool) (component : ref) (nodeID idPrefix : string)
    (nextChildren : option ChildMap) : M Cursor :=
  forIn (entries nextChildren) (diffChild prevIsObject component nodeID idPrefix)
    (mkCursor 0 (Num 0) None).

(** Third pass: remove the children that are no longer present.  The body
    of the loop, for the key [name]: *)
Definition removeIfAbsent (prevIsObject : bool) (component : ref) (nodeID : string)
    (nextChildren : option ChildMap) (name : string) : M unit :=
  now <- prevChildrenNow prevIsObject component ;;
  match getPropOpt now name with
  | Some c =>
      whenb (negb (truthyProp nextChildren name))
        (_unmountChildByName component nodeID c name)
  | None => ret tt
  end.

Definition removeAbsent (prevIsObject : bool) (component : ref) (nodeID : string)
    (nextChildren : option ChildMap) : M unit :=
  prevChildren <- prevChildrenNow prevIsObject component ;;
  forIn (keys (entries prevChildren))
    (fun name _ => removeIfAbsent prevIsObject component nodeID nextChildren name)
    tt.

(** Update node counts for parent components. *)
Definition updateNodeCounts (fuel : nat) (component : ref) (nodeID : string)
    (nextIndex : Z) : M unit :=
  comp <- readComp component ;;
  let nodeCountDiff := nextIndex - toNumber (_nodeCount comp) in
  writeComp component
    (fun c => set_nodeCount (Some (toNumber (_nodeCount c) + nodeCountDiff)) c) ;;;
  comp <- readComp component ;;
  updateAncestors fuel (_parentComponent comp) nodeID nodeCountDiff.

Definition resolveNodeID (comp : Component) (idPrefix : string) : string :=
  if endsWithDot idPrefix then _rootNodeID comp else getParentID (_rootNodeID comp).

Definition _updateChildren (fuel : nat) (component : ref) (idPrefix : string)
    (nextChildren : option ChildMap) : M unit :=
  comp <- readComp component ;;
  let prevChildren := _renderedChildren comp in
  let nodeID := resolveNodeID comp idPrefix in
  if String.eqb nodeID "" then replaceRootChild component nextChildren
  else if negb (isSome nextChildren) && negb (isSome prevChildren) then ret tt
  else
    w <- get ;;
    match countNodesBefore fuel (heap w) (_firstRenderedChild comp) nodeID 0 with
    | None => diverge
    | Some nodeCountBefore =>
        invariant (nodeCountBefore =? 0) "y" None ;;;
        assignMountIndices prevChildren nodeCountBefore ;;;
        cur <- diffChildren (isSome prevChildren) component nodeID idPrefix nextChildren ;;
        removeAbsent (isSome prevChildren) component nodeID nextChildren ;;;
        updateNodeCounts fuel component nodeID (nextIndex cur)
    end.

Definition updateChildren (fuel : nat) (component : ref) (idPrefix : string)
    (nextChildren : option ChildMap) : M unit :=
  batched (_updateChildren fuel component idPrefix nextChildren).

(** *** unmountChildren *)

Definition unmountChildren (component : ref) : M unit :=
  comp <- readComp component ;;
  forIn (entries (_renderedChildren comp))
    (fun kv _ =>
       match snd kv with
       | Some renderedChild =>
           c <- readComp renderedChild ;;
           whenb (has_unmountComponent c)
             (writeComp renderedChild (set_mountIndex None) ;;;
              writeComp renderedChild (set_parentComponent None) ;;;
              writeComp renderedChild (set_previousSibling None) ;;;
              child_unmountComponent renderedChild)
       | None => ret tt
       end)
    tt ;;;
  writeComp component (set_renderedChildren None) ;;;
  writeComp component (set_nodeCount None).

End Reconciler.

(** ** The unit-index engine

    The other version of [ReactMultiChild.js] in the repository counts one
    output node per child: indices advance by one, the addressed node is an
    argument, and its MOVE_EXISTING and REMOVE_NODE records have no
    [nodeCount] field (read as [null] here).  The queue, [processQueue],
    [clearQueue], [shouldUpdateChild], [updateTextContent] and the depth
    guard are the same code as above. *)
Module UnitIndex.
Section Reconciler.

Context {collab : Collaborators}.

Definition enqueueMove (parentID : string) (fromIndex : jsnum) (toIndex : Z) : M unit :=
  modify (fun w =>
    set_queues
      (updateQueue w ++
         [mkUpdate parentID MOVE_EXISTING None None None fromIndex (Some toIndex)])
      (markupQueue w) w).

Definition enqueueRemove (parentID : string) (fromIndex : jsnum) : M unit :=
  modify (fun w =>
    set_queues
      (updateQueue w ++
         [mkUpdate parentID REMOVE_NODE None None None fromIndex None])
      (markupQueue w) w).

Definition mountChildren (component : ref) (nodeID idPrefix : string)
    (children : option ChildMap) : M (list string) :=
  st <- forIn (entries children)
          (fun kv (st : list string * Z) =>
             let '(mountImages, index) := st in
             match snd kv with
             | Some child =>
                 mountImage <- child_mountComponent child (String.append idPrefix (fst kv)) ;;
                 writeComp child (set_mountIndex (Some index)) ;;;
                 ret (mountImages ++ [mountImage], index + 1)
             | None => ret st
             end)
          ([], 0) ;;
  writeComp component (set_renderedChildren children) ;;;
  ret (fst st).

Definition moveChild (nodeID : string) (child : ref) (toIndex : Z) (lastIndex : Number)
    : M unit :=
  c <- readComp child ;;
  whenb (lessThan (toNumber (_mountIndex c)) lastIndex)
    (enqueueMove nodeID (_mountIndex c) toIndex).

Definition createChild (nodeID : string) (child : ref) (mountImage : string) : M unit :=
  c <- readComp child ;;
  enqueueMarkup nodeID mountImage (_mountIndex c).

Definition removeChild (nodeID : string) (child : ref) : M unit :=
  c <- readComp child ;;
  enqueueRemove nodeID (_mountIndex c).

Definition _mountChildByNameAtIndex (component : ref) (nodeID idPrefix : string)
    (child : ref) (name : string) (index : Z) : M unit :=
  mountImage <- child_mountComponent child (String.append idPrefix name) ;;
  writeComp child (set_mountIndex (Some index)) ;;;
  createChild nodeID child mountImage ;;;
  writeComp component
    (fun c => set_renderedChildren (Some (setProp (entries (_renderedChildren c)) name (Some child))) c).

Definition _unmountChildByName (component : ref) (nodeID : string)
    (child : ref) (name : string) : M unit :=
  c <- readComp child ;;
  if isValidComponent c then
    removeChild nodeID child ;;;
    writeComp child (set_mountIndex None) ;;;
    child_unmountComponent child ;;;
    comp <- readComp component ;;
    match _renderedChildren comp with
    | Some m => writeComp component (set_renderedChildren (Some (deleteProp m name)))
    | None => throw TypeError
    end
  else ret tt.

(** An iteration in which [prevChildren[name]] is a built-in inherited from
    [Object.prototype]: as in the other engine, a [TypeError] when the next
    child has the constructor of the built-in, and otherwise NaN for
    [lastIndex] and no unmounting. *)
Definition diffBuiltin (component : ref) (nodeID idPrefix : string) (name : string)
    (builtin : nat) (nextChild : option ref) (nextIndex : Z) : M (Number * Z) :=
  match nextChild with
  | Some n =>
      nc <- readComp n ;;
      if Nat.eqb builtin (constructor nc) then throw TypeError
      else
        _mountChildByNameAtIndex component nodeID idPrefix n name nextIndex ;;;
        ret (NaN, nextIndex + 1)
  | None => ret (NaN, nextIndex)
  end.

(** One iteration of the loop over [nextChildren]; the loop carries
    [(lastIndex, nextIndex)]. *)
Definition diffChild (prevIsObject : bool) (component : ref) (nodeID idPrefix : string)
    (kv : string * option ref) (st : Number * Z) : M (Number * Z) :=
  let name := fst kv in
  let nextChild := snd kv in
  let '(lastIndex, nextIndex) := st in
  prevChildren <- prevChildrenNow prevIsObject component ;;
  match inheritedProp prevChildren name with
  | Some builtin => diffBuiltin component nodeID idPrefix name builtin nextChild nextIndex
  | None =>
      let prevChild := getPropOpt prevChildren name in
      w <- get ;;
      lastIndex' <-
        (if shouldUpdateChild (heap w) prevChild nextChild then
           match prevChild, nextChild with
           | Some p, Some n =>
               moveChild nodeID p nextIndex lastIndex ;;;
               pc <- readComp p ;;
               let lastIndex' := Math_max (Num (toNumber (_mountIndex pc))) lastIndex in
               nc <- readComp n ;;
               child_receiveProps p (props nc) ;;;
               writeComp p (set_mountIndex (Some nextIndex)) ;;;
               ret lastIndex'
           | _, _ => throw TypeError
           end
         else
           lastIndex' <- match prevChild with
                         | Some p =>
                             pc <- readComp p ;;
                             _unmountChildByName component nodeID p name ;;;
                             ret (Math_max (Num (toNumber (_mountIndex pc))) lastIndex)
                         | None => ret lastIndex
                         end ;;
           match nextChild with
           | Some n =>
               _mountChildByNameAtIndex component nodeID idPrefix n name nextIndex ;;;
               ret lastIndex'
           | None => ret lastIndex'
           end) ;;
      ret (lastIndex', if isSome nextChild then nextIndex + 1 else nextIndex)
  end.

Definition removeIfAbsent (prevIsObject : bool) (component : ref) (nodeID : string)
    (nextChildren : option ChildMap) (name : string) : M unit :=
  now <- prevChildrenNow prevIsObject component ;;
  match getPropOpt now name with
  | Some c =>
      whenb (negb (truthyProp nextChildren name))
        (_unmountChildByName component nodeID c name)
  | None => ret tt
  end.

Definition removeAbsent (prevIsObject : bool) (component : ref) (nodeID : string)
    (nextChildren : option ChildMap) : M unit :=
  prevChildren <- prevChildrenNow prevIsObject component ;;
  forIn (keys (entries prevChildren))
    (fun name _ => removeIfAbsent prevIsObject component nodeID nextChildren name)
    tt.

Definition _updateChildren (component : ref) (nodeID idPrefix : string)
    (nextChildren : option ChildMap) : M unit :=
  comp <- readComp component ;;
  let prevChildren := _renderedChildren comp in
  if negb (isSome nextChildren) && negb (isSome prevChildren) then ret tt
  else
    forIn (entries nextChildren)
      (diffChild (isSome prevChildren) component nodeID idPrefix) (Num 0, 0) ;;;
    removeAbsent (isSome prevChildren) component nodeID nextChildren.

Definition updateChildren (component : ref) (nodeID idPrefix : string)
    (nextChildren : option ChildMap) : M unit :=
  batched (_updateChildren component nodeID idPrefix nextChildren).

Definition unmountChildren (component : ref) : M unit :=
  comp <- readComp component ;;
  forIn (entries (_renderedChildren comp))
    (fun kv _ =>
       match snd kv with
       | Some renderedChild =>
           c <- readComp renderedChild ;;
           whenb (has_unmountComponent c) (child_unmountComponent renderedChild)
       | None => ret tt
       end)
    tt ;;;
  writeComp component (set_renderedChildren None).

End Reconciler.
End UnitIndex.

(** ** A concrete world to run the reconciler in *)

(** Leaf children: mounting records the root id and occupies one output
    node, and the other capabilities do nothing. *)
Definition leafMount (child : ref) (rootID : string) : M string :=
  writeComp child (fun c => set_nodeCount (Some 1) (set_rootNodeID rootID c)) ;;;
  ret (String.append "<" (String.append rootID ">")).

(** An id-resolution collaborator for the concrete runs: the parent of a
    dotted id is the id without its last segment, and the parent of a
    top-level id is the empty string. *)
Fixpoint dropLastSegment (id : string) : string :=
  match id with
  | EmptyString => EmptyString
  | String c rest =>
      if existsb (Ascii.eqb ".") (list_ascii_of_string rest)
      then String c (dropLastSegment rest)
      else EmptyString
  end.

(** The properties of [Object.prototype] that ECMAScript 5 defines, all of
    them functions; [FunctionCtor] stands for their constructor. *)
Definition FunctionCtor : nat := 0.

Definition es5ObjectPrototype (name : string) : option nat :=
  if existsb (String.eqb name)
       ["constructor"; "toString"; "toLocaleString"; "valueOf"; "hasOwnProperty";
        "isPrototypeOf"; "propertyIsEnumerable"]
  then Some FunctionCtor
  else None.

#[local] Instance leaves : Collaborators := {|
  mountComponent := leafMount;
  receiveProps := fun _ _ => ret tt;
  unmountComponent := fun _ => ret tt;
  isValidComponent := fun _ => true;
  getParentID := dropLastSegment;
  dangerouslyProcessChildrenUpdates := fun _ _ => None;
  objectPrototype := es5ObjectPrototype
|}.

Definition blank (ctor : nat) : Component :=
  mkComponent ctor 0%nat "" None None None None None None true.

Definition world0 (h : ref -> Component) : World := mkWorld h 0 [] [] [].

(** ** Vocabulary of the statements *)

(** The two public entry points that open a batch. *)
Inductive Call :=
| UpdateChildren (fuel : nat) (component : ref) (idPrefix : string)
    (nextChildren : option ChildMap)
| UpdateTextContent (component : ref) (nextContent : string).

Definition isProcessUpdates (e : Event) : bool :=
  match e with CallProcessUpdates _ _ => true | _ => false end.

Definition isNil {A} (l : list A) : bool :=
  match l with [] => true | _ :: _ => false end.

(** [w'] continues the batch that [w] is in: the depth is the same, both
    queues have only grown at their end (markup never without a record), and
    the output-applying collaborator has not been called in between. *)
Definition extends (w w' : World) : Prop :=
  updateDepth w' = updateDepth w /\
  (exists q mq,
     updateQueue w' = updateQueue w ++ q /\
     markupQueue w' = markupQueue w ++ mq /\
     (q = [] -> mq = [])) /\
  (exists evs,
     trace w' = trace w ++ evs /\
     forallb (fun e => negb (isProcessUpdates e)) evs = true).

(** A computation that, run inside a batch, continues it whenever it comes
    to an end (normally or by raising). *)
Definition in_batch {A} (m : M A) : Prop :=
  forall w r w', 0 < updateDepth w -> m w = (r, w') -> r <> Diverges -> extends w w'.

(** A computation that touches neither queue nor the trace. *)
Definition silent {A} (m : M A) : Prop :=
  forall w,
    updateQueue (snd (m w)) = updateQueue w /\
    markupQueue (snd (m w)) = markupQueue w /\
    trace (snd (m w)) = trace w.

Section Entry.
Context {collab : Collaborators}.

Definition body (c : Call) : M unit :=
  match c with
  | UpdateChildren fuel component idPrefix nextChildren =>
      _updateChildren fuel component idPrefix nextChildren
  | UpdateTextContent component nextContent =>
      updateTextContent_body component nextContent
  end.

Definition run (c : Call) : M unit :=
  match c with
  | UpdateChildren fuel component idPrefix nextChildren =>
      updateChildren fuel component idPrefix nextChildren
  | UpdateTextContent component nextContent =>
      updateTextContent component nextContent
  end.

(** The capabilities of the children continue the batch they are called in. *)
Definition capabilities_in_batch : Prop :=
  (forall c rootID, in_batch (mountComponent c rootID)) /\
  (forall c p, in_batch (receiveProps c p)) /\
  (forall c, in_batch (unmountComponent c)).

End Entry.

(** What a flush hands to the output-applying collaborator. *)
Definition flushEvents (q : list Update) (mq : list string) : list Event :=
  if isNil q then [] else [CallProcessUpdates q mq].

Definition countProcessUpdates (t : list Event) : nat :=
  List.length (filter isProcessUpdates t).

(** The store after [mountedChild] has been appended to the new sibling
    chain of [component]. *)
Definition linked (component m : ref) (lastChild : option ref)
    (h : ref -> Component) : ref -> Component :=
  let h1 :=
    if isSome lastChild then h
    else upd h component (set_firstRenderedChild (Some m) (h component)) in
  upd h1 m (set_previousSibling lastChild (h1 m)).

(** Two stores that agree on everything but the links of the sibling chain. *)
Definition same_but_chain (h h' : ref -> Component) : Prop :=
  forall r,
    constructor (h' r) = constructor (h r) /\
    props (h' r) = props (h r) /\
    _rootNodeID (h' r) = _rootNodeID (h r) /\
    _mountIndex (h' r) = _mountIndex (h r) /\
    _nodeCount (h' r) = _nodeCount (h r) /\
    _parentComponent (h' r) = _parentComponent (h r) /\
    _renderedChildren (h' r) = _renderedChildren (h r) /\
    has_unmountComponent (h' r) = has_unmountComponent (h r).

(** The previous children a, b, c of the spec's example, one node each, under
    the node [.r]; the instances 4, 5, 6 are the next descriptors. *)
Definition abcHeap : ref -> Component := fun r =>
  match r with
  | 0%nat => mkComponent 1 0%nat ".r" None (Some 3) None None (Some 1%nat)
               (Some [("a", Some 1%nat); ("b", Some 2%nat); ("c", Some 3%nat)]) true
  | 1%nat => mkComponent 7 0%nat ".r.a" None (Some 1) (Some 0%nat) None None None true
  | 2%nat => mkComponent 7 0%nat ".r.b" None (Some 1) (Some 0%nat) (Some 1%nat) None None true
  | 3%nat => mkComponent 7 0%nat ".r.c" None (Some 1) (Some 0%nat) (Some 2%nat) None None true
  | _ => blank 7
  end.

Definition cab : ChildMap := [("c", Some 6%nat); ("a", Some 4%nat); ("b", Some 5%nat)].

(** The same next children after a key that [Object.prototype] binds. *)
Definition protoCab : ChildMap := ("constructor", Some 7%nat) :: cab.

Definition highWaterMark (positions : list Z) : Z := fold_left Z.max positions 0.

(** The ancestors reached by following [_parentComponent] from [ancestor],
    up to but not including the first one whose root id is [nodeID]: the
    components strictly below the owner of the addressed node. *)
Fixpoint ancestorsBelow (fuel : nat) (h : ref -> Component) (ancestor : option ref)
    (nodeID : string) : option (list ref) :=
  match fuel with
  | O => None
  | S f =>
      match ancestor with
      | None => Some []
      | Some a =>
          if String.eqb (_rootNodeID (h a)) nodeID then Some []
          else
            match ancestorsBelow f h (_parentComponent (h a)) nodeID with
            | Some l => Some (a :: l)
            | None => None
            end
      end
  end.

Definition addNodeCount (d : Z) (c : Component) : Component :=
  set_nodeCount (Some (toNumber (_nodeCount c) + d)) c.

Definition sumZ (l : list Z) : Z := fold_left Z.add l 0.

Section Replay.
Context {collab : Collaborators}.

(** The previous child that the second pass finds under a key, in the state
    in which the key is processed. *)
Definition prevChildAt (prevIsObject : bool) (component : ref) (name : string)
    (w : World) : option ref :=
  getPropOpt (if prevIsObject then _renderedChildren (heap w component) else None) name.

(** The previous positions consumed while the second pass works through
    [es], each read when its key is processed. *)
Fixpoint consumedPositions (prevIsObject : bool) (component : ref)
    (nodeID idPrefix : string) (es : ChildMap) (cur : Cursor) (w : World) : list Z :=
  match es with
  | [] => []
  | kv :: rest =>
      match prevChildAt prevIsObject component (fst kv) w with
      | Some p => [toNumber (_mountIndex (heap w p))]
      | None => []
      end ++
      match diffChild prevIsObject component nodeID idPrefix kv cur w with
      | (Normal cur1, w1) =>
          consumedPositions prevIsObject component nodeID idPrefix rest cur1 w1
      | _ => []
      end
  end.

(** The keys for which the second pass, working through [es], finds a
    built-in of [Object.prototype] where it looks for a previous child, each
    looked up when its key is processed. *)
Fixpoint builtinsFound (prevIsObject : bool) (component : ref)
    (nodeID idPrefix : string) (es : ChildMap) (cur : Cursor) (w : World) : list string :=
  match es with
  | [] => []
  | kv :: rest =>
      match inheritedProp
              (if prevIsObject then _renderedChildren (heap w component) else None)
              (fst kv) with
      | Some _ => [fst kv]
      | None => []
      end ++
      match diffChild prevIsObject component nodeID idPrefix kv cur w with
      | (Normal cur1, w1) =>
          builtinsFound prevIsObject component nodeID idPrefix rest cur1 w1
      | _ => []
      end
  end.

(** The node counts by which the second pass advances [nextIndex] while it
    works through [es]: that of each resulting child, read when the child is
    appended to the new sibling chain. *)
Fixpoint resultingNodeCounts (prevIsObject : bool) (component : ref)
    (nodeID idPrefix : string) (es : ChildMap) (cur : Cursor) (w : World) : list Z :=
  match es with
  | [] => []
  | kv :: rest =>
      match diffChild prevIsObject component nodeID idPrefix kv cur w with
      | (Normal cur1, w1) =>
          match snd kv, lastChild cur1 with
          | Some _, Some m => [toNumber (_nodeCount (heap w1 m))]
          | _, _ => []
          end ++
          resultingNodeCounts prevIsObject component nodeID idPrefix rest cur1 w1
      | _ => []
      end
  end.

(** What the last step of the general case leaves behind, with [cur] the
    cursor at the end of the second pass, [w3] the state before the node
    counts are updated and [below] the ancestors strictly below the owner of
    the addressed node. *)
Definition nodeCountsPropagated (fuel : nat) (component : ref) (idPrefix : string)
    (nextChildren : option ChildMap) (w w' : World) : Prop :=
  let comp := heap w component in
  let nodeID := resolveNodeID comp idPrefix in
  let prevIsObject := isSome (_renderedChildren comp) in
  exists total w1 cur w2 w3 below,
    assignMountIndices (_renderedChildren comp) 0 w = (Normal total, w1) /\
    diffChildren prevIsObject component nodeID idPrefix nextChildren w1
      = (Normal cur, w2) /\
    removeAbsent prevIsObject component nodeID nextChildren w2 = (Normal tt, w3) /\
    nextIndex cur =
      sumZ (resultingNodeCounts prevIsObject component nodeID idPrefix
              (entries nextChildren) (mkCursor 0 (Num 0) None) w1) /\
    ancestorsBelow fuel (heap w3) (_parentComponent (heap w3 component)) nodeID
      = Some below /\
    heap w' component = set_nodeCount (Some (nextIndex cur)) (heap w3 component) /\
    (forall a, In a below ->
       a <> component /\
       String.eqb (_rootNodeID (heap w3 a)) nodeID = false /\
       heap w' a =
         addNodeCount (nextIndex cur - toNumber (_nodeCount (heap w3 component)))
           (heap w3 a)) /\
    (forall r, r <> component -> ~ In r below -> heap w' r = heap w3 r).

End Replay.


(** The children of a keyed object that are there (not falsy), in
    enumeration order. *)
Fixpoint childRefs (m : ChildMap) : list ref :=
  match m with
  | [] => []
  | (_, Some c) :: rest => c :: childRefs rest
  | (_, None) :: rest => childRefs rest
  end.

(** The running total of the node counts of the preceding siblings, for
    each child in enumeration order, starting from [start]. *)
Fixpoint prefixSums (h : ref -> Component) (children : list ref) (start : Z)
    : list (ref * Z) :=
  match children with
  | [] => []
  | c :: rest => (c, start) :: prefixSums h rest (start + toNumber (_nodeCount (h c)))
  end.

(** "The mount index of each child is the running total of the node counts
    of its preceding siblings." *)
Definition mountIndicesArePrefixSums (h : ref -> Component) (m : ChildMap) : Prop :=
  forall c s, In (c, s) (prefixSums h (childRefs m) 0) -> _mountIndex (h c) = Some s.

(** The mount indices that a store holds. *)
Definition mountIndices (w : World) : ref -> jsnum :=
  fun r => _mountIndex (heap w r).

(** A relation between the mount indices before and after, read on the
    states. *)
Definition onMountIndices (Q : (ref -> jsnum) -> (ref -> jsnum) -> Prop)
    (w w' : World) : Prop :=
  Q (mountIndices w) (mountIndices w').

(** The mount indices [f] once that of the child [c] has been set to
    [null]. *)
Definition cleared (f : ref -> jsnum) (c : ref) : ref -> jsnum :=
  fun x => if Nat.eqb x c then None else f x.

(** Mount indices that are all as they were. *)
Definition unchanged (f g : ref -> jsnum) : Prop := forall x, g x = f x.

(** Mount indices each of which is as it was or has been set to [null]. *)
Definition keptOrCleared (f g : ref -> jsnum) : Prop :=
  forall x, g x = f x \/ g x = None.

(** A parent [.r] without children yet, and fresh instances. *)
Definition emptyParent (children : option ChildMap) : ref -> Component := fun r =>
  match r with
  | 0%nat => mkComponent 1 0%nat ".r" None (Some 0) None None None children true
  | _ => blank 7
  end.

Definition ab : ChildMap := [("a", Some 1%nat); ("b", Some 2%nat)].

(** Previous children a and x under [.r], one node each; the next
    descriptor for x (5) has another constructor than the previous child (2),
    and whatever mount index [v] it was left with. *)
Definition mismatchHeap (v : jsnum) : ref -> Component := fun r =>
  match r with
  | 0%nat => mkComponent 1 0%nat ".r" None (Some 2) None None (Some 1%nat)
               (Some [("a", Some 1%nat); ("x", Some 2%nat)]) true
  | 1%nat => mkComponent 7 0%nat ".r.a" (Some 0) (Some 1) (Some 0%nat) None None None true
  | 2%nat => mkComponent 7 0%nat ".r.x" (Some 1) (Some 1) (Some 0%nat) (Some 1%nat) None None true
  | 4%nat => mkComponent 7 0%nat "" v (Some 1) None None None None true
  | _ => mkComponent 8 0%nat "" v (Some 1) None None None None true
  end.

Definition ax : ChildMap := [("a", Some 4%nat); ("x", Some 5%nat)].

(** A previous child a at position 0 under [.r], and next descriptors 4, 5,
    6 of one node each whose mount index is [v] before they are mounted. *)
Definition growHeap (v : jsnum) : ref -> Component := fun r =>
  match r with
  | 0%nat => mkComponent 1 0%nat ".r" None (Some 1) None None (Some 1%nat)
               (Some [("a", Some 1%nat)]) true
  | 1%nat => mkComponent 7 0%nat ".r.a" (Some 0) (Some 1) (Some 0%nat) None None None true
  | _ => mkComponent 7 0%nat "" v (Some 1) None None None None true
  end.

Definition abc' : ChildMap := [("a", Some 4%nat); ("b", Some 5%nat); ("c", Some 6%nat)].

(** What the two engines are compared on: type and indices of a record. *)
Definition shape (u : Update) : UpdateType * jsnum * jsnum :=
  (type u, fromIndex u, toIndex u).

(** A node [.r.d] that owns the node it addresses, under a parent [.r]. *)
Definition ownerHeap : ref -> Component := fun r =>
  match r with
  | 0%nat => mkComponent 1 0%nat ".r" None (Some 1) None None (Some 1%nat)
               (Some [("d", Some 1%nat)]) true
  | 1%nat => mkComponent 2 0%nat ".r.d" None (Some 1) (Some 0%nat) None (Some 2%nat)
               (Some [("a", Some 2%nat)]) true
  | 2%nat => mkComponent 7 0%nat ".r.d.a" None (Some 1) (Some 1%nat) None None None true
  | _ => blank 7
  end.

(** A computation all of whose runs are related by [R], however they end. *)
Definition preserves (R : World -> World -> Prop) {A} (m : M A) : Prop :=
  forall w r w', m w = (r, w') -> R w w'.

(** The capability calls made on the child [p]. *)
Definition about (p : ref) (e : Event) : bool :=
  match e with
  | CallMount c _ | CallReceiveProps c _ | CallUnmount c => Nat.eqb c p
  | CallProcessUpdates _ _ => false
  end.

Definition renderedChild (w : World) (component : ref) (name : string) : option ref :=
  getPropOpt (_renderedChildren (heap w component)) name.

(** [w'] comes after [w] and nothing was asked of [p] in between. *)
Definition nothing_about (p : ref) (w w' : World) : Prop :=
  exists evs, trace w' = trace w ++ evs /\ filter (about p) evs = [].

(** What a capability is taken to respect, seen from the parent [component]
    and its child [p]: it does not rebind or edit the parent's rendered
    children, changes no constructor, and does not itself mount, update or
    unmount [p]. *)
Definition quiet_about (component p : ref) (w w' : World) : Prop :=
  _renderedChildren (heap w' component) = _renderedChildren (heap w component) /\
  (forall x, constructor (heap w' x) = constructor (heap w x)) /\
  nothing_about p w w'.

(** What the work on the key [k] respects: the other keys of the parent's
    rendered children, the absence of [p] under [k], the constructors, and
    [p] itself. *)
Definition undisturbed (component p : ref) (k : string) (w w' : World) : Prop :=
  (forall j, j <> k -> renderedChild w' component j = renderedChild w component j) /\
  (renderedChild w component k <> Some p -> renderedChild w' component k <> Some p) /\
  (forall x, constructor (heap w' x) = constructor (heap w x)) /\
  nothing_about p w w'.

Section Discretion.
Context {collab : Collaborators}.

Definition capabilities_quiet_about (component p : ref) : Prop :=
  (forall c rootID, preserves (quiet_about component p) (mountComponent c rootID)) /\
  (forall c nextProps, preserves (quiet_about component p) (receiveProps c nextProps)) /\
  (forall c, preserves (quiet_about component p) (unmountComponent c)).

End Discretion.

(** The state in which [_unmountChildByName] calls the child's
    [unmountComponent]: the REMOVE_NODE record is enqueued and the child's
    position and links are unset. *)
Definition unmounting (nodeID : string) (child : ref) (w : World) : World :=
  let c := heap w child in
  let w1 :=
    set_queues
      (updateQueue w ++
         [mkUpdate nodeID REMOVE_NODE None None (_nodeCount c) (_mountIndex c) None])
      (markupQueue w) w in
  let h1 := upd (heap w1) child (set_mountIndex None (heap w1 child)) in
  let h2 := upd h1 child (set_parentComponent None (h1 child)) in
  let h3 := upd h2 child (set_previousSibling None (h2 child)) in
  log (CallUnmount child) (set_heap h3 w1).

(** The state in which [_mountChildByNameAtIndex] calls the child's
    [mountComponent], after the key [name] has been deleted. *)
Definition mounting (component : ref) (idPrefix name : string) (child : ref)
    (m : ChildMap) (w : World) : World :=
  log (CallMount child (String.append idPrefix name))
      (set_heap
         (upd (heap w) component
            (set_renderedChildren (Some (deleteProp m name)) (heap w component)))
         w).

(** Children that answer [receiveProps] according to the props they are
    handed: 0 does nothing, 1 diffs the child's own children (which are
    leaves) against the single child y, anything else raises. *)
Definition compositeReceiveProps (child : ref) (nextProps : Props) : M unit :=
  match nextProps with
  | 0%nat => ret tt
  | 1%nat =>
      comp <- readComp child ;;
      @updateChildren leaves 10 child (String.append (_rootNodeID comp) ".")
        (Some [("y", Some 8%nat)])
  | _ => throw (Raised 42)
  end.

#[local] Instance composites : Collaborators := {|
  mountComponent := leafMount;
  receiveProps := compositeReceiveProps;
  unmountComponent := fun _ => ret tt;
  isValidComponent := fun _ => true;
  getParentID := dropLastSegment;
  dangerouslyProcessChildrenUpdates := fun _ _ => None;
  objectPrototype := es5ObjectPrototype
|}.

(** Under [.r] the children a and b; a has a child x of its own.  The next
    descriptors 4, 5 and 6 carry the props 1, 0 and 2. *)
Definition nestedHeap : ref -> Component := fun r =>
  match r with
  | 0%nat => mkComponent 1 0%nat ".r" None (Some 2) None None (Some 1%nat)
               (Some [("a", Some 1%nat); ("b", Some 2%nat)]) true
  | 1%nat => mkComponent 7 0%nat ".r.a" None (Some 1) (Some 0%nat) None (Some 7%nat)
               (Some [("x", Some 7%nat)]) true
  | 2%nat => mkComponent 7 0%nat ".r.b" None (Some 1) (Some 0%nat) (Some 1%nat) None None true
  | 7%nat => mkComponent 9 0%nat ".r.a.x" None (Some 1) (Some 1%nat) None None None true
  | 4%nat => mkComponent 7 1%nat "" None None None None None None true
  | 5%nat => mkComponent 7 0%nat "" None None None None None None true
  | 6%nat => mkComponent 7 2%nat "" None None None None None None true
  | _ => blank 9
  end.

Definition nestedCall : Call :=
  UpdateChildren 10 0%nat ".r." (Some [("b", Some 5%nat); ("a", Some 4%nat)]).

Definition failingCall : Call :=
  UpdateChildren 10 0%nat ".r." (Some [("a", Some 4%nat); ("b", Some 6%nat)]).

(** A top-level component [.r] whose only child sits under the empty key. *)
Definition rootHeap (nextCtor : nat) : ref -> Component := fun r =>
  match r with
  | 0%nat => mkComponent 1 0%nat ".r" None (Some 1) None None (Some 1%nat)
               (Some [("", Some 1%nat)]) true
  | 1%nat => mkComponent 7 0%nat ".r" None (Some 1) (Some 0%nat) None None None true
  | _ => mkComponent nextCtor 5%nat "" None None None None None None true
  end.

(** A fragment [.r.kc] inside a fragment [.r.k] inside the node [.r]. *)
Definition fragmentHeap : ref -> Component := fun r =>
  match r with
  | 0%nat => mkComponent 1 0%nat ".r" None (Some 1) None None (Some 1%nat)
               (Some [("k", Some 1%nat)]) true
  | 1%nat => mkComponent 2 0%nat ".r.k" None (Some 2) (Some 0%nat) None (Some 2%nat)
               (Some [("c", Some 2%nat)]) true
  | 2%nat => mkComponent 3 0%nat ".r.kc" None (Some 1) (Some 1%nat) None (Some 3%nat)
               (Some [("x", Some 3%nat)]) true
  | 3%nat => mkComponent 7 0%nat ".r.kcx" None (Some 1) (Some 2%nat) None None None true
  | _ => blank 7
  end.

Definition xy : ChildMap := [("x", Some 5%nat); ("y", Some 6%nat)].

Definition ab' : ChildMap := [("a", Some 4%nat); ("b", Some 5%nat)].

(** ** Vocabulary of the further properties *)

(** The markup indices carried by the records of a queue, in queue order. *)
Fixpoint markupIndices (q : list Update) : list nat :=
  match q with
  | [] => []
  | u :: rest =>
      match markupIndex u with
      | Some i => i :: markupIndices rest
      | None => markupIndices rest
      end
  end.

(** The two queues fit: the records that carry markup refer to the entries
    of the markup queue one after the other, none twice and none left over. *)
Definition coherent (w : World) : Prop :=
  markupIndices (updateQueue w) = seq 0 (List.length (markupQueue w)).

Definition keeps_coherent (w w' : World) : Prop := coherent w -> coherent w'.

(** Neither queue nor the depth counter has changed. *)
Definition queues_kept (w w' : World) : Prop :=
  updateQueue w' = updateQueue w /\
  markupQueue w' = markupQueue w /\
  updateDepth w' = updateDepth w.

Section Capabilities.
Context {collab : Collaborators}.

(** All runs of the three capabilities of a child are related by [R]. *)
Definition capabilities_preserve (R : World -> World -> Prop) : Prop :=
  (forall c rootID, preserves R (mountComponent c rootID)) /\
  (forall c nextProps, preserves R (receiveProps c nextProps)) /\
  (forall c, preserves R (unmountComponent c)).

End Capabilities.

(** Leaf children over an output tree that refuses every batch. *)
#[local] Instance refusing : Collaborators := {|
  mountComponent := leafMount;
  receiveProps := fun _ _ => ret tt;
  unmountComponent := fun _ => ret tt;
  isValidComponent := fun _ => true;
  getParentID := dropLastSegment;
  dangerouslyProcessChildrenUpdates := fun _ _ => Some 13%nat;
  objectPrototype := es5ObjectPrototype
|}.

(** Under the node [.r] a leaf a followed by a fragment k with one child x
    of its own; 5 is a next descriptor for x. *)
Definition siblingHeap : ref -> Component := fun r =>
  match r with
  | 0%nat => mkComponent 1 0%nat ".r" None (Some 2) None None (Some 1%nat)
               (Some [("a", Some 1%nat); ("k", Some 2%nat)]) true
  | 1%nat => mkComponent 7 0%nat ".r.a" None (Some 1) (Some 0%nat) None None None true
  | 2%nat => mkComponent 2 0%nat ".r.k" None (Some 1) (Some 0%nat) (Some 1%nat) (Some 3%nat)
               (Some [("x", Some 3%nat)]) true
  | 3%nat => mkComponent 7 0%nat ".r.kx" None (Some 1) (Some 2%nat) None None None true
  | _ => blank 7
  end.

(** A call on the child [c] leaves the other members of [S] as they are. *)
Definition keeps_others (S : list ref) (c : ref) (w w' : World) : Prop :=
  forall x, In x S -> x <> c -> heap w' x = heap w x.

(** The links of the sibling chain of [component] over the children [l],
    the first of which comes after [prev]. *)
Fixpoint chained (h : ref -> Component) (component : ref) (prev : option ref)
    (l : list ref) : Prop :=
  match l with
  | [] => True
  | c :: rest =>
      _parentComponent (h c) = Some component /\
      _previousSibling (h c) = prev /\
      chained h component (Some c) rest
  end.

(** The node counts of the children [l] in the store [h]. *)
Definition nodeCounts (h : ref -> Component) (l : list ref) : list Z :=
  map (fun c => toNumber (_nodeCount (h c))) l.

(** The records of a queue that are addressed to the node [nodeID]. *)
Definition recordsFor (nodeID : string) (q : list Update) : list Update :=
  filter (fun u => String.eqb (parentID u) nodeID) q.

(** Nothing of what the diff of [component] depends on has changed, and no
    record for the node it addresses has been enqueued: the rendered
    children of [component], the constructors and the mount indices are the
    same. *)
Definition steady (component : ref) (nodeID : string) (w w' : World) : Prop :=
  _renderedChildren (heap w' component) = _renderedChildren (heap w component) /\
  (forall x, constructor (heap w' x) = constructor (heap w x)) /\
  (forall x, _mountIndex (heap w' x) = _mountIndex (heap w x)) /\
  recordsFor nodeID (updateQueue w') = recordsFor nodeID (updateQueue w).

(** Two entries with the same key, under which both children objects have
    nothing or have children of the same constructor. *)
Definition alike (h : ref -> Component) (pe ne : string * option ref) : Prop :=
  fst pe = fst ne /\
  match snd pe, snd ne with
  | Some p, Some n => constructor (h p) = constructor (h n)
  | None, None => True
  | _, _ => False
  end.

(** The REMOVE_NODE records for the children [l] of the node [nodeID], the
    first of which is at [start]. *)
Definition removals (nodeID : string) (h : ref -> Component) (l : list ref) (start : Z)
    : list Update :=
  map (fun cs => mkUpdate nodeID REMOVE_NODE None None (_nodeCount (h (fst cs)))
                   (Some (snd cs)) None)
      (prefixSums h l start).

(** No record for the node [nodeID] has been enqueued. *)
Definition no_record_for (nodeID : string) (w w' : World) : Prop :=
  recordsFor nodeID (updateQueue w') = recordsFor nodeID (updateQueue w).

(** The position of each child that is there, by key: the entries of [es]
    that have a child are numbered from [start]. *)
Fixpoint positions (es : ChildMap) (start : Z) : list (string * Z) :=
  match es with
  | [] => []
  | (k, Some _) :: rest => (k, start) :: positions rest (start + 1)
  | (_, None) :: rest => positions rest start
  end.

(** What a capability is taken to respect of the children rendered under
    [component]: the children object and their mount indices. *)
Definition rendered_kept (component : ref) (w w' : World) : Prop :=
  _renderedChildren (heap w' component) = _renderedChildren (heap w component) /\
  (forall k r, renderedChild w component k = Some r ->
     _mountIndex (heap w' r) = _mountIndex (heap w r)).

(** The children rendered under the keys other than [k] are the same and
    have kept their mount indices. *)
Definition others_kept (component : ref) (k : string) (w w' : World) : Prop :=
  (forall j, j <> k -> renderedChild w' component j = renderedChild w component j) /\
  (forall j r, j <> k -> renderedChild w component j = Some r ->
     _mountIndex (heap w' r) = _mountIndex (heap w r)).

(** Under each listed key there is a child with the listed mount index. *)
Definition numbered (component : ref) (l : list (string * Z)) (w : World) : Prop :=
  forall k i, In (k, i) l ->
    exists r, renderedChild w component k = Some r /\ _mountIndex (heap w r) = Some i.

(** No child is rendered under two keys. *)
Definition one_key_each (m : ChildMap) : Prop :=
  forall k k' c, getProp m k = Some c -> getProp m k' = Some c -> k = k'.

Definition not_rendered (m : ChildMap) (n : ref) : Prop :=
  forall j, getProp m j <> Some n.

(** The rendered children of [component] are an object in which no child
    occurs twice and none of the children [future] occurs. *)
Definition tidy (component : ref) (future : list ref) (w : World) : Prop :=
  exists m,
    _renderedChildren (heap w component) = Some m /\
    one_key_each m /\
    (forall n, In n future -> not_rendered m n).

(** What a capability is taken to respect of a parent: its children object
    and every constructor. *)
Definition shape_kept (component : ref) (w w' : World) : Prop :=
  _renderedChildren (heap w' component) = _renderedChildren (heap w component) /\
  (forall x, constructor (heap w' x) = constructor (heap w x)).

(** What the work on the key [k] respects: the children under the other
    keys and every constructor. *)
Definition only_key (component : ref) (k : string) (w w' : World) : Prop :=
  (forall j, j <> k -> renderedChild w' component j = renderedChild w component j) /\
  (forall x, constructor (heap w' x) = constructor (heap w x)).

(** The bookkeeping of a parent about its children is as it was. *)
Definition children_kept (component : ref) (w w' : World) : Prop :=
  _renderedChildren (heap w' component) = _renderedChildren (heap w component) /\
  _nodeCount (heap w' component) = _nodeCount (heap w component).

(** Leaf children of which the child 2 raises when it is mounted or
    unmounted. *)
#[local] Instance brittle : Collaborators := {|
  mountComponent := fun c rootID =>
    if Nat.eqb c 2 then throw (Raised 7) else leafMount c rootID;
  receiveProps := fun _ _ => ret tt;
  unmountComponent := fun c => if Nat.eqb c 2 then throw (Raised 7) else ret tt;
  isValidComponent := fun _ => true;
  getParentID := dropLastSegment;
  dangerouslyProcessChildrenUpdates := fun _ _ => None;
  objectPrototype := es5ObjectPrototype
|}.

(** Each key of [es] that has a child, with the key before it that has
    one; [before] is that key for the first of them. *)
Fixpoint neighbours (es : ChildMap) (before : option string)
    : list (string * option string) :=
  match es with
  | [] => []
  | (k, Some _) :: rest => (k, before) :: neighbours rest (Some k)
  | (_, None) :: rest => neighbours rest before
  end.

Definition renderedAt (w : World) (component : ref) (k : option string) : option ref :=
  match k with
  | Some k => renderedChild w component k
  | None => None
  end.

(** What a capability is taken to respect of the sibling chain of
    [component]: the children object, the first child and the previous
    sibling of every rendered child. *)
Definition siblings_kept (component : ref) (w w' : World) : Prop :=
  _renderedChildren (heap w' component) = _renderedChildren (heap w component) /\
  _firstRenderedChild (heap w' component) = _firstRenderedChild (heap w component) /\
  (forall k r, renderedChild w component k = Some r ->
     _previousSibling (heap w' r) = _previousSibling (heap w r)).

(** The children rendered under the keys other than [k] are the same and
    have kept their previous sibling. *)
Definition others_linked (component : ref) (k : string) (w w' : World) : Prop :=
  (forall j, j <> k -> renderedChild w' component j = renderedChild w component j) /\
  (forall j r, j <> k -> renderedChild w component j = Some r ->
     _previousSibling (heap w' r) = _previousSibling (heap w r)).

(** A write of fields other than the links and the children object. *)
Definition same_links (w w' : World) : Prop :=
  forall x,
    _renderedChildren (heap w' x) = _renderedChildren (heap w x) /\
    _firstRenderedChild (heap w' x) = _firstRenderedChild (heap w x) /\
    _previousSibling (heap w' x) = _previousSibling (heap w x).

(** The children a, b, c of [abcHeap] with their positions as mount
    indices, as the unit-index engine leaves them. *)
Definition abcNumbered : ref -> Component := fun r =>
  set_mountIndex
    match r with
    | 1%nat => Some 0
    | 2%nat => Some 1
    | 3%nat => Some 2
    | _ => None
    end
    (abcHeap r).

(** * Properties *)

(** ** Batches *)

Lemma extends_refl w : extends w w.
Proof.
  split; [reflexivity|]. split.
  - exists [], []. rewrite !app_nil_r. auto.
  - exists []. rewrite app_nil_r. auto.
Qed.

Lemma extends_trans w1 w2 w3 : extends w1 w2 -> extends w2 w3 -> extends w1 w3.
Proof.
  intros (Hd1 & (q1 & m1 & Hq1 & Hm1 & Hn1) & (e1 & Ht1 & Hf1))
         (Hd2 & (q2 & m2 & Hq2 & Hm2 & Hn2) & (e2 & Ht2 & Hf2)).
  split; [congruence|]. split.
  - exists (q1 ++ q2), (m1 ++ m2).
    rewrite Hq2, Hq1, Hm2, Hm1, !app_assoc. repeat split; auto.
    intros H. apply app_eq_nil in H as [-> ->].
    rewrite Hn1, Hn2; auto.
  - exists (e1 ++ e2). rewrite Ht2, Ht1, app_assoc. split; auto.
    rewrite forallb_app, Hf1, Hf2. reflexivity.
Qed.

Lemma extends_heap w h : extends w (set_heap h w).
Proof.
  split; [reflexivity|]. split.
  - exists [], []. simpl. rewrite !app_nil_r. auto.
  - exists []. simpl. rewrite app_nil_r. auto.
Qed.

Lemma extends_enqueue w u mq :
  extends w (set_queues (updateQueue w ++ [u]) (markupQueue w ++ mq) w).
Proof.
  split; [reflexivity|]. split.
  - exists [u], mq. repeat split; auto. discriminate.
  - exists []. simpl. rewrite app_nil_r. auto.
Qed.

Lemma extends_log w e : isProcessUpdates e = false -> extends w (log e w).
Proof.
  intros He. split; [reflexivity|]. split.
  - exists [], []. simpl. rewrite !app_nil_r. auto.
  - exists [e]. simpl. rewrite He. auto.
Qed.

Lemma in_batch_ret {A} (a : A) : in_batch (ret a).
Proof. intros w r w' _ H _. inversion H; subst. apply extends_refl. Qed.

Lemma in_batch_throw {A} e : in_batch (@throw A e).
Proof. intros w r w' _ H _. inversion H; subst. apply extends_refl. Qed.

Lemma in_batch_diverge {A} : in_batch (@diverge A).
Proof. intros w r w' _ H Hr. inversion H; subst. congruence. Qed.

Lemma in_batch_get : in_batch get.
Proof. intros w r w' _ H _. inversion H; subst. apply extends_refl. Qed.

Lemma in_batch_readComp c : in_batch (readComp c).
Proof. intros w r w' _ H _. inversion H; subst. apply extends_refl. Qed.

Lemma in_batch_writeComp c f : in_batch (writeComp c f).
Proof. intros w r w' _ H _. inversion H; subst. apply extends_heap. Qed.

Lemma in_batch_bind {A B} (m : M A) (k : A -> M B) :
  in_batch m -> (forall a, in_batch (k a)) -> in_batch (bind m k).
Proof.
  intros Hm Hk w r w' Hd H Hr. unfold bind in H.
  destruct (m w) as [[a|e|] w1] eqn:E.
  - assert (E1 : extends w w1) by (eapply Hm; eauto; discriminate).
    pose proof E1 as [Hd1 _].
    eapply extends_trans; [exact E1|].
    eapply (Hk a w1); [rewrite Hd1; exact Hd | exact H | exact Hr].
  - inversion H; subst. eapply Hm; eauto. discriminate.
  - inversion H; subst. congruence.
Qed.

Lemma in_batch_whenb b m : in_batch m -> in_batch (whenb b m).
Proof. intros H. destruct b; simpl; [exact H | apply in_batch_ret]. Qed.

Lemma in_batch_invariant b f a : in_batch (invariant b f a).
Proof. destruct b; simpl; [apply in_batch_ret | apply in_batch_throw]. Qed.

Lemma in_batch_forIn {K S} (ks : list K) (f : K -> S -> M S) :
  (forall k s, in_batch (f k s)) -> forall s, in_batch (forIn ks f s).
Proof.
  intros Hf. induction ks as [|k ks IH]; intros s; simpl.
  - apply in_batch_ret.
  - apply in_batch_bind; auto.
Qed.

Lemma in_batch_enqueueMarkup p m t : in_batch (enqueueMarkup p m t).
Proof. intros w r w' _ H _. inversion H; subst. apply extends_enqueue. Qed.

Lemma in_batch_enqueueReplaceWithMarkup p m : in_batch (enqueueReplaceWithMarkup p m).
Proof. intros w r w' _ H _. inversion H; subst. apply extends_enqueue. Qed.

Lemma in_batch_enqueueMove p n f t : in_batch (enqueueMove p n f t).
Proof.
  intros w r w' _ H _. inversion H; subst.
  rewrite <- (app_nil_r (markupQueue w)) at 1. apply extends_enqueue.
Qed.

Lemma in_batch_enqueueRemove p n f : in_batch (enqueueRemove p n f).
Proof.
  intros w r w' _ H _. inversion H; subst.
  rewrite <- (app_nil_r (markupQueue w)) at 1. apply extends_enqueue.
Qed.

Lemma in_batch_enqueueTextContent p t : in_batch (enqueueTextContent p t).
Proof.
  intros w r w' _ H _. inversion H; subst.
  rewrite <- (app_nil_r (markupQueue w)) at 1. apply extends_enqueue.
Qed.

Lemma in_batch_log e : isProcessUpdates e = false -> in_batch (modify (log e)).
Proof. intros He w r w' _ H _. inversion H; subst. apply extends_log, He. Qed.

Create HintDb batch.
#[local] Hint Resolve in_batch_ret in_batch_throw in_batch_diverge in_batch_get
  in_batch_readComp in_batch_writeComp in_batch_whenb in_batch_invariant
  in_batch_enqueueMarkup in_batch_enqueueReplaceWithMarkup in_batch_enqueueMove
  in_batch_enqueueRemove in_batch_enqueueTextContent in_batch_log : batch.

(** Walks through a computation built from [bind], [if] and [match]. *)
Ltac batch_step :=
  match goal with
  | |- in_batch (bind _ _) => apply in_batch_bind; [| intros ?]
  | |- in_batch (forIn _ _ _) => apply in_batch_forIn; intros ? ?
  | |- in_batch (whenb _ _) => apply in_batch_whenb
  | |- in_batch (let '(_, _) := ?x in _) => destruct x
  | |- in_batch (if ?b then _ else _) => destruct b
  | |- in_batch (match ?x with _ => _ end) => destruct x
  | |- in_batch _ => solve [auto with batch]
  end.
Ltac batch := repeat batch_step.

Section Batches.
Context {collab : Collaborators}.
Hypothesis Hcap : capabilities_in_batch.

Lemma in_batch_child_mountComponent c r : in_batch (child_mountComponent c r).
Proof. unfold child_mountComponent. batch. apply Hcap. Qed.

Lemma in_batch_child_receiveProps c p : in_batch (child_receiveProps c p).
Proof. unfold child_receiveProps. batch. apply Hcap. Qed.

Lemma in_batch_child_unmountComponent c : in_batch (child_unmountComponent c).
Proof. unfold child_unmountComponent. batch. apply Hcap. Qed.

#[local] Hint Resolve in_batch_child_mountComponent in_batch_child_receiveProps
  in_batch_child_unmountComponent : batch.

Lemma in_batch_unmountChildByName c n ch k : in_batch (_unmountChildByName c n ch k).
Proof. unfold _unmountChildByName, removeChild. batch. Qed.

Lemma in_batch_mountChildByNameAtIndex c n p ch k i :
  in_batch (_mountChildByNameAtIndex c n p ch k i).
Proof. unfold _mountChildByNameAtIndex, createChild. batch. Qed.

#[local] Hint Resolve in_batch_unmountChildByName in_batch_mountChildByNameAtIndex : batch.

Lemma in_batch_updateAncestors fuel : forall a n d, in_batch (updateAncestors fuel a n d).
Proof.
  induction fuel as [|f IH]; intros a n d; simpl; [apply in_batch_diverge|].
  batch.
Qed.

Lemma in_batch_diffChild b c n p kv cur : in_batch (diffChild b c n p kv cur).
Proof. unfold diffChild, diffBuiltin, appendToChain, prevChildrenNow, moveChild. batch. Qed.

Lemma in_batch_updateChildren_body fuel c p next : in_batch (_updateChildren fuel c p next).
Proof.
  unfold _updateChildren, replaceRootChild, assignMountIndices, diffChildren,
    removeAbsent, removeIfAbsent, updateNodeCounts, prevChildrenNow.
  batch; try apply in_batch_diffChild; apply in_batch_updateAncestors.
Qed.

Lemma in_batch_updateTextContent_body c t : in_batch (updateTextContent_body c t).
Proof. unfold updateTextContent_body, setTextContent. batch. Qed.

Lemma in_batch_mountChildren c p ch : in_batch (mountChildren c p ch).
Proof. unfold mountChildren. batch. Qed.

Lemma in_batch_unmountChildren c : in_batch (unmountChildren c).
Proof. unfold unmountChildren. batch. Qed.

Lemma in_batch_body call : in_batch (body call).
Proof.
  destruct call; simpl;
    [apply in_batch_updateChildren_body | apply in_batch_updateTextContent_body].
Qed.

Lemma run_batched call : run call = batched (body call).
Proof. destruct call; reflexivity. Qed.

End Batches.

Section Guard.
Context {collab : Collaborators}.

(** Leaving a nested call puts the depth back without touching anything else. *)
Lemma extends_leave w w1 :
  extends (set_updateDepth (updateDepth w + 1) w) w1 ->
  extends w (set_updateDepth (updateDepth w1 - 1) w1).
Proof.
  intros (Hd & Hq & Ht). simpl in *.
  split; [simpl; lia|]. split; assumption.
Qed.

(** A nested call neither flushes nor clears. *)
Lemma in_batch_batched (b : M unit) : in_batch b -> in_batch (batched b).
Proof.
  intros Hb w r w' Hd H Hr. unfold batched in H.
  destruct (b (set_updateDepth (updateDepth w + 1) w)) as [[[]|e|] w1] eqn:E.
  - assert (Hx : extends (set_updateDepth (updateDepth w + 1) w) w1)
      by (eapply Hb; eauto; [simpl; lia | discriminate]).
    pose proof Hx as [Hd1 _]. simpl in Hd1, H.
    replace (updateDepth w1 - 1 =? 0) with false in H
      by (symmetry; apply Z.eqb_neq; lia).
    inversion H; subst. apply extends_leave, Hx.
  - assert (Hx : extends (set_updateDepth (updateDepth w + 1) w) w1)
      by (eapply Hb; eauto; [simpl; lia | discriminate]).
    pose proof Hx as [Hd1 _]. simpl in Hd1, H.
    replace (updateDepth w1 - 1 =? 0) with false in H
      by (symmetry; apply Z.eqb_neq; lia).
    inversion H; subst. apply extends_leave, Hx.
  - inversion H; subst. congruence.
Qed.

Lemma in_batch_run call : capabilities_in_batch -> in_batch (run call).
Proof.
  intros Hcap. rewrite run_batched. apply in_batch_batched, in_batch_body, Hcap.
Qed.

Lemma processQueue_empty w : updateQueue w = [] -> processQueue w = (Normal tt, w).
Proof. intros H. unfold processQueue, bind, get. rewrite H. reflexivity. Qed.

Lemma processQueue_normal w w' :
  processQueue w = (Normal tt, w') ->
  trace w' = trace w ++ flushEvents (updateQueue w) (markupQueue w) /\
  updateQueue w' = [] /\
  (updateQueue w <> [] -> markupQueue w' = []) /\
  (updateQueue w = [] -> markupQueue w' = markupQueue w) /\
  updateDepth w' = updateDepth w /\ heap w' = heap w.
Proof.
  unfold processQueue, bind, get, flushEvents. intros H.
  destruct (updateQueue w) as [|u q] eqn:Eq.
  - inversion H; subst. simpl. rewrite app_nil_r. repeat split; auto. congruence.
  - simpl in H. unfold modify in H.
    destruct (dangerouslyProcessChildrenUpdates _ _); [discriminate|].
    inversion H; subst. simpl. repeat split; auto. congruence.
Qed.

(** A nested call that returns is its body: the world it leaves is the one
    its body left, with the depth put back. *)
Lemma nested_run_is_body call w w' :
  in_batch (body call) ->
  0 < updateDepth w ->
  run call w = (Normal tt, w') ->
  exists w1,
    body call (set_updateDepth (updateDepth w + 1) w) = (Normal tt, w1) /\
    updateDepth w1 = updateDepth w + 1 /\
    w' = set_updateDepth (updateDepth w1 - 1) w1.
Proof.
  intros Hb Hd Hrun. rewrite run_batched in Hrun. unfold batched in Hrun.
  destruct (body call (set_updateDepth (updateDepth w + 1) w)) as [[[]|e|] w1] eqn:E;
    [| discriminate | discriminate].
  assert (Hx : extends (set_updateDepth (updateDepth w + 1) w) w1)
    by (eapply Hb; eauto; [simpl; lia | discriminate]).
  destruct Hx as [Hd1 _]. simpl in Hd1, Hrun.
  replace (updateDepth w1 - 1 =? 0) with false in Hrun
    by (symmetry; apply Z.eqb_neq; lia).
  inversion Hrun; subst. exists w1. auto.
Qed.


(** C7.  When the body raises, the call raises the same error; the depth
    counter is decremented; if it reaches zero both queues are emptied, and
    the output-applying collaborator is not called by the handler.  Since the
    body itself never calls it either, nothing enqueued during the failed
    batch, at any nesting level, is handed over. *)
Theorem C7_failed_batch_is_discarded :
  capabilities_in_batch ->
  forall (call : Call) (w w1 : World) (error : Error),
    body call (set_updateDepth (updateDepth w + 1) w) = (Throws error, w1) ->
    exists w',
      run call w = (Throws error, w') /\
      updateDepth w' = updateDepth w1 - 1 /\
      heap w' = heap w1 /\
      trace w' = trace w1 /\
      (updateDepth w' = 0 -> updateQueue w' = [] /\ markupQueue w' = []) /\
      (updateDepth w' <> 0 ->
         updateQueue w' = updateQueue w1 /\ markupQueue w' = markupQueue w1) /\
      (0 <= updateDepth w ->
         updateDepth w' = updateDepth w /\
         countProcessUpdates (trace w') = countProcessUpdates (trace w)).
Proof.
  intros Hcap call w w1 error Hb.
  rewrite run_batched. unfold batched. rewrite Hb.
  eexists. split; [reflexivity|].
  destruct (updateDepth (set_updateDepth (updateDepth w1 - 1) w1) =? 0) eqn:E; simpl in E |- *.
  - apply Z.eqb_eq in E. repeat split; auto; try lia.
    + assert (Hx : extends (set_updateDepth (updateDepth w + 1) w) w1)
        by (eapply (in_batch_body Hcap); eauto; [simpl; lia | discriminate]).
      destruct Hx as (Hd1 & _). simpl in Hd1. lia.
    + assert (Hx : extends (set_updateDepth (updateDepth w + 1) w) w1)
        by (eapply (in_batch_body Hcap); eauto; [simpl; lia | discriminate]).
      destruct Hx as (_ & _ & (evs & Ht & Hf)). simpl in Ht.
      unfold countProcessUpdates. rewrite Ht, filter_app, length_app.
      replace (filter isProcessUpdates evs) with (@nil Event); [simpl; lia|].
      clear - Hf. induction evs as [|e evs IH]; simpl in *; auto.
      apply andb_prop in Hf as [He Hf]. destruct (isProcessUpdates e); [discriminate|auto].
  - apply Z.eqb_neq in E. repeat split; auto; try lia.
    + assert (Hx : extends (set_updateDepth (updateDepth w + 1) w) w1)
        by (eapply (in_batch_body Hcap); eauto; [simpl; lia | discriminate]).
      destruct Hx as (Hd1 & _). simpl in Hd1. lia.
    + assert (Hx : extends (set_updateDepth (updateDepth w + 1) w) w1)
        by (eapply (in_batch_body Hcap); eauto; [simpl; lia | discriminate]).
      destruct Hx as (_ & _ & (evs & Ht & Hf)). simpl in Ht.
      unfold countProcessUpdates. rewrite Ht, filter_app, length_app.
      replace (filter isProcessUpdates evs) with (@nil Event); [simpl; lia|].
      clear - Hf. induction evs as [|e evs IH]; simpl in *; auto.
      apply andb_prop in Hf as [He Hf]. destruct (isProcessUpdates e); [discriminate|auto].
Qed.

End Guard.

(** ** The text-content path *)

Section TextContent.
Context {collab : Collaborators}.

Lemma updateTextContent_body_children component nextContent w name rest :
  keys (entries (_renderedChildren (heap w component))) = name :: rest ->
  updateTextContent_body component nextContent w =
    (Throws (InvariantViolation childrenRemainMessage (Some name)), w).
Proof.
  intros H. unfold updateTextContent_body, bind, readComp. rewrite H. reflexivity.
Qed.

Lemma updateTextContent_body_leaf component nextContent w :
  keys (entries (_renderedChildren (heap w component))) = [] ->
  updateTextContent_body component nextContent w =
    (Normal tt,
     set_queues
       (updateQueue w ++
          [mkUpdate (_rootNodeID (heap w component)) TEXT_CONTENT None
             (Some nextContent) None None None])
       (markupQueue w) w).
Proof.
  intros H. unfold updateTextContent_body, bind, readComp. rewrite H. reflexivity.
Qed.

Lemma unmountChildren_clears component w0 w :
  unmountChildren component w0 = (Normal tt, w) ->
  _renderedChildren (heap w component) = None /\ _nodeCount (heap w component) = None.
Proof.
  unfold unmountChildren. unfold bind at 1 2. unfold readComp at 1.
  destruct (forIn _ _ tt w0) as [[[]|e|] w1]; try discriminate.
  unfold bind, writeComp, modify. intros H. inversion H; subst. simpl.
  unfold upd. rewrite Nat.eqb_refl. simpl. auto.
Qed.

(** The TEXT_CONTENT record of a call. *)
Lemma updateTextContent_leaf component nextContent w :
  keys (entries (_renderedChildren (heap w component))) = [] ->
  let record :=
    mkUpdate (_rootNodeID (heap w component)) TEXT_CONTENT None (Some nextContent)
      None None None in
  (updateDepth w <> 0 ->
   updateTextContent component nextContent w =
     (Normal tt,
      set_updateDepth (updateDepth w + 1 - 1)
        (set_queues (updateQueue w ++ [record]) (markupQueue w)
           (set_updateDepth (updateDepth w + 1) w)))) /\
  (updateDepth w = 0 ->
   trace (snd (updateTextContent component nextContent w)) =
     trace w ++ [CallProcessUpdates (updateQueue w ++ [record]) (markupQueue w)] /\
   fst (updateTextContent component nextContent w) =
     match dangerouslyProcessChildrenUpdates (updateQueue w ++ [record]) (markupQueue w) with
     | Some payload => Throws (Raised payload)
     | None => Normal tt
     end).
Proof.
  intros H record. unfold updateTextContent, batched.
  rewrite (updateTextContent_body_leaf component nextContent
             (set_updateDepth (updateDepth w + 1) w) H).
  simpl. fold record. split.
  - intros Hd. replace (updateDepth w + 1 - 1 =? 0) with false
      by (symmetry; apply Z.eqb_neq; lia). reflexivity.
  - intros Hd. rewrite Hd. simpl.
    unfold processQueue, bind, get, modify. simpl.
    destruct (updateQueue w ++ [record]) as [|u q] eqn:E;
      [destruct (updateQueue w); discriminate|].
    destruct (dangerouslyProcessChildrenUpdates (u :: q) (markupQueue w)); simpl; auto.
Qed.

(** C8, as amended.  [updateTextContent] raises the invariant violation
    exactly when the component's rendered-children object enumerates a key,
    and the violation names the first key enumerated.  Otherwise the call
    enqueues exactly one TEXT_CONTENT record addressed at the component's
    own root id: a nested call leaves it at the end of the update queue, an
    outermost call hands the queue with that record at its end to the
    output-applying collaborator, and raises what the collaborator raises.
    After [unmountChildren] has returned no key is left, so the call raises
    no invariant violation: it returns, unless it is outermost and the
    collaborator raises while the batch is handed over. *)
Theorem C8_updateTextContent_requires_no_children :
  forall (component : ref) (nextContent : string) (w : World),
    let prev := keys (entries (_renderedChildren (heap w component))) in
    let record :=
      mkUpdate (_rootNodeID (heap w component)) TEXT_CONTENT None (Some nextContent)
        None None None in
    (forall name rest, prev = name :: rest ->
       fst (updateTextContent component nextContent w) =
         Throws (InvariantViolation childrenRemainMessage (Some name))) /\
    ((exists format arg,
        fst (updateTextContent component nextContent w) =
          Throws (InvariantViolation format arg)) <-> prev <> []) /\
    (prev = [] ->
     (updateDepth w <> 0 ->
      fst (updateTextContent component nextContent w) = Normal tt /\
      updateQueue (snd (updateTextContent component nextContent w)) =
        updateQueue w ++ [record] /\
      markupQueue (snd (updateTextContent component nextContent w)) = markupQueue w /\
      trace (snd (updateTextContent component nextContent w)) = trace w) /\
     (updateDepth w = 0 ->
      trace (snd (updateTextContent component nextContent w)) =
        trace w ++ [CallProcessUpdates (updateQueue w ++ [record]) (markupQueue w)] /\
      fst (updateTextContent component nextContent w) =
        match dangerouslyProcessChildrenUpdates (updateQueue w ++ [record])
                (markupQueue w) with
        | Some payload => Throws (Raised payload)
        | None => Normal tt
        end)) /\
    (forall w0, unmountChildren component w0 = (Normal tt, w) ->
       prev = [] /\
       (fst (updateTextContent component nextContent w) = Normal tt \/
        exists payload,
          updateDepth w = 0 /\
          dangerouslyProcessChildrenUpdates (updateQueue w ++ [record]) (markupQueue w)
            = Some payload /\
          fst (updateTextContent component nextContent w) = Throws (Raised payload))).
Proof.
  intros component nextContent w prev record.
  assert (Hthrow : forall name rest, prev = name :: rest ->
            fst (updateTextContent component nextContent w) =
              Throws (InvariantViolation childrenRemainMessage (Some name))).
  { intros name rest H. unfold updateTextContent, batched.
    rewrite (updateTextContent_body_children component nextContent
               (set_updateDepth (updateDepth w + 1) w) name rest H).
    reflexivity. }
  assert (Hleaf : prev = [] ->
            fst (updateTextContent component nextContent w) = Normal tt \/
            exists payload,
              updateDepth w = 0 /\
              dangerouslyProcessChildrenUpdates (updateQueue w ++ [record]) (markupQueue w)
                = Some payload /\
              fst (updateTextContent component nextContent w) = Throws (Raised payload)).
  { intros H. destruct (updateTextContent_leaf component nextContent w H) as [Hnested Houter].
    fold record in Hnested, Houter.
    destruct (Z.eq_dec (updateDepth w) 0) as [Hd|Hd].
    - destruct (Houter Hd) as [_ Hr]. rewrite Hr.
      destruct (dangerouslyProcessChildrenUpdates _ _) as [payload|]; eauto.
    - left. rewrite (Hnested Hd). reflexivity. }
  split; [exact Hthrow|]. split; [|split].
  - split.
    + intros (f & a & H) Hp. destruct (Hleaf Hp) as [E|(p & _ & _ & E)]; congruence.
    + intros Hp. destruct prev as [|name rest] eqn:E; [congruence|].
      exists childrenRemainMessage, (Some name). eapply Hthrow. reflexivity.
  - intros Hp. destruct (updateTextContent_leaf component nextContent w Hp) as [Hnested Houter].
    fold record in Hnested, Houter. split.
    + intros Hd. rewrite (Hnested Hd). simpl. auto.
    + exact Houter.
  - intros w0 H. apply unmountChildren_clears in H as [H _].
    assert (Hp : prev = []) by (unfold prev; rewrite H; reflexivity).
    split; [exact Hp | apply Hleaf, Hp].
Qed.

End TextContent.

(** ** Root replacement *)

Section RootReplacement.
Context {collab : Collaborators}.

(** C4.  When the addressed node id resolves to the empty string and the
    empty key holds a previous and a next child: if [shouldUpdateChild]
    fails, the reconciler unmounts the previous child, then mounts the next
    one under the component's own root id, appends exactly one record, a
    REPLACE_WITH_MARKUP addressed at the root id the previous child had, to
    whatever the update queue holds when the next child has been mounted,
    and binds the empty key to the next child; so when the two capability
    runs enqueue nothing themselves, the call has enqueued that one record
    and one markup and nothing else.  If [shouldUpdateChild] holds, the call
    is the [receiveProps] call on the previous child and nothing more. *)
Theorem C4_root_replacement :
  forall (fuel : nat) (component : ref) (idPrefix : string)
         (prevChildren nextChildren : ChildMap) (p n : ref) (w : World),
    resolveNodeID (heap w component) idPrefix = "" ->
    _renderedChildren (heap w component) = Some prevChildren ->
    getProp prevChildren "" = Some p ->
    getProp nextChildren "" = Some n ->
    (shouldUpdateChild (heap w) (Some p) (Some n) = false ->
     forall w1 markup w2 m,
       unmountComponent p (log (CallUnmount p) w) = (Normal tt, w1) ->
       mountComponent n (_rootNodeID (heap w component))
         (log (CallMount n (_rootNodeID (heap w component))) w1) = (Normal markup, w2) ->
       _renderedChildren (heap w2 component) = Some m ->
       exists w',
         _updateChildren fuel component idPrefix (Some nextChildren) w = (Normal tt, w') /\
         trace w' = trace w2 /\
         updateQueue w' =
           updateQueue w2 ++
             [mkUpdate (_rootNodeID (heap w p)) REPLACE_WITH_MARKUP
                (Some (List.length (markupQueue w2))) None None None None] /\
         markupQueue w' = markupQueue w2 ++ [markup] /\
         _renderedChildren (heap w' component) = Some (setProp m "" (Some n)) /\
         (forall r, r <> component -> heap w' r = heap w2 r) /\
         (updateQueue w1 = updateQueue w -> markupQueue w1 = markupQueue w ->
          updateQueue w2 = updateQueue w1 -> markupQueue w2 = markupQueue w1 ->
          updateQueue w' =
            updateQueue w ++
              [mkUpdate (_rootNodeID (heap w p)) REPLACE_WITH_MARKUP
                 (Some (List.length (markupQueue w))) None None None None] /\
          markupQueue w' = markupQueue w ++ [markup])) /\
    (shouldUpdateChild (heap w) (Some p) (Some n) = true ->
     _updateChildren fuel component idPrefix (Some nextChildren) w =
       receiveProps p (props (heap w n)) (log (CallReceiveProps p (props (heap w n))) w)).
Proof.
  intros fuel component idPrefix prevChildren nextChildren p n w Hid Hprev Hp Hn.
  split.
  - intros Hs w1 markup w2 m Hu Hm Hmap.
    unfold _updateChildren, bind, readComp. rewrite Hid. simpl.
    unfold replaceRootChild, bind, readComp, get. rewrite Hprev, Hp, Hn, Hs.
    unfold child_unmountComponent, child_mountComponent, bind, modify. rewrite Hu.
    rewrite Hm. unfold enqueueReplaceWithMarkup, modify. simpl. rewrite Hmap.
    eexists. split; [reflexivity|]. simpl.
    repeat split; auto.
    + unfold upd. rewrite Nat.eqb_refl. reflexivity.
    + intros r Hr. unfold upd. apply Nat.eqb_neq in Hr. rewrite Hr. reflexivity.
    + congruence.
    + congruence.
  - intros Hs.
    unfold _updateChildren, bind, readComp. rewrite Hid. simpl.
    unfold replaceRootChild, bind, readComp, get. rewrite Hprev, Hp, Hn, Hs.
    reflexivity.
Qed.

End RootReplacement.

(** ** The second pass, one key at a time *)

Section SecondPass.
Context {collab : Collaborators}.

(** *** Reads that stay in the object *)

Lemma hasOwnProperty_getProp m name p : getProp m name = Some p -> hasOwnProperty m name = true.
Proof. unfold getProp, hasOwnProperty. destruct (getOwn m name); [reflexivity|discriminate]. Qed.

(** A key under which the object itself holds a child is not looked up on
    [Object.prototype]. *)
Lemma inheritedProp_own m name p : getPropOpt m name = Some p -> inheritedProp m name = None.
Proof.
  destruct m as [o|]; simpl; [|reflexivity].
  intros H. rewrite (hasOwnProperty_getProp _ _ _ H). reflexivity.
Qed.

Lemma hasOwnProperty_in m k v : In (k, v) m -> hasOwnProperty m k = true.
Proof.
  unfold hasOwnProperty. induction m as [|[k0 v0] m IH]; intros H; [destruct H|]. simpl.
  destruct (String.eqb_spec k0 k) as [_|Hne]; [reflexivity|].
  destruct H as [H|H]; [inversion H; subst; contradiction|apply IH, H].
Qed.

Lemma inheritedProp_hasOwn o name : hasOwnProperty o name = true -> inheritedProp (Some o) name = None.
Proof. simpl. intros ->. reflexivity. Qed.

(** Nor is a key that names no built-in found there. *)
Lemma inheritedProp_plain m name : objectPrototype name = None -> inheritedProp m name = None.
Proof.
  intros H. destruct m as [o|]; simpl; [|reflexivity].
  destruct (hasOwnProperty o name); [reflexivity|exact H].
Qed.

(** Where a built-in is found, the object itself holds nothing. *)
Lemma inheritedProp_absent m name builtin :
  inheritedProp m name = Some builtin -> getPropOpt m name = None.
Proof.
  destruct m as [o|]; simpl; [|discriminate].
  unfold hasOwnProperty, getProp. destruct (getOwn o name); [discriminate|reflexivity].
Qed.

Lemma truthyProp_false m name :
  truthyProp m name = false -> getPropOpt m name = None /\ inheritedProp m name = None.
Proof.
  unfold truthyProp. intros H. apply orb_false_elim in H as [H1 H2].
  destruct (getPropOpt m name); [discriminate|].
  destruct (inheritedProp m name); [discriminate|]. auto.
Qed.

Lemma inheritedProp_null name : inheritedProp None name = None.
Proof. reflexivity. Qed.

Lemma truthyProp_own m name : inheritedProp m name = None ->
  truthyProp m name = isSome (getPropOpt m name).
Proof. unfold truthyProp. intros ->. apply orb_false_r. Qed.

Lemma truthyProp_child m name n : getPropOpt m name = Some n -> truthyProp m name = true.
Proof. unfold truthyProp. intros ->. reflexivity. Qed.

Lemma linked_same_but_chain component m l h : same_but_chain h (linked component m l h).
Proof.
  intros r. unfold linked, upd.
  destruct l; simpl;
    repeat (match goal with |- context [Nat.eqb ?a ?b] => destruct (Nat.eqb a b) eqn:? end;
            simpl);
    repeat match goal with H : Nat.eqb _ _ = true |- _ => apply Nat.eqb_eq in H; subst end;
    repeat split; reflexivity.
Qed.

Lemma appendToChain_some component cur li m w :
  appendToChain component cur li (Some m) w =
    (Normal (mkCursor (nextIndex cur + toNumber (_nodeCount (heap w m))) li (Some m)),
     set_heap (linked component m (lastChild cur) (heap w)) w).
Proof.
  pose proof (linked_same_but_chain component m (lastChild cur) (heap w) m) as
    (_ & _ & _ & _ & Hn & _).
  unfold appendToChain, bind, whenb, writeComp, modify, readComp, ret.
  unfold linked in *. destruct (lastChild cur); simpl in *; rewrite Hn; reflexivity.
Qed.

Lemma moveChild_spec nodeID child toIndex li w :
  moveChild nodeID child toIndex li w =
    (Normal tt,
     set_queues
       (updateQueue w ++
          (if lessThan (toNumber (_mountIndex (heap w child))) li
           then [mkUpdate nodeID MOVE_EXISTING None None (_nodeCount (heap w child))
                   (_mountIndex (heap w child)) (Some toIndex)]
           else []))
       (markupQueue w) w).
Proof.
  unfold moveChild, bind, readComp, whenb.
  destruct (lessThan (toNumber (_mountIndex (heap w child))) li); simpl.
  - reflexivity.
  - unfold ret. rewrite app_nil_r. destruct w; reflexivity.
Qed.

(** What an iteration does for a key whose previous child is reused. *)
Lemma diffChild_reuse (prevIsObject : bool) component nodeID idPrefix name p n cur w w1 :
  getPropOpt (if prevIsObject then _renderedChildren (heap w component) else None) name
    = Some p ->
  shouldUpdateChild (heap w) (Some p) (Some n) = true ->
  receiveProps p (props (heap w n)) (log (CallReceiveProps p (props (heap w n))) w)
    = (Normal tt, w1) ->
  let hwm := Math_max (Num (toNumber (_mountIndex (heap w p)))) (lastIndex cur) in
  diffChild prevIsObject component nodeID idPrefix (name, Some n) cur w =
    (Normal (mkCursor (nextIndex cur + toNumber (_nodeCount (heap w1 p))) hwm (Some p)),
     set_heap (linked component p (lastChild cur) (heap w1))
       (set_queues
          (updateQueue w1 ++
             (if lessThan (toNumber (_mountIndex (heap w1 p))) hwm
              then [mkUpdate nodeID MOVE_EXISTING None None (_nodeCount (heap w1 p))
                      (_mountIndex (heap w1 p)) (Some (nextIndex cur))]
              else []))
          (markupQueue w1) w1)).
Proof.
  intros Hp Hs Hr hwm.
  unfold diffChild, prevChildrenNow, bind, readComp, get, ret. simpl.
  rewrite (inheritedProp_own _ _ _ Hp), Hp, Hs. unfold child_receiveProps, bind, modify. rewrite Hr.
  rewrite moveChild_spec. rewrite appendToChain_some. reflexivity.
Qed.

Lemma appendToChain_lastIndex component cur li m w cur' w' :
  appendToChain component cur li m w = (Normal cur', w') -> lastIndex cur' = li.
Proof.
  unfold appendToChain. destruct m as [m|]; intros H.
  - unfold bind, whenb, writeComp, modify, readComp, ret in H.
    destruct (negb (isSome (lastChild cur))); inversion H; reflexivity.
  - inversion H; reflexivity.
Qed.

(** After an iteration that finds a built-in the loop variable is NaN. *)
Lemma diffBuiltin_lastIndex component nodeID idPrefix name builtin nextChild cur w cur' w' :
  diffBuiltin component nodeID idPrefix name builtin nextChild cur w = (Normal cur', w') ->
  lastIndex cur' = NaN.
Proof.
  unfold diffBuiltin. destruct nextChild as [n|].
  - unfold bind at 1, readComp at 1.
    destruct (Nat.eqb builtin (constructor (heap w n))); [discriminate|].
    unfold bind at 1.
    destruct (_mountChildByNameAtIndex _ _ _ _ _ _ w) as [[[]|?|] w1]; try discriminate.
    apply appendToChain_lastIndex.
  - apply appendToChain_lastIndex.
Qed.

(** The high-water mark after an iteration is the larger of the mark before
    it and the position of the previous child found under the key; it is
    NaN when what is found is a built-in. *)
Lemma diffChild_lastIndex (prevIsObject : bool) component nodeID idPrefix kv cur w cur' w' :
  diffChild prevIsObject component nodeID idPrefix kv cur w = (Normal cur', w') ->
  let prevChildren := if prevIsObject then _renderedChildren (heap w component) else None in
  lastIndex cur' =
    match inheritedProp prevChildren (fst kv) with
    | Some _ => NaN
    | None =>
        match getPropOpt prevChildren (fst kv) with
        | Some p => Math_max (Num (toNumber (_mountIndex (heap w p)))) (lastIndex cur)
        | None => lastIndex cur
        end
    end.
Proof.
  unfold diffChild. unfold bind at 1. unfold prevChildrenNow, bind at 1, readComp at 1.
  simpl. unfold ret at 1.
  destruct (inheritedProp _ (fst kv)) as [builtin|]; [apply diffBuiltin_lastIndex|].
  set (prevChild := getPropOpt _ (fst kv)).
  unfold bind at 1. unfold get at 1.
  unfold bind at 1.
  match goal with |- context [if ?c then ?a else ?b] =>
    destruct (if c then a else b) as [[[li m]|e|] w2] eqn:E end; try discriminate.
  intros H.
  assert (Hli : lastIndex cur' = li) by (eapply appendToChain_lastIndex; eauto).
  rewrite Hli. clear H Hli.
  destruct (shouldUpdateChild (heap w) prevChild (snd kv)) eqn:Hs.
  - destruct prevChild as [p|]; [|discriminate]. destruct (snd kv) as [n|]; [|discriminate].
    unfold bind, readComp, ret in E.
    destruct (child_receiveProps p (props (heap w n)) w) as [[[]|?|] w3]; try discriminate.
    destruct (moveChild _ _ _ _ w3) as [[[]|?|] w4]; try discriminate.
    inversion E; reflexivity.
  - unfold bind at 1 in E.
    destruct prevChild as [p|].
    + unfold bind at 1 in E. unfold readComp at 1 in E. unfold bind at 1 in E.
      destruct (_unmountChildByName component nodeID p (fst kv) w) as [[[]|?|] w3];
        try discriminate.
      unfold ret at 1 in E.
      destruct (snd kv) as [n|].
      * unfold bind in E.
        destruct (_mountChildByNameAtIndex _ _ _ _ _ _ w3) as [[[]|?|] w4]; try discriminate.
        inversion E; reflexivity.
      * inversion E; reflexivity.
    + unfold ret at 1 in E.
      destruct (snd kv) as [n|].
      * unfold bind in E.
        destruct (_mountChildByNameAtIndex _ _ _ _ _ _ w) as [[[]|?|] w4]; try discriminate.
        inversion E; reflexivity.
      * inversion E; reflexivity.
Qed.

End SecondPass.

Section Replacement.
Context {collab : Collaborators}.

Lemma bind_normal {A B} (m : M A) (k : A -> M B) w a w1 :
  m w = (Normal a, w1) -> bind m k w = k a w1.
Proof. intros H. unfold bind. rewrite H. reflexivity. Qed.

Lemma unmountChildByName_spec component nodeID p name w w1 m :
  isValidComponent (heap w p) = true ->
  unmountComponent p (unmounting nodeID p w) = (Normal tt, w1) ->
  _renderedChildren (heap w1 component) = Some m ->
  _unmountChildByName component nodeID p name w =
    (Normal tt,
     set_heap
       (upd (heap w1) component
          (set_renderedChildren (Some (deleteProp m name)) (heap w1 component)))
       w1).
Proof.
  intros Hv Hu Hmap.
  unfold _unmountChildByName. rewrite (bind_normal _ _ w (heap w p) w) by reflexivity.
  rewrite Hv.
  unfold removeChild, enqueueRemove, child_unmountComponent.
  unfold bind, readComp, writeComp, modify.
  change (unmountComponent p _) with (unmountComponent p (unmounting nodeID p w)).
  rewrite Hu, Hmap. reflexivity.
Qed.

Lemma mountChildByNameAtIndex_spec component nodeID idPrefix n name index w markup w2 :
  mountComponent n (String.append idPrefix name)
    (log (CallMount n (String.append idPrefix name)) w) = (Normal markup, w2) ->
  exists h',
    _mountChildByNameAtIndex component nodeID idPrefix n name index w =
      (Normal tt,
       set_heap h'
         (set_queues
            (updateQueue w2 ++
               [mkUpdate nodeID INSERT_MARKUP (Some (List.length (markupQueue w2))) None None
                  None (_mountIndex (heap w2 n))])
            (markupQueue w2 ++ [markup]) w2)).
Proof.
  intros Hm.
  unfold _mountChildByNameAtIndex, child_mountComponent, createChild, enqueueMarkup.
  unfold bind, readComp, writeComp, modify. rewrite Hm. simpl.
  assert (Hi : _mountIndex
                 (upd (heap w2) n (set_parentComponent (Some component) (heap w2 n)) n)
               = _mountIndex (heap w2 n))
    by (unfold upd; rewrite Nat.eqb_refl; reflexivity).
  rewrite Hi. eexists. reflexivity.
Qed.

(** What an iteration does for a key whose previous child is a valid
    component that cannot be updated by the next descriptor: the previous
    child is removed and unmounted, the next one mounted and inserted, and
    [receiveProps] is not called.  The INSERT_MARKUP record carries the mount
    index the next child has after its [mountComponent]; [nextIndex cur]
    does not occur in it. *)
Lemma diffChild_replace (prevIsObject : bool) component nodeID idPrefix name p n cur
    w w1 m markup w2 :
  prevChildAt prevIsObject component name w = Some p ->
  shouldUpdateChild (heap w) (Some p) (Some n) = false ->
  isValidComponent (heap w p) = true ->
  silent (unmountComponent p) ->
  silent (mountComponent n (String.append idPrefix name)) ->
  unmountComponent p (unmounting nodeID p w) = (Normal tt, w1) ->
  _renderedChildren (heap w1 component) = Some m ->
  mountComponent n (String.append idPrefix name) (mounting component idPrefix name n m w1)
    = (Normal markup, w2) ->
  exists cur' w',
    diffChild prevIsObject component nodeID idPrefix (name, Some n) cur w
      = (Normal cur', w') /\
    lastChild cur' = Some n /\
    lastIndex cur' = Math_max (Num (toNumber (_mountIndex (heap w p)))) (lastIndex cur) /\
    trace w' = trace w ++ [CallUnmount p; CallMount n (String.append idPrefix name)] /\
    markupQueue w' = markupQueue w ++ [markup] /\
    updateQueue w' =
      updateQueue w ++
        [mkUpdate nodeID REMOVE_NODE None None (_nodeCount (heap w p))
           (_mountIndex (heap w p)) None;
         mkUpdate nodeID INSERT_MARKUP (Some (List.length (markupQueue w))) None None None
           (_mountIndex (heap w2 n))].
Proof.
  intros Hp Hs Hv Hsu Hsm Hu Hmap Hm.
  destruct (Hsu (unmounting nodeID p w)) as (Hq1 & Hm1 & Ht1). rewrite Hu in Hq1, Hm1, Ht1.
  destruct (Hsm (mounting component idPrefix name n m w1)) as (Hq2 & Hm2 & Ht2).
  rewrite Hm in Hq2, Hm2, Ht2. simpl in Hq1, Hm1, Ht1, Hq2, Hm2, Ht2.
  destruct (mountChildByNameAtIndex_spec component nodeID idPrefix n name (nextIndex cur)
              _ markup w2 Hm) as (h' & Hmount).
  unfold diffChild.
  rewrite (bind_normal _ _ w
             (if prevIsObject then _renderedChildren (heap w component) else None) w)
    by reflexivity.
  unfold prevChildAt in Hp. simpl fst. simpl snd.
  rewrite (inheritedProp_own _ _ _ Hp). cbv beta iota zeta. simpl fst. simpl snd.
  rewrite Hp.
  rewrite (bind_normal _ _ w w w) by reflexivity. rewrite Hs.
  erewrite bind_normal.
  2:{ erewrite bind_normal.
      2:{ rewrite (bind_normal _ _ w (heap w p) w) by reflexivity.
          erewrite bind_normal;
            [reflexivity | apply (unmountChildByName_spec _ _ _ _ _ _ _ Hv Hu Hmap)]. }
      erewrite bind_normal; [reflexivity | exact Hmount]. }
  cbv beta iota. rewrite appendToChain_some.
  eexists. eexists. split; [reflexivity|]. simpl.
  rewrite Ht2, Ht1, Hq2, Hq1, Hm2, Hm1, <- !app_assoc. simpl.
  repeat split.
Qed.

End Replacement.

Section HighWaterMark.
Context {collab : Collaborators}.

Lemma fold_max_app ps qs a :
  fold_left Z.max (ps ++ qs) a = fold_left Z.max qs (fold_left Z.max ps a).
Proof. apply fold_left_app. Qed.

Lemma forIn_cons {K S} (k : K) ks (f : K -> S -> M S) s w :
  forIn (k :: ks) f s w =
    match f k s w with
    | (Normal s', w') => forIn ks f s' w'
    | (Throws e, w') => (Throws e, w')
    | (Diverges, w') => (Diverges, w')
    end.
Proof. reflexivity. Qed.

(** As long as no built-in is found, the loop variable [lastIndex] is the
    high-water mark of the positions consumed so far. *)
Lemma lastIndex_is_high_water (prevIsObject : bool) component nodeID idPrefix es :
  forall cur w cur' w' last,
    forIn es (diffChild prevIsObject component nodeID idPrefix) cur w = (Normal cur', w') ->
    builtinsFound prevIsObject component nodeID idPrefix es cur w = [] ->
    lastIndex cur = Num last ->
    lastIndex cur' =
      Num (fold_left Z.max
             (consumedPositions prevIsObject component nodeID idPrefix es cur w) last).
Proof.
  induction es as [|kv es IH]; intros cur w cur' w' last H Hb Hl.
  - inversion H; subst. exact Hl.
  - rewrite forIn_cons in H. simpl. simpl in Hb.
    destruct (diffChild prevIsObject component nodeID idPrefix kv cur w)
      as [[cur1|e|] w1] eqn:E; try discriminate.
    apply app_eq_nil in Hb as [Hb0 Hb].
    apply diffChild_lastIndex in E. cbv zeta in E.
    destruct (inheritedProp _ (fst kv)); [discriminate|].
    rewrite fold_max_app. unfold prevChildAt.
    destruct (getPropOpt _ (fst kv)) as [p|]; simpl.
    + apply (IH _ _ _ _ _ H Hb). rewrite E, Hl. simpl. rewrite Z.max_comm. reflexivity.
    + apply (IH _ _ _ _ _ H Hb). rewrite E. exact Hl.
Qed.

(** After a key for which a built-in is found, the loop variable is NaN for
    the rest of the pass, and a reused child is not moved whatever its
    position. *)
Lemma lastIndex_stays_NaN (prevIsObject : bool) component nodeID idPrefix es :
  forall cur w cur' w',
    forIn es (diffChild prevIsObject component nodeID idPrefix) cur w = (Normal cur', w') ->
    lastIndex cur = NaN ->
    lastIndex cur' = NaN.
Proof.
  induction es as [|kv es IH]; intros cur w cur' w' H Hl.
  - inversion H; subst. exact Hl.
  - rewrite forIn_cons in H.
    destruct (diffChild prevIsObject component nodeID idPrefix kv cur w)
      as [[cur1|e|] w1] eqn:E; try discriminate.
    apply (IH _ _ _ _ H). apply diffChild_lastIndex in E. cbv zeta in E. rewrite E, Hl.
    destruct (inheritedProp _ (fst kv)); [reflexivity|].
    destruct (getPropOpt _ (fst kv)); reflexivity.
Qed.

(** Keys that name no built-in are not looked up on [Object.prototype]. *)
Lemma builtinsFound_plain (prevIsObject : bool) component nodeID idPrefix es :
  (forall k, In k (keys es) -> objectPrototype k = None) ->
  forall cur w, builtinsFound prevIsObject component nodeID idPrefix es cur w = [].
Proof.
  induction es as [|kv es IH]; intros Hk cur w; [reflexivity|].
  simpl. rewrite inheritedProp_plain by (apply Hk; left; reflexivity).
  destruct (diffChild prevIsObject component nodeID idPrefix kv cur w) as [[cur1|e|] w1];
    [|reflexivity|reflexivity].
  apply IH. intros k Hin. apply Hk. right. exact Hin.
Qed.


(** In the iteration for a key whose previous child is reused, the only
    capability the reconciler invokes is [receiveProps] on that child: past
    that call the trace is unchanged, the child itself is what is appended
    to the new sibling chain, and the stores before and after the
    reconciler's own writes agree on every field of every component except
    the chain links [_firstRenderedChild] and [_previousSibling].  The third
    pass leaves a key alone when the next children hold a child under it. *)
Lemma reused_child_step :
  forall (prevIsObject : bool) (component : ref) (nodeID idPrefix : string)
         (name : string) (p n : ref) (w w1 : World) (cur : Cursor)
         (nextChildren : option ChildMap),
    prevChildAt prevIsObject component name w = Some p ->
    shouldUpdateChild (heap w) (Some p) (Some n) = true ->
    receiveProps p (props (heap w n)) (log (CallReceiveProps p (props (heap w n))) w)
      = (Normal tt, w1) ->
    (exists cur' w',
       diffChild prevIsObject component nodeID idPrefix (name, Some n) cur w
         = (Normal cur', w') /\
       lastChild cur' = Some p /\
       trace w' = trace w1 /\
       same_but_chain (heap w1) (heap w') /\
       prevChildAt prevIsObject component name w' =
         prevChildAt prevIsObject component name w1) /\
    (getPropOpt nextChildren name = Some n ->
     forall w2, removeIfAbsent prevIsObject component nodeID nextChildren name w2
                  = (Normal tt, w2)).
Proof.
  intros prevIsObject component nodeID idPrefix name p n w w1 cur nextChildren Hp Hs Hr.
  split.
  - eexists. eexists. split.
    + apply (diffChild_reuse prevIsObject component nodeID idPrefix name p n cur w w1 Hp Hs Hr).
    + simpl. split; [reflexivity|]. split; [reflexivity|].
      pose proof (linked_same_but_chain component p (lastChild cur) (heap w1)) as Hsame.
      split; [exact Hsame|].
      unfold prevChildAt. simpl.
      destruct (Hsame component) as (_ & _ & _ & _ & _ & _ & Hrc & _).
      rewrite Hrc. reflexivity.
  - intros Hn w2. unfold removeIfAbsent, prevChildrenNow, bind, readComp, ret.
    rewrite (truthyProp_child _ _ _ Hn).
    destruct (getPropOpt (if prevIsObject then _ else None) name); reflexivity.
Qed.

End HighWaterMark.

(** ** Node counts of the ancestors *)

Section Ancestors.

Lemma ancestorsBelow_ext fuel h h' nodeID :
  (forall r, _rootNodeID (h' r) = _rootNodeID (h r) /\
             _parentComponent (h' r) = _parentComponent (h r)) ->
  forall a, ancestorsBelow fuel h' a nodeID = ancestorsBelow fuel h a nodeID.
Proof.
  intros H. induction fuel as [|f IH]; intros a; simpl; [reflexivity|].
  destruct a as [a|]; [|reflexivity].
  destruct (H a) as [-> ->]. rewrite IH. reflexivity.
Qed.

Lemma ancestorsBelow_mono fuel h nodeID :
  forall a l, ancestorsBelow fuel h a nodeID = Some l ->
  forall fuel', (fuel <= fuel')%nat -> ancestorsBelow fuel' h a nodeID = Some l.
Proof.
  induction fuel as [|f IH]; intros a l H fuel' Hle; simpl in H; [discriminate|].
  destruct fuel' as [|f']; [lia|]. simpl.
  destruct a as [a|]; [|exact H].
  destruct (String.eqb (_rootNodeID (h a)) nodeID); [exact H|].
  destruct (ancestorsBelow f h (_parentComponent (h a)) nodeID) as [l'|] eqn:E;
    [|discriminate].
  rewrite (IH _ _ E f') by lia. exact H.
Qed.

Lemma ancestorsBelow_det h nodeID a f1 f2 l1 l2 :
  ancestorsBelow f1 h a nodeID = Some l1 ->
  ancestorsBelow f2 h a nodeID = Some l2 -> l1 = l2.
Proof.
  intros H1 H2.
  assert (H1' := ancestorsBelow_mono _ _ _ _ _ H1 (Nat.max f1 f2) (Nat.le_max_l _ _)).
  assert (H2' := ancestorsBelow_mono _ _ _ _ _ H2 (Nat.max f1 f2) (Nat.le_max_r _ _)).
  congruence.
Qed.

(** Every component of the chain can itself start the walk, which then
    yields a list that is no longer. *)
Lemma ancestorsBelow_suffix fuel h nodeID :
  forall a l x, ancestorsBelow fuel h a nodeID = Some l -> In x l ->
  exists l', ancestorsBelow fuel h (Some x) nodeID = Some l' /\
             (List.length l' <= List.length l)%nat /\
             String.eqb (_rootNodeID (h x)) nodeID = false.
Proof.
  induction fuel as [|f IH]; intros a l x H Hin; simpl in H; [discriminate|].
  destruct a as [a|]; [|inversion H; subst; destruct Hin].
  destruct (String.eqb (_rootNodeID (h a)) nodeID) eqn:Ea;
    [inversion H; subst; destruct Hin|].
  destruct (ancestorsBelow f h (_parentComponent (h a)) nodeID) as [l0|] eqn:E;
    [|discriminate].
  inversion H; subst. destruct Hin as [->|Hin].
  - exists (x :: l0). simpl. rewrite Ea, E. auto.
  - destruct (IH _ _ _ E Hin) as (l' & Hl' & Hlen & Hx).
    exists l'. split; [|split; [simpl; lia | exact Hx]].
    apply (ancestorsBelow_mono _ _ _ _ _ Hl'). lia.
Qed.

(** A walk that comes to an end never meets a component twice. *)
Lemma ancestorsBelow_NoDup fuel h nodeID :
  forall a l, ancestorsBelow fuel h a nodeID = Some l -> NoDup l.
Proof.
  induction fuel as [|f IH]; intros a l H; simpl in H; [discriminate|].
  destruct a as [a|]; [|inversion H; constructor].
  destruct (String.eqb (_rootNodeID (h a)) nodeID) eqn:Ea; [inversion H; constructor|].
  destruct (ancestorsBelow f h (_parentComponent (h a)) nodeID) as [l0|] eqn:E;
    [|discriminate].
  inversion H; subst. constructor; [|eapply IH; eauto].
  intros Hin. destruct (ancestorsBelow_suffix _ _ _ _ _ _ E Hin) as (l' & Hl' & Hlen & _).
  assert (Ha : ancestorsBelow (S f) h (Some a) nodeID = Some (a :: l0))
    by (simpl; rewrite Ea, E; reflexivity).
  pose proof (ancestorsBelow_det _ _ _ _ _ _ _ Hl' Ha) as ->. simpl in Hlen. lia.
Qed.

Context {collab : Collaborators}.

Lemma updateAncestors_spec fuel nodeID d :
  forall a w l,
    ancestorsBelow fuel (heap w) a nodeID = Some l ->
    exists h',
      updateAncestors fuel a nodeID d w = (Normal tt, set_heap h' w) /\
      (forall r, In r l -> h' r = addNodeCount d (heap w r)) /\
      (forall r, ~ In r l -> h' r = heap w r).
Proof.
  induction fuel as [|f IH]; intros a w l H; simpl in H; [discriminate|].
  pose proof (ancestorsBelow_NoDup (S f) (heap w) nodeID a l H) as Hnd.
  simpl. destruct a as [a|].
  - unfold bind at 1, readComp at 1.
    destruct (String.eqb (_rootNodeID (heap w a)) nodeID) eqn:Ea.
    + inversion H; subst. exists (heap w). split.
      * destruct w; reflexivity.
      * split; [intros r []|reflexivity].
    + destruct (ancestorsBelow f (heap w) (_parentComponent (heap w a)) nodeID)
        as [l0|] eqn:E; [|discriminate].
      inversion H; subst. inversion Hnd as [|? ? Hnotin Hnd0]; subst.
      unfold bind at 1, writeComp at 1, modify at 1.
      unfold bind at 1, readComp at 1. simpl heap.
      set (w1 := set_heap (upd (heap w) a (addNodeCount d (heap w a))) w).
      assert (Hpar : _parentComponent (upd (heap w) a (addNodeCount d (heap w a)) a)
                     = _parentComponent (heap w a))
        by (unfold upd; rewrite Nat.eqb_refl; reflexivity).
      assert (E1 : ancestorsBelow f (heap w1) (_parentComponent (heap w a)) nodeID = Some l0).
      { rewrite <- E. apply ancestorsBelow_ext. intros r. simpl. unfold upd.
        destruct (Nat.eqb r a) eqn:Er; [apply Nat.eqb_eq in Er; subst|]; auto. }
      destruct (IH _ w1 _ E1) as (h' & Hrun & Hin & Hout).
      exists h'. split; [|split].
      * fold (addNodeCount d (heap w a)). fold w1.
        change (fun c : Component => set_nodeCount (Some (toNumber (_nodeCount c) + d)) c)
          with (addNodeCount d).
        unfold addNodeCount at 1. fold (addNodeCount d (heap w a)).
        rewrite Hpar. exact Hrun.
      * intros r [<-|Hr].
        -- rewrite (Hout a Hnotin). simpl. unfold upd. rewrite Nat.eqb_refl. reflexivity.
        -- rewrite (Hin r Hr). simpl. unfold upd.
           destruct (Nat.eqb r a) eqn:Er; [|reflexivity].
           apply Nat.eqb_eq in Er; subst. contradiction.
      * intros r Hr. rewrite (Hout r) by (intros Hx; apply Hr; right; exact Hx).
        simpl. unfold upd. destruct (Nat.eqb r a) eqn:Er; [|reflexivity].
        apply Nat.eqb_eq in Er; subst. exfalso. apply Hr. left. reflexivity.
  - inversion H; subst. exists (heap w). split.
    + destruct w; reflexivity.
    + split; [intros r []|reflexivity].
Qed.

End Ancestors.

Section NodeCounts.
Context {collab : Collaborators}.

Lemma updateAncestors_terminates fuel nodeID d :
  forall a w w',
    updateAncestors fuel a nodeID d w = (Normal tt, w') ->
    exists l, ancestorsBelow fuel (heap w) a nodeID = Some l.
Proof.
  induction fuel as [|f IH]; intros a w w' H; simpl in H; [discriminate|].
  simpl. destruct a as [a|]; [|eauto].
  unfold bind at 1, readComp at 1 in H.
  destruct (String.eqb (_rootNodeID (heap w a)) nodeID) eqn:Ea; [eauto|].
  unfold bind at 1, writeComp at 1, modify at 1 in H.
  unfold bind at 1, readComp at 1 in H.
  apply IH in H as (l & Hl). simpl in Hl.
  assert (Hpar : _parentComponent
                   (upd (heap w) a
                      (set_nodeCount (Some (toNumber (_nodeCount (heap w a)) + d)) (heap w a)) a)
                 = _parentComponent (heap w a))
    by (unfold upd; rewrite Nat.eqb_refl; reflexivity).
  rewrite Hpar in Hl.
  erewrite ancestorsBelow_ext in Hl; [rewrite Hl; eauto|].
  intros r. unfold upd.
  destruct (Nat.eqb r a) eqn:Er; [apply Nat.eqb_eq in Er; subst|]; auto.
Qed.

Lemma component_not_below fuel h nodeID c below :
  ancestorsBelow fuel h (_parentComponent (h c)) nodeID = Some below -> ~ In c below.
Proof.
  intros H Hin.
  destruct (ancestorsBelow_suffix _ _ _ _ _ _ H Hin) as (l' & Hl' & Hlen & Hc).
  assert (Hs : ancestorsBelow (S fuel) h (Some c) nodeID = Some (c :: below))
    by (simpl; rewrite Hc, H; reflexivity).
  pose proof (ancestorsBelow_det _ _ _ _ _ _ _ Hl' Hs) as ->. simpl in Hlen. lia.
Qed.

Lemma updateNodeCounts_spec fuel component nodeID next w w' :
  updateNodeCounts fuel component nodeID next w = (Normal tt, w') ->
  exists below,
    ancestorsBelow fuel (heap w) (_parentComponent (heap w component)) nodeID = Some below /\
    heap w' component = set_nodeCount (Some next) (heap w component) /\
    (forall a, In a below ->
       a <> component /\
       String.eqb (_rootNodeID (heap w a)) nodeID = false /\
       heap w' a = addNodeCount (next - toNumber (_nodeCount (heap w component))) (heap w a)) /\
    (forall r, r <> component -> ~ In r below -> heap w' r = heap w r) /\
    updateQueue w' = updateQueue w /\ markupQueue w' = markupQueue w /\
    trace w' = trace w /\ updateDepth w' = updateDepth w.
Proof.
  unfold updateNodeCounts. unfold bind at 1, readComp at 1.
  unfold bind at 1, writeComp at 1, modify at 1.
  unfold bind at 1, readComp at 1. simpl heap.
  set (d := next - toNumber (_nodeCount (heap w component))).
  set (w1 := set_heap _ w).
  assert (Hc : heap w1 component = set_nodeCount (Some next) (heap w component)).
  { unfold w1. simpl. unfold upd. rewrite Nat.eqb_refl. unfold d. f_equal. f_equal. lia. }
  assert (Hother : forall r, r <> component -> heap w1 r = heap w r).
  { intros r Hr. unfold w1. simpl. unfold upd. apply Nat.eqb_neq in Hr. rewrite Hr.
    reflexivity. }
  assert (Hext : forall r, _rootNodeID (heap w1 r) = _rootNodeID (heap w r) /\
                           _parentComponent (heap w1 r) = _parentComponent (heap w r)).
  { intros r. destruct (Nat.eq_dec r component) as [->|Hr].
    - rewrite Hc. auto.
    - rewrite Hother by exact Hr. auto. }
  change (upd (heap w) component
            (set_nodeCount (Some (toNumber (_nodeCount (heap w component)) + d))
               (heap w component)) component) with (heap w1 component).
  intros H.
  destruct (updateAncestors_terminates _ _ _ _ _ _ H) as (below & Hb).
  destruct (updateAncestors_spec fuel nodeID d _ w1 below Hb) as (h' & Hrun & Hin & Hout).
  rewrite Hrun in H. inversion H; subst w'. clear H.
  rewrite (ancestorsBelow_ext _ _ _ _ Hext) in Hb.
  destruct (Hext component) as [_ Hpar]. rewrite Hpar in Hb.
  pose proof (component_not_below _ _ _ _ _ Hb) as Hnot.
  exists below. split; [exact Hb|]. split; [|split; [|split]].
  - simpl. rewrite (Hout component Hnot). exact Hc.
  - intros a Ha.
    assert (Hne : a <> component) by (intros ->; contradiction).
    destruct (ancestorsBelow_suffix _ _ _ _ _ _ Hb Ha) as (_ & _ & _ & Hroot).
    repeat split; auto. simpl. rewrite (Hin a Ha), (Hother a Hne). reflexivity.
  - intros r Hr Hnin. simpl. rewrite (Hout r Hnin). apply Hother, Hr.
  - simpl. auto.
Qed.

Lemma diffChild_nextIndex (prevIsObject : bool) component nodeID idPrefix kv cur w cur' w' :
  diffChild prevIsObject component nodeID idPrefix kv cur w = (Normal cur', w') ->
  nextIndex cur' =
    nextIndex cur +
    match snd kv, lastChild cur' with
    | Some _, Some m => toNumber (_nodeCount (heap w' m))
    | _, _ => 0
    end.
Proof.
  unfold diffChild. unfold bind at 1. unfold prevChildrenNow, bind at 1, readComp at 1.
  simpl. unfold ret at 1.
  destruct (inheritedProp _ (fst kv)) as [builtin|].
  { unfold diffBuiltin. destruct (snd kv) as [n|].
    - unfold bind at 1, readComp at 1.
      destruct (Nat.eqb builtin (constructor (heap w n))); [discriminate|].
      unfold bind at 1.
      destruct (_mountChildByNameAtIndex _ _ _ _ _ _ w) as [[[]|?|] w2]; try discriminate.
      rewrite appendToChain_some. intros H. inversion H; subst. simpl.
      pose proof (linked_same_but_chain component n (lastChild cur) (heap w2) n) as
        (_ & _ & _ & _ & Hn & _).
      rewrite Hn. reflexivity.
    - intros H. inversion H; subst. simpl. lia. }
  set (prevChild := getPropOpt _ (fst kv)).
  unfold bind at 1. unfold get at 1.
  unfold bind at 1.
  match goal with |- context [if ?c then ?a else ?b] =>
    destruct (if c then a else b) as [[[li m]|e|] w2] eqn:E end; try discriminate.
  intros H.
  assert (Hm : m = match snd kv with Some _ => m | None => None end /\
               (snd kv <> None -> m <> None)).
  { destruct (shouldUpdateChild (heap w) prevChild (snd kv)) eqn:Hs.
    - destruct prevChild as [p|]; [|discriminate]. destruct (snd kv) as [n|]; [|discriminate].
      unfold bind, readComp, ret in E.
      destruct (child_receiveProps p (props (heap w n)) w) as [[[]|?|] w3]; try discriminate.
      destruct (moveChild _ _ _ _ w3) as [[[]|?|] w4]; try discriminate.
      inversion E; subst. split; [reflexivity|discriminate].
    - unfold bind at 1 in E.
      match type of E with context [match ?x with _ => _ end] =>
        destruct x as [[li0|?|] w3] eqn:E0 end; try discriminate.
      destruct (snd kv) as [n|].
      + unfold bind in E.
        destruct (_mountChildByNameAtIndex _ _ _ _ _ _ w3) as [[[]|?|] w4]; try discriminate.
        inversion E; subst. split; [reflexivity|discriminate].
      + inversion E; subst. split; [reflexivity|congruence]. }
  destruct Hm as [Hm1 Hm2].
  destruct m as [m|].
  - rewrite appendToChain_some in H. inversion H; subst. simpl.
    destruct (snd kv); [|discriminate].
    pose proof (linked_same_but_chain component m (lastChild cur) (heap w2) m) as
      (_ & _ & _ & _ & Hn & _).
    rewrite Hn. reflexivity.
  - inversion H; subst. simpl.
    destruct (snd kv); [exfalso; apply Hm2; [discriminate|reflexivity]|]. lia.
Qed.

(** The loop variable [nextIndex] is the sum of the node counts of the
    resulting children. *)
Lemma nextIndex_is_sum (prevIsObject : bool) component nodeID idPrefix es :
  forall cur w cur' w',
    forIn es (diffChild prevIsObject component nodeID idPrefix) cur w = (Normal cur', w') ->
    nextIndex cur' =
      fold_left Z.add
        (resultingNodeCounts prevIsObject component nodeID idPrefix es cur w)
        (nextIndex cur).
Proof.
  induction es as [|kv es IH]; intros cur w cur' w' H.
  - inversion H; subst. reflexivity.
  - rewrite forIn_cons in H. simpl.
    destruct (diffChild prevIsObject component nodeID idPrefix kv cur w)
      as [[cur1|e|] w1] eqn:E; try discriminate.
    rewrite fold_left_app, (IH _ _ _ _ H).
    apply diffChild_nextIndex in E. rewrite E.
    destruct (snd kv), (lastChild cur1); simpl; try rewrite Z.add_0_r; reflexivity.
Qed.

(** What the last step of the general case does.  When the general case of
    [_updateChildren] completes, with [cur] the cursor at the end of the
    second pass and [w3] the state before the node counts are updated:
    [nextIndex cur] is the sum of the node counts of the resulting children;
    the component's node count is set to [nextIndex cur]; every ancestor on
    the parent chain strictly below the first one whose root id is the
    addressed node id has its node count changed by [nextIndex cur] minus
    the component's node count in [w3]; every other component is as it was
    in [w3]. *)
Lemma node_count_propagation :
  forall (fuel : nat) (component : ref) (idPrefix : string)
         (nextChildren : option ChildMap) (w w' : World),
    String.eqb (resolveNodeID (heap w component) idPrefix) "" = false ->
    negb (isSome nextChildren) && negb (isSome (_renderedChildren (heap w component)))
      = false ->
    _updateChildren fuel component idPrefix nextChildren w = (Normal tt, w') ->
    nodeCountsPropagated fuel component idPrefix nextChildren w w'.
Proof.
  intros fuel component idPrefix nextChildren w w'.
  unfold nodeCountsPropagated.
  set (comp := heap w component). set (nodeID := resolveNodeID comp idPrefix).
  set (prevIsObject := isSome (_renderedChildren comp)). intros Hid Hnn H.
  unfold _updateChildren in H. unfold bind at 1, readComp at 1 in H.
  fold comp in H. fold nodeID in H. rewrite Hid in H.
  fold prevIsObject in H. rewrite Hnn in H.
  unfold bind at 1, get at 1 in H.
  destruct (countNodesBefore fuel (heap w) (_firstRenderedChild comp) nodeID 0)
    as [before|]; [|discriminate].
  unfold bind at 1 in H.
  destruct (before =? 0) eqn:Eb; [|discriminate]. apply Z.eqb_eq in Eb. subst before.
  simpl invariant in H. unfold ret at 1 in H.
  unfold bind at 1 in H.
  destruct (assignMountIndices (_renderedChildren comp) 0 w) as [[total|?|] w1] eqn:E1;
    try discriminate.
  unfold bind at 1 in H.
  destruct (diffChildren prevIsObject component nodeID idPrefix nextChildren w1)
    as [[cur|?|] w2] eqn:E2; try discriminate.
  unfold bind at 1 in H.
  destruct (removeAbsent prevIsObject component nodeID nextChildren w2)
    as [[[]|?|] w3] eqn:E3; try discriminate.
  destruct (updateNodeCounts_spec _ _ _ _ _ _ H) as (below & Hb & Hc & Hin & Hout & _).
  exists total, w1, cur, w2, w3, below.
  repeat (split; [solve [auto]|]). split; [|auto].
  unfold diffChildren in E2. apply nextIndex_is_sum in E2. exact E2.
Qed.

End NodeCounts.

(** ** A reused child across the whole call *)

Section Preserving.
Variable R : World -> World -> Prop.
Hypothesis R_refl : forall w, R w w.
Hypothesis R_trans : forall a b c, R a b -> R b c -> R a c.

Lemma preserves_ret {A} (a : A) : preserves R (ret a).
Proof. intros w r w' H. inversion H; subst. apply R_refl. Qed.

Lemma preserves_throw {A} e : preserves R (@throw A e).
Proof. intros w r w' H. inversion H; subst. apply R_refl. Qed.

Lemma preserves_get : preserves R get.
Proof. intros w r w' H. inversion H; subst. apply R_refl. Qed.

Lemma preserves_readComp c : preserves R (readComp c).
Proof. intros w r w' H. inversion H; subst. apply R_refl. Qed.

Lemma preserves_bind {A B} (m : M A) (k : A -> M B) :
  preserves R m -> (forall a, preserves R (k a)) -> preserves R (bind m k).
Proof.
  intros Hm Hk w r w' H. unfold bind in H.
  destruct (m w) as [[a|e|] w1] eqn:E.
  - eapply R_trans; [eapply Hm; eauto | eapply Hk; eauto].
  - inversion H; subst. eapply Hm; eauto.
  - inversion H; subst. eapply Hm; eauto.
Qed.

Lemma preserves_whenb b m : preserves R m -> preserves R (whenb b m).
Proof. intros H. destruct b; simpl; [exact H | apply preserves_ret]. Qed.

Lemma preserves_modify f : (forall w, R w (f w)) -> preserves R (modify f).
Proof. intros Hf w r w' H. inversion H; subst. apply Hf. Qed.

End Preserving.

Lemma getProp_setProp_other m k v j : j <> k -> getProp (setProp m k v) j = getProp m j.
Proof.
  intros Hj. unfold getProp. induction m as [|[k0 v0] m IH]; simpl.
  - destruct (String.eqb_spec k j); [congruence|reflexivity].
  - destruct (String.eqb_spec k0 k); simpl.
    + subst. destruct (String.eqb_spec k j); [congruence|reflexivity].
    + destruct (String.eqb_spec k0 j); [reflexivity|exact IH].
Qed.

Lemma getProp_setProp_same m k v : getProp (setProp m k v) k = v.
Proof.
  unfold getProp. induction m as [|[k0 v0] m IH]; simpl.
  - rewrite String.eqb_refl. reflexivity.
  - destruct (String.eqb_spec k0 k); simpl.
    + subst. rewrite String.eqb_refl. reflexivity.
    + destruct (String.eqb_spec k0 k); [congruence|exact IH].
Qed.

Lemma getProp_deleteProp_other m k j : j <> k -> getProp (deleteProp m k) j = getProp m j.
Proof.
  intros Hj. unfold getProp, deleteProp. induction m as [|[k0 v0] m IH]; simpl; [reflexivity|].
  destruct (String.eqb_spec k0 k); simpl.
  - subst. destruct (String.eqb_spec k j); [congruence|exact IH].
  - destruct (String.eqb_spec k0 j); [reflexivity|exact IH].
Qed.

Lemma getProp_deleteProp_same m k : getProp (deleteProp m k) k = None.
Proof.
  unfold getProp, deleteProp. induction m as [|[k0 v0] m IH]; simpl; [reflexivity|].
  destruct (String.eqb_spec k0 k); simpl; [exact IH|].
  destruct (String.eqb_spec k0 k); [congruence|exact IH].
Qed.

Lemma getProp_cons k v m j :
  getProp ((k, v) :: m) j = if String.eqb k j then v else getProp m j.
Proof. unfold getProp. simpl. destruct (String.eqb k j); reflexivity. Qed.

Lemma getProp_in m k v : NoDup (keys m) -> In (k, v) m -> getProp m k = v.
Proof.
  unfold getProp. induction m as [|[k0 v0] m IH]; intros Hnd Hin; [destruct Hin|].
  simpl in *. inversion Hnd as [|? ? Hnotin Hnd']; subst.
  destruct Hin as [Hin|Hin].
  - inversion Hin; subst. rewrite String.eqb_refl. reflexivity.
  - destruct (String.eqb_spec k0 k).
    + subst. exfalso. apply Hnotin. apply in_map_iff. exists (k, v). auto.
    + apply IH; assumption.
Qed.

Section ReusedChild.
Context {collab : Collaborators}.
Variables (component p : ref).

Lemma nothing_about_refl w : nothing_about p w w.
Proof. exists []. rewrite app_nil_r. auto. Qed.

Lemma nothing_about_trans a b c :
  nothing_about p a b -> nothing_about p b c -> nothing_about p a c.
Proof.
  intros (e1 & H1 & F1) (e2 & H2 & F2). exists (e1 ++ e2).
  rewrite H2, H1, app_assoc, filter_app, F1, F2. auto.
Qed.

Lemma undisturbed_refl k w : undisturbed component p k w w.
Proof. repeat split; auto using nothing_about_refl. Qed.

Lemma undisturbed_trans k a b c :
  undisturbed component p k a b -> undisturbed component p k b c ->
  undisturbed component p k a c.
Proof.
  intros (H1 & H2 & H3 & H4) (G1 & G2 & G3 & G4). repeat split.
  - intros j Hj. rewrite G1, H1; auto.
  - auto.
  - intros x. rewrite G3, H3. reflexivity.
  - eapply nothing_about_trans; eauto.
Qed.

Lemma quiet_undisturbed k w w' : quiet_about component p w w' -> undisturbed component p k w w'.
Proof.
  intros (H1 & H2 & H3). unfold undisturbed, renderedChild. rewrite H1. auto.
Qed.

Lemma undisturbed_log k e w : about p e = false -> undisturbed component p k w (log e w).
Proof.
  intros He. unfold undisturbed, renderedChild. simpl. repeat split; auto.
  exists [e]. simpl. rewrite He. auto.
Qed.

Lemma undisturbed_queues k q m w : undisturbed component p k w (set_queues q m w).
Proof.
  unfold undisturbed, renderedChild. simpl. repeat split; auto.
  exists []. simpl. rewrite app_nil_r. auto.
Qed.

(** A write that keeps the constructor and the rendered children. *)
Lemma preserves_writeComp_fields k c f :
  (forall x, constructor (f x) = constructor x /\
             _renderedChildren (f x) = _renderedChildren x) ->
  preserves (undisturbed component p k) (writeComp c f).
Proof.
  intros Hf. apply preserves_modify. intros w.
  assert (Hr : forall x, _renderedChildren (heap (set_heap (upd (heap w) c (f (heap w c))) w) x)
                         = _renderedChildren (heap w x)).
  { intros x. simpl. unfold upd. destruct (Nat.eqb x c) eqn:E; [|reflexivity].
    apply Nat.eqb_eq in E; subst. apply Hf. }
  unfold undisturbed, renderedChild. rewrite Hr. repeat split; auto.
  - intros x. simpl. unfold upd. destruct (Nat.eqb x c) eqn:E; [|reflexivity].
    apply Nat.eqb_eq in E; subst. apply Hf.
  - exists []. simpl. rewrite app_nil_r. auto.
Qed.

(** A write to the parent's rendered children that only concerns the key
    [k] and does not put [p] there. *)
Lemma preserves_writeComp_key k (g : Component -> option ChildMap) :
  (forall x j, j <> k -> getPropOpt (g x) j = getPropOpt (_renderedChildren x) j) ->
  (forall x, getPropOpt (g x) k <> Some p) ->
  preserves (undisturbed component p k)
    (writeComp component (fun c => set_renderedChildren (g c) c)).
Proof.
  intros Hother Hk. apply preserves_modify. intros w.
  unfold undisturbed, renderedChild. simpl. unfold upd. rewrite Nat.eqb_refl. simpl.
  repeat split; auto.
  - intros x. destruct (Nat.eqb x component) eqn:E; [|reflexivity].
    apply Nat.eqb_eq in E; subst. reflexivity.
  - exists []. rewrite app_nil_r. auto.
Qed.

(** [delete component._renderedChildren[k]] *)
Lemma deleteKey_undisturbed k :
  preserves (undisturbed component p k)
    (comp <- readComp component ;;
     match _renderedChildren comp with
     | Some m => writeComp component (set_renderedChildren (Some (deleteProp m k)))
     | None => throw TypeError
     end).
Proof.
  intros w r w' H. unfold bind, readComp in H.
  destruct (_renderedChildren (heap w component)) as [m|] eqn:E.
  - inversion H; subst. unfold undisturbed, renderedChild. simpl. unfold upd.
    rewrite Nat.eqb_refl. simpl. rewrite E. simpl. repeat split.
    + intros j Hj. apply getProp_deleteProp_other, Hj.
    + intros _. rewrite getProp_deleteProp_same. discriminate.
    + intros x. destruct (Nat.eqb x component) eqn:Ex; [|reflexivity].
      apply Nat.eqb_eq in Ex; subst. reflexivity.
    + exists []. rewrite app_nil_r. auto.
  - inversion H; subst. apply undisturbed_refl.
Qed.

Hypothesis Hquiet : capabilities_quiet_about component p.

Ltac undisturb k :=
  repeat first
    [ apply deleteKey_undisturbed
    | apply (preserves_bind _ (undisturbed_trans k)); [|intros ?]
    | apply (preserves_whenb _ (undisturbed_refl k))
    | apply (preserves_ret _ (undisturbed_refl k))
    | apply (preserves_throw _ (undisturbed_refl k))
    | apply (preserves_readComp _ (undisturbed_refl k))
    | apply (preserves_get _ (undisturbed_refl k))
    | apply preserves_writeComp_fields; intros; split; reflexivity
    | apply preserves_modify; intros; apply undisturbed_queues ].

Lemma unmountChildByName_undisturbed nodeID c k :
  c <> p -> preserves (undisturbed component p k) (_unmountChildByName component nodeID c k).
Proof.
  intros Hc. unfold _unmountChildByName, removeChild, enqueueRemove, child_unmountComponent.
  apply (preserves_bind _ (undisturbed_trans k)); [undisturb k|]. intros cc.
  destruct (isValidComponent cc); [|undisturb k].
  undisturb k.
  - apply preserves_modify. intros w. apply undisturbed_log. simpl.
    apply Nat.eqb_neq. exact Hc.
  - intros w r w' H. apply quiet_undisturbed.
    destruct Hquiet as (_ & _ & Hu). exact (Hu _ _ _ _ H).
Qed.

Lemma mountChildByNameAtIndex_undisturbed nodeID idPrefix c k i :
  c <> p ->
  preserves (undisturbed component p k)
    (_mountChildByNameAtIndex component nodeID idPrefix c k i).
Proof.
  intros Hc. unfold _mountChildByNameAtIndex, createChild, enqueueMarkup, child_mountComponent.
  undisturb k.
  - apply preserves_modify. intros w. apply undisturbed_log. simpl.
    apply Nat.eqb_neq. exact Hc.
  - intros w r w' H. apply quiet_undisturbed.
    destruct Hquiet as (Hm & _ & _). exact (Hm _ _ _ _ _ H).
  - apply (preserves_writeComp_key k
             (fun x => Some (setProp (entries (_renderedChildren x)) k (Some c)))).
    + intros x j Hj. simpl. rewrite getProp_setProp_other by exact Hj.
      destruct (_renderedChildren x); reflexivity.
    + intros x. simpl. rewrite getProp_setProp_same. congruence.
Qed.

Lemma receiveProps_undisturbed c nextProps k :
  c <> p -> preserves (undisturbed component p k) (child_receiveProps c nextProps).
Proof.
  intros Hc. unfold child_receiveProps. undisturb k.
  - apply preserves_modify. intros w. apply undisturbed_log. simpl.
    apply Nat.eqb_neq. exact Hc.
  - intros w r w' H. apply quiet_undisturbed.
    destruct Hquiet as (_ & Hr & _). exact (Hr _ _ _ _ _ H).
Qed.

Lemma appendToChain_undisturbed cur li m k :
  preserves (undisturbed component p k) (appendToChain component cur li m).
Proof. unfold appendToChain. destruct m; undisturb k. Qed.

Ltac undisturb_calls k :=
  repeat first
    [ apply receiveProps_undisturbed; assumption
    | apply unmountChildByName_undisturbed; assumption
    | apply mountChildByNameAtIndex_undisturbed; assumption
    | apply (preserves_bind _ (undisturbed_trans k)); [|intros ?]
    | apply (preserves_whenb _ (undisturbed_refl k))
    | apply (preserves_ret _ (undisturbed_refl k))
    | apply (preserves_throw _ (undisturbed_refl k))
    | apply (preserves_readComp _ (undisturbed_refl k))
    | apply preserves_modify; intros; apply undisturbed_queues ].

(** The work on a key under which [p] is neither the previous nor the next
    child does not concern [p]. *)
Lemma diffChild_other nodeID idPrefix k v cur w r w' :
  diffChild true component nodeID idPrefix (k, v) cur w = (r, w') ->
  renderedChild w component k <> Some p ->
  v <> Some p ->
  undisturbed component p k w w'.
Proof.
  intros H Hprev Hv. revert H.
  unfold diffChild. unfold bind at 1. unfold prevChildrenNow, bind at 1, readComp at 1.
  unfold ret at 1. cbn beta zeta iota delta [fst snd].
  destruct (inheritedProp _ k) as [builtin|].
  { match goal with |- ?m w = _ -> _ =>
      assert (Hm : preserves (undisturbed component p k) m);
        [|intros H; exact (Hm _ _ _ H)] end.
    unfold diffBuiltin. destruct v as [n|]; [|apply appendToChain_undisturbed].
    assert (Hn : n <> p) by congruence.
    apply (preserves_bind _ (undisturbed_trans k));
      [apply (preserves_readComp _ (undisturbed_refl k))|]. intros nc.
    destruct (Nat.eqb builtin (constructor nc));
      [apply (preserves_throw _ (undisturbed_refl k))|].
    apply (preserves_bind _ (undisturbed_trans k));
      [apply mountChildByNameAtIndex_undisturbed; exact Hn|].
    intros _. apply appendToChain_undisturbed. }
  cbv zeta.
  fold (renderedChild w component k).
  set (prevChild := renderedChild w component k) in *.
  unfold bind at 1. unfold get at 1.
  match goal with |- ?m w = _ -> _ =>
    assert (Hm : preserves (undisturbed component p k) m); [|intros H; exact (Hm _ _ _ H)] end.
  apply (preserves_bind _ (undisturbed_trans k)).
  - destruct (shouldUpdateChild (heap w) prevChild v).
    + destruct prevChild as [q|]; [|undisturb k]. destruct v as [n|]; [|undisturb k].
      unfold moveChild, enqueueMove.
      assert (Hq : q <> p) by congruence.
      undisturb_calls k.
    + apply (preserves_bind _ (undisturbed_trans k)).
      * destruct prevChild as [q|]; [|undisturb k].
        assert (Hq : q <> p) by congruence.
        undisturb_calls k.
      * intros li. destruct v as [n|]; [|undisturb k].
        assert (Hn : n <> p) by congruence.
        undisturb_calls k.
  - intros [li m]. apply appendToChain_undisturbed.
Qed.

(** The work on the key of a reused child [p] is one [receiveProps] on [p]. *)
Lemma diffChild_reused nodeID idPrefix name n cur w cur' w' :
  diffChild true component nodeID idPrefix (name, Some n) cur w = (Normal cur', w') ->
  renderedChild w component name = Some p ->
  shouldUpdateChild (heap w) (Some p) (Some n) = true ->
  (forall j, renderedChild w' component j = renderedChild w component j) /\
  (forall x, constructor (heap w' x) = constructor (heap w x)) /\
  exists evs nextProps,
    trace w' = trace w ++ evs /\ filter (about p) evs = [CallReceiveProps p nextProps].
Proof.
  intros H Hp Hs.
  destruct (receiveProps p (props (heap w n)) (log (CallReceiveProps p (props (heap w n))) w))
    as [[[]|e|] w1] eqn:Hr.
  - rewrite (diffChild_reuse true component nodeID idPrefix name p n cur w w1 Hp Hs Hr) in H.
    inversion H; subst. clear H.
    destruct Hquiet as (_ & Hq & _).
    destruct (Hq _ _ _ _ _ Hr) as (Hmap & Hctor & (evs & Ht & Hf)).
    pose proof (linked_same_but_chain component p (lastChild cur) (heap w1)) as Hsame.
    unfold renderedChild. simpl. repeat split.
    + intros j. destruct (Hsame component) as (_ & _ & _ & _ & _ & _ & Hrc & _).
      rewrite Hrc, Hmap. reflexivity.
    + intros x. destruct (Hsame x) as (Hc & _). rewrite Hc, Hctor. reflexivity.
    + exists (CallReceiveProps p (props (heap w n)) :: evs), (props (heap w n)).
      simpl in Ht. rewrite Ht, <- app_assoc. split; [reflexivity|].
      simpl. rewrite Nat.eqb_refl, Hf. reflexivity.
  - exfalso. revert H.
    unfold diffChild, prevChildrenNow, bind, readComp, get, ret. simpl.
    unfold renderedChild in Hp. rewrite (inheritedProp_own _ _ _ Hp), Hp, Hs.
    unfold child_receiveProps, bind, modify. rewrite Hr. discriminate.
  - exfalso. revert H.
    unfold diffChild, prevChildrenNow, bind, readComp, get, ret. simpl.
    unfold renderedChild in Hp. rewrite (inheritedProp_own _ _ _ Hp), Hp, Hs.
    unfold child_receiveProps, bind, modify. rewrite Hr. discriminate.
Qed.

Lemma shouldUpdateChild_constructors h h' cur new :
  (forall x, constructor (h' x) = constructor (h x)) ->
  shouldUpdateChild h' cur new = shouldUpdateChild h cur new.
Proof.
  intros H. destruct cur, new; simpl; try reflexivity. rewrite !H. reflexivity.
Qed.

(** The second pass: [p] stays under [name], appears under no other key,
    and is asked for [receiveProps] once if [name] is among the keys worked
    through, and for nothing otherwise. *)
Lemma secondPass_reused nodeID idPrefix name n es :
  forall cur w cur' w',
    forIn es (diffChild true component nodeID idPrefix) cur w = (Normal cur', w') ->
    NoDup (keys es) ->
    (forall k v, In (k, v) es -> k <> name -> v <> Some p) ->
    (forall v, In (name, v) es -> v = Some n) ->
    renderedChild w component name = Some p ->
    (forall j, j <> name -> renderedChild w component j <> Some p) ->
    shouldUpdateChild (heap w) (Some p) (Some n) = true ->
    renderedChild w' component name = Some p /\
    (forall j, j <> name -> renderedChild w' component j <> Some p) /\
    exists evs,
      trace w' = trace w ++ evs /\
      ((In name (keys es) /\
        exists nextProps, filter (about p) evs = [CallReceiveProps p nextProps]) \/
       (~ In name (keys es) /\ filter (about p) evs = [])).
Proof.
  induction es as [|[k v] es IH]; intros cur w cur' w' H Hnd Hnp Hname Hp Hothers Hs.
  - inversion H; subst. split; [exact Hp|]. split; [exact Hothers|].
    exists []. rewrite app_nil_r. split; [reflexivity|]. right. split; [intros []|reflexivity].
  - rewrite forIn_cons in H.
    destruct (diffChild true component nodeID idPrefix (k, v) cur w) as [[cur1|e|] w1] eqn:E;
      try discriminate.
    simpl in Hnd. inversion Hnd as [|? ? Hnotin Hnd']; subst.
    assert (Hnp' : forall k0 v0, In (k0, v0) es -> k0 <> name -> v0 <> Some p)
      by (intros k0 v0 Hin; apply (Hnp k0 v0); right; exact Hin).
    assert (Hname' : forall v0, In (name, v0) es -> v0 = Some n)
      by (intros v0 Hin; apply Hname; right; exact Hin).
    destruct (String.eqb_spec k name) as [->|Hk].
    + rewrite (Hname v (or_introl eq_refl)) in E.
      destruct (diffChild_reused _ _ _ _ _ _ _ _ E Hp Hs) as (Hmap & Hctor & (evs1 & pr & Ht1 & Hf1)).
      destruct (IH cur1 w1 cur' w' H Hnd' Hnp' Hname') as (Hp' & Ho' & (evs2 & Ht2 & Hcase)).
      * rewrite Hmap. exact Hp.
      * intros j Hj. rewrite Hmap. apply Hothers, Hj.
      * rewrite (shouldUpdateChild_constructors _ _ _ _ Hctor). exact Hs.
      * split; [exact Hp'|]. split; [exact Ho'|].
        exists (evs1 ++ evs2). rewrite Ht2, Ht1, app_assoc. split; [reflexivity|].
        left. split; [left; reflexivity|]. exists pr.
        destruct Hcase as [[Hin _]|[_ Hf2]]; [contradiction|].
        rewrite filter_app, Hf1, Hf2. reflexivity.
    + assert (Hund : undisturbed component p k w w1).
      { apply (diffChild_other _ _ _ _ _ _ _ _ E).
        - apply Hothers. exact Hk.
        - apply (Hnp k v); [left; reflexivity|exact Hk]. }
      destruct Hund as (Hu1 & Hu2 & Hu3 & (evs1 & Ht1 & Hf1)).
      destruct (IH cur1 w1 cur' w' H Hnd' Hnp' Hname') as (Hp' & Ho' & (evs2 & Ht2 & Hcase)).
      * rewrite Hu1 by (intros Heq; apply Hk; symmetry; exact Heq). exact Hp.
      * intros j Hj. destruct (String.eqb_spec j k) as [->|Hjk].
        -- apply Hu2, Hothers, Hk.
        -- rewrite Hu1 by exact Hjk. apply Hothers, Hj.
      * rewrite (shouldUpdateChild_constructors _ _ _ _ Hu3). exact Hs.
      * split; [exact Hp'|]. split; [exact Ho'|].
        exists (evs1 ++ evs2). rewrite Ht2, Ht1, app_assoc. split; [reflexivity|].
        rewrite filter_app, Hf1. simpl.
        destruct Hcase as [[Hin Hex]|[Hnin Hf2]].
        -- left. split; [right; exact Hin|exact Hex].
        -- right. split; [|exact Hf2].
           intros [Heq|Hin]; [apply Hk; exact Heq|contradiction].
Qed.

(** The third pass does not concern a child whose key the next children
    hold. *)
Lemma thirdPass_reused nodeID next name n ks :
  getProp next name = Some n ->
  forall w w',
    forIn ks (fun k _ => removeIfAbsent true component nodeID (Some next) k) tt w
      = (Normal tt, w') ->
    renderedChild w component name = Some p ->
    (forall j, j <> name -> renderedChild w component j <> Some p) ->
    renderedChild w' component name = Some p /\ nothing_about p w w'.
Proof.
  intros Hn. induction ks as [|k ks IH]; intros w w' H Hp Hothers.
  - inversion H; subst. split; [exact Hp|apply nothing_about_refl].
  - rewrite forIn_cons in H.
    destruct (removeIfAbsent true component nodeID (Some next) k w) as [[[]|e|] w1] eqn:E;
      try discriminate.
    assert (Hund : undisturbed component p k w w1 /\ (k = name -> w1 = w)).
    { revert E. unfold removeIfAbsent, prevChildrenNow, bind, readComp, ret. simpl.
      fold (renderedChild w component k).
      destruct (renderedChild w component k) as [c|] eqn:Ec.
      - destruct (truthyProp (Some next) k) eqn:En; simpl.
        + intros E. inversion E; subst. split; [apply undisturbed_refl|reflexivity].
        + intros E. split.
          * apply (unmountChildByName_undisturbed nodeID c k) in E; [exact E|].
            intros ->. destruct (String.eqb_spec k name) as [->|Hk].
            -- rewrite (truthyProp_child (Some next) name n Hn) in En. discriminate.
            -- apply (Hothers k Hk). exact Ec.
          * intros ->. rewrite (truthyProp_child (Some next) name n Hn) in En. discriminate.
      - intros E. inversion E; subst. split; [apply undisturbed_refl|reflexivity]. }
    destruct Hund as ((Hu1 & Hu2 & _ & Hu4) & Hsame).
    destruct (String.eqb_spec k name) as [->|Hk].
    + rewrite (Hsame eq_refl) in H. apply (IH _ _ H Hp Hothers).
    + destruct (IH _ _ H) as (Hp' & Hn').
      * rewrite Hu1 by (intros Heq; apply Hk; symmetry; exact Heq). exact Hp.
      * intros j Hj. destruct (String.eqb_spec j k) as [->|Hjk].
        -- apply Hu2, Hothers, Hk.
        -- rewrite Hu1 by exact Hjk. apply Hothers, Hj.
      * split; [exact Hp'|]. eapply nothing_about_trans; eauto.
Qed.

End ReusedChild.

Section ReusedChildAcrossTheCall.
Context {collab : Collaborators}.

Lemma quiet_about_refl component p w : quiet_about component p w w.
Proof. repeat split; auto. exists []. rewrite app_nil_r. auto. Qed.

Lemma quiet_about_trans component p a b c :
  quiet_about component p a b -> quiet_about component p b c -> quiet_about component p a c.
Proof.
  intros (H1 & H2 & H3) (G1 & G2 & G3). repeat split.
  - congruence.
  - intros x. rewrite G2, H2. reflexivity.
  - eapply nothing_about_trans; eauto.
Qed.

Lemma assignMountIndices_quiet component p prev start :
  preserves (quiet_about component p) (assignMountIndices prev start).
Proof.
  unfold assignMountIndices. generalize start. clear start.
  induction (entries prev) as [|[k [c|]] es IH]; intros start; simpl.
  - apply (preserves_ret _ (quiet_about_refl component p)).
  - apply (preserves_bind _ (quiet_about_trans component p)); [|intros ?; apply IH].
    apply (preserves_bind _ (quiet_about_trans component p)).
    + apply preserves_modify. intros w. unfold quiet_about. simpl. unfold upd.
      repeat split.
      * destruct (Nat.eqb component c) eqn:E; [|reflexivity].
        apply Nat.eqb_eq in E; subst. reflexivity.
      * intros x. destruct (Nat.eqb x c) eqn:E; [|reflexivity].
        apply Nat.eqb_eq in E; subst. reflexivity.
      * exists []. rewrite app_nil_r. auto.
    + intros _. apply (preserves_bind _ (quiet_about_trans component p)).
      * apply (preserves_readComp _ (quiet_about_refl component p)).
      * intros ?. apply (preserves_ret _ (quiet_about_refl component p)).
  - apply (preserves_bind _ (quiet_about_trans component p)); [|intros ?; apply IH].
    apply (preserves_ret _ (quiet_about_refl component p)).
Qed.

Lemma getProp_some_in m k c : getProp m k = Some c -> In k (keys m).
Proof.
  unfold getProp. induction m as [|[k0 v0] m IH]; simpl; [discriminate|].
  destruct (String.eqb_spec k0 k); [left; assumption|right; auto].
Qed.


End ReusedChildAcrossTheCall.


(** ** Mount indices *)

Lemma upd_same h r c : upd h r c r = c.
Proof. unfold upd. rewrite Nat.eqb_refl. reflexivity. Qed.

Lemma upd_other h r c x : x <> r -> upd h r c x = h x.
Proof. intros H. unfold upd. apply Nat.eqb_neq in H. rewrite H. reflexivity. Qed.

Lemma fold_add_shift l : forall b, fold_left Z.add l b = b + fold_left Z.add l 0.
Proof.
  induction l as [|x l IH]; intros b; simpl; [lia|].
  rewrite (IH (b + x)), (IH x). lia.
Qed.

Lemma sumZ_cons a l : sumZ (a :: l) = a + sumZ l.
Proof. unfold sumZ. simpl. apply fold_add_shift. Qed.

Lemma chained_ext h h' component l :
  (forall c, In c l -> h' c = h c) ->
  forall prev, chained h component prev l -> chained h' component prev l.
Proof.
  induction l as [|c l IH]; intros Heq prev H; simpl in *; [exact I|].
  destruct H as (Hp & Hs & Hr). rewrite (Heq c) by (left; reflexivity).
  repeat split; auto.
Qed.

Lemma nodeCounts_ext h h' l :
  (forall c, In c l -> h' c = h c) -> nodeCounts h' l = nodeCounts h l.
Proof.
  intros Heq. unfold nodeCounts. apply map_ext_in. intros c Hc. rewrite (Heq c Hc).
  reflexivity.
Qed.

Section MountIndices.
Context {collab : Collaborators}.

Lemma prefixSums_ext h h' l :
  (forall r, _nodeCount (h' r) = _nodeCount (h r)) ->
  forall start, prefixSums h' l start = prefixSums h l start.
Proof.
  intros H. induction l as [|c l IH]; intros start; simpl; [reflexivity|].
  rewrite H, IH. reflexivity.
Qed.

Lemma prefixSums_refs h l : forall start c s,
  In (c, s) (prefixSums h l start) -> In c l.
Proof.
  induction l as [|a l IH]; intros start c s H; simpl in *; [exact H|].
  destruct H as [H|H]; [inversion H; auto | right; eapply IH; eauto].
Qed.

Lemma prefixSums_lower h l : forall start c s,
  (forall x, In x l -> 0 < toNumber (_nodeCount (h x))) ->
  In (c, s) (prefixSums h l start) -> start <= s.
Proof.
  induction l as [|a l IH]; intros start c s Hpos H; simpl in *; [destruct H|].
  destruct H as [H|H]; [inversion H; lia|].
  apply IH in H; [|intros x Hx; apply Hpos; right; exact Hx].
  specialize (Hpos a (or_introl eq_refl)). lia.
Qed.

Lemma prefixSums_increasing h l : forall start,
  (forall x, In x l -> 0 < toNumber (_nodeCount (h x))) ->
  StronglySorted Z.lt (map snd (prefixSums h l start)).
Proof.
  induction l as [|a l IH]; intros start Hpos; simpl; constructor.
  - apply IH. intros x Hx. apply Hpos. right. exact Hx.
  - apply Forall_forall. intros s Hs. apply in_map_iff in Hs as ([c s'] & <- & Hin).
    simpl. apply prefixSums_lower in Hin; [|intros x Hx; apply Hpos; right; exact Hx].
    specialize (Hpos a (or_introl eq_refl)). lia.
Qed.

(** The first pass writes the running total into each previous child. *)
Lemma assignMountIndices_spec (prev : ChildMap) :
  forall start w,
    NoDup (childRefs prev) ->
    exists total h',
      assignMountIndices (Some prev) start w = (Normal total, set_heap h' w) /\
      (forall c s, In (c, s) (prefixSums (heap w) (childRefs prev) start) ->
                   h' c = set_mountIndex (Some s) (heap w c)) /\
      (forall r, ~ In r (childRefs prev) -> h' r = heap w r).
Proof.
  unfold assignMountIndices. simpl entries.
  induction prev as [|[k [c|]] prev IH]; intros start w Hnd; simpl.
  - exists start, (heap w). split; [destruct w; reflexivity|]. split; [intros ? ? []|auto].
  - inversion Hnd as [|? ? Hnotin Hnd']; subst.
    unfold bind at 1. unfold bind at 1, writeComp at 1, modify at 1.
    unfold bind at 1, readComp at 1. unfold ret at 1. simpl heap.
    set (w1 := set_heap (upd (heap w) c (set_mountIndex (Some start) (heap w c))) w).
    assert (Hc : heap w1 c = set_mountIndex (Some start) (heap w c))
      by (unfold w1; simpl; unfold upd; rewrite Nat.eqb_refl; reflexivity).
    assert (Ho : forall r, r <> c -> heap w1 r = heap w r).
    { intros r Hr. unfold w1. simpl. unfold upd. apply Nat.eqb_neq in Hr.
      rewrite Hr. reflexivity. }
    assert (Hn : forall r, _nodeCount (heap w1 r) = _nodeCount (heap w r)).
    { intros r. destruct (Nat.eq_dec r c) as [->|Hr]; [rewrite Hc|rewrite Ho by exact Hr];
        reflexivity. }
    change (upd (heap w) c (set_mountIndex (Some start) (heap w c)) c) with (heap w1 c).
    rewrite Hc. simpl _nodeCount.
    destruct (IH (start + toNumber (_nodeCount (heap w c))) w1 Hnd')
      as (total & h' & Hrun & Hin & Hout).
    exists total, h'. split; [exact Hrun|]. split.
    + intros x s [Hx|Hx].
      * inversion Hx; subst. rewrite (Hout _ Hnotin). exact Hc.
      * rewrite (prefixSums_ext _ _ _ Hn) in Hin.
        rewrite (Hin _ _ Hx). rewrite Ho; [reflexivity|].
        intros ->. apply Hnotin. eapply prefixSums_refs; eauto.
    + intros r Hr. rewrite Hout by (intros Hx; apply Hr; right; exact Hx).
      apply Ho. intros ->. apply Hr. left. reflexivity.
  - apply IH. exact Hnd.
Qed.

(** What the first pass leaves behind. *)
Lemma first_pass_result (prev : ChildMap) (w : World) :
  NoDup (childRefs prev) ->
  exists total w',
    assignMountIndices (Some prev) 0 w = (Normal total, w') /\
    mountIndicesArePrefixSums (heap w') prev /\
    (forall r, _nodeCount (heap w' r) = _nodeCount (heap w r)) /\
    ((forall c, In c (childRefs prev) -> 0 < toNumber (_nodeCount (heap w c))) ->
     StronglySorted Z.lt (map snd (prefixSums (heap w') (childRefs prev) 0))).
Proof.
  intros Hnd.
  destruct (assignMountIndices_spec prev 0 w Hnd) as (total & h' & Hrun & Hin & Hout).
  assert (Hn : forall r, _nodeCount (h' r) = _nodeCount (heap w r)).
  { intros r. destruct (in_dec Nat.eq_dec r (childRefs prev)) as [Hr|Hr].
    - clear - Hr Hin. revert Hr Hin. generalize 0. induction (childRefs prev) as [|a l IH];
        intros start Hr Hin; [destruct Hr|].
      destruct (Nat.eq_dec r a) as [->|Hne].
      + rewrite (Hin a start); [reflexivity|left; reflexivity].
      + destruct Hr as [->|Hr]; [congruence|].
        apply (IH (start + toNumber (_nodeCount (heap w a))) Hr).
        intros c s Hc. apply Hin. right. exact Hc.
    - rewrite Hout by exact Hr. reflexivity. }
  exists total, (set_heap h' w). split; [exact Hrun|]. simpl. split; [|split].
  - intros c s Hc. rewrite (prefixSums_ext _ _ _ Hn) in Hc.
    rewrite (Hin c s Hc). reflexivity.
  - exact Hn.
  - intros Hpos. rewrite (prefixSums_ext _ _ _ Hn). apply prefixSums_increasing, Hpos.
Qed.

(** The general case of [_updateChildren] starts with the first pass and
    goes on from the state the first pass leaves. *)
Lemma updateChildren_starts_with_first_pass fuel component idPrefix next prev w total w1 :
  String.eqb (resolveNodeID (heap w component) idPrefix) "" = false ->
  _renderedChildren (heap w component) = Some prev ->
  countNodesBefore fuel (heap w) (_firstRenderedChild (heap w component))
    (resolveNodeID (heap w component) idPrefix) 0 = Some 0 ->
  assignMountIndices (Some prev) 0 w = (Normal total, w1) ->
  let nodeID := resolveNodeID (heap w component) idPrefix in
  _updateChildren fuel component idPrefix next w =
    (cur <- diffChildren true component nodeID idPrefix next ;;
     removeAbsent true component nodeID next ;;;
     updateNodeCounts fuel component nodeID (nextIndex cur)) w1.
Proof.
  intros Hid Hprev Hwalk Hfirst nodeID.
  unfold _updateChildren. unfold bind at 1, readComp at 1.
  fold nodeID in Hid, Hwalk |- *. rewrite Hid, Hprev.
  replace (negb (isSome next) && negb (isSome (Some prev))) with false
    by (destruct next; reflexivity).
  unfold bind at 1, get at 1. rewrite Hwalk.
  unfold bind at 1. simpl invariant. unfold ret at 1.
  unfold bind at 1. rewrite Hfirst. reflexivity.
Qed.

(** [mountChildren] changes the mount indices only as the children's
    [mountComponent] changes them: whatever relation between the mount
    indices before and after holds of every [mountComponent] run, and goes
    through composition, holds of [mountChildren]. *)
Lemma mountChildren_mountIndices
    (Q : (ref -> jsnum) -> (ref -> jsnum) -> Prop) component idPrefix children :
  (forall f g, (forall x, f x = g x) -> Q f g) ->
  (forall f g h, Q f g -> Q g h -> Q f h) ->
  (forall c rootID, preserves (onMountIndices Q) (mountComponent c rootID)) ->
  preserves (onMountIndices Q) (mountChildren component idPrefix children).
Proof.
  intros Qsame Qtrans Hm.
  set (R := onMountIndices Q).
  assert (R_refl : forall w, R w w) by (intros w; apply Qsame; reflexivity).
  assert (R_trans : forall a b c, R a b -> R b c -> R a c)
    by (intros a b c; apply Qtrans).
  assert (R_log : forall e, preserves R (modify (log e)))
    by (intros e; apply preserves_modify; intros w; apply Qsame; reflexivity).
  assert (R_write : forall c f, (forall x, _mountIndex (f x) = _mountIndex x) ->
                                preserves R (writeComp c f)).
  { intros c f Hf. apply preserves_modify. intros w. apply Qsame. intros x.
    unfold mountIndices. simpl. unfold upd.
    destruct (Nat.eqb x c) eqn:E; [|reflexivity].
    apply Nat.eqb_eq in E; subst. symmetry. apply Hf. }
  unfold mountChildren.
  apply (preserves_bind R R_trans).
  - generalize (@nil string, 0, @None ref).
    induction (entries children) as [|kv es IH]; intros st; simpl.
    + apply (preserves_ret R R_refl).
    + apply (preserves_bind R R_trans); [|intros st'; apply IH].
      destruct st as [[images index] last].
      destruct (snd kv) as [child|]; [|apply (preserves_ret R R_refl)].
      unfold child_mountComponent.
      repeat first
        [ apply Hm | apply R_log
        | apply R_write; intros; reflexivity
        | apply (preserves_readComp R R_refl)
        | apply (preserves_ret R R_refl)
        | apply (preserves_whenb R R_refl)
        | apply (preserves_bind R R_trans); [|intros ?] ].
  - intros [[images index] last].
    repeat first
      [ apply R_write; intros; reflexivity
      | apply (preserves_readComp R R_refl)
      | apply (preserves_ret R R_refl)
      | apply (preserves_whenb R R_refl)
      | apply (preserves_bind R R_trans); [|intros ?] ].
Qed.

Lemma mount_loop (S : list ref) (component : ref) (idPrefix : string) :
  (forall c rootID, preserves (keeps_others S c) (mountComponent c rootID)) ->
  In component S ->
  forall es images index last w st w',
    NoDup (childRefs es) -> incl (childRefs es) S -> ~ In component (childRefs es) ->
    forIn es
      (fun kv (st : list string * Z * option ref) =>
         let '(mountImages, index, lastChild) := st in
         match snd kv with
         | Some child =>
             mountImage <- child_mountComponent child (String.append idPrefix (fst kv)) ;;
             whenb (negb (isSome lastChild))
               (writeComp component (set_firstRenderedChild (Some child))) ;;;
             writeComp child (set_parentComponent (Some component)) ;;;
             writeComp child (set_previousSibling lastChild) ;;;
             c <- readComp child ;;
             ret (mountImages ++ [mountImage], index + toNumber (_nodeCount c), Some child)
         | None => ret st
         end)
      (images, index, last) w = (Normal st, w') ->
    exists images',
      fst (fst st) = images ++ images' /\
      snd (fst st) = index + sumZ (nodeCounts (heap w') (childRefs es)) /\
      List.length images' = List.length (childRefs es) /\
      chained (heap w') component last (childRefs es) /\
      heap w' component =
        match last, childRefs es with
        | None, c :: _ => set_firstRenderedChild (Some c) (heap w component)
        | _, _ => heap w component
        end /\
      (forall x, In x S -> ~ In x (childRefs es) -> x <> component ->
         heap w' x = heap w x).
Proof.
  intros Hframe Hcomp.
  induction es as [|[k [c|]] es IH]; intros images index last w st w' Hnd Hin Hnot H.
  - inversion H; subst. exists []. simpl. rewrite app_nil_r.
    repeat split; auto; [unfold sumZ; simpl; lia | destruct last; reflexivity].
  - rewrite forIn_cons in H.
    match type of H with
    | match ?step with _ => _ end = _ => destruct step as [[st1|e|] w2] eqn:Es
    end; try discriminate.
    simpl in Es. unfold child_mountComponent in Es. unfold bind at 1 in Es.
    unfold bind at 1, modify at 1 in Es.
    destruct (mountComponent c (String.append idPrefix k)
                (log (CallMount c (String.append idPrefix k)) w))
      as [[img|e|] w1] eqn:Em; try discriminate.
    simpl childRefs in *. inversion Hnd as [|? ? Hnotin Hnd']; subst.
    assert (Hc : In c S) by (apply Hin; left; reflexivity).
    assert (Hcc : component <> c) by (intros ->; apply Hnot; left; reflexivity).
    assert (Hw1 : forall x, In x S -> x <> c -> heap w1 x = heap w x)
      by (intros x Hx Hxc; apply (Hframe _ _ _ _ _ Em x Hx Hxc)).
    assert (Es' : st1 = (images ++ [img], index + toNumber (_nodeCount (heap w2 c)), Some c)
                  /\ heap w2 c = set_previousSibling last
                                   (set_parentComponent (Some component) (heap w1 c))
                  /\ heap w2 component =
                       (if isSome last then heap w1 component
                        else set_firstRenderedChild (Some c) (heap w1 component))
                  /\ (forall x, x <> c -> x <> component -> heap w2 x = heap w1 x)).
    { assert (Hcc' : c <> component) by (intros E; apply Hcc; symmetry; exact E).
      destruct last; simpl in Es;
        unfold bind, writeComp, modify, readComp, ret in Es; simpl in Es;
        inversion Es; subst st1 w2; clear Es; simpl;
        repeat rewrite ?upd_same, ?(upd_other _ c _ component Hcc),
          ?(upd_other _ component _ c Hcc');
        (split; [reflexivity|]); (split; [reflexivity|]); (split; [reflexivity|]);
        intros x Hxc Hxp; rewrite ?upd_other by assumption; reflexivity. }
    clear Es. destruct Es' as (-> & Hw2c & Hw2p & Hw2o).
    apply IH in H; [|exact Hnd'|intros x Hx; apply Hin; right; exact Hx
                    |intros Hx; apply Hnot; right; exact Hx].
    destruct H as (images' & Him & Hidx & Hlen & Hch & Hp & Hout).
    assert (Hfc : heap w' c = heap w2 c)
      by (apply Hout; [exact Hc|exact Hnotin|intros E; apply Hcc; symmetry; exact E]).
    exists (img :: images'). simpl fst in *. simpl snd in *.
    split; [rewrite Him, <- app_assoc; reflexivity|].
    split; [rewrite Hidx; unfold nodeCounts; simpl map; rewrite sumZ_cons, Hfc; lia|].
    split; [simpl; lia|].
    split; [simpl; rewrite Hfc, Hw2c; repeat split; exact Hch|].
    split.
    + rewrite Hp, Hw2p, (Hw1 component Hcomp Hcc).
      destruct last; reflexivity.
    + intros x Hx Hn Hxp.
      assert (Hxc : x <> c) by (intros ->; apply Hn; left; reflexivity).
      rewrite Hout by (auto; intros Hx'; apply Hn; right; exact Hx').
      rewrite Hw2o by assumption. apply Hw1; assumption.
  - rewrite forIn_cons in H. simpl in H. apply IH in H; auto.
Qed.

(** The running total of [mountChildren] becomes the parent's node count. *)
Lemma mountChildren_nodeCount component idPrefix children w images w' :
  NoDup (childRefs (entries children)) ->
  ~ In component (childRefs (entries children)) ->
  (forall c rootID,
     preserves (keeps_others (component :: childRefs (entries children)) c)
       (mountComponent c rootID)) ->
  mountChildren component idPrefix children w = (Normal images, w') ->
  _nodeCount (heap w' component) =
    (if String.eqb (_rootNodeID (heap w component)) idPrefix
     then Some (sumZ (nodeCounts (heap w') (childRefs (entries children))))
     else _nodeCount (heap w component)).
Proof.
  intros Hnd Hnot Hframe H.
  set (cs := childRefs (entries children)) in *.
  unfold mountChildren in H. unfold bind at 1 in H.
  match type of H with
  | match ?loop w with _ => _ end = _ => destruct (loop w) as [[st|e|] w1] eqn:E
  end; try discriminate.
  apply (mount_loop _ component idPrefix Hframe) in E;
    [|left; reflexivity|exact Hnd|intros x Hx; right; exact Hx|exact Hnot].
  fold cs in E. destruct E as (images' & _ & Hidx & _ & _ & Hp & _).
  destruct st as [[mountImages index] lastChild]. simpl in Hidx.
  rewrite ?Z.add_0_l in Hidx. subst index.
  assert (Hroot : _rootNodeID (heap w1 component) = _rootNodeID (heap w component))
    by (rewrite Hp; destruct cs; reflexivity).
  assert (Hcount : _nodeCount (heap w1 component) = _nodeCount (heap w component))
    by (rewrite Hp; destruct cs; reflexivity).
  assert (Hw' : (forall x, x <> component -> heap w' x = heap w1 x) /\
                _nodeCount (heap w' component) =
                  (if String.eqb (_rootNodeID (heap w component)) idPrefix
                   then Some (sumZ (nodeCounts (heap w1) cs))
                   else _nodeCount (heap w1 component))).
  { unfold bind, writeComp, modify, readComp, ret in H. simpl in H.
    rewrite upd_same in H. simpl in H. rewrite Hroot in H.
    destruct (String.eqb (_rootNodeID (heap w component)) idPrefix);
      simpl in H; inversion H; subst; simpl; rewrite ?upd_same;
      (split; [|reflexivity]);
      intros x Hx; rewrite ?upd_other by exact Hx; reflexivity. }
  destruct Hw' as (Ho & Hc).
  assert (Hcs : forall c, In c cs -> heap w' c = heap w1 c)
    by (intros c Hin; apply Ho; intros ->; contradiction).
  rewrite Hc, (nodeCounts_ext _ _ _ Hcs), Hcount. reflexivity.
Qed.

End MountIndices.

(** After the first pass, the general case of [_updateChildren] changes the
    mount indices only as the capabilities change them, and by setting that
    of a child it unmounts to [null]. *)
Section MountIndexWrites.
Context {collab : Collaborators}.
Variable Q : (ref -> jsnum) -> (ref -> jsnum) -> Prop.
Hypothesis Q_same : forall f g, (forall x, f x = g x) -> Q f g.
Hypothesis Q_trans : forall f g h, Q f g -> Q g h -> Q f h.
Hypothesis Q_clear : forall f c, Q f (cleared f c).
Hypothesis Hcap : capabilities_preserve (onMountIndices Q).

Lemma indices_refl w : onMountIndices Q w w.
Proof. apply Q_same. reflexivity. Qed.

Lemma indices_trans a b c :
  onMountIndices Q a b -> onMountIndices Q b c -> onMountIndices Q a c.
Proof. apply Q_trans. Qed.

Lemma indices_modify f :
  (forall w x, _mountIndex (heap (f w) x) = _mountIndex (heap w x)) ->
  preserves (onMountIndices Q) (modify f).
Proof.
  intros Hf. apply preserves_modify. intros w. apply Q_same. intros x.
  symmetry. apply Hf.
Qed.

Lemma indices_writeComp c f :
  (forall x, _mountIndex (f x) = _mountIndex x) ->
  preserves (onMountIndices Q) (writeComp c f).
Proof.
  intros Hf. apply indices_modify. intros w x. simpl. unfold upd.
  destruct (Nat.eqb_spec x c) as [->|_]; [apply Hf|reflexivity].
Qed.

Lemma indices_clear c : preserves (onMountIndices Q) (writeComp c (set_mountIndex None)).
Proof.
  apply preserves_modify. intros w. unfold onMountIndices.
  apply (Q_trans _ (cleared (mountIndices w) c)); [apply Q_clear|].
  apply Q_same. intros x. unfold cleared, mountIndices. simpl. unfold upd.
  destruct (Nat.eqb x c); reflexivity.
Qed.

Lemma indices_forIn {K S} (ks : list K) (f : K -> S -> M S) :
  (forall k s, preserves (onMountIndices Q) (f k s)) ->
  forall s, preserves (onMountIndices Q) (forIn ks f s).
Proof.
  intros Hf. induction ks as [|k ks IH]; intros s; simpl.
  - apply preserves_ret, indices_refl.
  - apply (preserves_bind _ indices_trans); auto.
Qed.

Ltac indices_step :=
  match goal with
  | |- preserves _ (bind _ _) => apply (preserves_bind _ indices_trans); [| intros ?]
  | |- preserves _ (forIn _ _ _) => apply indices_forIn; intros ? ?
  | |- preserves _ (whenb _ _) => apply (preserves_whenb _ indices_refl)
  | |- preserves _ (ret _) => apply (preserves_ret _ indices_refl)
  | |- preserves _ (throw _) => apply (preserves_throw _ indices_refl)
  | |- preserves _ get => apply (preserves_get _ indices_refl)
  | |- preserves _ (readComp _) => apply (preserves_readComp _ indices_refl)
  | |- preserves _ (writeComp _ (set_mountIndex None)) => apply indices_clear
  | |- preserves _ (writeComp _ _) => apply indices_writeComp; intros; reflexivity
  | |- preserves _ (modify _) => apply indices_modify; intros; reflexivity
  | |- preserves _ (mountComponent _ _) => apply Hcap
  | |- preserves _ (receiveProps _ _) => apply Hcap
  | |- preserves _ (unmountComponent _) => apply Hcap
  | |- preserves _ (let '(_, _) := ?x in _) => destruct x
  | |- preserves _ (if ?b then _ else _) => destruct b
  | |- preserves _ (match ?x with _ => _ end) => destruct x
  end.

Lemma indices_unmountChildByName c n ch k :
  preserves (onMountIndices Q) (_unmountChildByName c n ch k).
Proof.
  unfold _unmountChildByName, removeChild, enqueueRemove, child_unmountComponent.
  repeat indices_step.
Qed.

Lemma indices_mountChildByNameAtIndex c n p ch k i :
  preserves (onMountIndices Q) (_mountChildByNameAtIndex c n p ch k i).
Proof.
  unfold _mountChildByNameAtIndex, createChild, enqueueMarkup, child_mountComponent.
  repeat indices_step.
Qed.

Lemma indices_updateAncestors fuel :
  forall a n d, preserves (onMountIndices Q) (updateAncestors fuel a n d).
Proof.
  induction fuel as [|f IH]; intros a n d; simpl.
  - intros w r w' H. inversion H; subst. apply indices_refl.
  - repeat indices_step. apply IH.
Qed.

Lemma indices_diffChild b c n p kv cur :
  preserves (onMountIndices Q) (diffChild b c n p kv cur).
Proof.
  unfold diffChild, diffBuiltin, prevChildrenNow, appendToChain, moveChild, enqueueMove,
    child_receiveProps.
  repeat first [ apply indices_unmountChildByName
               | apply indices_mountChildByNameAtIndex
               | indices_step ].
Qed.

(** The passes that follow the first one. *)
Lemma later_passes_mountIndices fuel component nodeID idPrefix next :
  preserves (onMountIndices Q)
    (cur <- diffChildren true component nodeID idPrefix next ;;
     removeAbsent true component nodeID next ;;;
     updateNodeCounts fuel component nodeID (nextIndex cur)).
Proof.
  unfold diffChildren, removeAbsent, removeIfAbsent, updateNodeCounts, prevChildrenNow.
  repeat first [ apply indices_diffChild
               | apply indices_unmountChildByName
               | apply indices_updateAncestors
               | indices_step ].
Qed.

End MountIndexWrites.


(** ** The destination index of an insertion *)

(** C3.  At the key x, whose previous child and next descriptor have
    different constructors, [nextIndex] is 1 (the child a before it takes one
    node).  The reconciler removes the previous child and then inserts the
    next one, without any [receiveProps] on either, but the INSERT_MARKUP
    record carries the mount index [v] that the next child happened to have,
    not [nextIndex]. *)
Theorem C3_insert_carries_stale_mount_index :
  forall v : jsnum,
    let r := @_updateChildren leaves 10 0%nat ".r." (Some ax) (world0 (mismatchHeap v)) in
    fst r = Normal tt /\
    trace (snd r) = [CallReceiveProps 1%nat 0%nat; CallUnmount 2%nat; CallMount 5%nat ".r.x"] /\
    updateQueue (snd r) =
      [mkUpdate ".r" REMOVE_NODE None None (Some 1) (Some 1) None;
       mkUpdate ".r" INSERT_MARKUP (Some 0%nat) None None None v].
Proof. intros v. vm_compute. repeat split; reflexivity. Qed.

(** The index handed to [_mountChildByNameAtIndex] has no effect. *)
Lemma mountChildByNameAtIndex_ignores_index {collab : Collaborators}
    component nodeID idPrefix child name i j :
  _mountChildByNameAtIndex component nodeID idPrefix child name i =
  _mountChildByNameAtIndex component nodeID idPrefix child name j.
Proof. reflexivity. Qed.

(** C10.  With a previous child a at position 0 and two children b, c to
    insert, every child taking one node: the unit-index engine sends b and c
    to the indices 1 and 2, the node-count engine sends both to the mount
    index [v] they had before mounting, so the two sequences of records
    differ whatever [v] is. *)
Theorem C10_engines_differ_on_insertion :
  forall v : jsnum,
    let new := @_updateChildren leaves 10 0%nat ".r." (Some abc') (world0 (growHeap v)) in
    let old := @UnitIndex._updateChildren leaves 0%nat ".r" ".r." (Some abc')
                 (world0 (growHeap v)) in
    fst new = Normal tt /\ fst old = Normal tt /\
    map shape (updateQueue (snd new)) = [(INSERT_MARKUP, None, v); (INSERT_MARKUP, None, v)] /\
    map shape (updateQueue (snd old)) =
      [(INSERT_MARKUP, None, Some 1); (INSERT_MARKUP, None, Some 2)] /\
    map shape (updateQueue (snd new)) <> map shape (updateQueue (snd old)).
Proof.
  intros v. vm_compute. repeat split; try reflexivity.
  intros H. inversion H. congruence.
Qed.

(** ** Concrete runs *)

(** The outer diff reuses b and a; a's [receiveProps] diffs a's own children
    (y is inserted, x removed) before the outer diff moves a.  One batch is
    handed over, holding the records of both levels in the order they were
    enqueued. *)
Example nested_diff_is_one_batch :
  let r := @run composites nestedCall (world0 nestedHeap) in
  fst r = Normal tt /\
  trace (snd r) =
    [CallReceiveProps 2%nat 0%nat; CallReceiveProps 1%nat 1%nat;
     CallMount 8%nat ".r.a.y"; CallUnmount 7%nat;
     CallProcessUpdates
       [mkUpdate ".r.a" INSERT_MARKUP (Some 0%nat) None None None None;
        mkUpdate ".r.a" REMOVE_NODE None None (Some 1) (Some 0) None;
        mkUpdate ".r" MOVE_EXISTING None None (Some 1) (Some 0) (Some 1)]
       ["<.r.a.y>"]] /\
  updateQueue (snd r) = [] /\ markupQueue (snd r) = [] /\ updateDepth (snd r) = 0.
Proof. vm_compute. repeat split; reflexivity. Qed.

(** The next children begin with a key that [Object.prototype] binds.  What
    the second pass reads as the previous child under it is the built-in:
    the new child is mounted, the mark becomes NaN, and c, a, b are then
    reused without a MOVE_EXISTING record. *)
Example builtin_key_suppresses_moves :
  let r := @updateChildren leaves 10 0%nat ".r." (Some protoCab) (world0 abcHeap) in
  fst r = Normal tt /\
  trace (snd r) =
    [CallMount 7%nat ".r.constructor"; CallReceiveProps 3%nat 0%nat;
     CallReceiveProps 1%nat 0%nat; CallReceiveProps 2%nat 0%nat;
     CallProcessUpdates
       [mkUpdate ".r" INSERT_MARKUP (Some 0%nat) None None None None]
       ["<.r.constructor>"]] /\
  @builtinsFound leaves true 0%nat ".r" ".r." protoCab (mkCursor 0 (Num 0) None)
    (snd (assignMountIndices (_renderedChildren (abcHeap 0%nat)) 0 (world0 abcHeap)))
    = ["constructor"].
Proof. vm_compute. repeat split; reflexivity. Qed.

(** The nested diff of a completes, then b raises: nothing is handed over
    and the queues are empty. *)
Example failed_diff_discards_nested_records :
  let r := @run composites failingCall (world0 nestedHeap) in
  fst r = Throws (Raised 42) /\
  trace (snd r) =
    [CallReceiveProps 1%nat 1%nat; CallMount 8%nat ".r.a.y"; CallUnmount 7%nat;
     CallReceiveProps 2%nat 2%nat] /\
  updateQueue (snd r) = [] /\ markupQueue (snd r) = [] /\ updateDepth (snd r) = 0.
Proof. vm_compute. repeat split; reflexivity. Qed.

Lemma leafMount_in_batch c rootID : in_batch (leafMount c rootID).
Proof. unfold leafMount. batch. Qed.

Lemma leaves_in_batch : @capabilities_in_batch leaves.
Proof.
  split; [|split]; intros; simpl.
  - apply leafMount_in_batch.
  - apply in_batch_ret.
  - apply in_batch_ret.
Qed.

Lemma composites_in_batch : @capabilities_in_batch composites.
Proof.
  split; [|split]; intros; simpl.
  - apply leafMount_in_batch.
  - unfold compositeReceiveProps. destruct p as [|[|p]].
    + apply in_batch_ret.
    + apply in_batch_bind; [apply in_batch_readComp|]. intros comp.
      apply (@in_batch_run leaves (UpdateChildren _ _ _ _) leaves_in_batch).
    + apply in_batch_throw.
  - apply in_batch_ret.
Qed.

Lemma leafMount_mountIndex c rootID w r w' :
  leafMount c rootID w = (r, w') ->
  forall x, _mountIndex (heap w' x) = _mountIndex (heap w x).
Proof.
  intros H x. inversion H; subst. simpl. unfold upd.
  destruct (Nat.eqb x c) eqn:E; [|reflexivity].
  apply Nat.eqb_eq in E; subst. reflexivity.
Qed.

Lemma leafMount_keeps_others S c rootID : preserves (keeps_others S c) (leafMount c rootID).
Proof.
  intros w r w' H x _ Hx. inversion H; subst. simpl. apply upd_other, Hx.
Qed.


(** The second child raises after the first one's nested diff has completed. *)
Lemma C7_witness :
  let w := world0 nestedHeap in
  let w1 := snd (@body composites failingCall (set_updateDepth (updateDepth w + 1) w)) in
  exists w',
    @run composites failingCall w = (Throws (Raised 42), w') /\
    updateDepth w' = updateDepth w1 - 1 /\
    heap w' = heap w1 /\
    trace w' = trace w1 /\
    (updateDepth w' = 0 -> updateQueue w' = [] /\ markupQueue w' = []) /\
    (updateDepth w' <> 0 ->
       updateQueue w' = updateQueue w1 /\ markupQueue w' = markupQueue w1) /\
    (0 <= updateDepth w ->
       updateDepth w' = updateDepth w /\
       countProcessUpdates (trace w') = countProcessUpdates (trace w)).
Proof.
  intros w w1.
  assert (Hbody : @body composites failingCall (set_updateDepth (updateDepth w + 1) w)
                  = (Throws (Raised 42), w1))
    by (vm_compute; reflexivity).
  exact (@C7_failed_batch_is_discarded composites composites_in_batch
           failingCall w w1 (Raised 42) Hbody).
Defined.


Lemma leaves_keep_mountIndices : @capabilities_preserve leaves (onMountIndices keptOrCleared).
Proof.
  split; [|split]; intros; simpl.
  - intros w r w' H x. left. apply (leafMount_mountIndex _ _ _ _ _ H).
  - apply preserves_ret. intros w x. left. reflexivity.
  - apply preserves_ret. intros w x. left. reflexivity.
Qed.


(** A top-level child replaced by one of another constructor, and one
    updated by a descriptor of the same constructor. *)
Lemma C4_witness :
  (exists w',
     @_updateChildren leaves 10 0%nat ".r" (Some [("", Some 4%nat)]) (world0 (rootHeap 8))
       = (Normal tt, w') /\
     trace w' = [CallUnmount 1%nat; CallMount 4%nat ".r"] /\
     updateQueue w' = [mkUpdate ".r" REPLACE_WITH_MARKUP (Some 0%nat) None None None None] /\
     markupQueue w' = ["<.r>"] /\
     _renderedChildren (heap w' 0%nat) = Some [("", Some 4%nat)]) /\
  @_updateChildren leaves 10 0%nat ".r" (Some [("", Some 4%nat)]) (world0 (rootHeap 7))
    = (Normal tt, log (CallReceiveProps 1%nat 5%nat) (world0 (rootHeap 7))).
Proof.
  split.
  - pose (w := world0 (rootHeap 8)).
    pose (w1 := log (CallUnmount 1%nat) w).
    pose (w2 := snd (leafMount 4%nat ".r" (log (CallMount 4%nat ".r") w1))).
    destruct (proj1 (@C4_root_replacement leaves 10 0%nat ".r"
                       [("", Some 1%nat)] [("", Some 4%nat)] 1%nat 4%nat w
                       eq_refl eq_refl eq_refl eq_refl)
                eq_refl
                w1 "<.r>" w2 [("", Some 1%nat)] eq_refl eq_refl eq_refl)
      as (w' & Hrun & Ht & _ & _ & Hc & _ & Hquiet).
    destruct (Hquiet eq_refl eq_refl eq_refl eq_refl) as (Hq & Hm).
    exists w'. repeat split; assumption.
  - exact (proj2 (@C4_root_replacement leaves 10 0%nat ".r"
                    [("", Some 1%nat)] [("", Some 4%nat)] 1%nat 4%nat (world0 (rootHeap 7))
                    eq_refl eq_refl eq_refl eq_refl)
             eq_refl).
Defined.

(** With the child a still there the call raises and names it; after
    [unmountChildren] it returns. *)
Lemma C8_witness :
  fst (@updateTextContent leaves 0%nat "hello" (world0 abcHeap)) =
    Throws (InvariantViolation childrenRemainMessage (Some "a")) /\
  (let w := snd (@unmountChildren leaves 0%nat (world0 abcHeap)) in
   keys (entries (_renderedChildren (heap w 0%nat))) = [] /\
   fst (@updateTextContent leaves 0%nat "hello" w) = Normal tt).
Proof.
  split.
  - exact (proj1 (@C8_updateTextContent_requires_no_children leaves 0%nat "hello"
                    (world0 abcHeap)) "a" ["b"; "c"] eq_refl).
  - intros w.
    assert (Hun : @unmountChildren leaves 0%nat (world0 abcHeap) = (Normal tt, w))
      by (vm_compute; reflexivity).
    destruct (proj2 (proj2 (proj2 (@C8_updateTextContent_requires_no_children leaves 0%nat
                                     "hello" w)))
                (world0 abcHeap) Hun) as [Hp [Hr|(payload & _ & Hd & _)]].
    + split; assumption.
    + discriminate Hd.
Defined.

(** ** Where the spec's sentences do not hold *)


(** C8, as stated, fails: over an output tree that refuses the batch, the
    call made after [unmountChildren] raises what the output-applying
    collaborator raises. *)
Lemma C8_counterexample :
  let w := snd (@unmountChildren refusing 0%nat (world0 abcHeap)) in
  fst (@unmountChildren refusing 0%nat (world0 abcHeap)) = Normal tt /\
  fst (@updateTextContent refusing 0%nat "hello" w) = Throws (Raised 13).
Proof. vm_compute. split; reflexivity. Qed.

(** C5.  The node [.r.d] owns the node it addresses (the id prefix ends in
    the separator, the resolved id is its own root id) and gets a second
    child.  The claim has the owner of the addressed node and what lies
    above it unchanged; the code sets the owner's own node count from 1 to
    2, the number of its children, and adds the difference to its parent
    [.r], which lies above the owner. *)
Theorem C5_owner_node_count_is_overwritten :
  let w := world0 ownerHeap in
  let r := @_updateChildren leaves 10 1%nat ".r.d." (Some ab') w in
  fst r = Normal tt /\
  @resolveNodeID leaves (heap w 1%nat) ".r.d." = _rootNodeID (heap w 1%nat) /\
  _parentComponent (heap w 1%nat) = Some 0%nat /\
  _nodeCount (heap w 1%nat) = Some 1 /\ _nodeCount (heap (snd r) 1%nat) = Some 2 /\
  _nodeCount (heap w 0%nat) = Some 1 /\ _nodeCount (heap (snd r) 0%nat) = Some 2.
Proof. vm_compute. repeat split; reflexivity. Qed.

Lemma leaves_quiet_about component p : @capabilities_quiet_about leaves component p.
Proof.
  split; [|split]; intros; simpl.
  - intros w r w' H. inversion H; subst. unfold quiet_about. simpl. unfold upd.
    repeat split.
    + destruct (Nat.eqb component c) eqn:E; [|reflexivity].
      apply Nat.eqb_eq in E; subst. reflexivity.
    + intros x. destruct (Nat.eqb x c) eqn:E; [|reflexivity].
      apply Nat.eqb_eq in E; subst. reflexivity.
    + exists []. rewrite app_nil_r. auto.
  - apply (preserves_ret _ (quiet_about_refl component p)).
  - apply (preserves_ret _ (quiet_about_refl component p)).
Qed.


(** * Further properties of the reconciler *)

(** ** Relations that every step respects *)

Section Frames.
Context {collab : Collaborators}.
Variable R : World -> World -> Prop.
Hypothesis R_refl : forall w, R w w.
Hypothesis R_trans : forall a b c, R a b -> R b c -> R a c.
Hypothesis R_heap : forall w h, R w (set_heap h w).
Hypothesis R_log : forall w e, R w (log e w).
Hypothesis Hcap : capabilities_preserve R.

Lemma frame_writeComp c f : preserves R (writeComp c f).
Proof. apply preserves_modify. intros w. apply R_heap. Qed.

Lemma frame_log e : preserves R (modify (log e)).
Proof. apply preserves_modify. intros w. apply R_log. Qed.

Lemma frame_diverge {A} : preserves R (@diverge A).
Proof. intros w r w' H. inversion H; subst. apply R_refl. Qed.

Lemma frame_invariant b f a : preserves R (invariant b f a).
Proof. destruct b; simpl; [apply preserves_ret | apply preserves_throw]; exact R_refl. Qed.

Lemma frame_forIn {K S} (ks : list K) (f : K -> S -> M S) :
  (forall k s, preserves R (f k s)) -> forall s, preserves R (forIn ks f s).
Proof.
  intros Hf. induction ks as [|k ks IH]; intros s; simpl.
  - apply preserves_ret, R_refl.
  - apply preserves_bind; auto.
Qed.

Lemma frame_child_mountComponent c rootID : preserves R (child_mountComponent c rootID).
Proof.
  apply preserves_bind; [exact R_trans | apply frame_log | intros _; apply Hcap].
Qed.

Lemma frame_child_receiveProps c p : preserves R (child_receiveProps c p).
Proof.
  apply preserves_bind; [exact R_trans | apply frame_log | intros _; apply Hcap].
Qed.

Lemma frame_child_unmountComponent c : preserves R (child_unmountComponent c).
Proof.
  apply preserves_bind; [exact R_trans | apply frame_log | intros _; apply Hcap].
Qed.

Ltac frame_step :=
  match goal with
  | |- preserves _ (bind _ _) => apply (preserves_bind R R_trans); [| intros ?]
  | |- preserves _ (forIn _ _ _) => apply frame_forIn; intros ? ?
  | |- preserves _ (whenb _ _) => apply (preserves_whenb R R_refl)
  | |- preserves _ (ret _) => apply (preserves_ret R R_refl)
  | |- preserves _ (throw _) => apply (preserves_throw R R_refl)
  | |- preserves _ get => apply (preserves_get R R_refl)
  | |- preserves _ (readComp _) => apply (preserves_readComp R R_refl)
  | |- preserves _ (writeComp _ _) => apply frame_writeComp
  | |- preserves _ (invariant _ _ _) => apply frame_invariant
  | |- preserves _ diverge => apply frame_diverge
  | |- preserves _ (child_mountComponent _ _) => apply frame_child_mountComponent
  | |- preserves _ (child_receiveProps _ _) => apply frame_child_receiveProps
  | |- preserves _ (child_unmountComponent _) => apply frame_child_unmountComponent
  | |- preserves _ (let '(_, _) := ?x in _) => destruct x
  | |- preserves _ (if ?b then _ else _) => destruct b
  | |- preserves _ (match ?x with _ => _ end) => destruct x
  | |- preserves _ _ => assumption
  end.
Ltac frame := repeat frame_step.

Lemma frame_mountChildren component idPrefix children :
  preserves R (mountChildren component idPrefix children).
Proof. unfold mountChildren. frame. Qed.

Lemma frame_unmountChildren component : preserves R (unmountChildren component).
Proof. unfold unmountChildren. frame. Qed.

Lemma frame_unit_mountChildren component nodeID idPrefix children :
  preserves R (UnitIndex.mountChildren component nodeID idPrefix children).
Proof. unfold UnitIndex.mountChildren. frame. Qed.

Lemma frame_unit_unmountChildren component :
  preserves R (UnitIndex.unmountChildren component).
Proof. unfold UnitIndex.unmountChildren. frame. Qed.

(** The steps that enqueue. *)
Hypothesis R_markup : forall p m t, preserves R (enqueueMarkup p m t).
Hypothesis R_replace : forall p m, preserves R (enqueueReplaceWithMarkup p m).
Hypothesis R_move : forall p n f t, preserves R (enqueueMove p n f t).
Hypothesis R_remove : forall p n f, preserves R (enqueueRemove p n f).
Hypothesis R_text : forall p t, preserves R (enqueueTextContent p t).

Lemma frame_unmountChildByName c n ch k : preserves R (_unmountChildByName c n ch k).
Proof. unfold _unmountChildByName, removeChild. frame; apply R_remove. Qed.

Lemma frame_mountChildByNameAtIndex c n p ch k i :
  preserves R (_mountChildByNameAtIndex c n p ch k i).
Proof. unfold _mountChildByNameAtIndex, createChild. frame; apply R_markup. Qed.

Lemma frame_updateAncestors fuel : forall a n d, preserves R (updateAncestors fuel a n d).
Proof.
  induction fuel as [|f IH]; intros a n d; simpl; frame. apply IH.
Qed.

Lemma frame_diffChild b c n p kv cur : preserves R (diffChild b c n p kv cur).
Proof.
  unfold diffChild, diffBuiltin, prevChildrenNow, appendToChain, moveChild. frame;
    first [ apply R_move | apply frame_unmountChildByName
          | apply frame_mountChildByNameAtIndex ].
Qed.

Lemma frame_updateChildren_body fuel c p next : preserves R (_updateChildren fuel c p next).
Proof.
  unfold _updateChildren, replaceRootChild, assignMountIndices, diffChildren,
    removeAbsent, removeIfAbsent, updateNodeCounts, prevChildrenNow.
  frame;
    first [ apply R_replace | apply frame_diffChild | apply frame_unmountChildByName
          | apply frame_updateAncestors ].
Qed.

Lemma frame_updateTextContent_body c t : preserves R (updateTextContent_body c t).
Proof. unfold updateTextContent_body, setTextContent. frame. apply R_text. Qed.

Lemma frame_body call : preserves R (body call).
Proof.
  destruct call; simpl; [apply frame_updateChildren_body | apply frame_updateTextContent_body].
Qed.

(** The depth guard. *)
Hypothesis R_depth : forall w d, R w (set_updateDepth d w).
Hypothesis R_clear : forall w, R w (set_queues [] [] w).

Lemma frame_processQueue : preserves R processQueue.
Proof.
  unfold processQueue, clearQueue. frame; try apply frame_log.
  apply preserves_modify. exact R_clear.
Qed.

Lemma frame_batched (b : M unit) : preserves R b -> preserves R (batched b).
Proof.
  intros Hb w r w' H. unfold batched in H.
  destruct (b (set_updateDepth (updateDepth w + 1) w)) as [[[]|e|] w1] eqn:E;
    apply Hb in E; assert (H0 : R w w1) by (eapply R_trans; [apply R_depth | exact E]).
  - destruct (_ =? 0).
    + apply frame_processQueue in H. eauto.
    + inversion H; subst. eauto.
  - inversion H; subst. destruct (_ =? 0); eauto.
  - inversion H; subst. exact H0.
Qed.

Lemma frame_run call : preserves R (run call).
Proof. rewrite run_batched. apply frame_batched, frame_body. Qed.

End Frames.

(** ** The update queue and the markup queue fit together *)

Lemma markupIndices_app q q' : markupIndices (q ++ q') = markupIndices q ++ markupIndices q'.
Proof.
  induction q as [|u q IH]; simpl; [reflexivity|].
  destruct (markupIndex u); simpl; rewrite IH; reflexivity.
Qed.

Lemma coherent_with_markup w u m :
  markupIndex u = Some (List.length (markupQueue w)) ->
  coherent w -> coherent (set_queues (updateQueue w ++ [u]) (markupQueue w ++ [m]) w).
Proof.
  unfold coherent. simpl. intros Hu Hw.
  rewrite markupIndices_app, length_app, seq_app, Hw. simpl. rewrite Hu. reflexivity.
Qed.

Lemma coherent_without_markup w u :
  markupIndex u = None ->
  coherent w -> coherent (set_queues (updateQueue w ++ [u]) (markupQueue w) w).
Proof.
  unfold coherent. simpl. intros Hu Hw.
  rewrite markupIndices_app, Hw. simpl. rewrite Hu. apply app_nil_r.
Qed.

Lemma coherent_in_bounds w u i :
  coherent w -> In u (updateQueue w) -> markupIndex u = Some i ->
  (i < List.length (markupQueue w))%nat.
Proof.
  unfold coherent. intros Hw Hu Hi.
  assert (Hin : In i (markupIndices (updateQueue w))).
  { clear Hw. induction (updateQueue w) as [|v q IH]; simpl in *; [contradiction|].
    destruct Hu as [->|Hu].
    - rewrite Hi. left. reflexivity.
    - destruct (markupIndex v); [right|]; auto. }
  rewrite Hw in Hin. apply in_seq in Hin. lia.
Qed.

Lemma coherent_no_sharing w :
  coherent w -> NoDup (markupIndices (updateQueue w)).
Proof. unfold coherent. intros ->. apply seq_NoDup. Qed.

Section Coherence.
Context {collab : Collaborators}.

Lemma keeps_coherent_refl w : keeps_coherent w w.
Proof. intros H. exact H. Qed.

Lemma keeps_coherent_trans a b c :
  keeps_coherent a b -> keeps_coherent b c -> keeps_coherent a c.
Proof. unfold keeps_coherent. auto. Qed.

(** X1.  Every markup-carrying record refers to the markup that was pushed
    with it: if the two queues fit on entry and the capabilities of the
    children keep them fitting, they fit wherever a call of
    [updateChildren] or [updateTextContent], or its body, leaves them,
    however it ends and at any depth.  The markup indices of the records
    are then 0, 1, 2, ... in queue order, so no index is out of bounds and
    no two records share a markup. *)
Theorem X1_markup_indices_resolve :
  capabilities_preserve keeps_coherent ->
  forall (call : Call) (w : World) (r : Outcome unit) (w' : World),
    coherent w ->
    body call w = (r, w') \/ run call w = (r, w') ->
    markupIndices (updateQueue w') = seq 0 (List.length (markupQueue w')) /\
    (forall u i, In u (updateQueue w') -> markupIndex u = Some i ->
       (i < List.length (markupQueue w'))%nat) /\
    NoDup (markupIndices (updateQueue w')).
Proof.
  intros Hcap call w r w' Hw Hrun.
  assert (Hw' : coherent w').
  { destruct Hrun as [Hrun|Hrun]; revert Hw;
      [ eapply (frame_body keeps_coherent) in Hrun
      | eapply (frame_run keeps_coherent) in Hrun ]; try exact Hrun;
      try exact keeps_coherent_refl; try exact keeps_coherent_trans; try exact Hcap;
      try (intros; intros H; exact H);
      try (intros; apply preserves_modify; intros w0 H0);
      try (apply coherent_with_markup; [reflexivity | exact H0]);
      try (apply coherent_without_markup; [reflexivity | exact H0]);
      try (intros; intros _; reflexivity). }
  split; [exact Hw'|]. split.
  - intros u i. apply coherent_in_bounds, Hw'.
  - apply coherent_no_sharing, Hw'.
Qed.

End Coherence.

(** ** Mounting and unmounting enqueue nothing *)

Section MountingIsQuiet.
Context {collab : Collaborators}.

Lemma queues_kept_refl w : queues_kept w w.
Proof. repeat split. Qed.

Lemma queues_kept_trans a b c : queues_kept a b -> queues_kept b c -> queues_kept a c.
Proof.
  intros (H1 & H2 & H3) (H4 & H5 & H6). repeat split; congruence.
Qed.

(** X2.  [mountChildren] and [unmountChildren] leave the update queue, the
    markup queue and the depth counter as they are, however they end, as
    long as the capabilities of the children do: of their own they enqueue
    no record and open, flush or clear no batch.  The same holds of the two
    functions of the unit-index engine. *)
Theorem X2_mounting_enqueues_nothing :
  capabilities_preserve queues_kept ->
  forall (component : ref) (nodeID idPrefix : string) (children : option ChildMap),
    preserves queues_kept (mountChildren component idPrefix children) /\
    preserves queues_kept (unmountChildren component) /\
    preserves queues_kept (UnitIndex.mountChildren component nodeID idPrefix children) /\
    preserves queues_kept (UnitIndex.unmountChildren component).
Proof.
  intros Hcap component nodeID idPrefix children.
  split; [|split; [|split]];
    first [ apply frame_mountChildren | apply frame_unmountChildren
          | apply frame_unit_mountChildren | apply frame_unit_unmountChildren ];
    try exact queues_kept_refl; try exact queues_kept_trans; try exact Hcap;
    intros; repeat split.
Qed.

End MountingIsQuiet.

(** ** A batch that the output tree refuses *)

Section RefusedBatch.
Context {collab : Collaborators}.

(** X3.  When the body of an outermost call has completed and the
    output-applying collaborator raises on the batch it is handed, the call
    raises that error with the depth back at 0, and both queues still hold
    the whole batch: [clearQueue] comes after the collaborator's return and
    no handler surrounds the flush. *)
Theorem X3_refused_batch_stays_queued :
  capabilities_in_batch ->
  forall (call : Call) (w w1 : World) (payload : nat),
    updateDepth w = 0 ->
    body call (set_updateDepth 1 w) = (Normal tt, w1) ->
    updateQueue w1 <> [] ->
    dangerouslyProcessChildrenUpdates (updateQueue w1) (markupQueue w1) = Some payload ->
    exists w',
      run call w = (Throws (Raised payload), w') /\
      updateDepth w' = 0 /\
      updateQueue w' = updateQueue w1 /\
      markupQueue w' = markupQueue w1 /\
      heap w' = heap w1 /\
      trace w' = trace w1 ++ [CallProcessUpdates (updateQueue w1) (markupQueue w1)].
Proof.
  intros Hcap call w w1 payload Hd Hbody Hq Hout.
  assert (Hx : extends (set_updateDepth 1 w) w1)
    by (eapply (in_batch_body Hcap); eauto; [simpl; lia | discriminate]).
  destruct Hx as (Hd1 & _). simpl in Hd1.
  rewrite run_batched. unfold batched. rewrite Hd. simpl. rewrite Hbody.
  simpl. rewrite Hd1. simpl.
  unfold processQueue, bind, get, modify. simpl.
  destruct (updateQueue w1) as [|u q] eqn:Eq; [congruence|].
  simpl. rewrite Hout. unfold throw.
  eexists. split; [reflexivity|]. simpl. rewrite Eq. repeat split.
Qed.

End RefusedBatch.

(** ** The check on the nodes before the first child *)

Lemma walkSiblings_lower fuel h :
  (forall x, 0 <= toNumber (_nodeCount (h x))) ->
  forall comp acc c' acc',
    walkSiblings fuel h comp acc = Some (c', acc') -> acc <= acc'.
Proof.
  intros Hpos. induction fuel as [|f IH]; intros comp acc c' acc' H; simpl in H;
    [discriminate|].
  destruct (_previousSibling (h comp)) as [p|].
  - apply IH in H. specialize (Hpos p). lia.
  - inversion H; subst. lia.
Qed.

Lemma countNodesBefore_lower fuel h nodeID :
  (forall x, 0 <= toNumber (_nodeCount (h x))) ->
  forall comp acc n,
    countNodesBefore fuel h comp nodeID acc = Some n -> acc <= n.
Proof.
  intros Hpos. induction fuel as [|f IH]; intros comp acc n H; simpl in H;
    [discriminate|].
  destruct comp as [c|]; [|inversion H; lia].
  destruct (String.eqb _ nodeID); [inversion H; lia|].
  destruct (walkSiblings f h c acc) as [[c' acc']|] eqn:E; [|discriminate].
  apply walkSiblings_lower in E; [|exact Hpos]. apply IH in H. lia.
Qed.

Lemma walkSiblings_S f h comp acc :
  walkSiblings (S f) h comp acc =
    match _previousSibling (h comp) with
    | Some p => walkSiblings f h p (acc + toNumber (_nodeCount (h p)))
    | None => Some (comp, acc)
    end.
Proof. reflexivity. Qed.

Lemma countNodesBefore_S f h c nodeID acc :
  countNodesBefore (S f) h (Some c) nodeID acc =
    if String.eqb (_rootNodeID (h c)) nodeID then Some acc
    else
      match walkSiblings f h c acc with
      | Some (c', acc') => countNodesBefore f h (_parentComponent (h c')) nodeID acc'
      | None => None
      end.
Proof. reflexivity. Qed.

Section NodesBefore.
Context {collab : Collaborators}.

(** X4.  A component that stands for children of a higher node (its id
    prefix does not end in the separator, and the id of that node is not
    empty) and that comes after a sibling of positive node count cannot be
    diffed.  Let it have children to diff, let its first rendered child have
    no previous sibling and be linked back to it by [_parentComponent], let
    neither the component nor that child have the addressed id as root id,
    let no node count be negative, and let the walk from the first child
    come to an end on the fuel given.  Then the walk counts at least the
    sibling's nodes, and the call raises the invariant violation [y] before
    anything is changed or asked of a child. *)
Theorem X4_diff_after_a_sibling_is_refused :
  forall (fuel : nat) (component : ref) (idPrefix : string)
         (nextChildren : option ChildMap) (w : World) (c s : ref),
    let comp := heap w component in
    let nodeID := getParentID (_rootNodeID comp) in
    endsWithDot idPrefix = false ->
    nodeID <> "" ->
    isSome nextChildren || isSome (_renderedChildren comp) = true ->
    (forall x, 0 <= toNumber (_nodeCount (heap w x))) ->
    _firstRenderedChild comp = Some c ->
    _rootNodeID (heap w c) <> nodeID ->
    _previousSibling (heap w c) = None ->
    _parentComponent (heap w c) = Some component ->
    _rootNodeID comp <> nodeID ->
    _previousSibling comp = Some s ->
    0 < toNumber (_nodeCount (heap w s)) ->
    countNodesBefore fuel (heap w) (Some c) nodeID 0 <> None ->
    _updateChildren fuel component idPrefix nextChildren w
      = (Throws (InvariantViolation "y" None), w).
Proof.
  intros fuel component idPrefix nextChildren w c s comp nodeID
    Hdot Hid Hsome Hpos Hfirst Hc Hcs Hcp Hcomp Hs Hcount Hend.
  unfold _updateChildren, bind, readComp, get. fold comp.
  unfold resolveNodeID. rewrite Hdot. fold nodeID.
  destruct (String.eqb_spec nodeID "") as [He|_]; [contradiction|].
  replace (negb (isSome nextChildren) && negb (isSome (_renderedChildren comp)))
    with false
    by (destruct (isSome nextChildren), (isSome (_renderedChildren comp));
        simpl in *; congruence).
  cbv beta iota. rewrite Hfirst.
  destruct (countNodesBefore fuel (heap w) (Some c) nodeID 0) as [n|] eqn:E;
    [|congruence].
  assert (Hn : 0 < n).
  { unfold comp in Hs, Hcomp.
    destruct fuel as [|f]; [discriminate|]. rewrite countNodesBefore_S in E.
    destruct (String.eqb_spec (_rootNodeID (heap w c)) nodeID) as [He|_];
      [contradiction|].
    destruct f as [|f]; [discriminate|]. rewrite walkSiblings_S, Hcs, Hcp in E.
    rewrite countNodesBefore_S in E.
    destruct (String.eqb_spec (_rootNodeID (heap w component)) nodeID) as [He|_];
      [contradiction|].
    destruct f as [|f]; [discriminate|]. rewrite walkSiblings_S, Hs in E.
    destruct (walkSiblings f (heap w) s (0 + toNumber (_nodeCount (heap w s))))
      as [[c' acc']|] eqn:Ew; [|discriminate].
    apply walkSiblings_lower in Ew; [|exact Hpos].
    apply countNodesBefore_lower in E; [|exact Hpos]. lia. }
  replace (n =? 0) with false by (symmetry; apply Z.eqb_neq; lia).
  reflexivity.
Qed.

(** X5.  The top-level case needs a child under the empty key on both
    sides.  Without previous children, without next children, or without a
    previous child under the empty key the call raises a TypeError and
    nothing has happened.  When only the next child is missing, the
    previous child has been unmounted by then: the call raises in the state
    its [unmountComponent] left, with no record enqueued by the reconciler
    and the unmounted child still listed. *)
Theorem X5_root_replacement_needs_both_children :
  forall (fuel : nat) (component : ref) (idPrefix : string)
         (nextChildren : option ChildMap) (w : World),
    resolveNodeID (heap w component) idPrefix = "" ->
    (_renderedChildren (heap w component) = None \/ nextChildren = None \/
     getPropOpt (_renderedChildren (heap w component)) "" = None ->
     _updateChildren fuel component idPrefix nextChildren w = (Throws TypeError, w)) /\
    (forall prev next p w1,
       _renderedChildren (heap w component) = Some prev ->
       nextChildren = Some next ->
       getProp prev "" = Some p ->
       getProp next "" = None ->
       unmountComponent p (log (CallUnmount p) w) = (Normal tt, w1) ->
       _updateChildren fuel component idPrefix nextChildren w = (Throws TypeError, w1)).
Proof.
  intros fuel component idPrefix nextChildren w Hid.
  unfold _updateChildren, bind, readComp. rewrite Hid. simpl.
  unfold replaceRootChild, bind, readComp, get, throw. split.
  - intros H. destruct (_renderedChildren (heap w component)) as [prev|]; [|reflexivity].
    destruct nextChildren as [next|]; [|reflexivity].
    destruct H as [H|[H|H]]; try discriminate. simpl in H. rewrite H.
    reflexivity.
  - intros prev next p w1 Hprev Hnext Hp Hn Hun. rewrite Hprev, Hnext, Hp, Hn.
    simpl. unfold child_unmountComponent, bind, modify. rewrite Hun. reflexivity.
Qed.

End NodesBefore.

(** ** Mounting in the unit-index engine *)

Section UnitMount.
Context {collab : Collaborators}.

Lemma unit_mount_loop (S : list ref) (idPrefix : string) :
  (forall c rootID, preserves (keeps_others S c) (mountComponent c rootID)) ->
  forall es images index w st w',
    NoDup (childRefs es) -> incl (childRefs es) S ->
    forIn es
      (fun kv (st : list string * Z) =>
         let '(mountImages, index) := st in
         match snd kv with
         | Some child =>
             mountImage <- child_mountComponent child (String.append idPrefix (fst kv)) ;;
             writeComp child (set_mountIndex (Some index)) ;;;
             ret (mountImages ++ [mountImage], index + 1)
         | None => ret st
         end)
      (images, index) w = (Normal st, w') ->
    exists images',
      st = (images ++ images', index + Z.of_nat (List.length (childRefs es))) /\
      List.length images' = List.length (childRefs es) /\
      (forall i c, nth_error (childRefs es) i = Some c ->
         _mountIndex (heap w' c) = Some (index + Z.of_nat i)) /\
      (forall x, In x S -> ~ In x (childRefs es) -> heap w' x = heap w x).
Proof.
  intros Hframe. induction es as [|[k [c|]] es IH]; intros images index w st w' Hnd Hin H.
  - inversion H; subst. exists []. rewrite app_nil_r, Z.add_0_r.
    repeat split; auto. intros [|i] c Hc; discriminate.
  - rewrite forIn_cons in H.
    match type of H with
    | match ?step with _ => _ end = _ => destruct step as [[st1|e|] w2] eqn:Es
    end; try discriminate.
    simpl in Es. unfold child_mountComponent, bind, modify, writeComp, ret in Es.
    simpl in Es.
    destruct (mountComponent c (String.append idPrefix k)
                (log (CallMount c (String.append idPrefix k)) w))
      as [[img|e|] w1] eqn:Em; try discriminate.
    inversion Es; subst st1 w2; clear Es.
    simpl childRefs in *. inversion Hnd as [|? ? Hnotin Hnd']; subst.
    apply IH in H; [|exact Hnd'|intros x Hx; apply Hin; right; exact Hx].
    destruct H as (images' & -> & Hlen & Hidx & Hout).
    assert (Hc : In c S) by (apply Hin; left; reflexivity).
    exists (img :: images'). rewrite <- app_assoc. simpl List.length.
    split; [f_equal; lia|]. split; [lia|]. split.
    + intros [|i] x Hx; simpl in Hx.
      * inversion Hx; subst. rewrite (Hout _ Hc Hnotin). simpl.
        rewrite upd_same, Z.add_0_r. reflexivity.
      * rewrite (Hidx _ _ Hx). f_equal. lia.
    + intros x Hx Hn.
      assert (Hxc : x <> c) by (intros ->; apply Hn; left; reflexivity).
      rewrite Hout by (auto; intros Hx'; apply Hn; right; exact Hx').
      simpl. rewrite upd_other by exact Hxc.
      apply (Hframe _ _ _ _ _ Em x Hx Hxc).
  - rewrite forIn_cons in H. simpl in H. apply IH in H; auto.
Qed.

(** X6.  In the unit-index engine [mountChildren] numbers the children:
    for distinct children whose [mountComponent] leaves the siblings alone,
    a call that returns has produced one mount image per child that is
    there, has stored the children object as the rendered children, and has
    set the mount index of the i-th such child, in enumeration order, to
    i. *)
Theorem X6_unit_mountChildren_numbers_the_children :
  forall (component : ref) (nodeID idPrefix : string) (children : option ChildMap)
         (w : World) (images : list string) (w' : World),
    NoDup (childRefs (entries children)) ->
    (forall c rootID,
       preserves (keeps_others (childRefs (entries children)) c) (mountComponent c rootID)) ->
    UnitIndex.mountChildren component nodeID idPrefix children w = (Normal images, w') ->
    List.length images = List.length (childRefs (entries children)) /\
    _renderedChildren (heap w' component) = children /\
    (forall i c, nth_error (childRefs (entries children)) i = Some c ->
       _mountIndex (heap w' c) = Some (Z.of_nat i)).
Proof.
  intros component nodeID idPrefix children w images w' Hnd Hframe H.
  unfold UnitIndex.mountChildren in H. unfold bind at 1 in H.
  match type of H with
  | match ?loop w with _ => _ end = _ => destruct (loop w) as [[st|e|] w1] eqn:E
  end; try discriminate.
  apply (unit_mount_loop _ idPrefix Hframe) in E; [|exact Hnd|apply incl_refl].
  destruct E as (images' & -> & Hlen & Hidx & _).
  unfold bind, writeComp, modify, ret in H. simpl in H. inversion H; subst.
  simpl. split; [exact Hlen|]. split; [rewrite upd_same; reflexivity|].
  intros i c Hc. specialize (Hidx _ _ Hc). rewrite Z.add_0_l in Hidx. rewrite <- Hidx.
  destruct (Nat.eq_dec c component) as [->|Hne];
    [rewrite upd_same | rewrite upd_other by exact Hne]; reflexivity.
Qed.

End UnitMount.

(** ** Mounting in the node-count engine *)

Section Mount.
Context {collab : Collaborators}.

(** X7.  What [mountChildren] leaves behind.  For distinct children, none of
    them the parent, whose [mountComponent] leaves the parent and the
    siblings alone, a call that returns has produced one mount image per
    child that is there and stored the children object; every such child
    has the parent as its parent component and the child enumerated before
    it as its previous sibling, the first one none; the parent's first
    rendered child is the first of them, and is left as it was when there is
    none; the parent's node count is the sum of the children's node counts
    when its root id is the id prefix, and is left as it was otherwise.  On
    such a chain the walk that [_updateChildren] makes for the parent's own
    node counts no node before the first child. *)
Theorem X7_mountChildren_links_and_counts :
  forall (component : ref) (idPrefix : string) (children : option ChildMap)
         (w : World) (images : list string) (w' : World),
    let cs := childRefs (entries children) in
    NoDup cs ->
    ~ In component cs ->
    (forall c rootID,
       preserves (keeps_others (component :: cs) c) (mountComponent c rootID)) ->
    mountChildren component idPrefix children w = (Normal images, w') ->
    List.length images = List.length cs /\
    _renderedChildren (heap w' component) = children /\
    chained (heap w') component None cs /\
    _firstRenderedChild (heap w' component) =
      match cs with
      | c :: _ => Some c
      | [] => _firstRenderedChild (heap w component)
      end /\
    _nodeCount (heap w' component) =
      (if String.eqb (_rootNodeID (heap w component)) idPrefix
       then Some (sumZ (nodeCounts (heap w') cs))
       else _nodeCount (heap w component)) /\
    (cs <> [] ->
     forall fuel,
       countNodesBefore (2 + fuel) (heap w') (_firstRenderedChild (heap w' component))
         (_rootNodeID (heap w' component)) 0 = Some 0).
Proof.
  intros component idPrefix children w images w' cs Hnd Hnot Hframe H.
  unfold mountChildren in H. unfold bind at 1 in H.
  match type of H with
  | match ?loop w with _ => _ end = _ => destruct (loop w) as [[st|e|] w1] eqn:E
  end; try discriminate.
  apply (mount_loop _ component idPrefix Hframe) in E;
    [|left; reflexivity|exact Hnd|intros x Hx; right; exact Hx|exact Hnot].
  fold cs in E. destruct E as (images' & Him & Hidx & Hlen & Hch & Hp & _).
  destruct st as [[mountImages index] lastChild]. simpl in Him, Hidx.
  rewrite ?app_nil_l in Him. rewrite ?Z.add_0_l in Hidx. subst mountImages index.
  set (total := sumZ (nodeCounts (heap w1) cs)) in *.
  assert (Hroot : _rootNodeID (heap w1 component) = _rootNodeID (heap w component))
    by (rewrite Hp; destruct cs; reflexivity).
  assert (Hcount : _nodeCount (heap w1 component) = _nodeCount (heap w component))
    by (rewrite Hp; destruct cs; reflexivity).
  assert (Hfirst : _firstRenderedChild (heap w1 component) =
                   match cs with
                   | c :: _ => Some c
                   | [] => _firstRenderedChild (heap w component)
                   end)
    by (rewrite Hp; destruct cs; reflexivity).
  assert (Hw' : images = images' /\
                (forall x, x <> component -> heap w' x = heap w1 x) /\
                heap w' component =
                  (if String.eqb (_rootNodeID (heap w component)) idPrefix
                   then set_nodeCount (Some total)
                          (set_renderedChildren children (heap w1 component))
                   else set_renderedChildren children (heap w1 component))).
  { unfold bind, writeComp, modify, readComp, ret in H. simpl in H.
    rewrite upd_same in H. simpl in H. rewrite Hroot in H.
    destruct (String.eqb (_rootNodeID (heap w component)) idPrefix);
      simpl in H; inversion H; subst; simpl; rewrite ?upd_same;
      (split; [reflexivity|]); (split; [|reflexivity]);
      intros x Hx; rewrite ?upd_other by exact Hx; reflexivity. }
  destruct Hw' as (-> & Ho & Hc).
  assert (Hcs : forall c, In c cs -> heap w' c = heap w1 c)
    by (intros c Hin; apply Ho; intros ->; contradiction).
  assert (Hch' : chained (heap w') component None cs)
    by (apply (chained_ext (heap w1)); assumption).
  assert (Hfirst' : _firstRenderedChild (heap w' component) =
                    match cs with
                    | c :: _ => Some c
                    | [] => _firstRenderedChild (heap w component)
                    end)
    by (rewrite Hc, <- Hfirst; destruct (String.eqb _ idPrefix); reflexivity).
  split; [exact Hlen|].
  split; [rewrite Hc; destruct (String.eqb _ idPrefix); reflexivity|].
  split; [exact Hch'|]. split; [exact Hfirst'|]. split.
  - rewrite Hc, (nodeCounts_ext _ _ _ Hcs). fold total.
    destruct (String.eqb _ idPrefix); [reflexivity|exact Hcount].
  - intros Hne fuel. rewrite Hfirst'.
    destruct cs as [|c rest]; [congruence|]. destruct Hch' as (Hpar & Hsib & _).
    change (2 + fuel)%nat with (S (S fuel)). rewrite countNodesBefore_S.
    destruct (String.eqb (_rootNodeID (heap w' c)) _); [reflexivity|].
    rewrite walkSiblings_S, Hsib, Hpar.
    destruct fuel as [|fuel]; simpl; rewrite String.eqb_refl; reflexivity.
Qed.

End Mount.

(** ** Diffing against children of the same shape *)

Lemma alike_getProp h ps ns :
  Forall2 (alike h) ps ns ->
  forall k, isSome (getProp ns k) = isSome (getProp ps k).
Proof.
  induction 1 as [|[k1 v1] [k2 v2] ps ns [Hk Hv] _ IH]; intros k; [reflexivity|].
  simpl in Hk, Hv. subst k2. rewrite !getProp_cons.
  destruct (String.eqb k1 k); [|apply IH].
  destruct v1, v2; simpl; auto; contradiction.
Qed.

Section SameShape.
Context {collab : Collaborators}.
Variables (component : ref) (nodeID : string).

Lemma steady_refl w : steady component nodeID w w.
Proof. repeat split. Qed.

Lemma steady_trans a b c :
  steady component nodeID a b -> steady component nodeID b c -> steady component nodeID a c.
Proof.
  intros (H1 & H2 & H3 & H4) (H5 & H6 & H7 & H8).
  repeat split; intros; congruence.
Qed.

Lemma steady_log e w : steady component nodeID w (log e w).
Proof. repeat split. Qed.

Lemma steady_chain w h :
  same_but_chain (heap w) h ->
  steady component nodeID w (set_heap h (set_queues (updateQueue w ++ []) (markupQueue w) w)).
Proof.
  intros Hh. unfold steady. simpl. rewrite app_nil_r.
  repeat split; intros; apply Hh.
Qed.

Lemma steady_writeComp a f :
  (forall c, _renderedChildren (f c) = _renderedChildren c /\
             constructor (f c) = constructor c /\
             _mountIndex (f c) = _mountIndex c) ->
  preserves (steady component nodeID) (writeComp a f).
Proof.
  intros Hf. apply preserves_modify. intros w. unfold steady. simpl. unfold upd.
  repeat split; intros;
    match goal with |- context [Nat.eqb ?x a] => destruct (Nat.eqb_spec x a) end;
    subst; try reflexivity; apply Hf.
Qed.

Lemma steady_updateAncestors fuel :
  forall a n d, preserves (steady component nodeID) (updateAncestors fuel a n d).
Proof.
  induction fuel as [|f IH]; intros a n d; simpl.
  - intros w r w' H. inversion H; subst. apply steady_refl.
  - destruct a as [a|]; [|apply preserves_ret, steady_refl].
    apply preserves_bind; [exact steady_trans | apply preserves_readComp, steady_refl|].
    intros c. destruct (String.eqb _ n); [apply preserves_ret, steady_refl|].
    apply preserves_bind; [exact steady_trans | |].
    + apply steady_writeComp. intros x. repeat split.
    + intros _. apply preserves_bind;
        [exact steady_trans | apply preserves_readComp, steady_refl | intros c'; apply IH].
Qed.

Lemma steady_updateNodeCounts fuel c n next :
  preserves (steady component nodeID) (updateNodeCounts fuel c n next).
Proof.
  unfold updateNodeCounts.
  apply preserves_bind; [exact steady_trans | apply preserves_readComp, steady_refl|].
  intros comp. apply preserves_bind; [exact steady_trans | |].
  - apply steady_writeComp. intros x. repeat split.
  - intros _. apply preserves_bind;
      [exact steady_trans | apply preserves_readComp, steady_refl
      | intros c'; apply steady_updateAncestors].
Qed.

(** An iteration of the second pass for a key under which neither side has
    a child. *)
Lemma diffChild_absent (prevIsObject : bool) idPrefix name cur w :
  inheritedProp (if prevIsObject then _renderedChildren (heap w component) else None) name
    = None ->
  prevChildAt prevIsObject component name w = None ->
  diffChild prevIsObject component nodeID idPrefix (name, None) cur w =
    (Normal (mkCursor (nextIndex cur) (lastIndex cur) (lastChild cur)), w).
Proof.
  unfold prevChildAt. intros Hi Hp.
  unfold diffChild, prevChildrenNow, bind, readComp, get, ret. simpl.
  rewrite Hi, Hp. reflexivity.
Qed.

(** An iteration for a reused child whose [receiveProps] does not return. *)
Lemma diffChild_reuse_fails (prevIsObject : bool) idPrefix name p n cur w r w1 :
  prevChildAt prevIsObject component name w = Some p ->
  shouldUpdateChild (heap w) (Some p) (Some n) = true ->
  receiveProps p (props (heap w n)) (log (CallReceiveProps p (props (heap w n))) w)
    = (r, w1) ->
  r <> Normal tt ->
  exists r',
    diffChild prevIsObject component nodeID idPrefix (name, Some n) cur w = (r', w1).
Proof.
  unfold prevChildAt. intros Hp Hs Hr Hn.
  unfold diffChild, prevChildrenNow, bind, readComp, get, ret. simpl.
  rewrite (inheritedProp_own _ _ _ Hp), Hp, Hs.
  unfold child_receiveProps, bind, modify. rewrite Hr.
  destruct r as [[]|e|]; [congruence| |]; eexists; reflexivity.
Qed.

Hypothesis Hreceive : forall c p, preserves (steady component nodeID) (receiveProps c p).

Lemma same_children_second_pass idPrefix prev (hA : ref -> Component) (w0 : World) :
  _renderedChildren (heap w0 component) = Some prev ->
  NoDup (keys prev) ->
  forall ps ns,
    Forall2 (alike (heap w0)) ps ns ->
    incl ps prev ->
    forall s cur last w r w',
      (forall c x, In (c, x) (prefixSums hA (childRefs ps) s) ->
         _mountIndex (heap w0 c) = Some x) ->
      (forall c, In c (childRefs ps) -> 0 <= toNumber (_nodeCount (hA c))) ->
      lastIndex cur = Num last ->
      last <= s ->
      steady component nodeID w0 w ->
      forIn ns (diffChild true component nodeID idPrefix) cur w = (r, w') ->
      steady component nodeID w0 w'.
Proof.
  intros Hmap Hnd ps ns Hall.
  induction Hall as [|[k pv] [k' nv] ps ns [Hk Hv] _ IH];
    intros Hin s cur last w r w' Hidx Hpos Hcur Hlast Hst H.
  - inversion H; subst. exact Hst.
  - simpl in Hk, Hv. subst k'. rewrite forIn_cons in H.
    assert (Hget : getProp prev k = pv)
      by (apply getProp_in; [exact Hnd | apply Hin; left; reflexivity]).
    assert (Hnow : prevChildAt true component k w = pv).
    { unfold prevChildAt. destruct Hst as (Hm & _). rewrite Hm, Hmap. exact Hget. }
    assert (Hin' : incl ps prev) by (intros x Hx; apply Hin; right; exact Hx).
    destruct pv as [p|], nv as [n|]; try contradiction.
    + assert (Hs : shouldUpdateChild (heap w) (Some p) (Some n) = true).
      { simpl. destruct Hst as (_ & Hc & _). rewrite !Hc. apply Nat.eqb_eq, Hv. }
      destruct (receiveProps p (props (heap w n))
                  (log (CallReceiveProps p (props (heap w n))) w)) as [res w1] eqn:Er.
      assert (Hst1 : steady component nodeID w0 w1).
      { eapply steady_trans; [exact Hst|]. eapply steady_trans; [apply steady_log|].
        eapply Hreceive. exact Er. }
      assert (Hmi : forall v, _mountIndex (heap v p) = _mountIndex (heap w0 p) ->
                              toNumber (_mountIndex (heap v p)) = s).
      { intros v ->. rewrite (Hidx p s); [reflexivity|]. simpl. left. reflexivity. }
      destruct res as [[]|e|].
      * rewrite (diffChild_reuse true component nodeID idPrefix k p n cur w w1 Hnow Hs Er)
          in H.
        rewrite (Hmi w) in H by apply Hst. rewrite (Hmi w1) in H by apply Hst1.
        rewrite Hcur in H. simpl Math_max in H.
        replace (Z.max s last) with s in H by lia.
        simpl lessThan in H. rewrite Z.ltb_irrefl in H.
        eapply (IH Hin' (s + toNumber (_nodeCount (hA p))) _ s); [| | | | |exact H];
          [| | | |eapply steady_trans;
                    [exact Hst1|apply steady_chain, linked_same_but_chain]].
        -- intros c x Hc. apply Hidx. simpl. right. exact Hc.
        -- intros c Hc. apply Hpos. simpl. right. exact Hc.
        -- reflexivity.
        -- specialize (Hpos p (or_introl eq_refl)). lia.
      * destruct (diffChild_reuse_fails true idPrefix k p n cur w _ w1 Hnow Hs Er)
          as (r' & Hd); [discriminate|].
        rewrite Hd in H. destruct r' as [cur1|e'|].
        -- exfalso. revert Hd. unfold prevChildAt in Hnow.
           unfold diffChild, prevChildrenNow, bind, readComp, get, ret. simpl.
           rewrite (inheritedProp_own _ _ _ Hnow), Hnow, Hs.
           unfold child_receiveProps, bind, modify. rewrite Er.
           discriminate.
        -- inversion H; subst. exact Hst1.
        -- inversion H; subst. exact Hst1.
      * destruct (diffChild_reuse_fails true idPrefix k p n cur w _ w1 Hnow Hs Er)
          as (r' & Hd); [discriminate|].
        rewrite Hd in H. destruct r' as [cur1|e'|].
        -- exfalso. revert Hd. unfold prevChildAt in Hnow.
           unfold diffChild, prevChildrenNow, bind, readComp, get, ret. simpl.
           rewrite (inheritedProp_own _ _ _ Hnow), Hnow, Hs.
           unfold child_receiveProps, bind, modify. rewrite Er.
           discriminate.
        -- inversion H; subst. exact Hst1.
        -- inversion H; subst. exact Hst1.
    + assert (Hown : inheritedProp (_renderedChildren (heap w component)) k = None).
      { destruct Hst as (Hm & _). rewrite Hm, Hmap. apply inheritedProp_hasOwn.
        apply (hasOwnProperty_in prev k None). apply Hin. left. reflexivity. }
      rewrite (diffChild_absent true idPrefix k cur w Hown Hnow) in H.
      refine (IH Hin' s _ last _ _ _ Hidx Hpos _ Hlast Hst H). simpl. exact Hcur.
Qed.

End SameShape.

Lemma prefixSums_covers h l : forall start c,
  In c l -> exists s, In (c, s) (prefixSums h l start).
Proof.
  induction l as [|a l IH]; intros start c H; [destruct H|]. simpl.
  destruct H as [->|H].
  - exists start. left. reflexivity.
  - destruct (IH (start + toNumber (_nodeCount (h a))) c H) as (s & Hs).
    exists s. right. exact Hs.
Qed.

Lemma alike_ext h h' ps ns :
  (forall x, constructor (h' x) = constructor (h x)) ->
  Forall2 (alike h) ps ns -> Forall2 (alike h') ps ns.
Proof.
  intros Hc. induction 1 as [|[k1 v1] [k2 v2] ps ns [Hk Hv] _ IH]; constructor; auto.
  split; [exact Hk|]. simpl in *. destruct v1, v2; auto. rewrite !Hc. exact Hv.
Qed.

Section SameShapeCall.
Context {collab : Collaborators}.

Lemma same_children_third_pass component nodeID prev next :
  (forall k, isSome (getProp next k) = isSome (getProp prev k)) ->
  forall ks w,
    _renderedChildren (heap w component) = Some prev ->
    forIn ks (fun name _ => removeIfAbsent true component nodeID (Some next) name) tt w
      = (Normal tt, w).
Proof.
  intros Hsame ks w Hmap. induction ks as [|k ks IH]; [reflexivity|].
  rewrite forIn_cons.
  assert (Hstep : removeIfAbsent true component nodeID (Some next) k w = (Normal tt, w)).
  { unfold removeIfAbsent, prevChildrenNow, bind, readComp, ret. simpl.
    rewrite Hmap. simpl. specialize (Hsame k).
    destruct (getProp prev k); [|reflexivity].
    simpl in Hsame. unfold truthyProp. simpl. rewrite Hsame. reflexivity. }
  rewrite Hstep. exact IH.
Qed.

(** X8.  Diffing against next children of the same shape enqueues nothing.
    When the next children have the keys of the rendered children, in the
    same order, and under each key both have no child or children of the
    same constructor, then, for distinct keys, distinct rendered children
    and no negative node count, the general case of [_updateChildren] adds
    no record for the node it addresses and leaves the rendered children
    object and every constructor as they are, however the call ends.  What
    is taken of [receiveProps], the one capability that is asked, is that
    it respects just that and the mount indices. *)
Theorem X8_same_children_enqueue_nothing :
  forall (fuel : nat) (component : ref) (idPrefix : string) (prev next : ChildMap)
         (w : World) (r : Outcome unit) (w' : World),
    let nodeID := resolveNodeID (heap w component) idPrefix in
    nodeID <> "" ->
    _renderedChildren (heap w component) = Some prev ->
    Forall2 (alike (heap w)) prev next ->
    NoDup (keys prev) ->
    NoDup (childRefs prev) ->
    (forall c, In c (childRefs prev) -> 0 <= toNumber (_nodeCount (heap w c))) ->
    (forall c p, preserves (steady component nodeID) (receiveProps c p)) ->
    _updateChildren fuel component idPrefix (Some next) w = (r, w') ->
    recordsFor nodeID (updateQueue w') = recordsFor nodeID (updateQueue w) /\
    _renderedChildren (heap w' component) = Some prev /\
    (forall x, constructor (heap w' x) = constructor (heap w x)).
Proof.
  intros fuel component idPrefix prev next w r w' nodeID
    Hid Hmap Hshape Hndk Hndc Hpos Hreceive H.
  assert (Hgoal : forall w1 w2,
            updateQueue w1 = updateQueue w ->
            _renderedChildren (heap w1 component) = Some prev ->
            (forall x, constructor (heap w1 x) = constructor (heap w x)) ->
            steady component nodeID w1 w2 ->
            recordsFor nodeID (updateQueue w2) = recordsFor nodeID (updateQueue w) /\
            _renderedChildren (heap w2 component) = Some prev /\
            (forall x, constructor (heap w2 x) = constructor (heap w x))).
  { intros w1 w2 Hq Hm Hc (H1 & H2 & _ & H4). rewrite H4, H1, Hq.
    repeat split; auto. intros x. rewrite H2. apply Hc. }
  unfold _updateChildren in H. unfold bind at 1, readComp at 1 in H.
  fold nodeID in H.
  destruct (String.eqb_spec nodeID "") as [He|_]; [contradiction|].
  simpl in H. unfold bind at 1, get at 1 in H.
  destruct (countNodesBefore fuel (heap w) _ nodeID 0) as [before|].
  2:{ inversion H; subst.
      apply (Hgoal w' w'); auto. apply steady_refl. }
  unfold bind at 1 in H. destruct (before =? 0) eqn:Eb; simpl in H.
  2:{ inversion H; subst.
      apply (Hgoal w' w'); auto. apply steady_refl. }
  apply Z.eqb_eq in Eb. subst before.
  rewrite Hmap in H.
  destruct (assignMountIndices_spec prev 0 w Hndc) as (total & h' & Hfirst & Hin & Hout).
  unfold bind at 1 in H. rewrite Hfirst in H.
  set (w1 := set_heap h' w) in *.
  assert (Hh' : forall x, _renderedChildren (h' x) = _renderedChildren (heap w x) /\
                          constructor (h' x) = constructor (heap w x)).
  { intros x. destruct (in_dec Nat.eq_dec x (childRefs prev)) as [Hx|Hx].
    - destruct (prefixSums_covers (heap w) _ 0 x Hx) as (s & Hs).
      rewrite (Hin _ _ Hs). split; reflexivity.
    - rewrite (Hout _ Hx). split; reflexivity. }
  assert (Hm1 : _renderedChildren (heap w1 component) = Some prev)
    by (simpl; rewrite (proj1 (Hh' component)); exact Hmap).
  assert (Hc1 : forall x, constructor (heap w1 x) = constructor (heap w x))
    by (intros x; apply Hh').
  change (isSome (Some prev)) with true in H.
  unfold bind at 1 in H. unfold diffChildren in H. simpl entries in H.
  destruct (forIn next (diffChild true component nodeID idPrefix) (mkCursor 0 (Num 0) None) w1)
    as [rc w2] eqn:E2.
  assert (Hst2 : steady component nodeID w1 w2).
  { refine (same_children_second_pass component nodeID Hreceive idPrefix prev (heap w) w1
              Hm1 Hndk prev next _ (incl_refl _) 0 _ 0 w1 rc w2 _ Hpos _ _ _ E2).
    - apply (alike_ext (heap w)); [exact Hc1|exact Hshape].
    - intros c x Hx. simpl. rewrite (Hin _ _ Hx). reflexivity.
    - reflexivity.
    - lia.
    - apply steady_refl. }
  destruct rc as [cur|e|];
    try (inversion H; subst; apply (Hgoal w1 w'); auto; fail).
  assert (Hm2 : _renderedChildren (heap w2 component) = Some prev)
    by (destruct Hst2 as (Hm & _); rewrite Hm; exact Hm1).
  unfold bind at 1 in H. unfold removeAbsent, prevChildrenNow in H.
  unfold bind at 1, readComp at 1, ret at 1 in H.
  unfold bind at 1 in H. cbv beta iota in H.
  rewrite Hm2 in H. simpl entries in H.
  rewrite (same_children_third_pass component nodeID prev next
             (alike_getProp _ _ _ Hshape) (keys prev) w2 Hm2) in H.
  apply (steady_updateNodeCounts component nodeID) in H.
  apply (Hgoal w1 w'); auto. eapply steady_trans; eauto.
Qed.

End SameShapeCall.

(** ** Diffing against no children at all *)

Lemma recordsFor_own nodeID q u :
  parentID u = nodeID -> recordsFor nodeID (q ++ [u]) = recordsFor nodeID q ++ [u].
Proof.
  intros Hu. unfold recordsFor. rewrite filter_app. simpl.
  rewrite Hu, String.eqb_refl. reflexivity.
Qed.

Lemma getPropOpt_no_entries next k : entries next = [] -> getPropOpt next k = None.
Proof. destruct next as [m|]; simpl; [intros ->|]; reflexivity. Qed.

Lemma getProp_absent m k : ~ In k (keys m) -> getProp m k = None.
Proof.
  intros Hk. destruct (getProp m k) as [c|] eqn:E; [|reflexivity].
  exfalso. apply Hk. eapply getProp_some_in. exact E.
Qed.

Lemma removals_of_first_pass nodeID h h1 l : forall start,
  (forall c s, In (c, s) (prefixSums h l start) -> h1 c = set_mountIndex (Some s) (h c)) ->
  map (fun c => mkUpdate nodeID REMOVE_NODE None None (_nodeCount (h1 c))
                  (_mountIndex (h1 c)) None) l
  = removals nodeID h l start.
Proof.
  unfold removals. induction l as [|c l IH]; intros start H; simpl; [reflexivity|].
  rewrite (H c start) by (left; reflexivity). simpl. f_equal.
  apply IH. intros x s Hx. apply H. right. exact Hx.
Qed.

Section RemoveAll.
Context {collab : Collaborators}.
Variables (component : ref) (nodeID : string) (S : list ref) (h1 : ref -> Component).
Variable next : option ChildMap.
Hypothesis Hnext : entries next = [].
Hypothesis Hcomp : In component S.
Hypothesis Hothers : forall c, preserves (keeps_others S c) (unmountComponent c).
Hypothesis Hquiet : forall c, preserves (no_record_for nodeID) (unmountComponent c).

Lemma remove_all_loop :
  forall ps m w w',
    NoDup (keys ps) -> NoDup (childRefs ps) -> incl (childRefs ps) S ->
    ~ In component (childRefs ps) ->
    _renderedChildren (heap w component) = Some m ->
    (forall kv, In kv ps -> getProp m (fst kv) = snd kv) ->
    (forall c, In c (childRefs ps) -> heap w c = h1 c) ->
    (forall c, In c (childRefs ps) -> isValidComponent (h1 c) = true) ->
    (forall k, In k (keys ps) -> inheritedProp next k = None) ->
    forIn (keys ps) (fun name _ => removeIfAbsent true component nodeID next name) tt w
      = (Normal tt, w') ->
    recordsFor nodeID (updateQueue w') =
      recordsFor nodeID (updateQueue w) ++
      map (fun c => mkUpdate nodeID REMOVE_NODE None None (_nodeCount (h1 c))
                      (_mountIndex (h1 c)) None) (childRefs ps) /\
    exists m',
      _renderedChildren (heap w' component) = Some m' /\
      (forall k, getProp m k = None \/ In k (keys ps) -> getProp m' k = None).
Proof.
  induction ps as [|[k [c|]] ps IH];
    intros m w w' Hndk Hndc Hin Hnot Hmap Hget Hheap Hvalid Hplain H.
  - inversion H; subst. simpl. rewrite app_nil_r. split; [reflexivity|].
    exists m. split; [exact Hmap|]. intros k [Hk|[]]. exact Hk.
  - simpl keys in H. rewrite forIn_cons in H.
    simpl in Hndk, Hndc. inversion Hndk as [|? ? Hkn Hndk']; subst.
    inversion Hndc as [|? ? Hcn Hndc']; subst.
    assert (Hc : In c S) by (apply Hin; left; reflexivity).
    assert (Hcc : component <> c) by (intros ->; apply Hnot; left; reflexivity).
    assert (Hk : getProp m k = Some c) by (apply (Hget (k, Some c)); left; reflexivity).
    assert (Hv : isValidComponent (heap w c) = true)
      by (rewrite Hheap by (left; reflexivity); apply Hvalid; left; reflexivity).
    assert (Hstep : removeIfAbsent true component nodeID next k w
                    = _unmountChildByName component nodeID c k w).
    { unfold removeIfAbsent, prevChildrenNow, bind, readComp, ret. simpl.
      rewrite Hmap. simpl. rewrite Hk. unfold truthyProp.
      rewrite (getPropOpt_no_entries next k Hnext), (Hplain k (or_introl eq_refl)).
      reflexivity. }
    rewrite Hstep in H.
    destruct (unmountComponent c (unmounting nodeID c w)) as [res w2] eqn:Eu.
    assert (Hw2 : forall x, In x S -> x <> c -> heap w2 x = heap w x).
    { intros x Hx Hxc. rewrite (Hothers _ _ _ _ Eu x Hx Hxc). simpl.
      rewrite !upd_other by exact Hxc. reflexivity. }
    assert (Hq2 : recordsFor nodeID (updateQueue w2) =
                  recordsFor nodeID (updateQueue w) ++
                  [mkUpdate nodeID REMOVE_NODE None None (_nodeCount (h1 c))
                     (_mountIndex (h1 c)) None]).
    { rewrite (Hquiet _ _ _ _ Eu). simpl. rewrite recordsFor_own by reflexivity.
      rewrite Hheap by (left; reflexivity). reflexivity. }
    assert (Hm2 : _renderedChildren (heap w2 component) = Some m)
      by (rewrite Hw2 by assumption; exact Hmap).
    destruct res as [[]|e|].
    + rewrite (unmountChildByName_spec component nodeID c k w w2 m Hv Eu Hm2) in H.
      apply (IH (deleteProp m k)) in H; auto.
      * destruct H as (Hq & m' & Hm' & Hnone). simpl in Hq. split.
        -- rewrite Hq, Hq2, <- app_assoc. reflexivity.
        -- exists m'. split; [exact Hm'|]. intros j Hj. apply Hnone.
           destruct (String.eqb_spec j k) as [->|Hjk].
           ++ left. apply getProp_deleteProp_same.
           ++ rewrite getProp_deleteProp_other by exact Hjk.
              destruct Hj as [Hj|[Hj|Hj]];
                [left; exact Hj|simpl in Hj; congruence|right; exact Hj].
      * intros x Hx. apply Hin. right. exact Hx.
      * intros Hx. apply Hnot. right. exact Hx.
      * simpl. rewrite upd_same. reflexivity.
      * intros [j v] Hj. simpl. rewrite getProp_deleteProp_other.
        -- apply (Hget (j, v)). right. exact Hj.
        -- intros ->. apply Hkn. apply in_map_iff. exists (k, v). auto.
      * intros x Hx. simpl.
        assert (Hxc : x <> c) by (intros ->; contradiction).
        assert (Hxp : x <> component)
          by (intros ->; apply Hnot; right; exact Hx).
        rewrite upd_other by exact Hxp.
        rewrite Hw2; [|apply Hin; right; exact Hx|exact Hxc].
        apply Hheap. right. exact Hx.
      * intros x Hx. apply Hvalid. right. exact Hx.
      * intros j Hj. apply Hplain. right. exact Hj.
    + exfalso. revert H. unfold _unmountChildByName.
      rewrite (bind_normal _ _ w (heap w c) w) by reflexivity. rewrite Hv.
      unfold removeChild, enqueueRemove, child_unmountComponent.
      unfold bind, readComp, writeComp, modify.
      change (unmountComponent c _) with (unmountComponent c (unmounting nodeID c w)).
      rewrite Eu. discriminate.
    + exfalso. revert H. unfold _unmountChildByName.
      rewrite (bind_normal _ _ w (heap w c) w) by reflexivity. rewrite Hv.
      unfold removeChild, enqueueRemove, child_unmountComponent.
      unfold bind, readComp, writeComp, modify.
      change (unmountComponent c _) with (unmountComponent c (unmounting nodeID c w)).
      rewrite Eu. discriminate.
  - simpl keys in H. rewrite forIn_cons in H.
    simpl in Hndk. inversion Hndk as [|? ? Hkn Hndk']; subst.
    assert (Hk : getProp m k = None) by (apply (Hget (k, None)); left; reflexivity).
    assert (Hstep : removeIfAbsent true component nodeID next k w = (Normal tt, w)).
    { unfold removeIfAbsent, prevChildrenNow, bind, readComp, ret. simpl.
      rewrite Hmap. simpl. rewrite Hk. reflexivity. }
    rewrite Hstep in H. simpl childRefs in *.
    apply (IH m) in H; auto.
    + destruct H as (Hq & m' & Hm' & Hnone). split; [exact Hq|].
      exists m'. split; [exact Hm'|]. intros j Hj. apply Hnone.
      destruct Hj as [Hj|[<-|Hj]]; [left; exact Hj|left; exact Hk|right; exact Hj].
    + intros kv Hkv. apply Hget. right. exact Hkv.
    + intros j Hj. apply Hplain. right. exact Hj.
Qed.

End RemoveAll.

Section RemoveAllCall.
Context {collab : Collaborators}.

(** X9.  Diffing against no children removes every child.  When the next
    children are [null], or an empty object in which no key of the rendered
    children finds a built-in of [Object.prototype], the rendered children
    have distinct keys and are distinct valid components other than the
    parent, and [unmountComponent] leaves the parent and the siblings alone
    and enqueues nothing for the addressed node, then a call of the general
    case that returns has enqueued, for that node, one REMOVE_NODE record
    per rendered child, in enumeration order, each with the child's node
    count and, as [fromIndex], the sum of the node counts of the children
    before it; and no key of the rendered children object has a child any
    more. *)
Theorem X9_diff_against_nothing_removes_every_child :
  forall (fuel : nat) (component : ref) (idPrefix : string) (prev : ChildMap)
         (next : option ChildMap) (w w' : World),
    let nodeID := resolveNodeID (heap w component) idPrefix in
    nodeID <> "" ->
    _renderedChildren (heap w component) = Some prev ->
    entries next = [] ->
    (forall k, In k (keys prev) -> inheritedProp next k = None) ->
    NoDup (keys prev) ->
    NoDup (childRefs prev) ->
    ~ In component (childRefs prev) ->
    (forall c v, In c (childRefs prev) ->
       isValidComponent (set_mountIndex v (heap w c)) = true) ->
    (forall c, preserves (keeps_others (component :: childRefs prev) c)
                 (unmountComponent c)) ->
    (forall c, preserves (no_record_for nodeID) (unmountComponent c)) ->
    _updateChildren fuel component idPrefix next w = (Normal tt, w') ->
    recordsFor nodeID (updateQueue w') =
      recordsFor nodeID (updateQueue w) ++ removals nodeID (heap w) (childRefs prev) 0 /\
    (forall k, renderedChild w' component k = None).
Proof.
  intros fuel component idPrefix prev next w w' nodeID
    Hid Hmap Hnext Hplain Hndk Hndc Hnot Hvalid Hothers Hquiet H.
  unfold _updateChildren in H. unfold bind at 1, readComp at 1 in H.
  fold nodeID in H.
  destruct (String.eqb_spec nodeID "") as [He|_]; [contradiction|].
  rewrite Hmap in H. simpl isSome in H. simpl negb in H. rewrite andb_false_r in H.
  unfold bind at 1, get at 1 in H.
  destruct (countNodesBefore fuel (heap w) _ nodeID 0) as [before|]; [|discriminate].
  unfold bind at 1 in H. destruct (before =? 0) eqn:Eb; simpl in H; [|discriminate].
  apply Z.eqb_eq in Eb. subst before.
  destruct (assignMountIndices_spec prev 0 w Hndc) as (total & h' & Hfirst & Hin & Hout).
  unfold bind at 1 in H. rewrite Hfirst in H.
  set (w1 := set_heap h' w) in *.
  assert (Hm1 : _renderedChildren (heap w1 component) = Some prev)
    by (simpl; rewrite (Hout _ Hnot); exact Hmap).
  unfold bind at 1 in H. unfold diffChildren in H. rewrite Hnext in H.
  simpl forIn in H. unfold ret at 1 in H.
  unfold bind at 1 in H. unfold removeAbsent, prevChildrenNow in H.
  unfold bind at 1, readComp at 1, ret at 1 in H.
  unfold bind at 1 in H. cbv beta iota in H.
  rewrite Hm1 in H. simpl entries in H.
  destruct (forIn (keys prev)
              (fun name _ => removeIfAbsent true component nodeID next name) tt w1)
    as [r3 w3] eqn:E3.
  destruct r3 as [[]|e|]; try discriminate.
  apply (remove_all_loop component nodeID (component :: childRefs prev) (heap w1) next
           Hnext (or_introl eq_refl) Hothers Hquiet prev prev) in E3; auto.
  - destruct E3 as (Hq & m' & Hm' & Hnone).
    apply (steady_updateNodeCounts component nodeID) in H.
    destruct H as (Hmf & _ & _ & Hqf). split.
    + rewrite Hqf, Hq. simpl. f_equal.
      apply removals_of_first_pass. exact Hin.
    + intros k. unfold renderedChild. rewrite Hmf, Hm'. simpl. apply Hnone.
      destruct (in_dec string_dec k (keys prev)) as [Hk|Hk]; [right; exact Hk|].
      left. apply getProp_absent, Hk.
  - intros x Hx. right. exact Hx.
  - intros kv Hkv. destruct kv as [k v]. apply getProp_in; assumption.
  - intros c Hc. destruct (prefixSums_covers (heap w) _ 0 c Hc) as (s & Hs).
    simpl. rewrite (Hin _ _ Hs). apply Hvalid, Hc.
Qed.

End RemoveAllCall.

(** ** The unit-index engine keeps the mount indices exact *)

Lemma getProp_childRefs m k c : getProp m k = Some c -> In c (childRefs m).
Proof.
  induction m as [|[k0 [v0|]] m IH]; rewrite ?getProp_cons; simpl.
  - unfold getProp. simpl. discriminate.
  - destruct (String.eqb k0 k); [intros H; inversion H; auto | auto].
  - destruct (String.eqb k0 k); [discriminate | auto].
Qed.

Lemma one_key_each_of_NoDup m : NoDup (childRefs m) -> one_key_each m.
Proof.
  induction m as [|[k0 [v0|]] m IH]; intros Hnd k k' c; rewrite ?getProp_cons.
  - unfold getProp. simpl. discriminate.
  - simpl in Hnd. inversion Hnd as [|? ? Hnotin Hnd']; subst.
    destruct (String.eqb_spec k0 k), (String.eqb_spec k0 k'); intros H1 H2.
    + congruence.
    + inversion H1; subst. apply getProp_childRefs in H2. contradiction.
    + inversion H2; subst. apply getProp_childRefs in H1. contradiction.
    + eapply IH; eauto.
  - simpl in Hnd.
    destruct (String.eqb_spec k0 k), (String.eqb_spec k0 k'); intros H1 H2;
      try discriminate. eapply IH; eauto.
Qed.

Lemma one_key_each_delete m k : one_key_each m -> one_key_each (deleteProp m k).
Proof.
  intros Hm j j' c Hj Hj'.
  destruct (String.eqb_spec j k) as [->|Hjk];
    [rewrite getProp_deleteProp_same in Hj; discriminate|].
  destruct (String.eqb_spec j' k) as [->|Hjk'];
    [rewrite getProp_deleteProp_same in Hj'; discriminate|].
  rewrite getProp_deleteProp_other in Hj, Hj' by assumption. eapply Hm; eauto.
Qed.

Lemma one_key_each_set m k n :
  one_key_each m -> not_rendered m n -> one_key_each (setProp m k (Some n)).
Proof.
  intros Hm Hn j j' c Hj Hj'.
  destruct (String.eqb_spec j k) as [->|Hjk], (String.eqb_spec j' k) as [->|Hjk'];
    rewrite ?getProp_setProp_same in *;
    rewrite ?getProp_setProp_other in * by assumption.
  - reflexivity.
  - inversion Hj; subst. exfalso. eapply Hn; eauto.
  - inversion Hj'; subst. exfalso. eapply Hn; eauto.
  - eapply Hm; eauto.
Qed.

Lemma not_rendered_delete m k n : not_rendered m n -> not_rendered (deleteProp m k) n.
Proof.
  intros Hn j. destruct (String.eqb_spec j k) as [->|Hjk].
  - rewrite getProp_deleteProp_same. discriminate.
  - rewrite getProp_deleteProp_other by exact Hjk. apply Hn.
Qed.

Lemma not_rendered_set m k n n' :
  n' <> n -> not_rendered m n' -> not_rendered (setProp m k (Some n)) n'.
Proof.
  intros Hne Hn j. destruct (String.eqb_spec j k) as [->|Hjk].
  - rewrite getProp_setProp_same. congruence.
  - rewrite getProp_setProp_other by exact Hjk. apply Hn.
Qed.

Lemma renderedChildren_upd_mountIndex h x v y :
  _renderedChildren (upd h x (set_mountIndex v (h x)) y) = _renderedChildren (h y).
Proof. unfold upd. destruct (Nat.eqb_spec y x); subst; reflexivity. Qed.

Lemma mountIndex_upd_renderedChildren h x v y :
  _mountIndex (upd h x (set_renderedChildren v (h x)) y) = _mountIndex (h y).
Proof. unfold upd. destruct (Nat.eqb_spec y x); subst; reflexivity. Qed.

Lemma others_kept_refl component k w : others_kept component k w w.
Proof. split; auto. Qed.

Lemma others_kept_trans component k a b c :
  others_kept component k a b -> others_kept component k b c ->
  others_kept component k a c.
Proof.
  intros (H1 & H2) (H3 & H4). split.
  - intros j Hj. rewrite H3, H1 by exact Hj. reflexivity.
  - intros j r Hj Hr. rewrite (H4 j r), (H2 j r); auto. rewrite H1 by exact Hj. exact Hr.
Qed.

Lemma numbered_kept component k l w w' :
  others_kept component k w w' ->
  (forall i, ~ In (k, i) l) ->
  numbered component l w -> numbered component l w'.
Proof.
  intros (H1 & H2) Hk Hl j i Hj.
  assert (Hjk : j <> k) by (intros ->; eapply Hk; eauto).
  destruct (Hl j i Hj) as (r & Hr & Hi). exists r.
  rewrite H1 by exact Hjk. split; [exact Hr|]. rewrite (H2 j r) by assumption. exact Hi.
Qed.

Section UnitPositions.
Context {collab : Collaborators}.
Variable component : ref.
Hypothesis Hframe : capabilities_preserve (rendered_kept component).

Lemma unit_unmount_post nodeID p k w w' m future :
  _renderedChildren (heap w component) = Some m ->
  getProp m k = Some p ->
  one_key_each m ->
  (forall n, In n future -> not_rendered m n) ->
  UnitIndex._unmountChildByName component nodeID p k w = (Normal tt, w') ->
  tidy component future w' /\ others_kept component k w w'.
Proof.
  intros Hmap Hp Hinj Hfut H.
  unfold UnitIndex._unmountChildByName in H.
  rewrite (bind_normal _ _ w (heap w p) w) in H by reflexivity.
  destruct (isValidComponent (heap w p)).
  2:{ inversion H; subst. split; [exists m; auto | apply others_kept_refl]. }
  unfold UnitIndex.removeChild, UnitIndex.enqueueRemove, child_unmountComponent in H.
  unfold bind, readComp, writeComp, modify in H. simpl in H.
  match type of H with
  | context [unmountComponent p ?W] =>
      destruct (unmountComponent p W) as [[[]|e|] w2] eqn:Eu
  end; try discriminate.
  destruct Hframe as (_ & _ & Hun). apply Hun in Eu. destruct Eu as (Hm2 & Hi2).
  unfold renderedChild in Hi2. simpl in Hm2, Hi2.
  rewrite renderedChildren_upd_mountIndex, Hmap in Hm2, Hi2. simpl in Hi2.
  rewrite Hm2 in H. inversion H; subst w'; clear H. split.
  - exists (deleteProp m k). simpl. rewrite upd_same. simpl.
    split; [reflexivity|]. split; [apply one_key_each_delete, Hinj|].
    intros n Hn. apply not_rendered_delete, Hfut, Hn.
  - unfold others_kept, renderedChild. simpl. rewrite upd_same, Hmap. simpl. split.
    + intros j Hj. apply getProp_deleteProp_other, Hj.
    + intros j r Hj Hr. rewrite mountIndex_upd_renderedChildren, (Hi2 j r Hr).
      apply f_equal, upd_other. intros ->. apply Hj. eapply Hinj; eauto.
Qed.

Lemma unit_mount_post nodeID idPrefix n k idx w w' m future :
  _renderedChildren (heap w component) = Some m ->
  one_key_each m ->
  not_rendered m n ->
  (forall n', In n' future -> n' <> n /\ not_rendered m n') ->
  UnitIndex._mountChildByNameAtIndex component nodeID idPrefix n k idx w = (Normal tt, w') ->
  tidy component future w' /\
  others_kept component k w w' /\
  renderedChild w' component k = Some n /\
  _mountIndex (heap w' n) = Some idx.
Proof.
  intros Hmap Hinj Hn Hfut H.
  unfold UnitIndex._mountChildByNameAtIndex, child_mountComponent in H.
  unfold UnitIndex.createChild, enqueueMarkup in H.
  unfold bind, readComp, writeComp, modify in H. simpl in H.
  match type of H with
  | context [mountComponent n ?id ?W] =>
      destruct (mountComponent n id W) as [[img|e|] w2] eqn:Em
  end; try discriminate.
  destruct Hframe as (Hmo & _ & _). apply Hmo in Em. destruct Em as (Hm2 & Hi2).
  unfold renderedChild in Hi2. simpl in Hm2, Hi2. rewrite Hmap in Hm2, Hi2.
  simpl in Hi2, H. inversion H; subst w'; clear H.
  unfold tidy, others_kept, renderedChild. simpl.
  rewrite !upd_same, !mountIndex_upd_renderedChildren. simpl.
  rewrite renderedChildren_upd_mountIndex, Hm2. simpl.
  rewrite getProp_setProp_same, upd_same. simpl.
  split; [|split; [|split; reflexivity]].
  - eexists. split; [reflexivity|]. split; [apply one_key_each_set; assumption|].
    intros n' Hn'. destruct (Hfut n' Hn'). apply not_rendered_set; assumption.
  - rewrite Hmap. simpl. split.
    + intros j Hj. apply getProp_setProp_other, Hj.
    + intros j r Hj Hr. rewrite mountIndex_upd_renderedChildren.
      rewrite upd_other by (intros ->; eapply Hn; eauto). apply (Hi2 j r Hr).
Qed.

Lemma unit_diffChild_post nodeID idPrefix k nv last nxt w st' w' future :
  tidy component (childRefs [(k, nv)] ++ future) w ->
  NoDup (childRefs [(k, nv)] ++ future) ->
  UnitIndex.diffChild true component nodeID idPrefix (k, nv) (last, nxt) w
    = (Normal st', w') ->
  tidy component future w' /\
  others_kept component k w w' /\
  snd st' = (if isSome nv then nxt + 1 else nxt) /\
  (isSome nv = true ->
   exists r, renderedChild w' component k = Some r /\ _mountIndex (heap w' r) = Some nxt).
Proof.
  intros (m & Hmap & Hinj & Hfresh) Hnd H.
  unfold UnitIndex.diffChild, prevChildrenNow in H.
  unfold bind at 1 in H. unfold bind at 1, readComp at 1, ret at 1 in H.
  cbn beta iota zeta delta [fst snd] in H.
  rewrite Hmap in H.
  assert (Hfut : forall n, In n future -> not_rendered m n)
    by (intros n Hn; apply Hfresh, in_or_app; right; exact Hn).
  destruct (inheritedProp (Some m) k) as [builtin|].
  { (* a built-in where the previous child is looked for *)
    unfold UnitIndex.diffBuiltin in H. destruct nv as [n|]; simpl in Hnd, Hfresh.
    - inversion Hnd as [|? ? Hnotin Hnd']; subst.
      unfold bind at 1, readComp at 1 in H.
      destruct (Nat.eqb builtin (constructor (heap w n)));
        [unfold throw in H; discriminate|].
      unfold bind at 1 in H.
      destruct (UnitIndex._mountChildByNameAtIndex component nodeID idPrefix n k nxt w)
        as [[[]|e|] w2] eqn:Em; try discriminate.
      unfold ret in H. inversion H; subst st' w2; clear H.
      apply (unit_mount_post nodeID idPrefix n k nxt w w' m future Hmap Hinj) in Em.
      + destruct Em as (Ht & Hk2 & Hr & Hi).
        split; [exact Ht|]. split; [exact Hk2|].
        split; [reflexivity|]. intros _. exists n. auto.
      + apply Hfresh. left. reflexivity.
      + intros n' Hn'. split; [intros ->; contradiction|].
        apply Hfresh. right. exact Hn'.
    - unfold ret in H. inversion H; subst st' w'; clear H.
      split; [exists m; auto|]. split; [apply others_kept_refl|].
      split; [reflexivity|discriminate]. }
  unfold bind at 1, get at 1 in H. cbv beta iota in H. simpl getPropOpt in H.
  unfold bind at 1 in H.
  match type of H with
  | (let (_, _) := ?step w in _) = _ => destruct (step w) as [[li|e|] w3] eqn:E
  end; try discriminate.
  unfold ret in H. inversion H; subst st' w3; clear H. simpl snd.
  destruct (getProp m k) as [p|] eqn:Hp; destruct nv as [n|]; simpl in E, Hnd, Hfresh.
  - (* a previous child and a next child *)
    inversion Hnd as [|? ? Hnotin Hnd']; subst.
    destruct (Nat.eqb (constructor (heap w p)) (constructor (heap w n))).
    + (* reused *)
      unfold UnitIndex.moveChild, UnitIndex.enqueueMove, child_receiveProps in E.
      unfold bind, readComp, writeComp, modify, ret in E.
      destruct (lessThan (toNumber (_mountIndex (heap w p))) last); simpl in E.
      * match type of E with
        | context [receiveProps p ?x ?W] =>
            destruct (receiveProps p x W) as [[[]|e|] w2] eqn:Er
        end; try discriminate.
        destruct Hframe as (_ & Hre & _). apply Hre in Er. destruct Er as (Hm2 & Hi2).
        unfold renderedChild in Hi2. simpl in Hm2, Hi2. rewrite Hmap in Hm2, Hi2.
        simpl in Hi2. inversion E; subst li w'; clear E.
        unfold tidy, others_kept, renderedChild. simpl.
        rewrite !renderedChildren_upd_mountIndex, Hm2, Hmap. simpl.
        split; [exists m; auto|]. split; [split; [reflexivity|]|].
        -- intros j r Hj Hr. rewrite upd_other by (intros ->; apply Hj; eapply Hinj; eauto).
           apply (Hi2 j r Hr).
        -- split; [reflexivity|]. intros _. exists p. rewrite upd_same. auto.
      * unfold ret in E.
        match type of E with
        | context [receiveProps p ?x ?W] =>
            destruct (receiveProps p x W) as [[[]|e|] w2] eqn:Er
        end; try discriminate.
        destruct Hframe as (_ & Hre & _). apply Hre in Er. destruct Er as (Hm2 & Hi2).
        unfold renderedChild in Hi2. simpl in Hm2, Hi2. rewrite Hmap in Hm2, Hi2.
        simpl in Hi2. inversion E; subst li w'; clear E.
        unfold tidy, others_kept, renderedChild. simpl.
        rewrite !renderedChildren_upd_mountIndex, Hm2, Hmap. simpl.
        split; [exists m; auto|]. split; [split; [reflexivity|]|].
        -- intros j r Hj Hr. rewrite upd_other by (intros ->; apply Hj; eapply Hinj; eauto).
           apply (Hi2 j r Hr).
        -- split; [reflexivity|]. intros _. exists p. rewrite upd_same. auto.
    + (* replaced *)
      unfold bind at 1 in E. unfold bind at 1, readComp at 1 in E. unfold bind at 1 in E.
      destruct (UnitIndex._unmountChildByName component nodeID p k w)
        as [[[]|e|] w1] eqn:Eu; try discriminate.
      apply (unit_unmount_post nodeID p k w w1 m (n :: future) Hmap Hp Hinj) in Eu;
        [|exact Hfresh].
      destruct Eu as ((m1 & Hmap1 & Hinj1 & Hfresh1) & Hk1).
      unfold ret at 1 in E. unfold bind at 1 in E.
      destruct (UnitIndex._mountChildByNameAtIndex component nodeID idPrefix n k nxt w1)
        as [[[]|e|] w2] eqn:Em; try discriminate.
      inversion E; subst li w'; clear E.
      apply (unit_mount_post nodeID idPrefix n k nxt w1 w2 m1 future Hmap1 Hinj1) in Em.
      * destruct Em as (Ht & Hk2 & Hr & Hi).
        split; [exact Ht|]. split; [eapply others_kept_trans; eauto|].
        split; [reflexivity|]. intros _. exists n. auto.
      * apply Hfresh1. left. reflexivity.
      * intros n' Hn'. split; [intros ->; contradiction|].
        apply Hfresh1. right. exact Hn'.
  - (* a previous child and no next child *)
    unfold bind at 1 in E. unfold bind at 1, readComp at 1 in E. unfold bind at 1 in E.
    destruct (UnitIndex._unmountChildByName component nodeID p k w)
      as [[[]|e|] w1] eqn:Eu; try discriminate.
    inversion E; subst li w'; clear E.
    apply (unit_unmount_post nodeID p k w w1 m future Hmap Hp Hinj Hfut) in Eu.
    destruct Eu as (Ht & Hk1). repeat split; try apply Ht; try apply Hk1.
    discriminate.
  - (* no previous child and a next child *)
    inversion Hnd as [|? ? Hnotin Hnd']; subst.
    unfold bind at 1 in E. unfold ret at 1 in E. unfold bind at 1 in E.
    destruct (UnitIndex._mountChildByNameAtIndex component nodeID idPrefix n k nxt w)
      as [[[]|e|] w2] eqn:Em; try discriminate.
    inversion E; subst li w'; clear E.
    apply (unit_mount_post nodeID idPrefix n k nxt w w2 m future Hmap Hinj) in Em.
    + destruct Em as (Ht & Hk2 & Hr & Hi).
      split; [exact Ht|]. split; [exact Hk2|].
      split; [reflexivity|]. intros _. exists n. auto.
    + apply Hfresh. left. reflexivity.
    + intros n' Hn'. split; [intros ->; contradiction|].
      apply Hfresh. right. exact Hn'.
  - (* neither *)
    inversion E; subst li w'; clear E.
    split; [exists m; auto|]. split; [apply others_kept_refl|].
    split; [reflexivity|discriminate].
Qed.

Lemma unit_second_pass nodeID idPrefix :
  forall es last nxt w st' w' done,
    NoDup (keys es) -> NoDup (childRefs es) ->
    tidy component (childRefs es) w ->
    numbered component done w ->
    (forall k i, In (k, i) done -> ~ In k (keys es)) ->
    forIn es (UnitIndex.diffChild true component nodeID idPrefix) (last, nxt) w
      = (Normal st', w') ->
    tidy component [] w' /\ numbered component (done ++ positions es nxt) w'.
Proof.
  induction es as [|[k nv] es IH]; intros last nxt w st' w' done Hndk Hndc Ht Hdone Hkeys H.
  - inversion H; subst. rewrite app_nil_r. auto.
  - rewrite forIn_cons in H.
    destruct (UnitIndex.diffChild true component nodeID idPrefix (k, nv) (last, nxt) w)
      as [[[l1 n1]|e|] w1] eqn:E; try discriminate.
    assert (Hsplit : childRefs ((k, nv) :: es) = childRefs [(k, nv)] ++ childRefs es)
      by (destruct nv; reflexivity).
    rewrite Hsplit in Ht, Hndc.
    apply (unit_diffChild_post nodeID idPrefix k nv last nxt w _ w1 (childRefs es) Ht Hndc)
      in E.
    destruct E as (Ht1 & Hk1 & Hn1 & Hr1). simpl in Hn1. subst n1.
    simpl in Hndk. inversion Hndk as [|? ? Hkn Hndk']; subst.
    assert (Hdone1 : numbered component done w1).
    { eapply numbered_kept; [exact Hk1| |exact Hdone].
      intros i Hi. apply (Hkeys k i Hi). left. reflexivity. }
    assert (Hnd' : NoDup (childRefs es))
      by (destruct nv; simpl in Hndc; [inversion Hndc|]; assumption).
    destruct nv as [n|]; simpl isSome in H; cbv iota in H; simpl positions.
    + apply (IH _ _ _ _ _ (done ++ [(k, nxt)])) in H; auto.
      * rewrite <- app_assoc in H. exact H.
      * intros j i Hj. apply in_app_or in Hj as [Hj|[Hj|[]]].
        -- apply Hdone1, Hj.
        -- inversion Hj; subst. apply Hr1. reflexivity.
      * intros j i Hj. apply in_app_or in Hj as [Hj|[Hj|[]]].
        -- intros Hin. apply (Hkeys j i Hj). right. exact Hin.
        -- inversion Hj; subst. exact Hkn.
    + apply (IH _ _ _ _ _ done) in H; auto.
      intros j i Hj Hin. apply (Hkeys j i Hj). right. exact Hin.
Qed.

Lemma unit_third_pass nodeID next done :
  (forall k i, In (k, i) done -> truthyProp next k = true) ->
  forall ks w w',
    tidy component [] w ->
    numbered component done w ->
    forIn ks (fun name _ => UnitIndex.removeIfAbsent true component nodeID next name) tt w
      = (Normal tt, w') ->
    tidy component [] w' /\ numbered component done w'.
Proof.
  intros Hnext. induction ks as [|k ks IH]; intros w w' Ht Hdone H.
  - inversion H; subst. auto.
  - rewrite forIn_cons in H.
    destruct (UnitIndex.removeIfAbsent true component nodeID next k w)
      as [[[]|e|] w1] eqn:E; try discriminate.
    assert (Hstep : tidy component [] w1 /\ numbered component done w1).
    { destruct Ht as (m & Hmap & Hinj & Hfresh).
      unfold UnitIndex.removeIfAbsent, prevChildrenNow, bind, readComp, ret in E.
      simpl in E. rewrite Hmap in E. simpl in E.
      destruct (getProp m k) as [c|] eqn:Hc.
      - destruct (truthyProp next k) eqn:Hk; simpl in E.
        + inversion E; subst. split; [exists m; auto|exact Hdone].
        + apply (unit_unmount_post nodeID c k w w1 m [] Hmap Hc Hinj Hfresh) in E.
          destruct E as (Ht1 & Hk1). split; [exact Ht1|].
          eapply numbered_kept; [exact Hk1| |exact Hdone].
          intros i Hi. rewrite (Hnext k i Hi) in Hk. discriminate.
      - inversion E; subst. split; [exists m; auto|exact Hdone]. }
    destruct Hstep as (Ht1 & Hdone1). eapply IH; eauto.
Qed.

Lemma positions_there es : forall start k i,
  In (k, i) (positions es start) -> exists n, In (k, Some n) es.
Proof.
  induction es as [|[k0 [n0|]] es IH]; intros start k i H; simpl in H.
  - destruct H.
  - destruct H as [H|H].
    + inversion H; subst. exists n0. left. reflexivity.
    + destruct (IH _ _ _ H) as (n & Hn). exists n. right. exact Hn.
  - destruct (IH _ _ _ H) as (n & Hn). exists n. right. exact Hn.
Qed.

(** X10.  After a diff in the unit-index engine the mount indices are the
    positions.  For rendered children that are distinct, next children with
    distinct keys that are distinct and none of them rendered already, and
    capabilities that leave the parent's children object and the mount
    indices of the children rendered in it alone, a call of
    [_updateChildren] that returns leaves under every key of the next
    children that has a child there a child whose mount index is the number
    of such keys before it. *)
Theorem X10_unit_diff_numbers_the_children :
  forall (nodeID idPrefix : string) (prev next : ChildMap) (w w' : World),
    _renderedChildren (heap w component) = Some prev ->
    NoDup (childRefs prev) ->
    NoDup (keys next) ->
    NoDup (childRefs next) ->
    (forall n, In n (childRefs next) -> ~ In n (childRefs prev)) ->
    UnitIndex._updateChildren component nodeID idPrefix (Some next) w = (Normal tt, w') ->
    forall k i, In (k, i) (positions next 0) ->
      exists r, renderedChild w' component k = Some r /\
                _mountIndex (heap w' r) = Some i.
Proof.
  intros nodeID idPrefix prev next w w' Hmap Hndp Hndk Hndc Hfresh H.
  unfold UnitIndex._updateChildren in H. unfold bind at 1, readComp at 1 in H.
  rewrite Hmap in H. simpl in H. unfold bind at 1 in H.
  destruct (forIn next (UnitIndex.diffChild true component nodeID idPrefix) (Num 0, 0) w)
    as [[st|e|] w1] eqn:E1; try discriminate.
  apply (unit_second_pass nodeID idPrefix next (Num 0) 0 w st w1 []) in E1; auto.
  - destruct E1 as (Ht1 & Hdone1). simpl in Hdone1.
    unfold UnitIndex.removeAbsent, prevChildrenNow in H.
    unfold bind at 1 in H. unfold bind at 1, readComp at 1, ret at 1 in H.
    cbv beta iota in H.
    apply (unit_third_pass nodeID (Some next) (positions next 0)) in H; auto.
    + apply H.
    + intros k i Hk. destruct (positions_there _ _ _ _ Hk) as (n & Hn).
      apply (truthyProp_child (Some next) k n). simpl.
      apply (getProp_in next k (Some n) Hndk Hn).
  - exists prev. split; [exact Hmap|]. split; [apply one_key_each_of_NoDup, Hndp|].
    intros n Hn j Hj. apply (Hfresh n Hn). eapply getProp_childRefs. exact Hj.
  - intros k i [].
Qed.

End UnitPositions.

(** ** What the diff leaves under each key *)

Section OneKey.
Context {collab : Collaborators}.
Variable component : ref.

Lemma only_key_refl k w : only_key component k w w.
Proof. split; auto. Qed.

Lemma only_key_trans k a b c :
  only_key component k a b -> only_key component k b c -> only_key component k a c.
Proof.
  intros (H1 & H2) (H3 & H4). split.
  - intros j Hj. rewrite H3, H1 by exact Hj. reflexivity.
  - intros x. rewrite H4, H2. reflexivity.
Qed.

Lemma shape_only_key k w w' : shape_kept component w w' -> only_key component k w w'.
Proof. intros (H1 & H2). unfold only_key, renderedChild. rewrite H1. auto. Qed.

Lemma only_key_same_heap k f :
  (forall w, heap (f w) = heap w) -> preserves (only_key component k) (modify f).
Proof.
  intros Hf. apply preserves_modify. intros w. unfold only_key, renderedChild.
  rewrite Hf. auto.
Qed.

Lemma only_key_fields k c f :
  (forall x, constructor (f x) = constructor x /\
             _renderedChildren (f x) = _renderedChildren x) ->
  preserves (only_key component k) (writeComp c f).
Proof.
  intros Hf. apply preserves_modify. intros w.
  unfold only_key, renderedChild. simpl. unfold upd. split.
  - intros j _. destruct (Nat.eqb_spec component c) as [->|_]; [|reflexivity].
    rewrite (proj2 (Hf _)). reflexivity.
  - intros x. destruct (Nat.eqb_spec x c) as [->|_]; [|reflexivity]. apply Hf.
Qed.

Lemma only_key_write k (g : Component -> option ChildMap) :
  (forall x j, j <> k -> getPropOpt (g x) j = getPropOpt (_renderedChildren x) j) ->
  preserves (only_key component k)
    (writeComp component (fun c => set_renderedChildren (g c) c)).
Proof.
  intros Hg. apply preserves_modify. intros w.
  unfold only_key, renderedChild. simpl. rewrite upd_same. simpl. split.
  - intros j Hj. apply Hg, Hj.
  - intros x. unfold upd. destruct (Nat.eqb_spec x component) as [->|_]; reflexivity.
Qed.

Lemma only_key_delete k :
  preserves (only_key component k)
    (comp <- readComp component ;;
     match _renderedChildren comp with
     | Some m => writeComp component (set_renderedChildren (Some (deleteProp m k)))
     | None => throw TypeError
     end).
Proof.
  intros w r w' H. unfold bind, readComp in H.
  destruct (_renderedChildren (heap w component)) as [m|] eqn:E.
  - inversion H; subst. unfold only_key, renderedChild. simpl. rewrite upd_same.
    simpl. rewrite E. simpl. split.
    + intros j Hj. apply getProp_deleteProp_other, Hj.
    + intros x. unfold upd. destruct (Nat.eqb_spec x component) as [->|_]; reflexivity.
  - inversion H; subst. apply only_key_refl.
Qed.

Hypothesis Hshape : capabilities_preserve (shape_kept component).

Ltac one_key k :=
  repeat first
    [ apply only_key_delete
    | apply (preserves_bind _ (only_key_trans k)); [|intros ?]
    | apply (preserves_whenb _ (only_key_refl k))
    | apply (preserves_ret _ (only_key_refl k))
    | apply (preserves_throw _ (only_key_refl k))
    | apply (preserves_readComp _ (only_key_refl k))
    | apply (preserves_get _ (only_key_refl k))
    | apply only_key_fields; intros; split; reflexivity
    | apply only_key_same_heap; intros; reflexivity
    | let H := fresh "H" in
      intros ? ? ? H; apply shape_only_key;
      first [ exact (proj1 Hshape _ _ _ _ _ H)
            | exact (proj1 (proj2 Hshape) _ _ _ _ _ H)
            | exact (proj2 (proj2 Hshape) _ _ _ _ H) ] ].

Lemma only_key_unmount nodeID c k :
  preserves (only_key component k) (_unmountChildByName component nodeID c k).
Proof.
  unfold _unmountChildByName, removeChild, enqueueRemove, child_unmountComponent.
  apply (preserves_bind _ (only_key_trans k)); [one_key k|]. intros cc.
  destruct (isValidComponent cc); one_key k.
Qed.

Lemma only_key_mount nodeID idPrefix c k i :
  preserves (only_key component k)
    (_mountChildByNameAtIndex component nodeID idPrefix c k i).
Proof.
  unfold _mountChildByNameAtIndex, createChild, enqueueMarkup, child_mountComponent.
  one_key k.
  apply (only_key_write k
           (fun x => Some (setProp (entries (_renderedChildren x)) k (Some c)))).
  intros x j Hj. simpl. rewrite getProp_setProp_other by exact Hj.
  destruct (_renderedChildren x); reflexivity.
Qed.

Ltac one_key_calls k :=
  repeat first
    [ apply only_key_unmount
    | apply only_key_mount
    | match goal with
      | |- preserves _ (if ?c then _ else _) => destruct c
      | |- preserves _ (match ?x with _ => _ end) => destruct x
      | |- preserves _ (let '(_, _) := ?x in _) => destruct x
      end
    | apply (preserves_bind _ (only_key_trans k)); [|intros ?]
    | apply (preserves_whenb _ (only_key_refl k))
    | apply (preserves_ret _ (only_key_refl k))
    | apply (preserves_throw _ (only_key_refl k))
    | apply (preserves_readComp _ (only_key_refl k))
    | apply (preserves_get _ (only_key_refl k))
    | apply only_key_fields; intros; split; reflexivity
    | apply only_key_same_heap; intros; reflexivity
    | let H := fresh "H" in
      intros ? ? ? H; apply shape_only_key;
      exact (proj1 (proj2 Hshape) _ _ _ _ _ H) ].

Lemma only_key_diffChild (b : bool) nodeID idPrefix k v cur :
  preserves (only_key component k) (diffChild b component nodeID idPrefix (k, v) cur).
Proof.
  unfold diffChild, diffBuiltin, prevChildrenNow, appendToChain, moveChild, enqueueMove,
    child_receiveProps.
  simpl fst. simpl snd. one_key_calls k.
Qed.

Lemma only_key_removeIfAbsent (b : bool) nodeID next k :
  preserves (only_key component k) (removeIfAbsent b component nodeID next k).
Proof. unfold removeIfAbsent, prevChildrenNow. one_key_calls k. Qed.

End OneKey.

Section KeyResult.
Context {collab : Collaborators}.
Variable component : ref.
Hypothesis Hshape : capabilities_preserve (shape_kept component).

Lemma shape_kept_refl w : shape_kept component w w.
Proof. split; auto. Qed.

Lemma shape_kept_trans a b c :
  shape_kept component a b -> shape_kept component b c -> shape_kept component a c.
Proof.
  intros (H1 & H2) (H3 & H4). split; [congruence|].
  intros x. rewrite H4, H2. reflexivity.
Qed.

Lemma shape_kept_same_heap f :
  (forall w, heap (f w) = heap w) -> preserves (shape_kept component) (modify f).
Proof.
  intros Hf. apply preserves_modify. intros w. unfold shape_kept. rewrite Hf. auto.
Qed.

Lemma shape_kept_fields c f :
  (forall x, constructor (f x) = constructor x /\
             _renderedChildren (f x) = _renderedChildren x) ->
  preserves (shape_kept component) (writeComp c f).
Proof.
  intros Hf. apply preserves_modify. intros w. unfold shape_kept. simpl. unfold upd.
  split.
  - destruct (Nat.eqb_spec component c) as [->|_]; [apply Hf|reflexivity].
  - intros x. destruct (Nat.eqb_spec x c) as [->|_]; [apply Hf|reflexivity].
Qed.

Ltac keep_shape :=
  repeat first
    [ apply (preserves_bind _ shape_kept_trans); [|intros ?]
    | apply (preserves_whenb _ shape_kept_refl)
    | apply (preserves_ret _ shape_kept_refl)
    | apply (preserves_throw _ shape_kept_refl)
    | apply (preserves_readComp _ shape_kept_refl)
    | apply (preserves_get _ shape_kept_refl)
    | apply shape_kept_fields; intros; split; reflexivity
    | apply shape_kept_same_heap; intros; reflexivity
    | match goal with
      | |- preserves _ (if ?c then _ else _) => destruct c
      | |- preserves _ (match ?x with _ => _ end) => destruct x
      end
    | exact (proj1 (proj2 Hshape) _ _) ].

Lemma shape_kept_appendToChain cur li m :
  preserves (shape_kept component) (appendToChain component cur li m).
Proof. unfold appendToChain. keep_shape. Qed.

Lemma shape_kept_reuse nodeID p n (toIndex : Z) (li : Number) (r : Number * option ref) :
  preserves (shape_kept component)
    (nc <- readComp n ;;
     child_receiveProps p (props nc) ;;;
     moveChild nodeID p toIndex li ;;;
     ret r).
Proof. unfold child_receiveProps, moveChild, enqueueMove. keep_shape. Qed.

Lemma shape_kept_assignMountIndices prev start :
  preserves (shape_kept component) (assignMountIndices prev start).
Proof.
  unfold assignMountIndices. generalize start.
  induction (entries prev) as [|kv es IH]; intros s; simpl; keep_shape. apply IH.
Qed.

Lemma mount_at_key nodeID idPrefix n k i w w' :
  _mountChildByNameAtIndex component nodeID idPrefix n k i w = (Normal tt, w') ->
  renderedChild w' component k = Some n.
Proof.
  unfold _mountChildByNameAtIndex, child_mountComponent, createChild, enqueueMarkup.
  unfold bind, readComp, writeComp, modify.
  destruct (mountComponent n _ _) as [[img|e|] w2]; try discriminate.
  intros H. inversion H; subst. unfold renderedChild. simpl. rewrite upd_same. simpl.
  apply getProp_setProp_same.
Qed.

Lemma unmount_at_key nodeID p k w w' :
  isValidComponent (heap w p) = true ->
  _unmountChildByName component nodeID p k w = (Normal tt, w') ->
  renderedChild w' component k = None.
Proof.
  intros Hv. unfold _unmountChildByName.
  rewrite (bind_normal _ _ w (heap w p) w) by reflexivity. rewrite Hv.
  unfold removeChild, enqueueRemove, child_unmountComponent.
  unfold bind, readComp, writeComp, modify.
  destruct (unmountComponent p _) as [[[]|e|] w2]; try discriminate.
  destruct (_renderedChildren (heap w2 component)) as [m|]; [|discriminate].
  intros H. inversion H; subst. unfold renderedChild. simpl. rewrite upd_same. simpl.
  apply getProp_deleteProp_same.
Qed.

(** What an iteration of the second pass leaves under its own key. *)
Lemma diffChild_at_key (b : bool) nodeID idPrefix k nv cur w cur' w' :
  diffChild b component nodeID idPrefix (k, nv) cur w = (Normal cur', w') ->
  match nv with
  | Some n =>
      exists r, renderedChild w' component k = Some r /\
                constructor (heap w' r) = constructor (heap w n)
  | None =>
      (forall c, isValidComponent c = true) ->
      (b = false -> renderedChild w component k = None) ->
      renderedChild w' component k = None
  end.
Proof.
  intros H.
  assert (Hctor : forall x, constructor (heap w' x) = constructor (heap w x))
    by (apply (only_key_diffChild component Hshape) in H; apply H).
  unfold diffChild, prevChildrenNow in H.
  unfold bind at 1 in H. unfold bind at 1, readComp at 1, ret at 1 in H.
  cbn beta iota zeta delta [fst snd] in H.
  destruct (inheritedProp (if b then _renderedChildren (heap w component) else None) k)
    as [builtin|] eqn:Hi.
  { unfold diffBuiltin in H. destruct nv as [n|].
    - unfold bind at 1, readComp at 1 in H.
      destruct (Nat.eqb builtin (constructor (heap w n)));
        [unfold throw in H; discriminate|].
      unfold bind at 1 in H.
      destruct (_mountChildByNameAtIndex component nodeID idPrefix n k (nextIndex cur) w)
        as [[[]|e|] w2] eqn:Em; try discriminate.
      apply shape_kept_appendToChain in H. destruct H as (Hm & _).
      exists n. split; [|apply Hctor]. unfold renderedChild. rewrite Hm.
      eapply mount_at_key; eauto.
    - intros _ _. apply shape_kept_appendToChain in H. destruct H as (Hm & _).
      unfold renderedChild. rewrite Hm.
      destruct b; [|discriminate]. apply (inheritedProp_absent _ _ _ Hi). }
  unfold bind at 1, get at 1 in H. cbv beta iota in H.
  unfold bind at 1 in H.
  match type of H with
  | (let (_, _) := ?step w in _) = _ => destruct (step w) as [[[li mc]|e|] w3] eqn:E
  end; try discriminate.
  apply shape_kept_appendToChain in H. destruct H as (Hm & _).
  unfold renderedChild. rewrite Hm. fold (renderedChild w3 component k).
  assert (Hprev : forall p,
            getPropOpt (if b then _renderedChildren (heap w component) else None) k = Some p ->
            renderedChild w component k = Some p)
    by (destruct b; [auto|discriminate]).
  destruct (getPropOpt (if b then _renderedChildren (heap w component) else None) k)
    as [p|] eqn:Hp; destruct nv as [n|]; simpl in E.
  - destruct (Nat.eqb (constructor (heap w p)) (constructor (heap w n))) eqn:Hs.
    + exists p. unfold bind at 1, readComp at 1 in E.
      apply shape_kept_reuse in E. destruct E as (Hm3 & Hc3).
      unfold renderedChild. rewrite Hm3. split; [apply Hprev; reflexivity|].
      rewrite Hctor. apply Nat.eqb_eq, Hs.
    + exists n. split; [|apply Hctor].
      unfold bind at 1 in E. unfold bind at 1, readComp at 1 in E. unfold bind at 1 in E.
      destruct (_unmountChildByName component nodeID p k w) as [[[]|e|] w1];
        try discriminate.
      unfold ret at 1 in E. unfold bind at 1 in E.
      destruct (_mountChildByNameAtIndex component nodeID idPrefix n k (nextIndex cur) w1)
        as [[[]|e|] w2] eqn:Em; try discriminate.
      inversion E; subst. eapply mount_at_key; eauto.
  - intros Hvalid _.
    unfold bind at 1 in E. unfold bind at 1, readComp at 1 in E. unfold bind at 1 in E.
    destruct (_unmountChildByName component nodeID p k w) as [[[]|e|] w1] eqn:Eu;
      try discriminate.
    inversion E; subst. eapply unmount_at_key; eauto.
  - exists n. split; [|apply Hctor].
    unfold bind at 1 in E. unfold ret at 1 in E. unfold bind at 1 in E.
    destruct (_mountChildByNameAtIndex component nodeID idPrefix n k (nextIndex cur) w)
      as [[[]|e|] w2] eqn:Em; try discriminate.
    inversion E; subst. eapply mount_at_key; eauto.
  - intros _ Hb. inversion E; subst.
    destruct b; [exact Hp|apply Hb; reflexivity].
Qed.

Lemma second_pass_result (b : bool) nodeID idPrefix :
  forall es cur w cur' w',
    NoDup (keys es) ->
    (b = false -> forall j, In j (keys es) -> renderedChild w component j = None) ->
    forIn es (diffChild b component nodeID idPrefix) cur w = (Normal cur', w') ->
    (forall j, ~ In j (keys es) ->
       renderedChild w' component j = renderedChild w component j) /\
    (forall x, constructor (heap w' x) = constructor (heap w x)) /\
    (forall k n, In (k, Some n) es ->
       exists r, renderedChild w' component k = Some r /\
                 constructor (heap w' r) = constructor (heap w n)) /\
    ((forall c, isValidComponent c = true) ->
     forall k, In (k, None) es -> renderedChild w' component k = None).
Proof.
  induction es as [|[k nv] es IH]; intros cur w cur' w' Hnd Hb H.
  - inversion H; subst. repeat split; auto; intros ? ? [].
  - rewrite forIn_cons in H.
    destruct (diffChild b component nodeID idPrefix (k, nv) cur w)
      as [[cur1|e|] w1] eqn:E; try discriminate.
    simpl in Hnd. inversion Hnd as [|? ? Hkn Hnd']; subst.
    pose proof (only_key_diffChild component Hshape b nodeID idPrefix k nv cur _ _ _ E)
      as (Hother & Hctor).
    pose proof (diffChild_at_key b nodeID idPrefix k nv cur w cur1 w1 E) as Hat.
    assert (Hb1 : b = false -> forall j, In j (keys es) -> renderedChild w1 component j = None).
    { intros Eb j Hj. rewrite Hother by (intros ->; contradiction).
      apply Hb; [exact Eb|right; exact Hj]. }
    destruct (IH _ _ _ _ Hnd' Hb1 H) as (H1 & H2 & H3 & H4).
    split; [|split; [|split]].
    + intros j Hj. rewrite H1 by (intros Hx; apply Hj; right; exact Hx).
      apply Hother. intros ->. apply Hj. left. reflexivity.
    + intros x. rewrite H2. apply Hctor.
    + intros k0 n [Hk|Hk].
      * inversion Hk; subst. destruct Hat as (r & Hr & Hc).
        exists r. rewrite (H1 _ Hkn), H2. auto.
      * destruct (H3 _ _ Hk) as (r & Hr & Hc). exists r. rewrite Hc, Hctor. auto.
    + intros Hvalid k0 [Hk|Hk].
      * inversion Hk; subst. rewrite (H1 _ Hkn). apply Hat; [exact Hvalid|].
        intros Eb. apply Hb; [exact Eb|left; reflexivity].
      * apply H4; assumption.
Qed.

Lemma removeIfAbsent_at_key (b : bool) nodeID next k w w' :
  removeIfAbsent b component nodeID next k w = (Normal tt, w') ->
  (truthyProp next k = true ->
   renderedChild w' component k = renderedChild w component k) /\
  ((forall c, isValidComponent c = true) -> b = true -> truthyProp next k = false ->
   renderedChild w' component k = None).
Proof.
  unfold removeIfAbsent, prevChildrenNow. unfold bind, readComp, ret. simpl.
  destruct (getPropOpt (if b then _renderedChildren (heap w component) else None) k)
    as [c|] eqn:Hc.
  - destruct (truthyProp next k) eqn:Hn; simpl; intros H.
    + inversion H; subst. split; [reflexivity|].
      intros _ _ Hk. discriminate.
    + split; [discriminate|]. intros Hvalid _ _. eapply unmount_at_key; eauto.
  - intros H. inversion H; subst. split; [reflexivity|].
    intros _ -> _. exact Hc.
Qed.

Lemma third_pass_result (b : bool) nodeID next :
  forall ks w w',
    forIn ks (fun name _ => removeIfAbsent b component nodeID next name) tt w
      = (Normal tt, w') ->
    (forall k, truthyProp next k = true ->
       renderedChild w' component k = renderedChild w component k) /\
    (forall x, constructor (heap w' x) = constructor (heap w x)) /\
    ((forall c, isValidComponent c = true) -> b = true ->
     forall k, truthyProp next k = false ->
       In k ks \/ renderedChild w component k = None ->
       renderedChild w' component k = None).
Proof.
  induction ks as [|name ks IH]; intros w w' H.
  - inversion H; subst. repeat split; auto. intros _ _ k _ [[]|Hk]. exact Hk.
  - rewrite forIn_cons in H.
    destruct (removeIfAbsent b component nodeID next name w) as [[[]|e|] w1] eqn:E;
      try discriminate.
    pose proof (only_key_removeIfAbsent component Hshape b nodeID next name _ _ _ E)
      as (Hother & Hctor).
    pose proof (removeIfAbsent_at_key b nodeID next name w w1 E) as (Hthere & Hgone).
    destruct (IH _ _ H) as (H1 & H2 & H3).
    split; [|split].
    + intros k Hk. rewrite (H1 k Hk).
      destruct (String.eqb_spec k name) as [->|Hne]; [apply Hthere, Hk|apply Hother, Hne].
    + intros x. rewrite H2. apply Hctor.
    + intros Hvalid Hb k Hk Hin. apply (H3 Hvalid Hb k Hk).
      destruct (String.eqb_spec k name) as [->|Hne].
      * right. apply Hgone; assumption.
      * destruct Hin as [[Hx|Hx]|Hx]; [congruence|left; exact Hx|].
        right. rewrite Hother by exact Hne. exact Hx.
Qed.

End KeyResult.

Section DiffResult.
Context {collab : Collaborators}.

(** X11.  What the diff leaves behind.  When the general case of
    [_updateChildren] returns, for next children with distinct keys and
    capabilities that neither rebind or edit the parent's children object
    nor change a constructor: under every key of the next children that has
    a child there, the parent now has a child of that child's constructor;
    and, where every component passes [isValidComponent], under every key
    for which a read of the next children finds nothing, neither a child
    nor a built-in of [Object.prototype], the parent has none. *)
Theorem X11_diff_leaves_the_next_children :
  forall (component : ref),
    capabilities_preserve (shape_kept component) ->
    forall (fuel : nat) (idPrefix : string) (next : option ChildMap) (w w' : World),
      resolveNodeID (heap w component) idPrefix <> "" ->
      NoDup (keys (entries next)) ->
      _updateChildren fuel component idPrefix next w = (Normal tt, w') ->
      (forall k n, In (k, Some n) (entries next) ->
         exists r, renderedChild w' component k = Some r /\
                   constructor (heap w' r) = constructor (heap w n)) /\
      ((forall c, isValidComponent c = true) ->
       forall k, truthyProp next k = false -> renderedChild w' component k = None).
Proof.
  intros component Hshape fuel idPrefix next w w' Hid Hnd H.
  unfold _updateChildren in H. unfold bind at 1, readComp at 1 in H.
  set (nodeID := resolveNodeID (heap w component) idPrefix) in *.
  set (prev := _renderedChildren (heap w component)) in *.
  destruct (String.eqb_spec nodeID "") as [He|_]; [contradiction|].
  destruct (negb (isSome next) && negb (isSome prev)) eqn:Hnull.
  { inversion H; subst w'. apply andb_prop in Hnull as [Hn Hp].
    destruct next; [discriminate|]. split; [intros k n []|].
    intros _ k _. unfold renderedChild. fold prev. destruct prev; [discriminate|].
    reflexivity. }
  unfold bind at 1, get at 1 in H.
  destruct (countNodesBefore fuel (heap w) _ nodeID 0) as [before|]; [|discriminate].
  unfold bind at 1 in H.
  destruct (invariant (before =? 0) "y" None w) as [[[]|e|] w0] eqn:E0; try discriminate.
  assert (Hw0 : w0 = w)
    by (unfold invariant in E0; destruct (before =? 0); inversion E0; reflexivity).
  subst w0. clear E0.
  unfold bind at 1 in H.
  destruct (assignMountIndices prev before w) as [[total|e|] w1] eqn:E1; try discriminate.
  apply (shape_kept_assignMountIndices component Hshape) in E1. destruct E1 as (Hm1 & Hc1).
  unfold bind at 1 in H.
  destruct (diffChildren (isSome prev) component nodeID idPrefix next w1)
    as [[cur|e|] w2] eqn:E2; try discriminate.
  unfold bind at 1 in H.
  destruct (removeAbsent (isSome prev) component nodeID next w2)
    as [[[]|e|] w3] eqn:E3; try discriminate.
  apply (steady_updateNodeCounts component nodeID) in H. destruct H as (Hm4 & Hc4 & _).
  assert (Hnone : isSome prev = false -> forall j, renderedChild w1 component j = None).
  { intros Hp j. unfold renderedChild. rewrite Hm1. fold prev.
    destruct prev; [discriminate|reflexivity]. }
  unfold diffChildren in E2.
  apply (second_pass_result component Hshape) in E2; [|exact Hnd|auto].
  destruct E2 as (Hout2 & Hc2 & Hsome2 & Hnone2).
  unfold removeAbsent, prevChildrenNow in E3.
  unfold bind at 1 in E3. unfold bind at 1, readComp at 1, ret at 1 in E3.
  cbv beta iota in E3.
  pose proof (third_pass_result component Hshape _ _ _ _ _ _ E3) as (Hkeep3 & Hc3 & Hgone3).
  assert (Hlook : forall k v, In (k, v) (entries next) -> getPropOpt next k = v).
  { intros k v Hin. destruct next as [m|]; [|destruct Hin].
    simpl. apply getProp_in; assumption. }
  split.
  - intros k n Hin. destruct (Hsome2 k n Hin) as (r & Hr & Hc). exists r.
    unfold renderedChild. rewrite Hm4. fold (renderedChild w3 component k).
    rewrite Hkeep3 by (apply (truthyProp_child next k n), (Hlook k (Some n) Hin)).
    split; [exact Hr|]. rewrite Hc4, Hc3, Hc, Hc1. reflexivity.
  - intros Hvalid k Hfalsy. pose proof (proj1 (truthyProp_false _ _ Hfalsy)) as Hk.
    unfold renderedChild. rewrite Hm4.
    fold (renderedChild w3 component k).
    assert (H2 : isSome prev = false \/ In k (keys (entries next)) ->
                 renderedChild w2 component k = None).
    { intros Hcase.
      destruct (in_dec string_dec k (keys (entries next))) as [Hin|Hin].
      - apply in_map_iff in Hin as ([k0 v] & Hk0 & Hin). simpl in Hk0. subst k0.
        rewrite (Hlook k v Hin) in Hk. subst v. apply Hnone2; assumption.
      - rewrite Hout2 by exact Hin. destruct Hcase as [Hp|Hx]; [|contradiction].
        apply Hnone, Hp. }
    destruct (isSome prev) eqn:Hp.
    + apply (Hgone3 Hvalid eq_refl k Hfalsy).
      destruct (renderedChild w2 component k) as [c|] eqn:Hc; [left|right; reflexivity].
      unfold renderedChild in Hc.
      destruct (_renderedChildren (heap w2 component)) as [m2|]; [|discriminate].
      simpl in *. eapply getProp_some_in. exact Hc.
    + simpl in E3. inversion E3; subst w3.
      destruct (in_dec string_dec k (keys (entries next))) as [Hin|Hin].
      * apply H2. right. exact Hin.
      * apply H2. left. reflexivity.
Qed.

End DiffResult.

(** ** A child that fails while the children are mounted or unmounted *)

Section FailingChild.
Context {collab : Collaborators}.
Variable component : ref.
Hypothesis Hkept :
  forall c, c <> component ->
    (forall rootID, preserves (children_kept component) (mountComponent c rootID)) /\
    preserves (children_kept component) (unmountComponent c).

Lemma children_kept_refl w : children_kept component w w.
Proof. split; reflexivity. Qed.

Lemma children_kept_trans a b c :
  children_kept component a b -> children_kept component b c ->
  children_kept component a c.
Proof. intros (H1 & H2) (H3 & H4). split; congruence. Qed.

Lemma children_kept_same_heap f :
  (forall w, heap (f w) = heap w) -> preserves (children_kept component) (modify f).
Proof.
  intros Hf. apply preserves_modify. intros w. unfold children_kept. rewrite Hf. auto.
Qed.

Lemma children_kept_fields c f :
  (forall x, _renderedChildren (f x) = _renderedChildren x /\
             _nodeCount (f x) = _nodeCount x) ->
  preserves (children_kept component) (writeComp c f).
Proof.
  intros Hf. apply preserves_modify. intros w. unfold children_kept. simpl. unfold upd.
  destruct (Nat.eqb_spec component c) as [->|_]; [apply Hf|split; reflexivity].
Qed.

Lemma children_kept_forIn {S} (es : ChildMap) (f : string * option ref -> S -> M S) :
  (forall kv s, In kv es -> preserves (children_kept component) (f kv s)) ->
  forall s, preserves (children_kept component) (forIn es f s).
Proof.
  induction es as [|kv es IH]; intros Hf s; simpl.
  - apply preserves_ret, children_kept_refl.
  - apply (preserves_bind _ children_kept_trans).
    + apply Hf. left. reflexivity.
    + intros s'. apply IH. intros kv' s'' Hin. apply Hf. right. exact Hin.
Qed.

Lemma childRefs_in k c es : In (k, Some c) es -> In c (childRefs es).
Proof.
  induction es as [|[k0 [c0|]] es IH]; simpl; intros H; [destruct H| |].
  - destruct H as [H|H]; [inversion H; auto|right; auto].
  - destruct H as [H|H]; [discriminate|auto].
Qed.

Ltac keep_children :=
  repeat first
    [ apply (preserves_bind _ children_kept_trans); [|intros ?]
    | apply (preserves_whenb _ children_kept_refl)
    | apply (preserves_ret _ children_kept_refl)
    | apply (preserves_readComp _ children_kept_refl)
    | apply children_kept_fields; intros; split; reflexivity
    | apply children_kept_same_heap; intros; reflexivity ].

(** X12.  Neither [mountChildren] nor [unmountChildren] cleans up after a
    child that fails.  When a call does not return normally, the parent's
    rendered children and node count are as they were before the call, as
    long as the capabilities of the children, none of which is the parent
    itself, leave them alone: [mountChildren] has not yet stored the
    children object or the node count, and [unmountChildren] has not
    cleared them, although the children enumerated before the failing one
    have been mounted, or unmounted. *)
Theorem X12_a_failing_child_leaves_the_parent_as_it_was :
  (forall (idPrefix : string) (children : option ChildMap) (w : World)
          (r : Outcome (list string)) (w' : World),
     ~ In component (childRefs (entries children)) ->
     mountChildren component idPrefix children w = (r, w') ->
     (forall images, r <> Normal images) ->
     children_kept component w w') /\
  (forall (w : World) (r : Outcome unit) (w' : World),
     ~ In component (childRefs (entries (_renderedChildren (heap w component)))) ->
     unmountChildren component w = (r, w') ->
     r <> Normal tt ->
     children_kept component w w').
Proof.
  split.
  - intros idPrefix children w r w' Hnot H Hr. unfold mountChildren in H.
    unfold bind at 1 in H.
    match type of H with
    | (let (_, _) := ?loop w in _) = _ => destruct (loop w) as [res w1] eqn:E
    end.
    assert (Hloop : children_kept component w w1).
    { revert E. apply children_kept_forIn. intros [k v] [[images index] last] Hin.
      simpl snd. simpl fst. destruct v as [child|]; [|keep_children].
      assert (Hc : child <> component)
        by (intros ->; apply Hnot; eapply childRefs_in; eauto).
      unfold child_mountComponent. keep_children. apply (Hkept child Hc). }
    destruct res as [[[images index] last]|e|].
    + exfalso. unfold bind, writeComp, modify, readComp, whenb, ret in H.
      destruct (String.eqb _ idPrefix) in H; inversion H; subst; eapply Hr; reflexivity.
    + inversion H; subst. exact Hloop.
    + inversion H; subst. exact Hloop.
  - intros w r w' Hnot H Hr. unfold unmountChildren in H.
    unfold bind at 1, readComp at 1 in H. unfold bind at 1 in H.
    match type of H with
    | (let (_, _) := ?loop w in _) = _ => destruct (loop w) as [res w1] eqn:E
    end.
    assert (Hloop : children_kept component w w1).
    { revert E. apply children_kept_forIn. intros [k v] [] Hin.
      simpl snd. destruct v as [child|]; [|keep_children].
      assert (Hc : child <> component)
        by (intros ->; apply Hnot; eapply childRefs_in; eauto).
      unfold child_unmountComponent. keep_children. apply (Hkept child Hc). }
    destruct res as [[]|e|].
    + exfalso. unfold bind, writeComp, modify in H. inversion H; subst.
      apply Hr. reflexivity.
    + inversion H; subst. exact Hloop.
    + inversion H; subst. exact Hloop.
Qed.

End FailingChild.

(** ** The diff rebuilds the sibling chain *)

Lemma others_linked_refl component k w : others_linked component k w w.
Proof. split; auto. Qed.

Lemma others_linked_trans component k a b c :
  others_linked component k a b -> others_linked component k b c ->
  others_linked component k a c.
Proof.
  intros (H1 & H2) (H3 & H4). split.
  - intros j Hj. rewrite H3, H1 by exact Hj. reflexivity.
  - intros j r Hj Hr. rewrite (H4 j r), (H2 j r); auto. rewrite H1 by exact Hj. exact Hr.
Qed.

Lemma same_links_refl w : same_links w w.
Proof. intros x. auto. Qed.

Lemma same_links_trans a b c : same_links a b -> same_links b c -> same_links a c.
Proof.
  intros H1 H2 x. destruct (H1 x) as (A1 & A2 & A3), (H2 x) as (B1 & B2 & B3).
  repeat split; congruence.
Qed.

Lemma same_links_fields c f :
  (forall x, _renderedChildren (f x) = _renderedChildren x /\
             _firstRenderedChild (f x) = _firstRenderedChild x /\
             _previousSibling (f x) = _previousSibling x) ->
  preserves same_links (writeComp c f).
Proof.
  intros Hf. apply preserves_modify. intros w x. simpl. unfold upd.
  destruct (Nat.eqb_spec x c) as [->|_]; [apply Hf|auto].
Qed.

Lemma same_links_assignMountIndices prev start :
  preserves same_links (assignMountIndices prev start).
Proof.
  unfold assignMountIndices. generalize start.
  induction (entries prev) as [|[k [c|]] es IH]; intros s; simpl.
  - apply preserves_ret, same_links_refl.
  - apply (preserves_bind _ same_links_trans).
    + apply (preserves_bind _ same_links_trans).
      * apply same_links_fields. intros x. auto.
      * intros _. apply (preserves_bind _ same_links_trans);
          [apply preserves_readComp, same_links_refl
          |intros ?; apply preserves_ret, same_links_refl].
    + intros s'. apply IH.
  - apply (preserves_bind _ same_links_trans);
      [apply preserves_ret, same_links_refl|intros s'; apply IH].
Qed.

Lemma same_links_updateAncestors fuel :
  forall a n d, preserves same_links (updateAncestors fuel a n d).
Proof.
  induction fuel as [|f IH]; intros a n d; simpl.
  - intros w r w' H. inversion H; subst. apply same_links_refl.
  - destruct a as [a|]; [|apply preserves_ret, same_links_refl].
    apply (preserves_bind _ same_links_trans);
      [apply preserves_readComp, same_links_refl|].
    intros c. destruct (String.eqb _ n); [apply preserves_ret, same_links_refl|].
    apply (preserves_bind _ same_links_trans).
    + apply same_links_fields. intros x. auto.
    + intros _. apply (preserves_bind _ same_links_trans);
        [apply preserves_readComp, same_links_refl | intros c'; apply IH].
Qed.

Lemma same_links_updateNodeCounts fuel c n next :
  preserves same_links (updateNodeCounts fuel c n next).
Proof.
  unfold updateNodeCounts.
  apply (preserves_bind _ same_links_trans);
    [apply preserves_readComp, same_links_refl|].
  intros comp. apply (preserves_bind _ same_links_trans).
  - apply same_links_fields. intros x. auto.
  - intros _. apply (preserves_bind _ same_links_trans);
      [apply preserves_readComp, same_links_refl
      | intros c'; apply same_links_updateAncestors].
Qed.

Lemma unmounting_links nodeID p w x :
  _renderedChildren (heap (unmounting nodeID p w) x) = _renderedChildren (heap w x) /\
  _firstRenderedChild (heap (unmounting nodeID p w) x) = _firstRenderedChild (heap w x) /\
  (x <> p ->
   _previousSibling (heap (unmounting nodeID p w) x) = _previousSibling (heap w x)).
Proof.
  unfold unmounting. simpl. unfold upd.
  destruct (Nat.eq_dec x p) as [->|Hx].
  - rewrite !Nat.eqb_refl. simpl.
    split; [|split]; [reflexivity|reflexivity|intros H; contradiction].
  - pose proof Hx as Hx'. apply Nat.eqb_neq in Hx'. rewrite !Hx'.
    split; [|split]; [reflexivity|reflexivity|intros _; reflexivity].
Qed.

Lemma neighbours_after es : forall k0 k,
  ~ In (k, None) (neighbours es (Some k0)).
Proof.
  induction es as [|[k1 [c|]] es IH]; intros k0 k H; simpl in H.
  - exact H.
  - destruct H as [H|H]; [discriminate|]. eapply IH; eauto.
  - eapply IH; eauto.
Qed.

Lemma neighbours_keys es : forall before k pk,
  In (k, pk) (neighbours es before) ->
  In k (keys es) /\ (pk = before \/ exists k', pk = Some k' /\ In k' (keys es)).
Proof.
  induction es as [|[k1 [c|]] es IH]; intros before k pk H; simpl in H.
  - destruct H.
  - destruct H as [H|H].
    + inversion H; subst. split; [left; reflexivity|left; reflexivity].
    + destruct (IH _ _ _ H) as (Hk & Hpk). split; [right; exact Hk|].
      right. destruct Hpk as [->|(k' & -> & Hk')].
      * exists k1. split; [reflexivity|left; reflexivity].
      * exists k'. split; [reflexivity|right; exact Hk'].
  - destruct (IH _ _ _ H) as (Hk & Hpk). split; [right; exact Hk|].
    destruct Hpk as [->|(k' & -> & Hk')]; [left; reflexivity|].
    right. exists k'. split; [reflexivity|right; exact Hk'].
Qed.

Lemma upd_keeps {X} (g : Component -> X) h x f y :
  (forall c, g (f c) = g c) -> g (upd h x (f (h x)) y) = g (h y).
Proof.
  intros Hf. unfold upd. destruct (Nat.eqb_spec y x) as [->|_]; [apply Hf|reflexivity].
Qed.

Lemma linked_post component r last h :
  (forall x, _renderedChildren (linked component r last h x) = _renderedChildren (h x)) /\
  _previousSibling (linked component r last h r) = last /\
  (forall x, x <> r ->
     _previousSibling (linked component r last h x) = _previousSibling (h x)) /\
  _firstRenderedChild (linked component r last h component) =
    (if isSome last then _firstRenderedChild (h component) else Some r).
Proof.
  unfold linked. destruct last as [l|]; simpl.
  - split; [intros x; apply (upd_keeps _renderedChildren); reflexivity|].
    split; [rewrite upd_same; reflexivity|].
    split; [intros x Hx; rewrite upd_other by exact Hx; reflexivity|].
    apply (upd_keeps _firstRenderedChild). reflexivity.
  - split.
    { intros x. rewrite (upd_keeps _renderedChildren) by reflexivity.
      apply (upd_keeps _renderedChildren). reflexivity. }
    split; [rewrite upd_same; reflexivity|].
    split.
    { intros x Hx. rewrite upd_other by exact Hx.
      apply (upd_keeps _previousSibling). reflexivity. }
    rewrite (upd_keeps _firstRenderedChild) by reflexivity.
    rewrite upd_same. reflexivity.
Qed.

Section Relinking.
Context {collab : Collaborators}.
Variable component : ref.
Hypothesis Hframe : capabilities_preserve (siblings_kept component).

Lemma node_unmount_post nodeID p k w w' m future :
  _renderedChildren (heap w component) = Some m ->
  getProp m k = Some p ->
  one_key_each m ->
  (forall n, In n future -> not_rendered m n) ->
  _unmountChildByName component nodeID p k w = (Normal tt, w') ->
  tidy component future w' /\
  others_linked component k w w' /\
  _firstRenderedChild (heap w' component) = _firstRenderedChild (heap w component).
Proof.
  intros Hmap Hp Hinj Hfut H.
  destruct (isValidComponent (heap w p)) eqn:Hv.
  2:{ unfold _unmountChildByName in H.
      rewrite (bind_normal _ _ w (heap w p) w) in H by reflexivity.
      rewrite Hv in H. inversion H; subst.
      split; [exists m; auto|]. split; [apply others_linked_refl|reflexivity]. }
  destruct (unmountComponent p (unmounting nodeID p w)) as [res w1] eqn:Eu.
  pose proof (proj2 (proj2 Hframe) _ _ _ _ Eu) as (Hm1 & Hf1 & Hs1).
  unfold renderedChild in Hs1.
  rewrite (proj1 (unmounting_links nodeID p w component)), Hmap in Hm1, Hs1.
  rewrite (proj1 (proj2 (unmounting_links nodeID p w component))) in Hf1.
  destruct res as [[]|e|].
  - rewrite (unmountChildByName_spec component nodeID p k w w1 m Hv Eu Hm1) in H.
    inversion H; subst w'; clear H.
    unfold tidy, others_linked, renderedChild. simpl. rewrite !upd_same, Hmap. simpl.
    split; [|split; [split|]].
    + exists (deleteProp m k). split; [reflexivity|].
      split; [apply one_key_each_delete, Hinj|].
      intros n Hn. apply not_rendered_delete, Hfut, Hn.
    + intros j Hj. apply getProp_deleteProp_other, Hj.
    + intros j r Hj Hr. rewrite (upd_keeps _previousSibling) by reflexivity.
      rewrite (Hs1 j r Hr). apply unmounting_links.
      intros ->. apply Hj. eapply Hinj; eauto.
    + exact Hf1.
  - exfalso. revert H. unfold _unmountChildByName.
    rewrite (bind_normal _ _ w (heap w p) w) by reflexivity. rewrite Hv.
    unfold removeChild, enqueueRemove, child_unmountComponent.
    unfold bind, readComp, writeComp, modify.
    change (unmountComponent p _) with (unmountComponent p (unmounting nodeID p w)).
    rewrite Eu. discriminate.
  - exfalso. revert H. unfold _unmountChildByName.
    rewrite (bind_normal _ _ w (heap w p) w) by reflexivity. rewrite Hv.
    unfold removeChild, enqueueRemove, child_unmountComponent.
    unfold bind, readComp, writeComp, modify.
    change (unmountComponent p _) with (unmountComponent p (unmounting nodeID p w)).
    rewrite Eu. discriminate.
Qed.

Lemma node_mount_post nodeID idPrefix n k idx w w' m future :
  _renderedChildren (heap w component) = Some m ->
  one_key_each m ->
  not_rendered m n ->
  (forall n', In n' future -> n' <> n /\ not_rendered m n') ->
  _mountChildByNameAtIndex component nodeID idPrefix n k idx w = (Normal tt, w') ->
  tidy component future w' /\
  others_linked component k w w' /\
  renderedChild w' component k = Some n /\
  _firstRenderedChild (heap w' component) = _firstRenderedChild (heap w component).
Proof.
  intros Hmap Hinj Hn Hfut H.
  unfold _mountChildByNameAtIndex, child_mountComponent, createChild, enqueueMarkup in H.
  unfold bind, readComp, writeComp, modify in H. simpl in H.
  match type of H with
  | context [mountComponent n ?id ?W] =>
      destruct (mountComponent n id W) as [[img|e|] w2] eqn:Em
  end; try discriminate.
  destruct Hframe as (Hmo & _ & _). apply Hmo in Em. destruct Em as (Hm2 & Hf2 & Hs2).
  unfold renderedChild in Hs2. simpl in Hm2, Hf2, Hs2. rewrite Hmap in Hm2, Hs2.
  simpl in Hs2, H. inversion H; subst w'; clear H.
  unfold tidy, others_linked, renderedChild. simpl.
  rewrite !upd_same. simpl.
  rewrite (upd_keeps _renderedChildren) by reflexivity. rewrite Hm2, Hmap. simpl.
  rewrite getProp_setProp_same.
  rewrite (upd_keeps _firstRenderedChild) by reflexivity.
  split; [|split; [split|split]].
  - eexists. split; [reflexivity|]. split; [apply one_key_each_set; assumption|].
    intros n' Hn'. destruct (Hfut n' Hn'). apply not_rendered_set; assumption.
  - intros j Hj. apply getProp_setProp_other, Hj.
  - intros j r Hj Hr. rewrite (upd_keeps _previousSibling) by reflexivity.
    rewrite (upd_keeps _previousSibling) by reflexivity. apply (Hs2 j r Hr).
  - reflexivity.
  - exact Hf2.
Qed.

Lemma node_diffChild_post nodeID idPrefix k nv cur w cur' w' future :
  tidy component (childRefs [(k, nv)] ++ future) w ->
  NoDup (childRefs [(k, nv)] ++ future) ->
  diffChild true component nodeID idPrefix (k, nv) cur w = (Normal cur', w') ->
  tidy component future w' /\
  others_linked component k w w' /\
  match nv with
  | Some _ =>
      exists r,
        renderedChild w' component k = Some r /\
        _previousSibling (heap w' r) = lastChild cur /\
        lastChild cur' = Some r /\
        _firstRenderedChild (heap w' component) =
          (if isSome (lastChild cur) then _firstRenderedChild (heap w component)
           else Some r)
  | None =>
      lastChild cur' = lastChild cur /\
      _firstRenderedChild (heap w' component) = _firstRenderedChild (heap w component)
  end.
Proof.
  intros (m & Hmap & Hinj & Hfresh) Hnd H.
  unfold diffChild, prevChildrenNow in H.
  unfold bind at 1 in H. unfold bind at 1, readComp at 1, ret at 1 in H.
  cbn beta iota zeta delta [fst snd] in H. rewrite Hmap in H.
  assert (Hfut : forall n, In n future -> not_rendered m n)
    by (intros n Hn; apply Hfresh, in_or_app; right; exact Hn).
  assert (Hmid : exists li mc w3,
                 appendToChain component cur li mc w3 = (Normal cur', w') /\
                 tidy component future w3 /\
                 others_linked component k w w3 /\
                 _firstRenderedChild (heap w3 component)
                   = _firstRenderedChild (heap w component) /\
                 match nv with
                 | Some _ => exists r, mc = Some r /\ renderedChild w3 component k = Some r
                 | None => mc = None
                 end).
  { destruct (inheritedProp (Some m) k) as [builtin|] eqn:Hi.
    { unfold diffBuiltin in H. destruct nv as [n|]; simpl in Hnd, Hfresh.
      - inversion Hnd as [|? ? Hnotin Hnd']; subst.
        unfold bind at 1, readComp at 1 in H.
        destruct (Nat.eqb builtin (constructor (heap w n)));
          [unfold throw in H; discriminate|].
        unfold bind at 1 in H.
        destruct (_mountChildByNameAtIndex component nodeID idPrefix n k (nextIndex cur) w)
          as [[[]|e|] w2] eqn:Em; try discriminate.
        exists NaN, (Some n), w2. split; [exact H|].
        apply (node_mount_post nodeID idPrefix n k _ w w2 m future Hmap Hinj) in Em.
        + destruct Em as (Ht & Hk2 & Hr & Hf2).
          split; [exact Ht|]. split; [exact Hk2|]. split; [exact Hf2|]. exists n. auto.
        + apply Hfresh. left. reflexivity.
        + intros n' Hn'. split; [intros ->; contradiction|].
          apply Hfresh. right. exact Hn'.
      - exists NaN, None, w. split; [exact H|].
        split; [exists m; auto|]. split; [apply others_linked_refl|]. auto. }
    unfold bind at 1, get at 1 in H. cbv beta iota in H. simpl getPropOpt in H.
    unfold bind at 1 in H.
    match type of H with
    | (let (_, _) := ?step w in _) = _ => destruct (step w) as [[[li mc]|e|] w3] eqn:E
    end; try discriminate.
    exists li, mc, w3. split; [exact H|]. clear H.
    destruct (getProp m k) as [p|] eqn:Hp; destruct nv as [n|]; simpl in E, Hnd, Hfresh.
    - inversion Hnd as [|? ? Hnotin Hnd']; subst.
      destruct (Nat.eqb (constructor (heap w p)) (constructor (heap w n))).
      + unfold child_receiveProps in E. unfold bind, readComp, modify in E.
        match type of E with
        | context [receiveProps p ?x ?W] =>
            destruct (receiveProps p x W) as [[[]|e|] w2] eqn:Er
        end; try discriminate.
        rewrite moveChild_spec in E. unfold ret in E. inversion E; subst li mc w3; clear E.
        destruct Hframe as (_ & Hre & _). apply Hre in Er. destruct Er as (Hm2 & Hf2 & Hs2).
        unfold renderedChild in Hs2. simpl in Hm2, Hf2, Hs2. rewrite Hmap in Hm2, Hs2.
        simpl in Hs2.
        unfold tidy, others_linked, renderedChild. simpl. rewrite Hm2, Hmap. simpl.
        split; [exists m; auto|]. split; [split; [reflexivity|]|].
        * intros j r _ Hr. apply (Hs2 j r Hr).
        * split; [exact Hf2|]. exists p. auto.
      + unfold bind at 1 in E. unfold bind at 1, readComp at 1 in E.
        unfold bind at 1 in E.
        destruct (_unmountChildByName component nodeID p k w)
          as [[[]|e|] w1] eqn:Eu; try discriminate.
        apply (node_unmount_post nodeID p k w w1 m (n :: future) Hmap Hp Hinj) in Eu;
          [|exact Hfresh].
        destruct Eu as ((m1 & Hmap1 & Hinj1 & Hfresh1) & Hk1 & Hf1).
        unfold ret at 1 in E. unfold bind at 1 in E.
        destruct (_mountChildByNameAtIndex component nodeID idPrefix n k (nextIndex cur) w1)
          as [[[]|e|] w2] eqn:Em; try discriminate.
        inversion E; subst li mc w3; clear E.
        apply (node_mount_post nodeID idPrefix n k _ w1 w2 m1 future Hmap1 Hinj1) in Em.
        * destruct Em as (Ht & Hk2 & Hr & Hf2).
          split; [exact Ht|]. split; [eapply others_linked_trans; eauto|].
          split; [congruence|]. exists n. auto.
        * apply Hfresh1. left. reflexivity.
        * intros n' Hn'. split; [intros ->; contradiction|].
          apply Hfresh1. right. exact Hn'.
    - unfold bind at 1 in E. unfold bind at 1, readComp at 1 in E.
      unfold bind at 1 in E.
      destruct (_unmountChildByName component nodeID p k w)
        as [[[]|e|] w1] eqn:Eu; try discriminate.
      inversion E; subst li mc w3; clear E.
      apply (node_unmount_post nodeID p k w w1 m future Hmap Hp Hinj Hfut) in Eu.
      destruct Eu as (Ht & Hk1 & Hf1). auto.
    - inversion Hnd as [|? ? Hnotin Hnd']; subst.
      unfold bind at 1 in E. unfold ret at 1 in E. unfold bind at 1 in E.
      destruct (_mountChildByNameAtIndex component nodeID idPrefix n k (nextIndex cur) w)
        as [[[]|e|] w2] eqn:Em; try discriminate.
      inversion E; subst li mc w3; clear E.
      apply (node_mount_post nodeID idPrefix n k _ w w2 m future Hmap Hinj) in Em.
      + destruct Em as (Ht & Hk2 & Hr & Hf2).
        split; [exact Ht|]. split; [exact Hk2|]. split; [exact Hf2|]. exists n. auto.
      + apply Hfresh. left. reflexivity.
      + intros n' Hn'. split; [intros ->; contradiction|].
        apply Hfresh. right. exact Hn'.
    - inversion E; subst li mc w3; clear E.
      split; [exists m; auto|]. split; [apply others_linked_refl|]. auto. }
  clear H. destruct Hmid as (li & mc & w3 & H & Ht3 & Hk3 & Hf3 & Hmc).
  destruct nv as [n|].
  - destruct Hmc as (r & -> & Hr).
    rewrite appendToChain_some in H. inversion H; subst cur' w'; clear H.
    pose proof (linked_post component r (lastChild cur) (heap w3)) as (Lm & Lr & Lo & Lf).
    destruct Ht3 as (m3 & Hmap3 & Hinj3 & Hfresh3).
    assert (Hsame : forall j, renderedChild
                                (set_heap (linked component r (lastChild cur) (heap w3)) w3)
                                component j = renderedChild w3 component j)
      by (intros j; unfold renderedChild; simpl; rewrite Lm; reflexivity).
    split; [|split].
    + exists m3. simpl. rewrite Lm. auto.
    + eapply others_linked_trans; [exact Hk3|]. split.
      * intros j _. apply Hsame.
      * intros j r' Hj Hr'. simpl. apply Lo. intros ->. apply Hj.
        unfold renderedChild in Hr, Hr'. rewrite Hmap3 in Hr, Hr'. simpl in Hr, Hr'.
        eapply Hinj3; eauto.
    + exists r. rewrite Hsame. simpl. rewrite Lf, Hf3. auto.
  - subst mc. unfold appendToChain, ret in H. inversion H; subst cur' w'; clear H.
    simpl. auto.
Qed.

Lemma relink_second_pass nodeID idPrefix :
  forall es cur w cur' w' lastKey,
    NoDup (keys es) -> NoDup (childRefs es) ->
    tidy component (childRefs es) w ->
    lastChild cur = renderedAt w component lastKey ->
    (forall k', lastKey = Some k' ->
       ~ In k' (keys es) /\ isSome (renderedChild w component k') = true) ->
    forIn es (diffChild true component nodeID idPrefix) cur w = (Normal cur', w') ->
    tidy component [] w' /\
    (forall j, ~ In j (keys es) ->
       renderedChild w' component j = renderedChild w component j /\
       forall r, renderedChild w component j = Some r ->
                 _previousSibling (heap w' r) = _previousSibling (heap w r)) /\
    (forall k pk, In (k, pk) (neighbours es lastKey) ->
       exists r,
         renderedChild w' component k = Some r /\
         _previousSibling (heap w' r) = renderedAt w' component pk /\
         (pk = None -> _firstRenderedChild (heap w' component) = Some r)) /\
    (isSome (lastChild cur) = true ->
     _firstRenderedChild (heap w' component) = _firstRenderedChild (heap w component)).
Proof.
  induction es as [|[k nv] es IH]; intros cur w cur' w' lastKey Hndk Hndc Ht Hlast Hkey H.
  - inversion H; subst. split; [exact Ht|]. split; [auto|]. split; [intros ? ? []|auto].
  - rewrite forIn_cons in H.
    destruct (diffChild true component nodeID idPrefix (k, nv) cur w)
      as [[cur1|e|] w1] eqn:E; try discriminate.
    assert (Hsplit : childRefs ((k, nv) :: es) = childRefs [(k, nv)] ++ childRefs es)
      by (destruct nv; reflexivity).
    rewrite Hsplit in Ht, Hndc.
    apply (node_diffChild_post nodeID idPrefix k nv cur w cur1 w1 (childRefs es) Ht Hndc)
      in E.
    destruct E as (Ht1 & (Hk1 & Hs1) & Hnv).
    simpl in Hndk. inversion Hndk as [|? ? Hkn Hndk']; subst.
    assert (Hnd' : NoDup (childRefs es))
      by (destruct nv; simpl in Hndc; [inversion Hndc|]; assumption).
    assert (Hlk : forall k', lastKey = Some k' -> k' <> k /\ ~ In k' (keys es)).
    { intros k' Hk'. destruct (Hkey k' Hk') as (Hn & _). split.
      - intros ->. apply Hn. left. reflexivity.
      - intros Hin. apply Hn. right. exact Hin. }
    assert (Hat1 : renderedAt w1 component lastKey = renderedAt w component lastKey).
    { destruct lastKey as [k'|]; [|reflexivity]. simpl. apply Hk1.
      apply (Hlk k' eq_refl). }
    assert (Hout : forall w2,
              (forall j, ~ In j (keys es) ->
                 renderedChild w2 component j = renderedChild w1 component j /\
                 forall r, renderedChild w1 component j = Some r ->
                           _previousSibling (heap w2 r) = _previousSibling (heap w1 r)) ->
              forall j, ~ In j (keys ((k, nv) :: es)) ->
                renderedChild w2 component j = renderedChild w component j /\
                forall r, renderedChild w component j = Some r ->
                          _previousSibling (heap w2 r) = _previousSibling (heap w r)).
    { intros w2 Ho j Hj.
      assert (Hjk : j <> k) by (intros ->; apply Hj; left; reflexivity).
      assert (Hje : ~ In j (keys es)) by (intros Hx; apply Hj; right; exact Hx).
      destruct (Ho j Hje) as (Ho1 & Ho2). rewrite Ho1, Hk1 by exact Hjk.
      split; [reflexivity|]. intros r Hr.
      rewrite Ho2 by (rewrite Hk1 by exact Hjk; exact Hr). apply (Hs1 j r Hjk Hr). }
    destruct nv as [n|].
    + destruct Hnv as (r & Hr & Hp & Hc & Hf).
      apply (IH cur1 w1 cur' w' (Some k)) in H; auto.
      * destruct H as (Ht' & Ho' & Ha' & Hc'). split; [exact Ht'|].
        split; [apply Hout, Ho'|]. split; [|].
        -- intros k0 pk [Hin|Hin].
           ++ inversion Hin; subst k0 pk; clear Hin. exists r.
              destruct (Ho' k Hkn) as (Ho1 & Ho2).
              rewrite Ho1. split; [exact Hr|]. rewrite (Ho2 r Hr), Hp, Hlast.
              split.
              ** destruct lastKey as [k'|]; [|reflexivity]. simpl.
                 destruct (Hlk k' eq_refl) as (Hk'k & Hk'e).
                 rewrite (proj1 (Ho' k' Hk'e)). symmetry. apply Hk1, Hk'k.
              ** intros ->. simpl in Hlast. rewrite Hlast in Hf. simpl in Hf.
                 rewrite Hc' by (rewrite Hc; reflexivity). exact Hf.
           ++ apply Ha', Hin.
        -- intros Hsome. rewrite Hc' by (rewrite Hc; reflexivity).
           rewrite Hf, Hsome. reflexivity.
      * simpl. rewrite Hc, Hr. reflexivity.
      * intros k' Hk'. inversion Hk'; subst k'. rewrite Hr. auto.
    + destruct Hnv as (Hc & Hf).
      apply (IH cur1 w1 cur' w' lastKey) in H; auto.
      * destruct H as (Ht' & Ho' & Ha' & Hc'). split; [exact Ht'|].
        split; [apply Hout, Ho'|]. split; [exact Ha'|].
        intros Hsome. rewrite Hc' by (rewrite Hc; exact Hsome). exact Hf.
      * rewrite Hc, Hat1. exact Hlast.
      * intros k' Hk'. destruct (Hlk k' Hk') as (Hk'k & Hk'e).
        split; [exact Hk'e|]. rewrite Hk1 by exact Hk'k. apply (Hkey k' Hk').
Qed.

Lemma relink_third_pass nodeID next :
  forall ks w w',
    tidy component [] w ->
    forIn ks (fun name _ => removeIfAbsent true component nodeID next name) tt w
      = (Normal tt, w') ->
    tidy component [] w' /\
    (forall j, truthyProp next j = true ->
       renderedChild w' component j = renderedChild w component j /\
       forall r, renderedChild w component j = Some r ->
                 _previousSibling (heap w' r) = _previousSibling (heap w r)) /\
    _firstRenderedChild (heap w' component) = _firstRenderedChild (heap w component).
Proof.
  induction ks as [|name ks IH]; intros w w' Ht H.
  - inversion H; subst. auto.
  - rewrite forIn_cons in H.
    destruct (removeIfAbsent true component nodeID next name w) as [[[]|e|] w1] eqn:E;
      try discriminate.
    assert (Hstep : tidy component [] w1 /\
                    (truthyProp next name = true -> w1 = w) /\
                    others_linked component name w w1 /\
                    _firstRenderedChild (heap w1 component)
                      = _firstRenderedChild (heap w component)).
    { destruct Ht as (m & Hmap & Hinj & Hfresh).
      unfold removeIfAbsent, prevChildrenNow, bind, readComp, ret in E.
      simpl in E. rewrite Hmap in E. simpl in E.
      destruct (getProp m name) as [c|] eqn:Hc.
      - destruct (truthyProp next name) eqn:Hk; simpl in E.
        + inversion E; subst. split; [exists m; auto|].
          split; [reflexivity|]. split; [apply others_linked_refl|reflexivity].
        + apply (node_unmount_post nodeID c name w w1 m [] Hmap Hc Hinj Hfresh) in E.
          destruct E as (Ht1 & Hk1 & Hf1). split; [exact Ht1|].
          split; [discriminate|]. split; [exact Hk1|exact Hf1].
      - inversion E; subst. split; [exists m; auto|].
        split; [reflexivity|]. split; [apply others_linked_refl|reflexivity]. }
    destruct Hstep as (Ht1 & Hsame & (Hk1 & Hs1) & Hf1).
    destruct (IH _ _ Ht1 H) as (Ht' & Ho' & Hf'). split; [exact Ht'|].
    split; [|congruence].
    intros j Hj. destruct (Ho' j Hj) as (Ho1 & Ho2).
    destruct (String.eqb_spec j name) as [->|Hne].
    + rewrite (Hsame Hj) in *. auto.
    + rewrite Ho1, Hk1 by exact Hne. split; [reflexivity|]. intros r Hr.
      rewrite Ho2 by (rewrite Hk1 by exact Hne; exact Hr). apply (Hs1 j r Hne Hr).
Qed.

Lemma neighbours_present es : forall before k pk,
  In (k, pk) (neighbours es before) ->
  (exists n, In (k, Some n) es) /\
  (pk = before \/ exists k' n', pk = Some k' /\ In (k', Some n') es).
Proof.
  induction es as [|[k1 [c|]] es IH]; intros before k pk H; simpl in H.
  - destruct H.
  - destruct H as [H|H].
    + inversion H; subst. split; [exists c; left; reflexivity|left; reflexivity].
    + destruct (IH _ _ _ H) as ((n & Hn) & Hpk). split; [exists n; right; exact Hn|].
      right. destruct Hpk as [->|(k' & n' & -> & Hk')].
      * exists k1, c. split; [reflexivity|left; reflexivity].
      * exists k', n'. split; [reflexivity|right; exact Hk'].
  - destruct (IH _ _ _ H) as ((n & Hn) & Hpk). split; [exists n; right; exact Hn|].
    destruct Hpk as [->|(k' & n' & -> & Hk')]; [left; reflexivity|].
    right. exists k', n'. split; [reflexivity|right; exact Hk'].
Qed.

(** X13.  The diff rebuilds the sibling chain.  For rendered children that
    are distinct, next children with distinct keys that are distinct and
    none of them rendered already, and capabilities that leave the parent's
    children object, its first child and the previous sibling of its
    rendered children alone, a call of the general case of
    [_updateChildren] that returns leaves, under every key of the next
    children that has a child there, a child whose previous sibling is the
    child under the key before it that has one; the child under the first
    such key has no previous sibling and is the parent's first rendered
    child. *)
Theorem X13_diff_relinks_the_siblings :
  forall (fuel : nat) (idPrefix : string) (prev next : ChildMap) (w w' : World),
    resolveNodeID (heap w component) idPrefix <> "" ->
    _renderedChildren (heap w component) = Some prev ->
    NoDup (childRefs prev) ->
    NoDup (keys next) ->
    NoDup (childRefs next) ->
    (forall n, In n (childRefs next) -> ~ In n (childRefs prev)) ->
    _updateChildren fuel component idPrefix (Some next) w = (Normal tt, w') ->
    forall k pk, In (k, pk) (neighbours next None) ->
      exists r,
        renderedChild w' component k = Some r /\
        _previousSibling (heap w' r) = renderedAt w' component pk /\
        (pk = None -> _firstRenderedChild (heap w' component) = Some r).
Proof.
  intros fuel idPrefix prev next w w' Hid Hmap Hndp Hndk Hndc Hfresh H k pk Hin.
  unfold _updateChildren in H. unfold bind at 1, readComp at 1 in H.
  set (nodeID := resolveNodeID (heap w component) idPrefix) in *.
  destruct (String.eqb_spec nodeID "") as [He|_]; [contradiction|].
  rewrite Hmap in H. simpl in H.
  unfold bind at 1, get at 1 in H.
  destruct (countNodesBefore fuel (heap w) _ nodeID 0) as [before|]; [|discriminate].
  unfold bind at 1 in H.
  destruct (invariant (before =? 0) "y" None w) as [[[]|e|] w0] eqn:E0; try discriminate.
  assert (Hw0 : w0 = w)
    by (unfold invariant in E0; destruct (before =? 0); inversion E0; reflexivity).
  subst w0. clear E0.
  unfold bind at 1 in H.
  destruct (assignMountIndices (Some prev) before w) as [[total|e|] w1] eqn:E1;
    try discriminate.
  apply same_links_assignMountIndices in E1.
  unfold bind at 1 in H.
  destruct (diffChildren true component nodeID idPrefix (Some next) w1)
    as [[cur|e|] w2] eqn:E2; try discriminate.
  unfold bind at 1 in H.
  destruct (removeAbsent true component nodeID (Some next) w2)
    as [[[]|e|] w3] eqn:E3; try discriminate.
  apply same_links_updateNodeCounts in H.
  assert (Ht1 : tidy component (childRefs next) w1).
  { exists prev. split; [rewrite (proj1 (E1 component)); exact Hmap|].
    split; [apply one_key_each_of_NoDup, Hndp|].
    intros n Hn j Hj. apply (Hfresh n Hn). eapply getProp_childRefs. exact Hj. }
  unfold diffChildren in E2. simpl entries in E2.
  apply (relink_second_pass nodeID idPrefix next _ w1 cur w2 None) in E2; auto;
    [|intros k' Hk'; discriminate].
  destruct E2 as (Ht2 & _ & Ha2 & _).
  unfold removeAbsent, prevChildrenNow in E3.
  unfold bind at 1 in E3. unfold bind at 1, readComp at 1, ret at 1 in E3.
  cbv beta iota in E3.
  apply (relink_third_pass nodeID (Some next) _ w2 w3 Ht2) in E3.
  destruct E3 as (_ & Ho3 & Hf3).
  destruct (Ha2 k pk Hin) as (r & Hr & Hp & Hf).
  destruct (neighbours_present next None k pk Hin) as ((n & Hn) & Hpk).
  assert (Hthere : forall j c, In (j, Some c) next -> truthyProp (Some next) j = true)
    by (intros j c Hj; apply (truthyProp_child (Some next) j c), (getProp_in next j (Some c) Hndk Hj)).
  assert (Hfinal : forall j, renderedChild w' component j = renderedChild w3 component j)
    by (intros j; unfold renderedChild; rewrite (proj1 (H component)); reflexivity).
  destruct (Ho3 k (Hthere k n Hn)) as (Ho1 & Ho2).
  exists r. rewrite Hfinal, Ho1. split; [exact Hr|]. split.
  - rewrite (proj2 (proj2 (H r))), (Ho2 r Hr), Hp.
    destruct Hpk as [->|(k' & n' & -> & Hk')]; [reflexivity|]. simpl.
    rewrite Hfinal. symmetry. apply (Ho3 k' (Hthere k' n' Hk')).
  - intros Hnone. rewrite (proj1 (proj2 (H component))), Hf3. apply Hf, Hnone.
Qed.

End Relinking.

(** ** Rendering the same children again in the unit-index engine *)

Section UnitSameShape.
Context {collab : Collaborators}.
Variables (component : ref) (nodeID : string).
Hypothesis Hreceive : forall c p, preserves (steady component nodeID) (receiveProps c p).

Lemma unit_same_children_second_pass idPrefix prev (w0 : World) :
  _renderedChildren (heap w0 component) = Some prev ->
  NoDup (keys prev) ->
  forall ps ns,
    Forall2 (alike (heap w0)) ps ns ->
    incl ps prev ->
    forall s last w r w',
      (forall i c, nth_error (childRefs ps) i = Some c ->
         _mountIndex (heap w0 c) = Some (s + Z.of_nat i)) ->
      last <= s ->
      steady component nodeID w0 w ->
      forIn ns (UnitIndex.diffChild true component nodeID idPrefix) (Num last, s) w
        = (r, w') ->
      steady component nodeID w0 w'.
Proof.
  intros Hmap Hnd ps ns Hall.
  induction Hall as [|[k pv] [k' nv] ps ns [Hk Hv] _ IH];
    intros Hin s last w r w' Hidx Hlast Hst H.
  - inversion H; subst. exact Hst.
  - simpl in Hk, Hv. subst k'. rewrite forIn_cons in H.
    assert (Hget : getProp prev k = pv)
      by (apply getProp_in; [exact Hnd | apply Hin; left; reflexivity]).
    assert (Hin' : incl ps prev) by (intros x Hx; apply Hin; right; exact Hx).
    assert (Hown : inheritedProp (Some prev) k = None).
    { apply inheritedProp_hasOwn, (hasOwnProperty_in prev k pv), Hin. left. reflexivity. }
    destruct (UnitIndex.diffChild true component nodeID idPrefix (k, nv) (Num last, s) w)
      as [res w1] eqn:E.
    unfold UnitIndex.diffChild, prevChildrenNow in E.
    unfold bind at 1 in E. unfold bind at 1, readComp at 1, ret at 1 in E.
    cbn beta iota zeta delta [fst snd] in E.
    rewrite (proj1 Hst), Hmap, Hown in E.
    unfold bind at 1, get at 1 in E. cbv beta iota in E.
    simpl getPropOpt in E. rewrite Hget in E.
    destruct pv as [p|], nv as [n|]; try contradiction.
    + assert (Hs : shouldUpdateChild (heap w) (Some p) (Some n) = true).
      { simpl. destruct Hst as (_ & Hc & _). rewrite !Hc. apply Nat.eqb_eq, Hv. }
      rewrite Hs in E.
      assert (Hp0 : _mountIndex (heap w0 p) = Some s).
      { rewrite (Hidx 0%nat p) by reflexivity. f_equal. lia. }
      unfold UnitIndex.moveChild, child_receiveProps in E.
      unfold bind, readComp, writeComp, modify, ret in E.
      rewrite (proj1 (proj2 (proj2 Hst)) p), Hp0 in E. simpl toNumber in E.
      unfold lessThan in E.
      replace (s <? last) with false in E by (symmetry; apply Z.ltb_ge; exact Hlast).
      simpl in E.
      match type of E with
      | context [receiveProps p ?x ?W] =>
          destruct (receiveProps p x W) as [res2 w2] eqn:Er
      end.
      assert (Hst2 : steady component nodeID w0 w2).
      { eapply steady_trans; [exact Hst|]. eapply steady_trans; [apply steady_log|].
        eapply Hreceive. exact Er. }
      destruct res2 as [[]|e|].
      * inversion E; subst res w1; clear E.
        rewrite (proj1 (proj2 (proj2 Hst)) p), Hp0 in H. simpl toNumber in H.
        unfold Math_max in H.
        replace (Z.max s last) with s in H by lia. simpl isSome in H. cbv iota in H.
        refine (IH Hin' (s + 1) s _ r w' _ _ _ H).
        -- intros i c Hc. rewrite (Hidx (S i) c) by exact Hc. f_equal. lia.
        -- lia.
        -- eapply steady_trans; [exact Hst2|].
           destruct Hst2 as (_ & _ & Hi2 & _).
           unfold steady. simpl.
           split; [apply (upd_keeps _renderedChildren); reflexivity|].
           split; [intros x; apply (upd_keeps constructor); reflexivity|].
           split; [|reflexivity].
           intros x. unfold upd. destruct (Nat.eqb_spec x p) as [->|_]; [|reflexivity].
           simpl. rewrite Hi2, Hp0. reflexivity.
      * inversion E; subst res w1; clear E. inversion H; subst. exact Hst2.
      * inversion E; subst res w1; clear E. inversion H; subst. exact Hst2.
    + simpl in E. unfold bind, ret in E. inversion E; subst res w1; clear E.
      simpl isSome in H. cbv iota in H.
      refine (IH Hin' s last _ r w' Hidx Hlast Hst H).
Qed.

Lemma unit_same_children_third_pass prev next :
  (forall k, isSome (getProp prev k) = true -> truthyProp (Some next) k = true) ->
  forall ks w,
    _renderedChildren (heap w component) = Some prev ->
    forIn ks (fun name _ => UnitIndex.removeIfAbsent true component nodeID (Some next) name)
      tt w = (Normal tt, w).
Proof.
  intros Hsame ks w Hmap. induction ks as [|k ks IH]; [reflexivity|].
  rewrite forIn_cons.
  assert (Hstep : UnitIndex.removeIfAbsent true component nodeID (Some next) k w
                  = (Normal tt, w)).
  { unfold UnitIndex.removeIfAbsent, prevChildrenNow, bind, readComp, ret. simpl.
    rewrite Hmap. simpl. specialize (Hsame k).
    destruct (getProp prev k); [|reflexivity].
    rewrite Hsame by reflexivity. reflexivity. }
  rewrite Hstep. exact IH.
Qed.

(** X14.  In the unit-index engine, rendering the same children again
    changes nothing.  When the mount indices of the rendered children are
    their positions, as [mountChildren] and every diff leave them, and the
    next children have the same keys in the same order with, under each
    key, no child on both sides or children of the same constructor, then
    [_updateChildren] enqueues no record for the addressed node and leaves
    the rendered children, the constructors and every mount index as they
    are, however the call ends; what is taken of [receiveProps] is that it
    respects just that. *)
Theorem X14_unit_same_children_change_nothing :
  forall (idPrefix : string) (prev next : ChildMap) (w : World)
         (r : Outcome unit) (w' : World),
    _renderedChildren (heap w component) = Some prev ->
    Forall2 (alike (heap w)) prev next ->
    NoDup (keys prev) ->
    (forall i c, nth_error (childRefs prev) i = Some c ->
       _mountIndex (heap w c) = Some (Z.of_nat i)) ->
    UnitIndex._updateChildren component nodeID idPrefix (Some next) w = (r, w') ->
    steady component nodeID w w'.
Proof.
  intros idPrefix prev next w r w' Hmap Hshape Hnd Hidx H.
  unfold UnitIndex._updateChildren in H. unfold bind at 1, readComp at 1 in H.
  rewrite Hmap in H. simpl in H. unfold bind at 1 in H.
  destruct (forIn next (UnitIndex.diffChild true component nodeID idPrefix) (Num 0, 0) w)
    as [res w1] eqn:E1.
  assert (Hst1 : steady component nodeID w w1).
  { refine (unit_same_children_second_pass idPrefix prev w Hmap Hnd prev next Hshape
              (incl_refl _) 0 0 w res w1 _ _ _ E1).
    - intros i c Hc. rewrite (Hidx i c Hc). reflexivity.
    - lia.
    - apply steady_refl. }
  destruct res as [st|e|]; try (inversion H; subst; exact Hst1).
  unfold UnitIndex.removeAbsent, prevChildrenNow in H.
  unfold bind at 1 in H. unfold bind at 1, readComp at 1, ret at 1 in H.
  cbv beta iota in H.
  assert (Hm1 : _renderedChildren (heap w1 component) = Some prev)
    by (rewrite (proj1 Hst1); exact Hmap).
  assert (Hthere : forall k, isSome (getProp prev k) = true ->
                             truthyProp (Some next) k = true).
  { intros k Hk. rewrite <- (alike_getProp _ _ _ Hshape k) in Hk.
    destruct (getProp next k) as [n|] eqn:Hn; [|discriminate].
    apply (truthyProp_child (Some next) k n Hn). }
  rewrite (unit_same_children_third_pass prev next Hthere _ w1 Hm1) in H.
  inversion H; subst. exact Hst1.
Qed.

End UnitSameShape.

(** ** A child that the diff mounts *)

Section InsertedChild.
Context {collab : Collaborators}.
Variables (component n : ref).
Hypothesis Hquiet : capabilities_quiet_about component n.

Lemma mount_own nodeID idPrefix name i w w' :
  _mountChildByNameAtIndex component nodeID idPrefix n name i w = (Normal tt, w') ->
  (forall j, j <> name -> renderedChild w' component j = renderedChild w component j) /\
  renderedChild w' component name = Some n /\
  (forall x, constructor (heap w' x) = constructor (heap w x)) /\
  exists evs,
    trace w' = trace w ++ evs /\
    filter (about n) evs = [CallMount n (String.append idPrefix name)].
Proof.
  unfold _mountChildByNameAtIndex, child_mountComponent, createChild, enqueueMarkup.
  unfold bind, readComp, writeComp, modify.
  destruct (mountComponent n (String.append idPrefix name)
              (log (CallMount n (String.append idPrefix name)) w))
    as [[img|e|] w2] eqn:Em; try discriminate.
  destruct Hquiet as (Hmo & _ & _).
  destruct (Hmo _ _ _ _ _ Em) as (Hmap & Hctor & (evs & Ht & Hf)).
  simpl in Hmap, Hctor, Ht.
  intros H. inversion H; subst w'; clear H.
  unfold renderedChild. simpl. rewrite !upd_same. simpl.
  rewrite (upd_keeps _renderedChildren) by reflexivity. rewrite Hmap.
  split; [|split; [|split]].
  - intros j Hj. rewrite getProp_setProp_other by exact Hj.
    destruct (_renderedChildren (heap w component)); reflexivity.
  - apply getProp_setProp_same.
  - intros x. rewrite (upd_keeps constructor) by reflexivity.
    rewrite (upd_keeps constructor) by reflexivity. apply Hctor.
  - exists (CallMount n (String.append idPrefix name) :: evs).
    rewrite Ht, <- app_assoc. split; [reflexivity|].
    simpl. rewrite Nat.eqb_refl, Hf. reflexivity.
Qed.

(** The work on the key of a child that is mounted is one [mountComponent]
    on it, under the id prefix followed by the key. *)
Lemma diffChild_inserted nodeID idPrefix name cur w cur' w' :
  diffChild true component nodeID idPrefix (name, Some n) cur w = (Normal cur', w') ->
  renderedChild w component name <> Some n ->
  shouldUpdateChild (heap w) (renderedChild w component name) (Some n) = false ->
  (forall j, j <> name -> renderedChild w' component j = renderedChild w component j) /\
  renderedChild w' component name = Some n /\
  (forall x, constructor (heap w' x) = constructor (heap w x)) /\
  exists evs,
    trace w' = trace w ++ evs /\
    filter (about n) evs = [CallMount n (String.append idPrefix name)].
Proof.
  intros H Hp Hs.
  assert (Hrun : exists li w1 w2,
             undisturbed component n name w w1 /\
             _mountChildByNameAtIndex component nodeID idPrefix n name (nextIndex cur) w1
               = (Normal tt, w2) /\
             appendToChain component cur li (Some n) w2 = (Normal cur', w')).
  { unfold diffChild, prevChildrenNow in H.
    unfold bind at 1 in H. unfold bind at 1, readComp at 1, ret at 1 in H.
    cbn beta iota zeta delta [fst snd] in H.
    destruct (inheritedProp (_renderedChildren (heap w component)) name) as [builtin|].
    { unfold diffBuiltin in H. unfold bind at 1, readComp at 1 in H.
      destruct (Nat.eqb builtin (constructor (heap w n)));
        [unfold throw in H; discriminate|].
      unfold bind at 1 in H.
      destruct (_mountChildByNameAtIndex component nodeID idPrefix n name (nextIndex cur) w)
        as [[[]|e|] w2] eqn:Em; try discriminate.
      exists NaN, w, w2. split; [apply undisturbed_refl|]. split; [exact Em|exact H]. }
    unfold bind at 1, get at 1 in H. cbv beta iota in H.
    fold (renderedChild w component name) in H. rewrite Hs in H.
    unfold bind at 1 in H.
    match type of H with
    | (let (_, _) := ?step w in _) = _ => destruct (step w) as [[[li mc]|e|] w3] eqn:E
    end; try discriminate.
    unfold bind at 1 in E.
    match type of E with
    | (let (_, _) := ?first w in _) = _ => destruct (first w) as [[l1|e|] w1] eqn:E1
    end; try discriminate.
    unfold bind at 1 in E.
    destruct (_mountChildByNameAtIndex component nodeID idPrefix n name (nextIndex cur) w1)
      as [[[]|e|] w2] eqn:Em; try discriminate.
    unfold ret in E. inversion E; subst li mc w3; clear E.
    exists l1, w1, w2. split; [|split; [exact Em|exact H]].
    revert E1. destruct (renderedChild w component name) as [q|].
    - assert (Hq : q <> n) by congruence.
      match goal with
      | |- ?m w = _ -> _ =>
          assert (Hm : preserves (undisturbed component n name) m);
            [|intros E1; exact (Hm _ _ _ E1)]
      end.
      apply (preserves_bind _ (undisturbed_trans component n name));
        [apply preserves_readComp, undisturbed_refl|]. intros pc.
      apply (preserves_bind _ (undisturbed_trans component n name));
        [apply (unmountChildByName_undisturbed component n Hquiet); exact Hq|].
      intros _. apply preserves_ret, undisturbed_refl.
    - intros E1. inversion E1; subst. apply undisturbed_refl. }
  clear H. destruct Hrun as (li & w1 & w2 & H1 & Em & H).
  apply mount_own in Em. destruct Em as (Mo & Mn & Mc & (evs2 & Mt & Mf)).
  rewrite appendToChain_some in H. inversion H; subst cur' w'; clear H.
  destruct H1 as (U1 & _ & U3 & (evs1 & Ut & Uf)).
  pose proof (linked_same_but_chain component n (lastChild cur) (heap w2)) as Hsame.
  assert (Hr : forall j, renderedChild
                           (set_heap (linked component n (lastChild cur) (heap w2)) w2)
                           component j = renderedChild w2 component j).
  { intros j. unfold renderedChild. simpl.
    destruct (Hsame component) as (_ & _ & _ & _ & _ & _ & Hrc & _). rewrite Hrc.
    reflexivity. }
  split; [|split; [|split]].
  - intros j Hj. rewrite Hr, Mo, U1 by exact Hj. reflexivity.
  - rewrite Hr. exact Mn.
  - intros x. simpl. destruct (Hsame x) as (Hc & _). rewrite Hc, Mc, U3. reflexivity.
  - exists (evs1 ++ evs2). simpl. rewrite Mt, Ut, app_assoc. split; [reflexivity|].
    rewrite filter_app, Uf, Mf. reflexivity.
Qed.

End InsertedChild.

Section InsertedChildAcrossTheCall.
Context {collab : Collaborators}.

Lemma shouldUpdateChild_same h n : shouldUpdateChild h (Some n) (Some n) = true.
Proof. simpl. apply Nat.eqb_refl. Qed.

(** The second pass mounts the child [n] when it reaches its key, and asks
    nothing else of it. *)
Lemma secondPass_inserted component n (Hquiet : capabilities_quiet_about component n)
    nodeID idPrefix name es :
  forall cur w cur' w',
    forIn es (diffChild true component nodeID idPrefix) cur w = (Normal cur', w') ->
    NoDup (keys es) ->
    (forall v, In (name, v) es -> v = Some n) ->
    (forall k v, In (k, v) es -> k <> name -> v <> Some n) ->
    (forall j, renderedChild w component j <> Some n) ->
    shouldUpdateChild (heap w) (renderedChild w component name) (Some n) = false ->
    In name (keys es) ->
    renderedChild w' component name = Some n /\
    (forall j, j <> name -> renderedChild w' component j <> Some n) /\
    exists evs,
      trace w' = trace w ++ evs /\
      filter (about n) evs = [CallMount n (String.append idPrefix name)].
Proof.
  induction es as [|[k v] es IH]; intros cur w cur' w' H Hnd Hname Hrest Hfresh Hs Hin;
    [destruct Hin|].
  rewrite forIn_cons in H.
  destruct (diffChild true component nodeID idPrefix (k, v) cur w) as [[cur1|e|] w1] eqn:E;
    try discriminate.
  simpl in Hnd. inversion Hnd as [|? ? Hnotin Hnd']; subst.
  destruct (String.eqb_spec k name) as [->|Hk].
  - rewrite (Hname v (or_introl eq_refl)) in E.
    destruct (diffChild_inserted component n Hquiet _ _ _ _ _ _ _ E (Hfresh name) Hs)
      as (Ho & Hn & Hc & (evs1 & Ht1 & Hf1)).
    destruct (secondPass_reused component n Hquiet nodeID idPrefix name n es
                cur1 w1 cur' w' H Hnd') as (Hp' & Ho' & (evs2 & Ht2 & Hcase)).
    + intros k0 v0 Hin0 _. apply (Hrest k0 v0); [right; exact Hin0|].
      intros ->. apply Hnotin. change name with (fst (name, v0)). apply in_map, Hin0.
    + intros v0 Hin0. exfalso. apply Hnotin.
      change name with (fst (name, v0)). apply in_map, Hin0.
    + exact Hn.
    + intros j Hj. rewrite Ho by exact Hj. apply Hfresh.
    + apply shouldUpdateChild_same.
    + split; [exact Hp'|]. split; [exact Ho'|].
      exists (evs1 ++ evs2). rewrite Ht2, Ht1, app_assoc. split; [reflexivity|].
      destruct Hcase as [[Hin' _]|[_ Hf2]]; [contradiction|].
      rewrite filter_app, Hf1, Hf2. reflexivity.
  - assert (Hund : undisturbed component n k w w1).
    { apply (diffChild_other component n Hquiet _ _ _ _ _ _ _ _ E).
      - apply Hfresh.
      - apply (Hrest k v); [left; reflexivity|exact Hk]. }
    destruct Hund as (Hu1 & Hu2 & Hu3 & (evs1 & Ht1 & Hf1)).
    destruct (IH cur1 w1 cur' w' H Hnd') as (Hp' & Ho' & (evs2 & Ht2 & Hf2)).
    + intros v0 Hin0. apply Hname. right. exact Hin0.
    + intros k0 v0 Hin0. apply Hrest. right. exact Hin0.
    + intros j. destruct (String.eqb_spec j k) as [->|Hjk].
      * apply Hu2, Hfresh.
      * rewrite Hu1 by exact Hjk. apply Hfresh.
    + rewrite Hu1 by (intros Heq; apply Hk; symmetry; exact Heq).
      destruct (renderedChild w component name) as [q|]; [|reflexivity].
      rewrite (shouldUpdateChild_constructors _ _ _ _ Hu3). exact Hs.
    + destruct Hin as [Heq|Hin]; [contradiction|exact Hin].
    + split; [exact Hp'|]. split; [exact Ho'|].
      exists (evs1 ++ evs2). rewrite Ht2, Ht1, app_assoc. split; [reflexivity|].
      rewrite filter_app, Hf1, Hf2. reflexivity.
Qed.

(** X15.  Let the next children hold [n] under [name] and under no other
    key, let [n] not be one of the rendered children, and let the rendered
    children hold under [name] either nothing or a child of another
    constructor.  With capabilities that do not themselves edit the
    component's rendered children, change constructors, or mount, update or
    unmount [n], a completed general-case call leaves [n] under [name], and
    of all the capability calls made during the call exactly one concerns
    [n]: a [mountComponent] under the id prefix followed by the key. *)
Theorem X15_an_inserted_child_is_mounted_once :
  forall (fuel : nat) (component : ref) (idPrefix : string)
         (prev next : ChildMap) (name : string) (n : ref) (w w' : World),
    capabilities_quiet_about component n ->
    String.eqb (resolveNodeID (heap w component) idPrefix) "" = false ->
    _renderedChildren (heap w component) = Some prev ->
    NoDup (keys next) ->
    getProp next name = Some n ->
    shouldUpdateChild (heap w) (getProp prev name) (Some n) = false ->
    (forall j, getProp prev j <> Some n) ->
    (forall j, j <> name -> getProp next j <> Some n) ->
    _updateChildren fuel component idPrefix (Some next) w = (Normal tt, w') ->
    renderedChild w' component name = Some n /\
    exists evs,
      trace w' = trace w ++ evs /\
      filter (about n) evs = [CallMount n (String.append idPrefix name)].
Proof.
  intros fuel component idPrefix prev next name n w w'
    Hquiet Hid Hprev Hnd Hn Hs Hfresh Hnext H.
  unfold _updateChildren in H. unfold bind at 1, readComp at 1 in H.
  rewrite Hid, Hprev in H.
  change (negb (isSome (Some next)) && negb (isSome (Some prev))) with false in H.
  change (isSome (Some prev)) with true in H.
  cbv iota in H. unfold bind at 1, get at 1 in H.
  destruct (countNodesBefore fuel (heap w) _ _ 0) as [before|]; [|discriminate].
  unfold bind at 1 in H.
  destruct (before =? 0) eqn:Eb; [|discriminate]. apply Z.eqb_eq in Eb. subst before.
  simpl invariant in H. unfold ret at 1 in H.
  unfold bind at 1 in H.
  destruct (assignMountIndices (Some prev) 0 w) as [[total|?|] w1] eqn:E1;
    try discriminate.
  unfold bind at 1 in H.
  destruct (diffChildren true component _ idPrefix (Some next) w1)
    as [[cur|?|] w2] eqn:E2; try discriminate.
  unfold bind at 1 in H.
  destruct (removeAbsent true component _ (Some next) w2) as [[[]|?|] w3] eqn:E3;
    try discriminate.
  (* first pass *)
  destruct (assignMountIndices_quiet component n _ _ _ _ _ E1) as (Hm1 & Hc1 & Hn1).
  assert (Hr1 : forall j, renderedChild w1 component j = getProp prev j)
    by (intros j; unfold renderedChild; rewrite Hm1, Hprev; reflexivity).
  (* second pass *)
  unfold diffChildren in E2. simpl entries in E2.
  destruct (secondPass_inserted component n Hquiet _ idPrefix name next _ _ _ _ E2 Hnd)
    as (Hp2 & Ho2 & (evs2 & Ht2 & Hf2)).
  { intros v Hin. rewrite <- (getProp_in next name v Hnd Hin). exact Hn. }
  { intros k v Hin Hk. rewrite <- (getProp_in next k v Hnd Hin). apply Hnext, Hk. }
  { intros j. rewrite Hr1. apply Hfresh. }
  { rewrite Hr1. destruct (getProp prev name) as [q|]; [|reflexivity].
    rewrite (shouldUpdateChild_constructors _ _ _ _ Hc1). exact Hs. }
  { eapply getProp_some_in; eauto. }
  (* third pass *)
  unfold removeAbsent in E3. unfold bind at 1 in E3.
  unfold prevChildrenNow at 1, bind at 1, readComp at 1, ret at 1 in E3.
  destruct (thirdPass_reused component n Hquiet _ next name n _ Hn _ _ E3 Hp2 Ho2)
    as (Hp3 & Hn3).
  (* node counts *)
  destruct (updateNodeCounts_spec _ _ _ _ _ _ H) as (below & _ & Hc & _ & _ & _ & _ & Ht & _).
  split.
  - unfold renderedChild in *. rewrite Hc. simpl. exact Hp3.
  - destruct Hn1 as (evs1 & Ht1 & Hf1). destruct Hn3 as (evs3 & Ht3 & Hf3).
    exists (evs1 ++ evs2 ++ evs3).
    rewrite Ht, Ht3, Ht2, Ht1, !app_assoc. split; [reflexivity|].
    rewrite !filter_app, Hf1, Hf2, Hf3. reflexivity.
Qed.

End InsertedChildAcrossTheCall.

(** ** A child that the diff removes *)

Section RemovedChild.
Context {collab : Collaborators}.
Variables (component p : ref).
Hypothesis Hquiet : capabilities_quiet_about component p.
Hypothesis Hvalid : forall c, isValidComponent c = true.

Lemma unmount_own nodeID name w w' :
  _unmountChildByName component nodeID p name w = (Normal tt, w') ->
  renderedChild w' component name = None /\
  (forall j, j <> name -> renderedChild w' component j = renderedChild w component j) /\
  (forall x, constructor (heap w' x) = constructor (heap w x)) /\
  exists evs, trace w' = trace w ++ evs /\ filter (about p) evs = [CallUnmount p].
Proof.
  unfold _unmountChildByName, removeChild, enqueueRemove, child_unmountComponent.
  unfold bind, readComp, writeComp, modify. rewrite Hvalid.
  match goal with
  | |- context [unmountComponent p ?w1] =>
      destruct (unmountComponent p w1) as [[[]|e|] w2] eqn:Eu
  end; try discriminate.
  destruct Hquiet as (_ & _ & Hun).
  destruct (Hun _ _ _ _ Eu) as (Hmap & Hctor & (evs & Ht & Hf)).
  simpl in Hmap, Hctor, Ht.
  rewrite !(upd_keeps _renderedChildren) in Hmap by reflexivity.
  destruct (_renderedChildren (heap w2 component)) as [m|] eqn:Em; [|discriminate].
  intros H. inversion H; subst w'; clear H.
  unfold renderedChild. simpl. rewrite upd_same. simpl. rewrite <- Hmap. simpl.
  split; [|split; [|split]].
  - apply getProp_deleteProp_same.
  - intros j Hj. apply getProp_deleteProp_other, Hj.
  - intros x. rewrite (upd_keeps constructor) by reflexivity. rewrite Hctor.
    rewrite !(upd_keeps constructor) by reflexivity. reflexivity.
  - exists (CallUnmount p :: evs). rewrite Ht, <- app_assoc. split; [reflexivity|].
    simpl. rewrite Nat.eqb_refl, Hf. reflexivity.
Qed.

(** In the second pass, the key of a previous child [p] that holds no next
    child: [p] is unmounted and its key deleted. *)
Lemma diffChild_removed nodeID idPrefix name cur w cur' w' :
  diffChild true component nodeID idPrefix (name, None) cur w = (Normal cur', w') ->
  renderedChild w component name = Some p ->
  renderedChild w' component name = None /\
  (forall j, j <> name -> renderedChild w' component j = renderedChild w component j) /\
  (forall x, constructor (heap w' x) = constructor (heap w x)) /\
  exists evs, trace w' = trace w ++ evs /\ filter (about p) evs = [CallUnmount p].
Proof.
  intros H Hp.
  unfold diffChild, prevChildrenNow in H.
  unfold bind at 1 in H. unfold bind at 1, readComp at 1, ret at 1 in H.
  cbn beta iota zeta delta [fst snd] in H.
  rewrite (inheritedProp_own _ _ _ Hp) in H.
  unfold bind at 1, get at 1 in H. cbv beta iota in H.
  fold (renderedChild w component name) in H. rewrite Hp in H.
  change (shouldUpdateChild (heap w) (Some p) None) with false in H. cbv iota in H.
  unfold bind at 1 in H. unfold bind at 1 in H. unfold bind at 1, readComp at 1 in H.
  unfold bind at 1 in H.
  destruct (_unmountChildByName component nodeID p name w) as [[[]|e|] w1] eqn:Eu;
    try discriminate.
  unfold ret in H. simpl in H. inversion H; subst cur' w'; clear H.
  exact (unmount_own _ _ _ _ Eu).
Qed.

(** The third pass at a key under which [p] is not rendered. *)
Lemma removeIfAbsent_other nodeID next k w r w' :
  removeIfAbsent true component nodeID next k w = (r, w') ->
  renderedChild w component k <> Some p ->
  undisturbed component p k w w'.
Proof.
  unfold removeIfAbsent, prevChildrenNow, bind, readComp, ret. simpl.
  fold (renderedChild w component k).
  destruct (renderedChild w component k) as [c|] eqn:Ec.
  - destruct (truthyProp next k); simpl.
    + intros E _. inversion E; subst. apply undisturbed_refl.
    + intros E Hc.
      apply (unmountChildByName_undisturbed component p Hquiet nodeID c k) in E; [exact E|].
      congruence.
  - intros E _. inversion E; subst. apply undisturbed_refl.
Qed.

(** While [p] is rendered under no key but possibly [name], the work on the
    other keys asks nothing of it. *)
Lemma secondPass_elsewhere nodeID idPrefix name es :
  forall cur w cur' w',
    forIn es (diffChild true component nodeID idPrefix) cur w = (Normal cur', w') ->
    ~ In name (keys es) ->
    (forall k v, In (k, v) es -> v <> Some p) ->
    (forall j, j <> name -> renderedChild w component j <> Some p) ->
    renderedChild w' component name = renderedChild w component name /\
    (forall j, j <> name -> renderedChild w' component j <> Some p) /\
    nothing_about p w w'.
Proof.
  induction es as [|[k v] es IH]; intros cur w cur' w' H Hnin Hnp Hothers.
  - inversion H; subst. split; [reflexivity|]. split; [exact Hothers|].
    apply nothing_about_refl.
  - rewrite forIn_cons in H.
    destruct (diffChild true component nodeID idPrefix (k, v) cur w) as [[cur1|e|] w1] eqn:E;
      try discriminate.
    assert (Hk : k <> name) by (intros ->; apply Hnin; left; reflexivity).
    assert (Hund : undisturbed component p k w w1).
    { apply (diffChild_other component p Hquiet _ _ _ _ _ _ _ _ E).
      - apply Hothers, Hk.
      - apply (Hnp k v). left. reflexivity. }
    destruct Hund as (Hu1 & Hu2 & _ & Hu4).
    destruct (IH cur1 w1 cur' w' H) as (Hn' & Ho' & Hq').
    + intros Hin. apply Hnin. right. exact Hin.
    + intros k0 v0 Hin. apply (Hnp k0 v0). right. exact Hin.
    + intros j Hj. destruct (String.eqb_spec j k) as [->|Hjk].
      * apply Hu2, Hothers, Hk.
      * rewrite Hu1 by exact Hjk. apply Hothers, Hj.
    + split; [|split; [exact Ho'|eapply nothing_about_trans; eauto]].
      rewrite Hn'. apply Hu1. intros Heq. apply Hk. symmetry. exact Heq.
Qed.

(** The second pass unmounts [p] if it meets its key, and not otherwise. *)
Lemma secondPass_removed nodeID idPrefix name es :
  forall cur w cur' w',
    forIn es (diffChild true component nodeID idPrefix) cur w = (Normal cur', w') ->
    NoDup (keys es) ->
    (forall k v, In (k, v) es -> v <> Some p) ->
    (forall v, In (name, v) es -> v = None) ->
    renderedChild w component name = Some p ->
    (forall j, j <> name -> renderedChild w component j <> Some p) ->
    (forall j, j <> name -> renderedChild w' component j <> Some p) /\
    exists evs,
      trace w' = trace w ++ evs /\
      ((renderedChild w' component name = Some p /\ filter (about p) evs = []) \/
       (renderedChild w' component name = None /\ filter (about p) evs = [CallUnmount p])).
Proof.
  induction es as [|[k v] es IH]; intros cur w cur' w' H Hnd Hnp Hname Hp Hothers.
  - inversion H; subst. split; [exact Hothers|].
    exists []. rewrite app_nil_r. split; [reflexivity|]. left. split; [exact Hp|reflexivity].
  - rewrite forIn_cons in H.
    destruct (diffChild true component nodeID idPrefix (k, v) cur w) as [[cur1|e|] w1] eqn:E;
      try discriminate.
    simpl in Hnd. inversion Hnd as [|? ? Hnotin Hnd']; subst.
    assert (Hnp' : forall k0 v0, In (k0, v0) es -> v0 <> Some p)
      by (intros k0 v0 Hin; apply (Hnp k0 v0); right; exact Hin).
    destruct (String.eqb_spec k name) as [->|Hk].
    + rewrite (Hname v (or_introl eq_refl)) in E.
      destruct (diffChild_removed _ _ _ _ _ _ _ E Hp) as (Hn1 & Ho1 & _ & (evs1 & Ht1 & Hf1)).
      destruct (secondPass_elsewhere _ _ name _ _ _ _ _ H Hnotin Hnp') as (Hn2 & Ho2 & Hq2).
      * intros j Hj. rewrite Ho1 by exact Hj. apply Hothers, Hj.
      * split; [exact Ho2|]. destruct Hq2 as (evs2 & Ht2 & Hf2).
        exists (evs1 ++ evs2). rewrite Ht2, Ht1, app_assoc. split; [reflexivity|].
        right. split; [rewrite Hn2; exact Hn1|].
        rewrite filter_app, Hf1, Hf2. reflexivity.
    + assert (Hund : undisturbed component p k w w1).
      { apply (diffChild_other component p Hquiet _ _ _ _ _ _ _ _ E).
        - apply Hothers, Hk.
        - apply (Hnp k v). left. reflexivity. }
      destruct Hund as (Hu1 & Hu2 & _ & (evs1 & Ht1 & Hf1)).
      destruct (IH cur1 w1 cur' w' H Hnd' Hnp') as (Ho' & (evs2 & Ht2 & Hcase)).
      * intros v0 Hin. apply Hname. right. exact Hin.
      * rewrite Hu1 by (intros Heq; apply Hk; symmetry; exact Heq). exact Hp.
      * intros j Hj. destruct (String.eqb_spec j k) as [->|Hjk].
        -- apply Hu2, Hothers, Hk.
        -- rewrite Hu1 by exact Hjk. apply Hothers, Hj.
      * split; [exact Ho'|].
        exists (evs1 ++ evs2). rewrite Ht2, Ht1, app_assoc. split; [reflexivity|].
        rewrite filter_app, Hf1. simpl. exact Hcase.
Qed.

(** Once [p] is rendered under no key, the third pass asks nothing of it and
    leaves the key [name] empty. *)
Lemma thirdPass_gone nodeID next name ks :
  forall w w',
    forIn ks (fun k _ => removeIfAbsent true component nodeID next k) tt w
      = (Normal tt, w') ->
    renderedChild w component name = None ->
    (forall j, j <> name -> renderedChild w component j <> Some p) ->
    renderedChild w' component name = None /\ nothing_about p w w'.
Proof.
  induction ks as [|k ks IH]; intros w w' H Hn Hothers.
  - inversion H; subst. split; [exact Hn|apply nothing_about_refl].
  - rewrite forIn_cons in H.
    destruct (removeIfAbsent true component nodeID next k w) as [[[]|e|] w1] eqn:E;
      try discriminate.
    assert (Hk : renderedChild w component k <> Some p).
    { destruct (String.eqb_spec k name) as [->|Hk]; [congruence|apply Hothers, Hk]. }
    destruct (String.eqb_spec k name) as [->|Hkn].
    + assert (w1 = w).
      { revert E. unfold removeIfAbsent, prevChildrenNow, bind, readComp, ret. simpl.
        fold (renderedChild w component name). rewrite Hn. congruence. }
      subst w1. apply (IH _ _ H Hn Hothers).
    + destruct (removeIfAbsent_other _ _ _ _ _ _ E Hk) as (Hu1 & Hu2 & _ & Hu4).
      destruct (IH _ _ H) as (Hn' & Hq').
      * rewrite Hu1 by (intros Heq; apply Hkn; symmetry; exact Heq). exact Hn.
      * intros j Hj. destruct (String.eqb_spec j k) as [->|Hjk].
        -- apply Hu2, Hk.
        -- rewrite Hu1 by exact Hjk. apply Hothers, Hj.
      * split; [exact Hn'|eapply nothing_about_trans; eauto].
Qed.

(** The third pass unmounts a child whose key the next children do not
    hold, when it comes to that key. *)
Lemma thirdPass_removed nodeID next name ks :
  truthyProp next name = false ->
  forall w w',
    forIn ks (fun k _ => removeIfAbsent true component nodeID next k) tt w
      = (Normal tt, w') ->
    In name ks ->
    renderedChild w component name = Some p ->
    (forall j, j <> name -> renderedChild w component j <> Some p) ->
    renderedChild w' component name = None /\
    exists evs, trace w' = trace w ++ evs /\ filter (about p) evs = [CallUnmount p].
Proof.
  intros Hnext. induction ks as [|k ks IH]; intros w w' H Hin Hp Hothers; [destruct Hin|].
  rewrite forIn_cons in H.
  destruct (removeIfAbsent true component nodeID next k w) as [[[]|e|] w1] eqn:E;
    try discriminate.
  destruct (String.eqb_spec k name) as [->|Hk].
  - assert (Eu : _unmountChildByName component nodeID p name w = (Normal tt, w1)).
    { revert E. unfold removeIfAbsent, prevChildrenNow.
      unfold bind at 1. unfold bind at 1, readComp at 1, ret at 1. cbv beta iota.
      fold (renderedChild w component name). rewrite Hp, Hnext. simpl. auto. }
    destruct (unmount_own _ _ _ _ Eu) as (Hn1 & Ho1 & _ & (evs1 & Ht1 & Hf1)).
    destruct (thirdPass_gone _ _ name _ _ _ H Hn1) as (Hn2 & (evs2 & Ht2 & Hf2)).
    + intros j Hj. rewrite Ho1 by exact Hj. apply Hothers, Hj.
    + split; [exact Hn2|].
      exists (evs1 ++ evs2). rewrite Ht2, Ht1, app_assoc. split; [reflexivity|].
      rewrite filter_app, Hf1, Hf2. reflexivity.
  - assert (Hkp : renderedChild w component k <> Some p) by (apply Hothers, Hk).
    destruct (removeIfAbsent_other _ _ _ _ _ _ E Hkp) as (Hu1 & Hu2 & _ & (evs1 & Ht1 & Hf1)).
    destruct (IH _ _ H) as (Hn' & (evs2 & Ht2 & Hf2)).
    + destruct Hin as [Heq|Hin]; [contradiction|exact Hin].
    + rewrite Hu1 by (intros Heq; apply Hk; symmetry; exact Heq). exact Hp.
    + intros j Hj. destruct (String.eqb_spec j k) as [->|Hjk].
      * apply Hu2, Hkp.
      * rewrite Hu1 by exact Hjk. apply Hothers, Hj.
    + split; [exact Hn'|].
      exists (evs1 ++ evs2). rewrite Ht2, Ht1, app_assoc. split; [reflexivity|].
      rewrite filter_app, Hf1, Hf2. reflexivity.
Qed.

End RemovedChild.

Section RemovedChildAcrossTheCall.
Context {collab : Collaborators}.

(** X16.  Let the previous child [p] sit under [name], and under no other
    key, in the rendered children, let a read of the next children under
    [name] find nothing, neither a child nor a built-in of
    [Object.prototype], and let [p] not be one of the next children.  Where every
    component passes [isValidComponent] and the capabilities do not
    themselves edit the component's rendered children, change constructors,
    or mount, update or unmount [p], a completed general-case call leaves
    nothing under [name], and of all the capability calls made during the
    call exactly one concerns [p]: an [unmountComponent]. *)
Theorem X16_an_absent_child_is_unmounted_once :
  forall (fuel : nat) (component : ref) (idPrefix : string)
         (prev next : ChildMap) (name : string) (p : ref) (w w' : World),
    capabilities_quiet_about component p ->
    (forall c, isValidComponent c = true) ->
    String.eqb (resolveNodeID (heap w component) idPrefix) "" = false ->
    _renderedChildren (heap w component) = Some prev ->
    NoDup (keys next) ->
    getProp prev name = Some p ->
    (forall j, j <> name -> getProp prev j <> Some p) ->
    truthyProp (Some next) name = false ->
    (forall j, getProp next j <> Some p) ->
    _updateChildren fuel component idPrefix (Some next) w = (Normal tt, w') ->
    renderedChild w' component name = None /\
    exists evs,
      trace w' = trace w ++ evs /\
      filter (about p) evs = [CallUnmount p].
Proof.
  intros fuel component idPrefix prev next name p w w'
    Hquiet Hvalid Hid Hprev Hnd Hp Hothers Hfalsy Hnext H.
  pose proof (proj1 (truthyProp_false _ _ Hfalsy)) as Hn. simpl in Hn.
  unfold _updateChildren in H. unfold bind at 1, readComp at 1 in H.
  rewrite Hid, Hprev in H.
  change (negb (isSome (Some next)) && negb (isSome (Some prev))) with false in H.
  change (isSome (Some prev)) with true in H.
  cbv iota in H. unfold bind at 1, get at 1 in H.
  destruct (countNodesBefore fuel (heap w) _ _ 0) as [before|]; [|discriminate].
  unfold bind at 1 in H.
  destruct (before =? 0) eqn:Eb; [|discriminate]. apply Z.eqb_eq in Eb. subst before.
  simpl invariant in H. unfold ret at 1 in H.
  unfold bind at 1 in H.
  destruct (assignMountIndices (Some prev) 0 w) as [[total|?|] w1] eqn:E1;
    try discriminate.
  unfold bind at 1 in H.
  destruct (diffChildren true component _ idPrefix (Some next) w1)
    as [[cur|?|] w2] eqn:E2; try discriminate.
  unfold bind at 1 in H.
  destruct (removeAbsent true component _ (Some next) w2) as [[[]|?|] w3] eqn:E3;
    try discriminate.
  (* first pass *)
  destruct (assignMountIndices_quiet component p _ _ _ _ _ E1) as (Hm1 & Hc1 & Hn1).
  assert (Hr1 : forall j, renderedChild w1 component j = getProp prev j)
    by (intros j; unfold renderedChild; rewrite Hm1, Hprev; reflexivity).
  (* second pass *)
  unfold diffChildren in E2. simpl entries in E2.
  destruct (secondPass_removed component p Hquiet Hvalid _ idPrefix name next _ _ _ _ E2 Hnd)
    as (Ho2 & (evs2 & Ht2 & Hcase)).
  { intros k v Hin. rewrite <- (getProp_in next k v Hnd Hin). apply Hnext. }
  { intros v Hin. rewrite <- (getProp_in next name v Hnd Hin). exact Hn. }
  { rewrite Hr1. exact Hp. }
  { intros j Hj. rewrite Hr1. apply Hothers, Hj. }
  (* third pass *)
  unfold removeAbsent in E3. unfold bind at 1 in E3.
  unfold prevChildrenNow at 1, bind at 1, readComp at 1, ret at 1 in E3.
  (* node counts *)
  destruct (updateNodeCounts_spec _ _ _ _ _ _ H) as (below & _ & Hc & _ & _ & _ & _ & Ht & _).
  destruct Hn1 as (evs1 & Ht1 & Hf1).
  destruct Hcase as [(Hp2 & Hf2)|(Hp2 & Hf2)].
  - destruct (thirdPass_removed component p Hquiet Hvalid _ (Some next) name _ Hfalsy _ _ E3)
      as (Hp3 & (evs3 & Ht3 & Hf3)); [|exact Hp2|exact Ho2|].
    { unfold renderedChild in Hp2.
      destruct (_renderedChildren (heap w2 component)) as [m|]; [|discriminate].
      eapply getProp_some_in. exact Hp2. }
    split.
    + unfold renderedChild in *. rewrite Hc. simpl. exact Hp3.
    + exists (evs1 ++ evs2 ++ evs3).
      rewrite Ht, Ht3, Ht2, Ht1, !app_assoc. split; [reflexivity|].
      rewrite !filter_app, Hf1, Hf2, Hf3. reflexivity.
  - destruct (thirdPass_gone component p Hquiet _ (Some next) name _ _ _ E3 Hp2 Ho2)
      as (Hp3 & (evs3 & Ht3 & Hf3)).
    split.
    + unfold renderedChild in *. rewrite Hc. simpl. exact Hp3.
    + exists (evs1 ++ evs2 ++ evs3).
      rewrite Ht, Ht3, Ht2, Ht1, !app_assoc. split; [reflexivity|].
      rewrite !filter_app, Hf1, Hf2, Hf3. reflexivity.
Qed.

End RemovedChildAcrossTheCall.

(** ** The further properties on concrete runs *)

Lemma leaves_keep_coherent : @capabilities_preserve leaves keeps_coherent.
Proof.
  split; [|split]; intros; intros w r w' H; inversion H; subst; intros Hw; exact Hw.
Qed.

Lemma leaves_keep_queues : @capabilities_preserve leaves queues_kept.
Proof.
  split; [|split]; intros; intros w r w' H; inversion H; subst; repeat split.
Qed.

Lemma refusing_in_batch : @capabilities_in_batch refusing.
Proof.
  split; [|split]; intros; simpl.
  - apply leafMount_in_batch.
  - apply in_batch_ret.
  - apply in_batch_ret.
Qed.

(** Growing a to a, b, c enqueues two insertions, which refer to the
    markup entries 0 and 1. *)
Lemma X1_witness :
  let w' :=
    snd (@body leaves (UpdateChildren 10 0%nat ".r." (Some abc')) (world0 (growHeap None))) in
  markupIndices (updateQueue w') = seq 0 (List.length (markupQueue w')) /\
  (forall u i, In u (updateQueue w') -> markupIndex u = Some i ->
     (i < List.length (markupQueue w'))%nat) /\
  NoDup (markupIndices (updateQueue w')).
Proof.
  intros w'.
  assert (Hrun : @body leaves (UpdateChildren 10 0%nat ".r." (Some abc'))
                   (world0 (growHeap None)) = (Normal tt, w'))
    by (vm_compute; reflexivity).
  assert (Hw : coherent (world0 (growHeap None))) by reflexivity.
  exact (@X1_markup_indices_resolve leaves leaves_keep_coherent _ _ _ _
           Hw (or_introl Hrun)).
Defined.

Lemma X2_witness :
  preserves queues_kept (@mountChildren leaves 0%nat ".r." (Some ab)) /\
  preserves queues_kept (@unmountChildren leaves 0%nat) /\
  preserves queues_kept (@UnitIndex.mountChildren leaves 0%nat ".r" ".r." (Some ab)) /\
  preserves queues_kept (@UnitIndex.unmountChildren leaves 0%nat).
Proof.
  exact (@X2_mounting_enqueues_nothing leaves leaves_keep_queues 0%nat ".r" ".r." (Some ab)).
Defined.

(** A text update that the output tree refuses stays in the queue. *)
Lemma X3_witness :
  let w := world0 (emptyParent None) in
  let w1 := snd (@body refusing (UpdateTextContent 0%nat "hello") (set_updateDepth 1 w)) in
  exists w',
    @run refusing (UpdateTextContent 0%nat "hello") w = (Throws (Raised 13%nat), w') /\
    updateDepth w' = 0 /\
    updateQueue w' = updateQueue w1 /\
    markupQueue w' = markupQueue w1 /\
    heap w' = heap w1 /\
    trace w' = trace w1 ++ [CallProcessUpdates (updateQueue w1) (markupQueue w1)].
Proof.
  intros w w1.
  assert (Hbody : @body refusing (UpdateTextContent 0%nat "hello") (set_updateDepth 1 w)
                  = (Normal tt, w1)) by (vm_compute; reflexivity).
  assert (Hq : updateQueue w1 <> []) by (vm_compute; discriminate).
  exact (@X3_refused_batch_stays_queued refusing refusing_in_batch _ w w1 13%nat
           eq_refl Hbody Hq eq_refl).
Defined.

(** The fragment k comes after the leaf a, which occupies one node. *)
Lemma X4_witness :
  @_updateChildren leaves 10 2%nat ".r.k" (Some [("x", Some 5%nat)]) (world0 siblingHeap)
    = (Throws (InvariantViolation "y" None), world0 siblingHeap).
Proof.
  assert (Hpos : forall x, 0 <= toNumber (_nodeCount (heap (world0 siblingHeap) x))).
  { intros x. do 4 (destruct x as [|x]; [simpl; lia|]). simpl. lia. }
  assert (Hid : @getParentID leaves ".r.k" <> "") by (vm_compute; discriminate).
  assert (Hc : ".r.kx" <> @getParentID leaves ".r.k") by (vm_compute; discriminate).
  assert (Hk : ".r.k" <> @getParentID leaves ".r.k") by (vm_compute; discriminate).
  assert (Hend : countNodesBefore 10 siblingHeap (Some 3%nat) (@getParentID leaves ".r.k") 0
                 <> None) by (vm_compute; discriminate).
  exact (@X4_diff_after_a_sibling_is_refused leaves 10 2%nat ".r.k"
           (Some [("x", Some 5%nat)]) (world0 siblingHeap) 3%nat 1%nat
           eq_refl Hid eq_refl Hpos eq_refl Hc eq_refl eq_refl Hk eq_refl eq_refl Hend).
Defined.

(** At the top level: no next children at all, and next children without
    the empty key. *)
Lemma X5_witness :
  @_updateChildren leaves 10 0%nat ".r" None (world0 (rootHeap 7))
    = (Throws TypeError, world0 (rootHeap 7)) /\
  @_updateChildren leaves 10 0%nat ".r" (Some []) (world0 (rootHeap 7))
    = (Throws TypeError, log (CallUnmount 1%nat) (world0 (rootHeap 7))).
Proof.
  split.
  - exact (proj1 (@X5_root_replacement_needs_both_children leaves 10 0%nat ".r" None
                    (world0 (rootHeap 7)) eq_refl)
             (or_intror (or_introl eq_refl))).
  - exact (proj2 (@X5_root_replacement_needs_both_children leaves 10 0%nat ".r" (Some [])
                    (world0 (rootHeap 7)) eq_refl)
             [("", Some 1%nat)] [] 1%nat _ eq_refl eq_refl eq_refl eq_refl eq_refl).
Defined.

Lemma NoDup_1_2 : NoDup [1%nat; 2%nat].
Proof.
  repeat constructor; simpl; intros H;
    repeat (destruct H as [H|H]; [discriminate|]); exact H.
Qed.

(** Mounting a, b in the unit-index engine gives them the indices 0, 1. *)
Lemma X6_witness :
  let w' :=
    snd (@UnitIndex.mountChildren leaves 0%nat ".r" ".r." (Some ab)
           (world0 (emptyParent None))) in
  List.length ["<.r.a>"; "<.r.b>"] = List.length [1%nat; 2%nat] /\
  _renderedChildren (heap w' 0%nat) = Some ab /\
  (forall i c, nth_error [1%nat; 2%nat] i = Some c ->
     _mountIndex (heap w' c) = Some (Z.of_nat i)).
Proof.
  intros w'.
  assert (Hrun : @UnitIndex.mountChildren leaves 0%nat ".r" ".r." (Some ab)
                   (world0 (emptyParent None)) = (Normal ["<.r.a>"; "<.r.b>"], w'))
    by (vm_compute; reflexivity).
  exact (@X6_unit_mountChildren_numbers_the_children leaves 0%nat ".r" ".r." (Some ab)
           _ _ w' NoDup_1_2 (leafMount_keeps_others _) Hrun).
Defined.

(** Mounting a, b under [.r], whose children are addressed with the prefix
    [.r.]: the chain is built and the parent's node count is left at 0. *)
Lemma X7_witness :
  let w := world0 (emptyParent None) in
  let w' := snd (@mountChildren leaves 0%nat ".r." (Some ab) w) in
  List.length ["<.r.a>"; "<.r.b>"] = List.length [1%nat; 2%nat] /\
  _renderedChildren (heap w' 0%nat) = Some ab /\
  chained (heap w') 0%nat None [1%nat; 2%nat] /\
  _firstRenderedChild (heap w' 0%nat) = Some 1%nat /\
  _nodeCount (heap w' 0%nat) = Some 0 /\
  ([1%nat; 2%nat] <> [] ->
   forall fuel,
     countNodesBefore (2 + fuel) (heap w') (_firstRenderedChild (heap w' 0%nat))
       (_rootNodeID (heap w' 0%nat)) 0 = Some 0).
Proof.
  intros w w'.
  assert (Hrun : @mountChildren leaves 0%nat ".r." (Some ab) w
                 = (Normal ["<.r.a>"; "<.r.b>"], w')) by (vm_compute; reflexivity).
  assert (Hnot : ~ In 0%nat [1%nat; 2%nat])
    by (simpl; intros [H|[H|[]]]; discriminate).
  exact (@X7_mountChildren_links_and_counts leaves 0%nat ".r." (Some ab) w _ w'
           NoDup_1_2 Hnot (leafMount_keeps_others _) Hrun).
Defined.

Lemma NoDup_1_2_3 : NoDup [1%nat; 2%nat; 3%nat].
Proof.
  repeat constructor; simpl; intros H;
    repeat (destruct H as [H|H]; [discriminate|]); exact H.
Qed.

Lemma NoDup_a_b_c : NoDup ["a"; "b"; "c"].
Proof.
  repeat constructor; simpl; intros H;
    repeat (destruct H as [H|H]; [discriminate|]); exact H.
Qed.

Lemma abcHeap_nonnegative x : 0 <= toNumber (_nodeCount (abcHeap x)).
Proof. do 4 (destruct x as [|x]; [simpl; lia|]). simpl. lia. Qed.

(** Diffing a, b, c against a, b, c enqueues nothing. *)
Lemma X8_witness :
  let run := @_updateChildren leaves 10 0%nat ".r." (Some abc') (world0 abcHeap) in
  recordsFor ".r" (updateQueue (snd run)) = recordsFor ".r" (updateQueue (world0 abcHeap)) /\
  _renderedChildren (heap (snd run) 0%nat)
    = Some [("a", Some 1%nat); ("b", Some 2%nat); ("c", Some 3%nat)] /\
  (forall x, constructor (heap (snd run) x) = constructor (abcHeap x)).
Proof.
  intros run.
  assert (Hid : resolveNodeID (abcHeap 0%nat) ".r." <> "") by (vm_compute; discriminate).
  assert (Hshape : Forall2 (alike abcHeap)
                     [("a", Some 1%nat); ("b", Some 2%nat); ("c", Some 3%nat)] abc')
    by (repeat constructor).
  assert (Hreceive : forall c p, preserves (steady 0%nat (resolveNodeID (abcHeap 0%nat) ".r."))
                                   (@receiveProps leaves c p))
    by (intros c p; apply preserves_ret, steady_refl).
  exact (@X8_same_children_enqueue_nothing leaves 10 0%nat ".r."
           [("a", Some 1%nat); ("b", Some 2%nat); ("c", Some 3%nat)] abc'
           (world0 abcHeap) (fst run) (snd run) Hid eq_refl Hshape NoDup_a_b_c NoDup_1_2_3
           (fun c _ => abcHeap_nonnegative c) Hreceive (surjective_pairing run)).
Defined.

Lemma leaves_unmount_keeps_others S c :
  preserves (keeps_others S c) (@unmountComponent leaves c).
Proof. apply preserves_ret. intros w x _ _. reflexivity. Qed.

Lemma leaves_unmount_no_record nodeID c :
  preserves (no_record_for nodeID) (@unmountComponent leaves c).
Proof. apply preserves_ret. intros w. reflexivity. Qed.

(** Diffing a, b, c against the empty object removes them from the
    positions 0, 1, 2. *)
Lemma X9_witness :
  let w' := snd (@_updateChildren leaves 10 0%nat ".r." (Some []) (world0 abcHeap)) in
  recordsFor ".r" (updateQueue w') =
    recordsFor ".r" (updateQueue (world0 abcHeap)) ++
    removals ".r" abcHeap [1%nat; 2%nat; 3%nat] 0 /\
  (forall k, renderedChild w' 0%nat k = None).
Proof.
  intros w'.
  assert (Hrun : @_updateChildren leaves 10 0%nat ".r." (Some []) (world0 abcHeap)
                 = (Normal tt, w')) by (vm_compute; reflexivity).
  assert (Hid : resolveNodeID (abcHeap 0%nat) ".r." <> "") by (vm_compute; discriminate).
  assert (Hnot : ~ In 0%nat [1%nat; 2%nat; 3%nat])
    by (simpl; intros [H|[H|[H|[]]]]; discriminate).
  assert (Hplain : forall k, In k ["a"; "b"; "c"] ->
                     @inheritedProp leaves (Some []) k = None)
    by (intros k [<-|[<-|[<-|[]]]]; reflexivity).
  exact (@X9_diff_against_nothing_removes_every_child leaves 10 0%nat ".r."
           [("a", Some 1%nat); ("b", Some 2%nat); ("c", Some 3%nat)] (Some [])
           (world0 abcHeap) w' Hid eq_refl eq_refl Hplain NoDup_a_b_c NoDup_1_2_3 Hnot
           (fun _ _ _ => eq_refl) (leaves_unmount_keeps_others _)
           (leaves_unmount_no_record _) Hrun).
Defined.

Lemma leaves_rendered_kept component : @capabilities_preserve leaves (rendered_kept component).
Proof.
  split; [|split]; intros; simpl.
  - intros w r w' H. inversion H; subst. unfold rendered_kept. simpl. unfold upd. split.
    + destruct (Nat.eqb_spec component c) as [->|_]; reflexivity.
    + intros k x _. destruct (Nat.eqb_spec x c) as [->|_]; reflexivity.
  - apply preserves_ret. split; auto.
  - apply preserves_ret. split; auto.
Qed.

Lemma leaves_shape_kept component : @capabilities_preserve leaves (shape_kept component).
Proof.
  split; [|split]; intros; simpl.
  - intros w r w' H. inversion H; subst. unfold shape_kept. simpl. unfold upd. split.
    + destruct (Nat.eqb_spec component c) as [->|_]; reflexivity.
    + intros x. destruct (Nat.eqb_spec x c) as [->|_]; reflexivity.
  - apply preserves_ret. split; auto.
  - apply preserves_ret. split; auto.
Qed.

Lemma NoDup_c_a_b : NoDup ["c"; "a"; "b"].
Proof.
  repeat constructor; simpl; intros H;
    repeat (destruct H as [H|H]; [discriminate|]); exact H.
Qed.

Lemma NoDup_6_4_5 : NoDup [6%nat; 4%nat; 5%nat].
Proof.
  repeat constructor; simpl; intros H;
    repeat (destruct H as [H|H]; [discriminate|]); exact H.
Qed.

(** In the unit-index engine, a, b, c diffed against c, a, b leaves the
    children under c, a, b at 0, 1, 2. *)
Lemma X10_witness :
  let w' :=
    snd (@UnitIndex._updateChildren leaves 0%nat ".r" ".r." (Some cab) (world0 abcHeap)) in
  (exists r, renderedChild w' 0%nat "c" = Some r /\ _mountIndex (heap w' r) = Some 0) /\
  (exists r, renderedChild w' 0%nat "a" = Some r /\ _mountIndex (heap w' r) = Some 1) /\
  (exists r, renderedChild w' 0%nat "b" = Some r /\ _mountIndex (heap w' r) = Some 2).
Proof.
  intros w'.
  assert (Hrun : @UnitIndex._updateChildren leaves 0%nat ".r" ".r." (Some cab)
                   (world0 abcHeap) = (Normal tt, w')) by (vm_compute; reflexivity).
  assert (Hfresh : forall n, In n (childRefs cab) -> ~ In n [1%nat; 2%nat; 3%nat]).
  { simpl. intros n [<-|[<-|[<-|[]]]] [H|[H|[H|[]]]]; discriminate. }
  pose proof (@X10_unit_diff_numbers_the_children leaves 0%nat (leaves_rendered_kept 0%nat)
                ".r" ".r." [("a", Some 1%nat); ("b", Some 2%nat); ("c", Some 3%nat)] cab
                (world0 abcHeap) w' eq_refl NoDup_1_2_3 NoDup_c_a_b NoDup_6_4_5 Hfresh Hrun)
    as H.
  split; [|split]; apply H; simpl; auto.
Defined.

Lemma NoDup_a_x : NoDup ["a"; "x"].
Proof.
  repeat constructor; simpl; intros H;
    repeat (destruct H as [H|H]; [discriminate|]); exact H.
Qed.

(** The child a is reused and the child x is replaced by one of the next
    constructor. *)
Lemma X11_witness :
  let w := world0 (mismatchHeap None) in
  let w' := snd (@_updateChildren leaves 10 0%nat ".r." (Some ax) w) in
  (forall k n, In (k, Some n) ax ->
     exists r, renderedChild w' 0%nat k = Some r /\
               constructor (heap w' r) = constructor (heap w n)) /\
  ((forall c, @isValidComponent leaves c = true) ->
   forall k, @truthyProp leaves (Some ax) k = false -> renderedChild w' 0%nat k = None).
Proof.
  intros w w'.
  assert (Hrun : @_updateChildren leaves 10 0%nat ".r." (Some ax) w = (Normal tt, w'))
    by (vm_compute; reflexivity).
  assert (Hid : resolveNodeID (heap w 0%nat) ".r." <> "") by (vm_compute; discriminate).
  exact (@X11_diff_leaves_the_next_children leaves 0%nat (leaves_shape_kept 0%nat)
           10 ".r." (Some ax) w w' Hid NoDup_a_x Hrun).
Defined.

Lemma brittle_children_kept component c :
  c <> component ->
  (forall rootID, preserves (children_kept component) (@mountComponent brittle c rootID)) /\
  preserves (children_kept component) (@unmountComponent brittle c).
Proof.
  intros Hc. simpl. split; [intros rootID|].
  - destruct (Nat.eqb c 2); [apply preserves_throw, children_kept_refl|].
    intros w r w' H. inversion H; subst. unfold children_kept. simpl.
    rewrite upd_other by (intros E; apply Hc; symmetry; exact E). auto.
  - destruct (Nat.eqb c 2); [apply preserves_throw|apply preserves_ret];
      apply children_kept_refl.
Qed.

(** The child b raises: a has been mounted, or unmounted, and the parent
    is as before. *)
Lemma X12_witness :
  let mounting := @mountChildren brittle 0%nat ".r." (Some ab) (world0 (emptyParent None)) in
  let unmounting := @unmountChildren brittle 0%nat (world0 abcHeap) in
  children_kept 0%nat (world0 (emptyParent None)) (snd mounting) /\
  children_kept 0%nat (world0 abcHeap) (snd unmounting).
Proof.
  intros mounting unmounting.
  assert (H1 : ~ In 0%nat [1%nat; 2%nat]) by (simpl; intros [H|[H|[]]]; discriminate).
  assert (H2 : ~ In 0%nat [1%nat; 2%nat; 3%nat])
    by (simpl; intros [H|[H|[H|[]]]]; discriminate).
  assert (Hm : forall images, fst mounting <> Normal images)
    by (intros images; vm_compute; discriminate).
  assert (Hu : fst unmounting <> Normal tt) by (vm_compute; discriminate).
  split.
  - exact (proj1 (@X12_a_failing_child_leaves_the_parent_as_it_was brittle 0%nat
                    (brittle_children_kept 0%nat))
             ".r." (Some ab) (world0 (emptyParent None)) _ _ H1
             (surjective_pairing mounting) Hm).
  - exact (proj2 (@X12_a_failing_child_leaves_the_parent_as_it_was brittle 0%nat
                    (brittle_children_kept 0%nat))
             (world0 abcHeap) _ _ H2 (surjective_pairing unmounting) Hu).
Defined.

Lemma leaves_siblings_kept component : @capabilities_preserve leaves (siblings_kept component).
Proof.
  split; [|split]; intros; simpl.
  - intros w r w' H. inversion H; subst. unfold siblings_kept. simpl. unfold upd.
    split; [destruct (Nat.eqb_spec component c) as [->|_]; reflexivity|].
    split; [destruct (Nat.eqb_spec component c) as [->|_]; reflexivity|].
    intros k x _. destruct (Nat.eqb_spec x c) as [->|_]; reflexivity.
  - apply preserves_ret. repeat split; auto.
  - apply preserves_ret. repeat split; auto.
Qed.

(** After a, b, c have been diffed against c, a, b the chain is c, a, b. *)
Lemma X13_witness :
  let w' := snd (@_updateChildren leaves 10 0%nat ".r." (Some cab) (world0 abcHeap)) in
  (exists r, renderedChild w' 0%nat "c" = Some r /\
             _previousSibling (heap w' r) = renderedAt w' 0%nat None /\
             (@None string = None -> _firstRenderedChild (heap w' 0%nat) = Some r)) /\
  (exists r, renderedChild w' 0%nat "a" = Some r /\
             _previousSibling (heap w' r) = renderedAt w' 0%nat (Some "c") /\
             (Some "c" = None -> _firstRenderedChild (heap w' 0%nat) = Some r)) /\
  (exists r, renderedChild w' 0%nat "b" = Some r /\
             _previousSibling (heap w' r) = renderedAt w' 0%nat (Some "a") /\
             (Some "a" = None -> _firstRenderedChild (heap w' 0%nat) = Some r)).
Proof.
  intros w'.
  assert (Hrun : @_updateChildren leaves 10 0%nat ".r." (Some cab) (world0 abcHeap)
                 = (Normal tt, w')) by (vm_compute; reflexivity).
  assert (Hid : resolveNodeID (abcHeap 0%nat) ".r." <> "") by (vm_compute; discriminate).
  assert (Hfresh : forall n, In n (childRefs cab) -> ~ In n [1%nat; 2%nat; 3%nat]).
  { simpl. intros n [<-|[<-|[<-|[]]]] [H|[H|[H|[]]]]; discriminate. }
  pose proof (@X13_diff_relinks_the_siblings leaves 0%nat (leaves_siblings_kept 0%nat)
                10 ".r." [("a", Some 1%nat); ("b", Some 2%nat); ("c", Some 3%nat)] cab
                (world0 abcHeap) w' Hid eq_refl NoDup_1_2_3 NoDup_c_a_b NoDup_6_4_5
                Hfresh Hrun) as H.
  split; [|split]; apply H; simpl; auto.
Defined.

(** In the unit-index engine a, b, c at 0, 1, 2 are rendered again. *)
Lemma X14_witness :
  let run :=
    @UnitIndex._updateChildren leaves 0%nat ".r" ".r." (Some abc') (world0 abcNumbered) in
  steady 0%nat ".r" (world0 abcNumbered) (snd run).
Proof.
  intros run.
  assert (Hshape : Forall2 (alike abcNumbered)
                     [("a", Some 1%nat); ("b", Some 2%nat); ("c", Some 3%nat)] abc')
    by (repeat constructor).
  assert (Hidx : forall i c, nth_error [1%nat; 2%nat; 3%nat] i = Some c ->
                   _mountIndex (abcNumbered c) = Some (Z.of_nat i)).
  { intros [|[|[|i]]] c H; simpl in H; inversion H; subst; try reflexivity.
    destruct i; discriminate. }
  assert (Hreceive : forall c p, preserves (steady 0%nat ".r") (@receiveProps leaves c p))
    by (intros c p; apply preserves_ret, steady_refl).
  exact (@X14_unit_same_children_change_nothing leaves 0%nat ".r" Hreceive ".r."
           [("a", Some 1%nat); ("b", Some 2%nat); ("c", Some 3%nat)] abc'
           (world0 abcNumbered) (fst run) (snd run) eq_refl Hshape NoDup_a_b_c Hidx
           (surjective_pairing run)).
Defined.

(** In the run a, x -> a, x where the descriptor for x has another
    constructor, the descriptor is mounted once under [.r.x]. *)
Lemma X15_witness :
  let w := world0 (mismatchHeap None) in
  let w' := snd (@_updateChildren leaves 10 0%nat ".r." (Some ax) w) in
  renderedChild w' 0%nat "x" = Some 5%nat /\
  exists evs,
    trace w' = trace w ++ evs /\
    filter (about 5%nat) evs = [CallMount 5%nat ".r.x"].
Proof.
  intros w w'.
  assert (Hrun : @_updateChildren leaves 10 0%nat ".r." (Some ax) w = (Normal tt, w'))
    by (vm_compute; reflexivity).
  assert (Hprev : forall j,
            getProp [("a", Some 1%nat); ("x", Some 2%nat)] j <> Some 5%nat).
  { intros j. rewrite !getProp_cons.
    destruct (String.eqb "a" j); [discriminate|].
    destruct (String.eqb "x" j); discriminate. }
  assert (Hnext : forall j, j <> "x" -> getProp ax j <> Some 5%nat).
  { intros j Hj. unfold ax. rewrite !getProp_cons.
    destruct (String.eqb "a" j); [discriminate|].
    destruct (String.eqb_spec "x" j); [congruence|discriminate]. }
  exact (@X15_an_inserted_child_is_mounted_once leaves 10 0%nat ".r."
           [("a", Some 1%nat); ("x", Some 2%nat)] ax "x" 5%nat w w'
           (leaves_quiet_about 0%nat 5%nat)
           eq_refl eq_refl NoDup_a_x eq_refl eq_refl Hprev Hnext Hrun).
Defined.

(** In the run a, b, c -> a the child b is unmounted once and its key is
    left empty. *)
Lemma X16_witness :
  let w := world0 abcHeap in
  let w' := snd (@_updateChildren leaves 10 0%nat ".r." (Some [("a", Some 4%nat)]) w) in
  renderedChild w' 0%nat "b" = None /\
  exists evs,
    trace w' = trace w ++ evs /\
    filter (about 2%nat) evs = [CallUnmount 2%nat].
Proof.
  intros w w'.
  assert (Hrun : @_updateChildren leaves 10 0%nat ".r." (Some [("a", Some 4%nat)]) w
                 = (Normal tt, w')) by (vm_compute; reflexivity).
  assert (Hnd : NoDup (keys [("a", Some 4%nat)])).
  { simpl. repeat constructor. intros []. }
  assert (Hprev : forall j, j <> "b" ->
            getProp [("a", Some 1%nat); ("b", Some 2%nat); ("c", Some 3%nat)] j <> Some 2%nat).
  { intros j Hj. rewrite !getProp_cons.
    destruct (String.eqb "a" j); [discriminate|].
    destruct (String.eqb_spec "b" j); [congruence|].
    destruct (String.eqb "c" j); discriminate. }
  assert (Hnext : forall j, getProp [("a", Some 4%nat)] j <> Some 2%nat).
  { intros j. rewrite !getProp_cons. destruct (String.eqb "a" j); discriminate. }
  exact (@X16_an_absent_child_is_unmounted_once leaves 10 0%nat ".r."
           [("a", Some 1%nat); ("b", Some 2%nat); ("c", Some 3%nat)] [("a", Some 4%nat)]
           "b" 2%nat w w' (leaves_quiet_about 0%nat 2%nat) (fun _ => eq_refl)
           eq_refl eq_refl Hnd eq_refl Hprev eq_refl Hnext Hrun).
Defined.
